(** * Resilient routing: shortest-path algorithms and their resilience wrappers

    A shallow embedding of the Python sources

    - [greenfield_v2/src/core/graph.py], [core/algorithms/*.py],
      [core/validator.py], [resilience/*.py], [routing.py],
    - [Claude-haiku-4.5/src/routing_v2.py],
    - [oswe-mini-secondary/src/routing_service/{graph,algorithms}.py],
    - [oswe-large-rapd-m4s90/src/services/state_machine.py],
    - [raptor-secondary/src/raptor_secondary/services/state_machine.py],
      [infra/circuit_breaker.py],

    followed by the properties stated about them.

    Modelling conventions.
    - Edge weights are Python ints ([Z]). The code that adds weights up is
      given twice. Modules [BellmanFord], [Dijkstra], [ResultValidator],
      [RoutingService] and [RoutingV2] compute with exact integer costs
      ([Inf] of [ext] being the floating infinity); they carry the graph
      theory. Modules [BellmanFord64], [Dijkstra64], [ResultValidator64],
      [RoutingService64], [RoutingV2_64] and [RoutingEngine64] compute as
      the code does, in IEEE 754 double precision ([Double]), with
      [OverflowError] for an integer too large for a double. On graphs
      whose sums stay below [2^53] the two agree ([bellman_ford64_exact],
      [dijkstra64_exact], [validate_path64_exact],
      [second_dijkstra64_exact], [v2_has_negative_cycle64]); beyond that
      the doubles round and overflow.
    - A Python [dict] that is iterated (the adjacency of a graph) is an
      association list in insertion order; a [dict] or [set] that is only
      looked up by key ([dist], [prev], [visited], the cache store) is a
      stdpp [gmap] / [gset].
    - Exceptions are values of the inductive type [exn]; a function that
      may raise returns a [result].
    - Wall-clock readings ([time.time()]) are explicit arguments.
    - Logging and metrics calls have no effect on results and are left out. *)

From stdpp Require Import base option list strings gmap sorting.
From Stdlib Require Import ZArith Lia.
From Stdlib Require Import Floats.SpecFloat.

Open Scope string_scope.
Open Scope list_scope.
Open Scope Z_scope.

(** ** Extended numbers: a finite value or [float("inf")] *)

Inductive ext : Type :=
| Fin (z : Z)
| Inf.

(** [x + w] for a finite weight [w]. *)
Definition ext_add (x : ext) (w : Z) : ext :=
  match x with
  | Fin a => Fin (a + w)
  | Inf => Inf
  end.

(** [x < y] on floats restricted to finite values and [+inf]. *)
Definition ext_ltb (x y : ext) : bool :=
  match x, y with
  | Fin a, Fin b => a <? b
  | Fin _, Inf => true
  | Inf, _ => false
  end.

Definition ext_eqb (x y : ext) : bool :=
  match x, y with
  | Fin a, Fin b => a =? b
  | Inf, Inf => true
  | _, _ => false
  end.

(** ** Exceptions and results *)

Inductive value_error : Type :=
| NegativeWeights (min_weight : Z)   (* "Dijkstra requires non-negative weights" *)
| NoPathExists (start goal : string) (* "No path exists from .. to .." *)
| UnknownAlgorithm (hint : string).  (* "Unknown algorithm: .." *)

Inductive graph_error : Type :=
| NodeNotFound (node : string)       (* "Node '..' not found in graph" *)
| MalformedPayload.                  (* raised while loading a graph *)

Inductive exn : Type :=
| GraphValidationError (why : graph_error)
| NegativeCycleError (cycle : list string) (cycle_cost : Z)
| ValueError (why : value_error)
| ValidationError                             (* result validator *)
| TimeoutError
| CircuitBreakerOpenError
| IOError
| TransientError
| OtherException.

Inductive result (A : Type) : Type :=
| Ok (a : A)
| Raise (e : exn).
Arguments Ok {A} a.
Arguments Raise {A} e.

Definition bind {A B} (r : result A) (k : A -> result B) : result B :=
  match r with
  | Ok a => k a
  | Raise e => Raise e
  end.

Notation "'do' x <- r 'in' k" := (bind r (fun x => k))
  (at level 10, x name, r at level 100, k at level 200).

(** ** [core/graph.py]: the graph *)

Module Graph.

(** [_adj : Dict[str, Dict[str, float]]], both levels in insertion order. *)
Definition t := list (string * list (string * Z)).

Definition empty : t := [].

(** Python [k in d]. *)
Definition mem {V} (k : string) (d : list (string * V)) : bool :=
  existsb (fun kv => String.eqb (fst kv) k) d.

(** Python [d.get(k)]. *)
Fixpoint get {V} (d : list (string * V)) (k : string) : option V :=
  match d with
  | [] => None
  | (k', v) :: d' => if String.eqb k' k then Some v else get d' k
  end.

(** Python [d[k] = v]: overwrite in place, or append a new key. *)
Fixpoint set {V} (d : list (string * V)) (k : string) (v : V) : list (string * V) :=
  match d with
  | [] => [(k, v)]
  | (k', v') :: d' =>
      if String.eqb k' k then (k', v) :: d' else (k', v') :: set d' k v
  end.

Definition add_edge (g : t) (source target : string) (weight : Z) : t :=
  let g1 := if mem source g then g else set g source [] in
  let g2 := set g1 source (set (default [] (get g1 source)) target weight) in
  if mem target g2 then g2 else set g2 target [].

Definition neighbors (g : t) (node : string) : list (string * Z) :=
  default [] (get g node).

Definition nodes (g : t) : list string := map fst g.

Definition edges (g : t) : list (string * string * Z) :=
  flat_map (fun sn => map (fun tw => (fst sn, fst tw, snd tw)) (snd sn)) g.

Definition has_negative_weights (g : t) : bool :=
  existsb (fun e => snd e <? 0) (edges g).

Definition min_weight (g : t) : Z :=
  match map snd (edges g) with
  | [] => 0
  | w :: ws => fold_left Z.min ws w
  end.

Definition from_edge_list (es : list (string * string * Z)) : t :=
  fold_left (fun g e => add_edge g (fst (fst e)) (snd (fst e)) (snd e)) es empty.

Definition validate_nodes_exist (g : t) (ns : list string) : result unit :=
  fold_left
    (fun r n =>
       do _ <- r in
       if bool_decide (n ∈ nodes g) then Ok tt else Raise (GraphValidationError (NodeNotFound n)))
    ns (Ok tt).

End Graph.

(** ** [core/algorithms/bellman_ford.py] *)

Module BellmanFord.

Abbreviation dist_map := (gmap string ext).
Abbreviation prev_map := (gmap string (option string)).

(** [dist[k]]; every key read by the algorithm is a node of the graph
    (see [distances_cover_nodes]), so the default is never used. *)
Definition at_ (dist : dist_map) (k : string) : ext := default Inf (dist !! k).

Definition relaxable (dist : dist_map) (e : string * string * Z) : bool :=
  let '(source, target, weight) := e in
  ext_ltb (ext_add (at_ dist source) weight) (at_ dist target).

(** Body of the inner [for source, target, weight in graph.edges()]. *)
Definition relax_edge (st : dist_map * prev_map * bool) (e : string * string * Z)
  : dist_map * prev_map * bool :=
  let '(dist, prev, updated) := st in
  let '(source, target, weight) := e in
  if relaxable dist e
  then (<[target := ext_add (at_ dist source) weight]> dist,
        <[target := Some source]> prev,
        true)
  else st.

Definition relax_pass (es : list (string * string * Z)) (dist : dist_map) (prev : prev_map)
  : dist_map * prev_map * bool :=
  fold_left relax_edge es (dist, prev, false).

(** [for _ in range(n - 1)] with the early [break]. *)
Fixpoint relax_loop (k : nat) (es : list (string * string * Z))
         (dist : dist_map) (prev : prev_map) : dist_map * prev_map :=
  match k with
  | O => (dist, prev)
  | S k' =>
      let '(dist', prev', updated) := relax_pass es dist prev in
      if updated then relax_loop k' es dist' prev' else (dist', prev')
  end.

(** The inner [for s, t, w in graph.edges(): if t == current and
    dist[s] + w == dist[current]: current = s; break]. *)
Definition find_predecessor (es : list (string * string * Z)) (dist : dist_map)
           (current : string) : string :=
  match find (fun e => let '(s, t, w) := e in
                       String.eqb t current && ext_eqb (ext_add (at_ dist s) w) (at_ dist current)) es with
  | Some (s, _, _) => s
  | None => current
  end.

(** The [while current not in visited and len(cycle) < len(dist)] loop.
    [room] is [len(dist) - len(cycle)], which drops by one per iteration. *)
Fixpoint walk_back (room : nat) (es : list (string * string * Z)) (dist : dist_map)
         (cycle : list string) (visited : gset string) (current : string) : list string :=
  match room with
  | O => cycle
  | S room' =>
      if bool_decide (current ∈ visited) then cycle
      else walk_back room' es dist (cycle ++ [current]) ({[current]} ∪ visited)
                     (find_predecessor es dist current)
  end.

(** [for i in range(len(cycle) - 1)]: add the weight of the first edge
    [cycle[i] -> cycle[i+1]], if there is one. *)
Fixpoint cycle_cost_of (es : list (string * string * Z)) (cycle : list string) : Z :=
  match cycle with
  | a :: ((b :: _) as rest) =>
      match find (fun e => let '(s, t, w) := e in String.eqb s a && String.eqb t b) es with
      | Some (_, _, w) => w + cycle_cost_of es rest
      | None => cycle_cost_of es rest
      end
  | _ => 0
  end.

Definition _detect_negative_cycle (g : Graph.t) (dist : dist_map)
  : option (list string * Z) :=
  let es := Graph.edges g in
  match find (relaxable dist) es with
  | Some (source, target, _) =>
      let cycle := walk_back (size dist - 1) es dist [target] {[target]} source in
      Some (rev cycle, cycle_cost_of es cycle)
  | None => None
  end.

(** [while node is not None: path.append(node); node = prev.get(node)].
    [fuel] bounds the number of iterations; [None] means the bound was hit. *)
Fixpoint chain (fuel : nat) (prev : prev_map) (node : string) : option (list string) :=
  match fuel with
  | O => None
  | S fuel' =>
      match prev !! node with
      | Some (Some p) => option_map (cons node) (chain fuel' prev p)
      | _ => Some [node]
      end
  end.

Definition _reconstruct_path (fuel : nat) (prev : prev_map) (goal : string)
  : option (list string) :=
  option_map (@rev string) (chain fuel prev goal).

Definition init_dist (ns : list string) (start : string) : dist_map :=
  <[start := Fin 0]> (fold_right (fun n d => <[n := Inf]> d) ∅ ns).

Definition init_prev (ns : list string) : prev_map :=
  fold_right (fun n p => <[n := None]> p) ∅ ns.

(** [BellmanFordAlgorithm.compute]. The outer [option] is [None] only if
    path reconstruction did not finish within [S (length nodes)] steps. *)
Definition compute (g : Graph.t) (start goal : string)
  : option (result (list string * Z)) :=
  match Graph.validate_nodes_exist g [start; goal] with
  | Raise e => Some (Raise e)
  | Ok _ =>
      let ns := Graph.nodes g in
      let n := length ns in
      let '(dist, prev) :=
        relax_loop (n - 1) (Graph.edges g) (init_dist ns start) (init_prev ns) in
      match _detect_negative_cycle g dist with
      | Some (cycle, cycle_cost) => Some (Raise (NegativeCycleError cycle cycle_cost))
      | None =>
          match at_ dist goal with
          | Inf => Some (Raise (ValueError (NoPathExists start goal)))
          | Fin d =>
              option_map (fun p => Ok (p, d)) (_reconstruct_path (S n) prev goal)
          end
      end
  end.

Definition name : string := "bellman_ford".

End BellmanFord.

(** ** [core/algorithms/dijkstra.py] *)

Module Dijkstra.

Abbreviation dist_map := (gmap string Z).
Abbreviation prev_map := (gmap string (option string)).

(** The [heapq] priority queue holds [(cost, node)] tuples; only the
    multiset of entries and the tuple order are observable. *)
Definition heap := list (Z * string).

(** Python tuple comparison [a <= b] on [(float, str)]. *)
Definition tuple_leb (a b : Z * string) : bool :=
  (fst a <? fst b) || ((fst a =? fst b) && String.leb (snd a) (snd b)).

Definition heap_min (x : Z * string) (h : heap) : Z * string :=
  fold_left (fun m y => if tuple_leb m y then m else y) h x.

Fixpoint remove_first (x : Z * string) (h : heap) : heap :=
  match h with
  | [] => []
  | y :: h' => if bool_decide (y = x) then h' else y :: remove_first x h'
  end.

Definition heappush (h : heap) (x : Z * string) : heap := x :: h.

Definition heappop (h : heap) : option (Z * string * heap) :=
  match h with
  | [] => None
  | x :: h' => let m := heap_min x h' in Some (m, remove_first m h)
  end.

(** Body of [for neighbor, weight in graph.neighbors(node).items()]. *)
Definition relax_neighbor (node : string) (cost : Z) (visited : gset string)
           (st : dist_map * prev_map * heap) (nw : string * Z)
  : dist_map * prev_map * heap :=
  let '(dist, prev, h) := st in
  let '(neighbor, weight) := nw in
  if bool_decide (neighbor ∈ visited) then st
  else
    let new_cost := cost + weight in
    let better := match dist !! neighbor with
                  | Some d => new_cost <? d
                  | None => true
                  end in
    if better
    then (<[neighbor := new_cost]> dist, <[neighbor := Some node]> prev,
          heappush h (new_cost, neighbor))
    else st.

(** The [while heap:] loop. [fuel] bounds the number of pops; the outer
    [None] means the bound was hit. *)
Fixpoint loop (fuel : nat) (g : Graph.t) (start goal : string)
         (dist : dist_map) (prev : prev_map) (h : heap) (visited : gset string)
  : option (result (list string * Z)) :=
  match fuel with
  | O => None
  | S fuel' =>
      match heappop h with
      | None => Some (Raise (ValueError (NoPathExists start goal)))
      | Some ((cost, node), h') =>
          if bool_decide (node ∈ visited)
          then loop fuel' g start goal dist prev h' visited
          else
            let visited' := {[node]} ∪ visited in
            if String.eqb node goal
            then option_map (fun p => Ok (p, cost))
                   (BellmanFord._reconstruct_path (S (length (Graph.nodes g))) prev goal)
            else
              let '(dist', prev', h'') :=
                fold_left (relax_neighbor node cost visited') (Graph.neighbors g node)
                          (dist, prev, h') in
              loop fuel' g start goal dist' prev' h'' visited'
      end
  end.

(** [DijkstraAlgorithm.compute]; every pop either discards a stale entry
    or finalises a node, so [2 + |E|] pops always suffice
    (see [dijkstra_terminates]). *)
Definition compute (g : Graph.t) (start goal : string)
  : option (result (list string * Z)) :=
  if Graph.has_negative_weights g
  then Some (Raise (ValueError (NegativeWeights (Graph.min_weight g))))
  else
    match Graph.validate_nodes_exist g [start; goal] with
    | Raise e => Some (Raise e)
    | Ok _ =>
        loop (2 + length (Graph.edges g)) g start goal
             {[start := 0]} {[start := None]} [(0, start)] ∅
    end.

Definition name : string := "dijkstra".

End Dijkstra.

(** ** [core/algorithms/selector.py] *)

Inductive algorithm : Type := UseDijkstra | UseBellmanFord.

Definition algorithm_name (a : algorithm) : string :=
  match a with
  | UseDijkstra => Dijkstra.name
  | UseBellmanFord => BellmanFord.name
  end.

Definition algorithm_compute (a : algorithm) : Graph.t -> string -> string -> option (result (list string * Z)) :=
  match a with
  | UseDijkstra => Dijkstra.compute
  | UseBellmanFord => BellmanFord.compute
  end.

Module AlgorithmSelector.

Definition select (g : Graph.t) (algorithm_hint : string) : result algorithm :=
  if String.eqb algorithm_hint "dijkstra" then Ok UseDijkstra
  else if String.eqb algorithm_hint "bellman_ford" then Ok UseBellmanFord
  else if String.eqb algorithm_hint "auto" then
    if Graph.has_negative_weights g then Ok UseBellmanFord else Ok UseDijkstra
  else Raise (ValueError (UnknownAlgorithm algorithm_hint)).

End AlgorithmSelector.

(** ** [core/validator.py] *)

Module ResultValidator.

(** The [for i in range(len(path) - 1)] loop; [None] when an edge is missing. *)
Fixpoint actual_cost (g : Graph.t) (path : list string) : option Z :=
  match path with
  | source :: ((target :: _) as rest) =>
      match Graph.get (Graph.neighbors g source) target with
      | Some w => option_map (Z.add w) (actual_cost g rest)
      | None => None
      end
  | _ => Some 0
  end.

(** Costs are exact here, so the tolerance test [abs(actual - expected) > 1e-6]
    is [actual <> expected]. *)
Definition validate_path (g : Graph.t) (path : list string) (expected_cost : Z)
  : result unit :=
  if (length path <? 2)%nat then Raise ValidationError
  else
    match actual_cost g path with
    | None => Raise ValidationError
    | Some c => if c =? expected_cost then Ok tt else Raise ValidationError
    end.

End ResultValidator.

(** ** [resilience/cache.py] *)

Section IdempotencyCache.

(** [hashlib.sha256(s.encode()).hexdigest()], an external library function. *)
Variable sha256_hexdigest : string -> string.

(** The type of cached results. *)
Context {A : Type}.

Record CacheEntry : Type := {
  entry_request_id : string;
  entry_result : A;
  timestamp : Z;
  ttl : Z;
}.

(** [time.time() - self.timestamp > self.ttl] *)
Definition is_expired (now : Z) (e : CacheEntry) : bool :=
  ttl e <? now - timestamp e.

Record IdempotencyCache : Type := {
  maxsize : Z;
  default_ttl : Z;
  _cache : gmap string CacheEntry;
  _access_order : list string;
}.

Definition new_cache (maxsize default_ttl : Z) : IdempotencyCache :=
  {| maxsize := maxsize; default_ttl := default_ttl; _cache := ∅; _access_order := [] |}.

(** [sorted(kwargs.items())]: insertion sort on the keyword names. *)
Fixpoint insert_sorted (kv : string * string) (l : list (string * string))
  : list (string * string) :=
  match l with
  | [] => [kv]
  | kv' :: l' =>
      if String.leb (fst kv) (fst kv') then kv :: l else kv' :: insert_sorted kv l'
  end.

Definition sorted_items (kwargs : list (string * string)) : list (string * string) :=
  fold_right insert_sorted [] kwargs.

(** ["|".join(key_parts)] *)
Fixpoint join_bar (parts : list string) : string :=
  match parts with
  | [] => ""
  | [x] => x
  | x :: rest => x +:+ "|" +:+ join_bar rest
  end.

Definition _make_key (request_id : string) (args : list string)
           (kwargs : list (string * string)) : string :=
  let key_parts :=
    (request_id :: args ++ map (fun kv => fst kv +:+ "=" +:+ snd kv) (sorted_items kwargs))%list in
  sha256_hexdigest (join_bar key_parts).

(** [list.remove(x)]: drops the first occurrence. (Python raises when [x]
    is absent; the store and the order list hold the same keys, see
    [cache_inv], so that case does not arise.) *)
Fixpoint list_remove (x : string) (l : list string) : list string :=
  match l with
  | [] => []
  | y :: l' => if String.eqb y x then l' else y :: list_remove x l'
  end.

(** [get], on the key already computed by [_make_key]. *)
Definition get_key (now : Z) (c : IdempotencyCache) (cache_key : string)
  : option A * IdempotencyCache :=
  match _cache c !! cache_key with
  | Some entry =>
      if is_expired now entry
      then (None,
            {| maxsize := maxsize c; default_ttl := default_ttl c;
               _cache := delete cache_key (_cache c);
               _access_order := list_remove cache_key (_access_order c) |})
      else (Some (entry_result entry),
            {| maxsize := maxsize c; default_ttl := default_ttl c;
               _cache := _cache c;
               _access_order := (list_remove cache_key (_access_order c) ++ [cache_key])%list |})
  | None => (None, c)
  end.

Definition get (now : Z) (c : IdempotencyCache) (request_id : string)
           (args : list string) (kwargs : list (string * string))
  : option A * IdempotencyCache :=
  get_key now c (_make_key request_id args kwargs).

Definition _evict_lru (c : IdempotencyCache) : IdempotencyCache :=
  match _access_order c with
  | [] => c
  | lru_key :: rest =>
      {| maxsize := maxsize c; default_ttl := default_ttl c;
         _cache := delete lru_key (_cache c);
         _access_order := rest |}
  end.

(** [ttl or self.default_ttl] *)
Definition effective_ttl (c : IdempotencyCache) (ttl : option Z) : Z :=
  match ttl with
  | Some t => if t =? 0 then default_ttl c else t
  | None => default_ttl c
  end.

Definition put_key (now : Z) (c : IdempotencyCache) (cache_key request_id : string)
           (result : A) (ttl : option Z) : IdempotencyCache :=
  let c1 :=
    if (maxsize c <=? Z.of_nat (size (_cache c))) && negb (bool_decide (is_Some (_cache c !! cache_key)))
    then _evict_lru c else c in
  let entry := {| entry_request_id := request_id; entry_result := result;
                  timestamp := now; ttl := effective_ttl c ttl |} in
  {| maxsize := maxsize c1; default_ttl := default_ttl c1;
     _cache := <[cache_key := entry]> (_cache c1);
     _access_order :=
       ((if bool_decide (cache_key ∈ _access_order c1)
         then list_remove cache_key (_access_order c1)
         else _access_order c1) ++ [cache_key])%list |}.

Definition put (now : Z) (c : IdempotencyCache) (request_id : string) (result : A)
           (ttl : option Z) (args : list string) (kwargs : list (string * string))
  : IdempotencyCache :=
  put_key now c (_make_key request_id args kwargs) request_id result ttl.

End IdempotencyCache.

Arguments CacheEntry : clear implicits.
Arguments IdempotencyCache : clear implicits.

(** ** [resilience/circuit_breaker.py] *)

Inductive CircuitState : Type := CLOSED | OPEN | HALF_OPEN.

Record CircuitBreaker : Type := {
  failure_threshold : Z;
  timeout_duration : Z;
  expected_exceptions : exn -> bool;
  failure_count : Z;
  last_failure_time : option Z;
  state : CircuitState;
}.

Definition new_breaker (failure_threshold timeout_duration : Z) (expected : exn -> bool)
  : CircuitBreaker :=
  {| failure_threshold := failure_threshold; timeout_duration := timeout_duration;
     expected_exceptions := expected;
     failure_count := 0; last_failure_time := None; state := CLOSED |}.

Definition set_state (cb : CircuitBreaker) (s : CircuitState) : CircuitBreaker :=
  {| failure_threshold := failure_threshold cb; timeout_duration := timeout_duration cb;
     expected_exceptions := expected_exceptions cb;
     failure_count := failure_count cb; last_failure_time := last_failure_time cb;
     state := s |}.

Definition _should_attempt_reset (now : Z) (cb : CircuitBreaker) : bool :=
  match last_failure_time cb with
  | Some t => timeout_duration cb <=? now - t
  | None => false
  end.

Definition _on_success (cb : CircuitBreaker) : CircuitBreaker :=
  match state cb with
  | HALF_OPEN =>
      {| failure_threshold := failure_threshold cb; timeout_duration := timeout_duration cb;
         expected_exceptions := expected_exceptions cb;
         failure_count := 0; last_failure_time := last_failure_time cb;
         state := CLOSED |}
  | _ => cb
  end.

Definition _on_failure (now : Z) (cb : CircuitBreaker) : CircuitBreaker :=
  let count := failure_count cb + 1 in
  {| failure_threshold := failure_threshold cb; timeout_duration := timeout_duration cb;
     expected_exceptions := expected_exceptions cb;
     failure_count := count; last_failure_time := Some now;
     state := match state cb with
              | HALF_OPEN => OPEN
              | s => if failure_threshold cb <=? count then OPEN else s
              end |}.

Section World.

(** The environment in which calls run: it carries the wall clock and
    whatever state the wrapped callables keep. *)
Context {W : Type}.
Variable clock : W -> Z.

(** [CircuitBreaker.call(func)]. The wrapped callable acts on the world, so
    a call that is not dispatched leaves the world as it was. *)
Definition call {A} (cb : CircuitBreaker) (func : W -> result A * W) (w : W)
  : result A * CircuitBreaker * W :=
  let entry :=
    match state cb with
    | OPEN => if _should_attempt_reset (clock w) cb
              then Ok (set_state cb HALF_OPEN)
              else Raise CircuitBreakerOpenError
    | _ => Ok cb
    end in
  match entry with
  | Raise e => (Raise e, cb, w)
  | Ok cb1 =>
      let '(r, w1) := func w in
      match r with
      | Ok a => (Ok a, _on_success cb1, w1)
      | Raise e =>
          if expected_exceptions cb1 e
          then (Raise e, _on_failure (clock w1) cb1, w1)
          else (Raise e, cb1, w1)
      end
  end.

(** [time.sleep(seconds)] *)
Variable sleep : Z -> W -> W.

(** ** [resilience/retry.py]: the [wrapper] produced by [retry(...)]. *)
Fixpoint retry_loop {S A} (remaining : nat) (wait_time backoff_multiplier max_wait : Z)
         (exceptions : exn -> bool) (lift_sleep : Z -> S -> S)
         (func : S -> result A * S) (s : S) : result A * S :=
  match remaining with
  | O => (Raise OtherException, s)     (* RuntimeError("Retry logic error") *)
  | S remaining' =>
      let '(r, s1) := func s in
      match r with
      | Ok a => (Ok a, s1)
      | Raise e =>
          if exceptions e
          then match remaining' with
               | O => (Raise e, s1)
               | _ => retry_loop remaining' (Z.min (wait_time * backoff_multiplier) max_wait)
                        backoff_multiplier max_wait exceptions lift_sleep func
                        (lift_sleep wait_time s1)
               end
          else (Raise e, s1)
      end
  end.

End World.

(** ** [routing.py]: the routing engine *)

Record RouteRequest : Type := {
  request_id : string;
  graph_id : string;
  start_node : string;
  goal_node : string;
  algorithm_hint : string;     (* default "auto" *)
  timeout_ms : Z;              (* default 5000 *)
  validate_result : bool;      (* default True *)
}.

(** [metadata]; the measured [computation_time_ms] is not modelled. *)
Record Metadata : Type := {
  algorithm_used : string;
  graph_nodes : nat;
  graph_edges : nat;
  cache_hit : bool;
}.

(** [error]: the code and, for a negative cycle, [details]; the message
    text is not modelled. *)
Record ErrorInfo : Type := {
  code : string;
  details : option (list string * Z);
}.

Record RouteResponse : Type := {
  response_request_id : string;
  status : string;
  path : option (list string);
  cost : option Z;
  metadata : option Metadata;
  error : option ErrorInfo;
}.

Section RoutingEngine.

Variable sha256_hexdigest : string -> string.
Context {W : Type}.
Variable clock : W -> Z.
Variable sleep : Z -> W -> W.
(** Whether the interval timer that [with timeout(timeout_ms / 1000.0, ..)]
    arms goes off before the guarded computation has finished; the first
    argument is the request's [timeout_ms]. *)
Variable alarm_fires : Z -> W -> bool.

Record RoutingEngine : Type := {
  cache : IdempotencyCache RouteResponse;
  circuit_breaker : CircuitBreaker;
  _graph_loader : string -> W -> result Graph.t * W;
}.

Definition loader_failures (e : exn) : bool :=
  match e with
  | GraphValidationError _ | IOError => true
  | _ => false
  end.

(** [RoutingEngine.__init__]; durations are in seconds, as in the source. *)
Definition new_engine (graph_loader_func : string -> W -> result Graph.t * W)
  : RoutingEngine :=
  {| cache := new_cache 1000 300;
     circuit_breaker := new_breaker 5 60 loader_failures;
     _graph_loader := graph_loader_func |}.

Definition retryable (e : exn) : bool :=
  match e with
  | IOError | TransientError => true
  | _ => false
  end.

(** [_load_graph_resilient]: [@retry(max_attempts=3, initial_wait=1.0,
    backoff_multiplier=2.0, max_wait=10.0, exceptions=(IOError, TransientError))]
    around [self.circuit_breaker.call(self._graph_loader, graph_id)]. *)
Definition _load_graph_resilient (eng : RoutingEngine) (graph_id : string) (w : W)
  : result Graph.t * (CircuitBreaker * W) :=
  retry_loop 3 1 2 10 retryable
    (fun secs s => (fst s, sleep secs (snd s)))
    (fun s => let '(r, cb, w') := call clock (fst s) (_graph_loader eng graph_id) (snd s) in
              (r, (cb, w')))
    (circuit_breaker eng, w).

Definition _error_response (request : RouteRequest) (status error_code : string)
           (details : option (list string * Z)) : RouteResponse :=
  {| response_request_id := request_id request;
     status := status;
     path := None; cost := None; metadata := None;
     error := Some {| code := error_code; details := details |} |}.

(** The [except] clauses of [compute_route], in source order. *)
Definition handle_exception (request : RouteRequest) (e : exn) : RouteResponse :=
  match e with
  | NegativeCycleError cycle cycle_cost =>
      _error_response request "error" "NEGATIVE_CYCLE_DETECTED" (Some (cycle, cycle_cost))
  | TimeoutError => _error_response request "timeout" "COMPUTATION_TIMEOUT" None
  | CircuitBreakerOpenError => _error_response request "error" "CIRCUIT_BREAKER_OPEN" None
  | GraphValidationError _ => _error_response request "error" "INVALID_GRAPH" None
  | ValidationError => _error_response request "error" "INVALID_RESULT" None
  | ValueError _ => _error_response request "error" "INVALID_INPUT" None
  | IOError | TransientError | OtherException =>
      _error_response request "error" "INTERNAL_ERROR" None
  end.

(** The longest time [signal.setitimer] accepts, in milliseconds: CPython
    keeps the time as a signed 64-bit count of nanoseconds. *)
Definition timer_limit_ms : Z := 9223372036854.

(** [with timeout(timeout_ms / 1000.0, ..): path, cost = algorithm.compute(..)].
    The timer is armed before the body runs: [signal.setitimer] raises
    [ItimerError] (an [OSError]) for a negative time and [OverflowError]
    for one beyond [timer_limit_ms], and the body is not run at all. A
    time of [0] arms no timer. Once armed, the alarm interrupts a
    computation that is still running when it goes off, in particular one
    that would never finish. (The exact algorithms always finish on the
    graphs [add_edge] builds; [RoutingEngine64.with_timeout] keeps the
    case of a body that does not.) *)
Definition with_timeout {A} (timeout_ms : Z) (w : W) (body : option (result A)) : result A :=
  if timeout_ms <? 0 then Raise IOError
  else if timer_limit_ms <? timeout_ms then Raise OtherException
  else
    match body with
    | None => Raise TimeoutError
    | Some r =>
        if negb (timeout_ms =? 0) && alarm_fires timeout_ms w then Raise TimeoutError else r
    end.

Definition request_kwargs (request : RouteRequest) : list (string * string) :=
  [("graph_id", graph_id request);
   ("start_node", start_node request);
   ("goal_node", goal_node request)].

(** The fingerprint under which [compute_route] looks a request up and stores it. *)
Definition request_key (request : RouteRequest) : string :=
  _make_key sha256_hexdigest (request_id request) [] (request_kwargs request).

Definition mark_cache_hit (r : RouteResponse) (m : Metadata) : RouteResponse :=
  {| response_request_id := response_request_id r; status := status r;
     path := path r; cost := cost r;
     metadata := Some {| algorithm_used := algorithm_used m; graph_nodes := graph_nodes m;
                         graph_edges := graph_edges m; cache_hit := true |};
     error := error r |}.

(** The cached response object is shared with the store, so setting its
    [cache_hit] flag also changes the stored entry. *)
Definition store_result (c : IdempotencyCache RouteResponse) (key : string)
           (r : RouteResponse) : IdempotencyCache RouteResponse :=
  {| maxsize := maxsize c; default_ttl := default_ttl c;
     _cache := alter (fun e => {| entry_request_id := entry_request_id e; entry_result := r;
                                  timestamp := timestamp e; ttl := ttl e |}) key (_cache c);
     _access_order := _access_order c |}.

(** Steps 2-5 of [compute_route], after a cache miss. *)
Definition compute_fresh (request : RouteRequest) (loaded : result Graph.t) (w : W)
  : result RouteResponse :=
  do g <- loaded in
  do _ <- Graph.validate_nodes_exist g [start_node request; goal_node request] in
  do algorithm <- AlgorithmSelector.select g (algorithm_hint request) in
  do pc <- with_timeout (timeout_ms request) w
             (algorithm_compute algorithm g (start_node request) (goal_node request)) in
  do _ <- (if validate_result request
           then ResultValidator.validate_path g (fst pc) (snd pc) else Ok tt) in
  Ok {| response_request_id := request_id request;
        status := "success";
        path := Some (fst pc);
        cost := Some (snd pc);
        metadata := Some {| algorithm_used := algorithm_name algorithm;
                            graph_nodes := length (Graph.nodes g);
                            graph_edges := length (Graph.edges g);
                            cache_hit := false |};
        error := None |}.

Definition compute_route (eng : RoutingEngine) (request : RouteRequest) (w : W)
  : RouteResponse * RoutingEngine * W :=
  let '(cached, cache1) :=
    get sha256_hexdigest (clock w) (cache eng) (request_id request) [] (request_kwargs request) in
  match cached with
  | Some cached_result =>
      match metadata cached_result with
      | Some m =>
          let r := mark_cache_hit cached_result m in
          (r,
           {| cache := store_result cache1 (request_key request) r;
              circuit_breaker := circuit_breaker eng;
              _graph_loader := _graph_loader eng |},
           w)
      | None =>
          (handle_exception request OtherException,
           {| cache := cache1; circuit_breaker := circuit_breaker eng;
              _graph_loader := _graph_loader eng |},
           w)
      end
  | None =>
      let '(loaded, (cb1, w1)) := _load_graph_resilient eng (graph_id request) w in
      match compute_fresh request loaded w1 with
      | Ok response =>
          (response,
           {| cache := put sha256_hexdigest (clock w1) cache1 (request_id request) response None
                         [] (request_kwargs request);
              circuit_breaker := cb1;
              _graph_loader := _graph_loader eng |},
           w1)
      | Raise e =>
          (handle_exception request e,
           {| cache := cache1; circuit_breaker := cb1; _graph_loader := _graph_loader eng |},
           w1)
      end
  end.

End RoutingEngine.

(** ** [oswe-mini-secondary/src/routing_service]: the second Dijkstra

    [graph.py] there builds the same adjacency structure as [Graph.add_edge]
    (weights pass through [float(..)]), so [Graph.t] is reused. *)

Module RoutingService.

Inductive error : Type :=
| ValidationError_negative   (* ValidationError("graph contains negative weight(s), ..") *)
| LookupError_no_path.       (* LookupError("No path found from .. to ..") *)

(** [Graph.has_negative_weight]: the first negative weight found, scanning
    sources and their targets in insertion order. *)
Definition has_negative_weight (g : Graph.t) : bool :=
  existsb (fun sn => existsb (fun tw => snd tw <? 0) (snd sn)) g.

Definition relax_neighbor (node : string) (cost : Z)
           (st : Dijkstra.dist_map * Dijkstra.prev_map * Dijkstra.heap) (nw : string * Z)
  : Dijkstra.dist_map * Dijkstra.prev_map * Dijkstra.heap :=
  let '(dist, prev, h) := st in
  let '(neighbor, weight) := nw in
  let new_cost := cost + weight in
  let better := match dist !! neighbor with
                | Some d => new_cost <? d
                | None => true
                end in
  if better
  then (<[neighbor := new_cost]> dist, <[neighbor := Some node]> prev,
        Dijkstra.heappush h (new_cost, neighbor))
  else st.

Fixpoint loop (fuel : nat) (g : Graph.t) (goal : string)
         (dist : Dijkstra.dist_map) (prev : Dijkstra.prev_map) (h : Dijkstra.heap)
         (visited : gset string)
  : option (list string * Z + error) :=
  match fuel with
  | O => None
  | S fuel' =>
      match Dijkstra.heappop h with
      | None => Some (inr LookupError_no_path)
      | Some ((cost, node), h') =>
          if bool_decide (node ∈ visited)
          then loop fuel' g goal dist prev h' visited
          else
            let visited' := {[node]} ∪ visited in
            if String.eqb node goal
            then option_map (fun p => inl (p, cost))
                   (BellmanFord._reconstruct_path (S (length (Graph.nodes g))) prev goal)
            else if match dist !! node with Some d => d <? cost | None => false end
            then loop fuel' g goal dist prev h' visited'
            else
              let '(dist', prev', h'') :=
                fold_left (relax_neighbor node cost) (Graph.neighbors g node) (dist, prev, h') in
              loop fuel' g goal dist' prev' h'' visited'
      end
  end.

Definition dijkstra_shortest_path (g : Graph.t) (start goal : string)
  : option (list string * Z + error) :=
  if has_negative_weight g then Some (inr ValidationError_negative)
  else loop (2 + length (Graph.edges g)) g goal {[start := 0]} {[start := None]} [(0, start)] ∅.

End RoutingService.

(** ** [oswe-large-rapd-m4s90]: [domain/models.py], [services/state_machine.py] *)

Inductive PlanStatus : Type :=
| PS_INIT | PS_VALIDATED | PS_FETCH_GRAPH | PS_PLANNING
| PS_SUCCESS | PS_FAILURE | PS_COMPENSATED.

Module StateMachine.

Record t : Type := {
  state : PlanStatus;
  history : list (PlanStatus * string);
}.

(** [__init__] *)
Definition init : t := {| state := PS_INIT; history := [] |}.

Definition transition (sm : t) (new_state : PlanStatus) (reason : string) : t :=
  {| state := new_state; history := (history sm ++ [(state sm, reason)])%list |}.

End StateMachine.

(** ** [raptor-secondary]: [domain/models.py], [services/state_machine.py] *)

Inductive AppointmentState : Type :=
| INIT | IN_PROGRESS | CONFIRMED | FAILED | COMPENSATING | COMPENSATED.

Definition AppointmentState_eqb (a b : AppointmentState) : bool :=
  match a, b with
  | INIT, INIT | IN_PROGRESS, IN_PROGRESS | CONFIRMED, CONFIRMED
  | FAILED, FAILED | COMPENSATING, COMPENSATING | COMPENSATED, COMPENSATED => true
  | _, _ => false
  end.

Definition ALLOWED_TRANSITIONS (current : AppointmentState) : list AppointmentState :=
  match current with
  | INIT => [IN_PROGRESS]
  | IN_PROGRESS => [CONFIRMED; FAILED; COMPENSATING]
  | CONFIRMED => [COMPENSATING]
  | COMPENSATING => [COMPENSATED; FAILED]
  | FAILED => [IN_PROGRESS]
  | COMPENSATED => []
  end.

Definition can_transition (current target : AppointmentState) : bool :=
  existsb (AppointmentState_eqb target) (ALLOWED_TRANSITIONS current).

(** [transition] returns [(ok, reason)]; the reason of a refusal names the
    two states. *)
Definition transition (current target : AppointmentState)
  : bool * option (AppointmentState * AppointmentState) :=
  if can_transition current target then (true, None) else (false, Some (current, target)).

(** ** [Claude-haiku-4.5/src/routing_v2.py] *)

Module RoutingV2.

(** One element of [Graph.edges], a dict read with [edge.get(..)]. *)
Record Edge : Type := {
  source : option string;
  target : option string;
  weight : option Z;
}.

(** Truth value of [edge.get("source")]: present and not the empty string. *)
Definition truthy (s : option string) : option string :=
  match s with
  | Some "" => None
  | other => other
  end.

(** [__post_init__]: one step of the loop that fills [_adj]. *)
Definition add (adj : Graph.t) (edge : Edge) : Graph.t :=
  match truthy (source edge), truthy (target edge) with
  | Some src, Some dst =>
      let a1 := if Graph.mem src adj then adj else Graph.set adj src [] in
      let a2 := Graph.set a1 src
                  (Graph.set (default [] (Graph.get a1 src)) dst (default 0 (weight edge))) in
      if Graph.mem dst a2 then a2 else Graph.set a2 dst []
  | _, _ => adj
  end.

Record Graph : Type := {
  edges : list Edge;
  _adj : Graph.t;
}.

(** [Graph(edges=es)] *)
Definition make (es : list Edge) : Graph :=
  {| edges := es; _adj := fold_left add es [] |}.

Definition neighbors (g : Graph) (node : string) : list (string * Z) :=
  default [] (Graph.get (_adj g) node).

Definition nodes (g : Graph) : list string := map fst (_adj g).

Definition _has_negative_weights (g : Graph) : bool :=
  existsb (fun e => default 0 (weight e) <? 0) (edges g).

Definition at_ (dist : gmap string ext) (k : string) : ext := default Inf (dist !! k).

(** [for u in nodes: if dist[u] == inf: continue; for v, weight in ..] *)
Definition relax_from (g : Graph) (dist : gmap string ext) (u : string) : gmap string ext :=
  match at_ dist u with
  | Inf => dist
  | Fin _ =>
      fold_left (fun d vw =>
                   if ext_ltb (ext_add (at_ d u) (snd vw)) (at_ d (fst vw))
                   then <[fst vw := ext_add (at_ d u) (snd vw)]> d else d)
                (neighbors g u) dist
  end.

Definition _has_negative_cycle (g : Graph) : bool :=
  match nodes g with
  | [] => false
  | first :: _ =>
      let ns := nodes g in
      let dist0 := <[first := Fin 0]> (fold_right (fun n d => <[n := Inf]> d) ∅ ns) in
      let dist := Nat.iter (length ns - 1) (fun d => fold_left (relax_from g) ns d) dist0 in
      existsb (fun u =>
                 match at_ dist u with
                 | Inf => false
                 | Fin _ =>
                     existsb (fun vw => ext_ltb (ext_add (at_ dist u) (snd vw)) (at_ dist (fst vw)))
                             (neighbors g u)
                 end) ns
  end.

(** [_is_reachable]: breadth-first search; [fuel] bounds the number of
    queue pops and [None] means the bound was hit. *)
Fixpoint bfs (fuel : nat) (g : Graph) (goal : string) (queue : list string)
         (visited : gset string) : option bool :=
  match fuel with
  | O => None
  | S fuel' =>
      match queue with
      | [] => Some false
      | node :: rest =>
          if String.eqb node goal then Some true
          else if bool_decide (node ∈ visited) then bfs fuel' g goal rest visited
          else
            let visited' := {[node]} ∪ visited in
            bfs fuel' g goal
                (rest ++ filter (fun n => n ∉ visited') (map fst (neighbors g node)))%list
                visited'
      end
  end.

Definition _is_reachable (g : Graph) (start goal : string) : option bool :=
  if String.eqb start goal then Some true
  else bfs (2 + length (Graph.edges (_adj g))) g goal [start] ∅.

(** [_validate_graph]: [(is_valid, error_codes)]. *)
Definition _validate_graph (g : Graph) (start goal : string) : option (bool * list string) :=
  match nodes g with
  | [] => Some (false, ["EMPTY_GRAPH"])
  | _ =>
      let errors :=
        ((if bool_decide (start ∈ nodes g) then [] else ["NODE_NOT_FOUND"]) ++
         (if bool_decide (goal ∈ nodes g) then [] else ["NODE_NOT_FOUND"]))%list in
      match errors with
      | _ :: _ => Some (false, errors)
      | [] =>
          let errors1 :=
            if _has_negative_weights g && _has_negative_cycle g then ["NEG_CYCLE"] else [] in
          option_map
            (fun reachable : bool =>
               let errors2 := (errors1 ++ (if reachable then [] else ["NO_PATH_FOUND"]))%list in
               (bool_decide (errors2 = []), errors2))
            (_is_reachable g start goal)
      end
  end.

Record GraphValidation : Type := {
  is_valid : bool;
  node_count : nat;
  edge_count : nat;
  has_negative_weights : bool;
  has_negative_cycle : bool;
  is_weakly_connected : bool;
  validation_errors : list string;
}.

Definition _get_graph_stats (g : Graph) : GraphValidation :=
  let has_neg := _has_negative_weights g in
  {| is_valid := true;
     node_count := length (nodes g);
     edge_count := length (edges g);
     has_negative_weights := has_neg;
     has_negative_cycle := if has_neg then _has_negative_cycle g else false;
     is_weakly_connected := negb (Nat.eqb (length (nodes g)) 0);
     validation_errors := [] |}.

Record RoutingConfig : Type := {
  timeout_ms : Z;
  algorithm_hint : string;
  cache_enabled : bool;
  cache_ttl_sec : Z;
}.

(** [RoutingResult]; the measured [duration_ms] is not modelled and
    [error_message] is kept as the list of codes it joins. *)
Record RoutingResult : Type := {
  path : option (list string);
  cost : option Z;
  algorithm : option string;
  request_id : string;
  status : string;
  error_code : option string;
  error_message : list string;
  cache_hit : bool;
  graph_validation : option GraphValidation;
}.

Record RoutingService : Type := {
  config : RoutingConfig;
  cache : gmap string RoutingResult;
  cache_access_times : gmap string Z;
}.

Section Service.

Variable sha256_hexdigest : string -> string.
(** [json.dumps(graph.to_dict(), sort_keys=True)] *)
Variable json_dumps : list Edge -> string.
(** Step 5, [_compute_with_retry]: the chosen algorithm run under the
    retry policy, with its wall-clock timeout checks and random jitter.
    Its outcome is [None] when it raises. *)
Variable _compute_with_retry :
  Graph -> string -> string -> string -> RoutingConfig -> option (list string * Z * string).

Definition _get_cache_key (g : Graph) (start goal : string) : string :=
  sha256_hexdigest (sha256_hexdigest (json_dumps (edges g)) +:+ "|" +:+ start +:+ "|" +:+ goal).

Definition _get_cached_result (now : Z) (s : RoutingService) (g : Graph) (start goal : string)
  : option RoutingResult * RoutingService :=
  let key := _get_cache_key g start goal in
  match cache s !! key with
  | Some r =>
      if now - default 0 (cache_access_times s !! key) <? cache_ttl_sec (config s)
      then (Some r, {| config := config s; cache := cache s;
                       cache_access_times := <[key := now]> (cache_access_times s) |})
      else (None, {| config := config s; cache := delete key (cache s);
                     cache_access_times := cache_access_times s |})
  | None => (None, s)
  end.

Definition _cache_result (now : Z) (s : RoutingService) (g : Graph) (start goal : string)
           (r : RoutingResult) : RoutingService :=
  let key := _get_cache_key g start goal in
  {| config := config s; cache := <[key := r]> (cache s);
     cache_access_times := <[key := now]> (cache_access_times s) |}.

Definition _select_algorithm (has_neg_weights : bool) (cfg : RoutingConfig) : string :=
  if String.eqb (algorithm_hint cfg) "dijkstra" || String.eqb (algorithm_hint cfg) "bellman_ford"
  then algorithm_hint cfg
  else if has_neg_weights then "bellman_ford" else "dijkstra".

Definition internal_error (request_id : string) : RoutingResult :=
  {| path := None; cost := None; algorithm := None; request_id := request_id;
     status := "error"; error_code := Some "INTERNAL_ERROR"; error_message := [];
     cache_hit := false; graph_validation := None |}.

Definition mark_hit (r : RoutingResult) : RoutingResult :=
  {| path := path r; cost := cost r; algorithm := algorithm r; request_id := request_id r;
     status := status r; error_code := error_code r; error_message := error_message r;
     cache_hit := true; graph_validation := graph_validation r |}.

(** Steps 2-5 of [compute_shortest_path]; the outer [None] is a
    reachability search that hit its bound. *)
Definition compute_uncached (now : Z) (s : RoutingService) (g : Graph) (start goal : string)
           (request_id : string) (cfg : RoutingConfig)
  : option (RoutingResult * RoutingService) :=
  match _validate_graph g start goal with
  | None => None
  | Some (false, errors) =>
      let r := {| path := None; cost := None; algorithm := None; request_id := request_id;
                  status := "error"; error_code := head errors; error_message := errors;
                  cache_hit := false; graph_validation := Some (_get_graph_stats g) |} in
      Some (r, _cache_result now s g start goal r)
  | Some (true, _) =>
      let graph_stats := _get_graph_stats g in
      let algo := _select_algorithm (has_negative_weights graph_stats) cfg in
      match _compute_with_retry g start goal algo cfg with
      | Some (p, c, algo_used) =>
          let r := {| path := Some p; cost := Some c; algorithm := Some algo_used;
                      request_id := request_id; status := "success"; error_code := None;
                      error_message := []; cache_hit := false;
                      graph_validation := Some graph_stats |} in
          Some (r, _cache_result now s g start goal r)
      | None => Some (internal_error request_id, s)
      end
  end.

(** [RoutingService.compute_shortest_path]; [request_id] is the one
    passed in or the fresh UUID, [cfg] is [config or self.config]. *)
Definition compute_shortest_path (now : Z) (s : RoutingService) (g : Graph)
           (start goal : string) (request_id : string) (cfg : RoutingConfig)
  : option (RoutingResult * RoutingService) :=
  if cache_enabled cfg
  then
    match _get_cached_result now s g start goal with
    | (Some cached, s1) =>
        let r := mark_hit cached in
        Some (r, {| config := config s1;
                    cache := <[_get_cache_key g start goal := r]> (cache s1);
                    cache_access_times := cache_access_times s1 |})
    | (None, s1) => compute_uncached now s1 g start goal request_id cfg
    end
  else compute_uncached now s g start goal request_id cfg.

End Service.

End RoutingV2.

(** * Specification-level notions *)

(** [e] is an edge of [g] with a negative weight. *)
Definition negative_edge (g : Graph.t) (e : string * string * Z) : Prop :=
  In e (Graph.edges g) /\ snd e < 0.

(** The transitions the raptor table allows, as a relation. *)
Inductive allowed : AppointmentState -> AppointmentState -> Prop :=
| allowed_start : allowed INIT IN_PROGRESS
| allowed_confirm : allowed IN_PROGRESS CONFIRMED
| allowed_fail : allowed IN_PROGRESS FAILED
| allowed_abort : allowed IN_PROGRESS COMPENSATING
| allowed_undo : allowed CONFIRMED COMPENSATING
| allowed_undone : allowed COMPENSATING COMPENSATED
| allowed_undo_failed : allowed COMPENSATING FAILED
| allowed_retry : allowed FAILED IN_PROGRESS.

(** The example graph of the specification, edges in the order given. *)
Definition example_graph : Graph.t :=
  Graph.from_edge_list
    [("A", "B", 5); ("A", "C", 2); ("C", "D", 1); ("D", "F", -3);
     ("F", "B", 1); ("A", "E", 1); ("E", "B", 6)].

(** A loader that always delivers [g], in a world that is just the clock. *)
Definition constant_loader (g : Graph.t) : string -> Z -> result Graph.t * Z :=
  fun _ w => (Ok g, w).

(** The empty graph of [routing_v2]: [Graph(edges=[])]. *)
Definition empty_graph_v2 : RoutingV2.Graph := RoutingV2.make [].

(** A request for a route from ["A"] to ["B"] with the default settings. *)
Definition request_A_B (request_id graph_id : string) : RouteRequest :=
  {| request_id := request_id; graph_id := graph_id;
     start_node := "A"; goal_node := "B";
     algorithm_hint := "auto"; timeout_ms := 5000; validate_result := true |}.

(** A fresh [routing_v2] service with the default configuration. *)
Definition default_config_v2 : RoutingV2.RoutingConfig :=
  {| RoutingV2.timeout_ms := 1000; RoutingV2.algorithm_hint := "auto";
     RoutingV2.cache_enabled := true; RoutingV2.cache_ttl_sec := 300 |}.

Definition new_service_v2 : RoutingV2.RoutingService :=
  {| RoutingV2.config := default_config_v2; RoutingV2.cache := ∅;
     RoutingV2.cache_access_times := ∅ |}.

(** Breakers that can arise from [CircuitBreaker(..)] through calls, in any
    world and with any callables. *)
Inductive reachable_breaker (threshold duration : Z) (expected : exn -> bool)
  : CircuitBreaker -> Prop :=
| reachable_new : reachable_breaker threshold duration expected
                    (new_breaker threshold duration expected)
| reachable_call (W A : Type) (clock : W -> Z) (cb cb' : CircuitBreaker)
                 (func : W -> result A * W) (w w' : W) (r : result A) :
    reachable_breaker threshold duration expected cb ->
    call clock cb func w = (r, cb', w') ->
    reachable_breaker threshold duration expected cb'.

(** A callable with a fixed outcome, in a world that is just the clock. *)
Definition outcome_now (r : result unit) : Z -> result unit * Z := fun w => (r, w).

(** The breaker after one call at time [now]. *)
Definition after_call (cb : CircuitBreaker) (now : Z) (r : result unit) : CircuitBreaker :=
  snd (fst (call (fun w => w) cb (outcome_now r) now)).

(** Two requests agree on everything [compute_route] puts into the cache key. *)
Definition same_key_fields (r1 r2 : RouteRequest) : Prop :=
  request_id r1 = request_id r2 /\ graph_id r1 = graph_id r2
  /\ start_node r1 = start_node r2 /\ goal_node r1 = goal_node r2.

(** The string [_make_key] digests for a request: the request id, then
    the three keyword arguments in the order of [sorted(kwargs.items())]. *)
Definition key_str (r : RouteRequest) : string :=
  request_id r +:+ "|goal_node=" +:+ goal_node r +:+ "|graph_id=" +:+ graph_id r
  +:+ "|start_node=" +:+ start_node r.

(** Two requests differ in exactly one of the four fields of the cache key. *)
Definition differ_in_one_key_field (r1 r2 : RouteRequest) : Prop :=
  (request_id r1 <> request_id r2 /\ graph_id r1 = graph_id r2
   /\ start_node r1 = start_node r2 /\ goal_node r1 = goal_node r2)
  \/ (request_id r1 = request_id r2 /\ graph_id r1 <> graph_id r2
      /\ start_node r1 = start_node r2 /\ goal_node r1 = goal_node r2)
  \/ (request_id r1 = request_id r2 /\ graph_id r1 = graph_id r2
      /\ start_node r1 <> start_node r2 /\ goal_node r1 = goal_node r2)
  \/ (request_id r1 = request_id r2 /\ graph_id r1 = graph_id r2
      /\ start_node r1 = start_node r2 /\ goal_node r1 <> goal_node r2).

(** The example request with a chosen algorithm hint. *)
Definition request_with_hint (hint : string) : RouteRequest :=
  {| request_id := "r1"; graph_id := "g1"; start_node := "A"; goal_node := "B";
     algorithm_hint := hint; timeout_ms := 5000; validate_result := true |}.

(** An engine in the clock-only world, with the identity standing in for
    SHA-256, and the engine it becomes after serving [request] at time [now]. *)
Definition serve (eng : @RoutingEngine Z) (request : RouteRequest) (now : Z)
  : RouteResponse * @RoutingEngine Z :=
  fst (compute_route (fun s => s) (fun w => w) (fun secs w => w + secs) (fun _ _ => false)
         eng request now).

(** ** Histories of cache operations *)

Inductive cache_op (A : Type) : Type :=
| OpGet (now : Z) (key : string)
| OpPut (now : Z) (key request_id : string) (result : A) (ttl : option Z).
Arguments OpGet {A} now key.
Arguments OpPut {A} now key request_id result ttl.

Definition apply_op {A} (c : IdempotencyCache A) (op : cache_op A) : IdempotencyCache A :=
  match op with
  | OpGet now key => snd (get_key now c key)
  | OpPut now key request_id result ttl => put_key now c key request_id result ttl
  end.

(** An operation uses the entry under [k] when it stores it or reads it
    successfully. *)
Definition uses {A} (c : IdempotencyCache A) (op : cache_op A) (k : string) : bool :=
  match op with
  | OpGet now key =>
      String.eqb key k && match fst (get_key now c key) with Some _ => true | None => false end
  | OpPut _ key _ _ _ => String.eqb key k
  end.

(** A cache together with the position, in the history so far, of the last
    operation that used each key (0: never used). *)
Record stamped (A : Type) : Type := {
  current : IdempotencyCache A;
  last_use : string -> nat;
  ops_done : nat;
}.
Arguments current {A} s.
Arguments last_use {A} s k.
Arguments ops_done {A} s.

Definition step_stamped {A} (st : stamped A) (op : cache_op A) : stamped A :=
  {| current := apply_op (current st) op;
     last_use := fun k => if uses (current st) op k then S (ops_done st) else last_use st k;
     ops_done := S (ops_done st) |}.

(** The cache [IdempotencyCache(maxsize, default_ttl)] after a history. *)
Definition run_stamped {A} (maxsize default_ttl : Z) (ops : list (cache_op A)) : stamped A :=
  fold_left step_stamped ops
            {| current := new_cache maxsize default_ttl; last_use := fun _ => O; ops_done := O |}.

(** The store and the order list hold the same keys, each once. *)
Definition cache_inv {A} (c : IdempotencyCache A) : Prop :=
  NoDup (_access_order c)
  /\ forall k, k ∈ _access_order c <-> is_Some (_cache c !! k).

(** The order list runs from the least to the most recently used key. *)
Definition lru_inv {A} (st : stamped A) : Prop :=
  cache_inv (current st)
  /\ StronglySorted (fun a b => (last_use st a < last_use st b)%nat) (_access_order (current st))
  /\ forall k, k ∈ _access_order (current st) -> (last_use st k <= ops_done st)%nat.

(** A history on a cache of capacity 2: store [a], store [b], read [a]. *)
Definition history_a_b_a : list (cache_op Z) :=
  [OpPut 0 "a" "req-a" 1 None; OpPut 1 "b" "req-b" 2 None; OpGet 2 "a"].

(** ** Walks in a graph *)

Abbreviation edge := (string * string * Z)%type.
Definition src (e : edge) : string := fst (fst e).
Definition tgt (e : edge) : string := snd (fst e).
Definition wgt (e : edge) : Z := snd e.

(** [p] is a sequence of edges of [es] leading from [u] to [v]. *)
Fixpoint is_walk (es : list edge) (u : string) (p : list edge) (v : string) : Prop :=
  match p with
  | [] => u = v
  | e :: p' => src e = u /\ In e es /\ is_walk es (tgt e) p' v
  end.

Fixpoint weight (p : list edge) : Z :=
  match p with
  | [] => 0
  | e :: p' => wgt e + weight p'
  end.

(** The nodes a walk from [u] passes through, [u] included. *)
Definition walk_nodes (u : string) (p : list edge) : list string := u :: map tgt p.

Definition reachable (es : list edge) (u v : string) : Prop :=
  exists p, is_walk es u p v.

(** [d] is the least weight of a walk from [u] to [v]. *)
Definition shortest (es : list edge) (u v : string) (d : Z) : Prop :=
  (exists p, is_walk es u p v /\ weight p = d)
  /\ forall p, is_walk es u p v -> d <= weight p.

(** Some closed walk of negative weight starts at a node reachable from [start]. *)
Definition negative_cycle_reachable (es : list edge) (start : string) : Prop :=
  exists v p c, is_walk es start p v /\ is_walk es v c v /\ weight c < 0.

Definition nonnegative (es : list edge) : Prop :=
  forall e, In e es -> 0 <= wgt e.

(** No edge can be relaxed any more. *)
Definition settled (es : list edge) (dist : BellmanFord.dist_map) : Prop :=
  forall e, In e es -> BellmanFord.relaxable dist e = false.

(** Every finite distance is the weight of a walk from [start]. *)
Definition dist_sound (es : list edge) (start : string) (dist : BellmanFord.dist_map) : Prop :=
  forall v d, BellmanFord.at_ dist v = Fin d ->
              exists p, is_walk es start p v /\ weight p = d.

(** The start node keeps distance 0 and no predecessor until its distance
    drops below 0. *)
Definition start_untouched (start : string) (dist : BellmanFord.dist_map)
           (prev : BellmanFord.prev_map) : Prop :=
  (BellmanFord.at_ dist start = Fin 0 /\ forall u, prev !! start <> Some (Some u))
  \/ exists a, BellmanFord.at_ dist start = Fin a /\ a < 0.

(** The two-node graph with edges [B -> A : -3] and [A -> B : 1], in that order. *)
Definition two_cycle : Graph.t := Graph.from_edge_list [("B", "A", -3); ("A", "B", 1)].


(** ** Graphs built by [add_edge] *)

(** Node names are stored once, and every edge leads to a stored node. *)
Definition wf_graph (g : Graph.t) : Prop :=
  NoDup (Graph.nodes g)
  /\ forall e, In e (Graph.edges g) -> tgt e ∈ Graph.nodes g.

(** ** Convergence of Bellman-Ford *)

(** Distances are at most the weight of every walk of at most [k] edges. *)
Definition bounded (es : list edge) (start : string) (k : nat)
           (dist : BellmanFord.dist_map) : Prop :=
  forall p v, is_walk es start p v -> (length p <= k)%nat ->
              exists b, BellmanFord.at_ dist v = Fin b /\ b <= weight p.

(** [dist'] is pointwise at most [dist]. *)
Definition below (dist' dist : BellmanFord.dist_map) : Prop :=
  forall v b, BellmanFord.at_ dist v = Fin b ->
              exists b', BellmanFord.at_ dist' v = Fin b' /\ b' <= b.


(** Each node of [l] has the next one as its predecessor. *)
Fixpoint linked (prev : BellmanFord.prev_map) (l : list string) : Prop :=
  match l with
  | x :: ((y :: _) as l') => prev !! x = Some (Some y) /\ linked prev l'
  | _ => True
  end.


(** ** Dijkstra's loop invariant *)

(** Number of edges whose source has not been finalised yet. *)
Fixpoint pending (visited : gset string) (es : list edge) : nat :=
  match es with
  | [] => O
  | e :: es' =>
      if bool_decide (src e ∈ visited) then pending visited es' else S (pending visited es')
  end.

Record dijkstra_inv (g : Graph.t) (start goal : string)
       (dist : Dijkstra.dist_map) (prev : Dijkstra.prev_map)
       (h : Dijkstra.heap) (visited : gset string) : Prop := {
  (* every queue entry is the weight of a walk from the start *)
  inv_heap_walks :
    forall c v, In (c, v) h ->
                exists p, is_walk (Graph.edges g) start p v /\ weight p = c;
  (* a discovered node that is not finalised is queued at its distance *)
  inv_dist_heap :
    forall y d, dist !! y = Some d -> y ∈ visited \/ In (d, y) h;
  (* the edges out of a finalised node have been relaxed *)
  inv_done :
    forall x y w, In (x, y, w) (Graph.edges g) -> x ∈ visited ->
                  y ∈ visited
                  \/ exists dy, dist !! y = Some dy
                                /\ forall p, is_walk (Graph.edges g) start p x ->
                                             dy <= weight p + w;
  inv_start : start ∈ visited \/ In (0, start) h;
  inv_goal : goal ∉ visited;
  (* predecessor links lead to nodes finalised earlier *)
  inv_links :
    exists (rank : string -> nat) (k : nat),
      (forall u, u ∈ visited -> (rank u < k)%nat)
      /\ forall v u, prev !! v = Some (Some u) ->
                     u ∈ visited /\ (v ∈ visited -> (rank u < rank v)%nat);
  inv_visited_nodes : forall u, u ∈ visited -> u ∈ Graph.nodes g;
}.

(** What one run of the neighbour loop of node [x], popped at cost [c],
    does to [(dist, prev, heap)]. *)
Definition relaxed (x : string) (c : Z) (visited : gset string) (nbs : list (string * Z))
           (st st' : Dijkstra.dist_map * Dijkstra.prev_map * Dijkstra.heap) : Prop :=
  let '(dist, prev, h) := st in
  let '(dist', prev', h') := st' in
  (forall e, In e h' ->
             In e h \/ exists y w, In (y, w) nbs /\ e = (c + w, y) /\ y ∉ visited)
  /\ (forall e, In e h -> In e h')
  /\ (forall y d, dist !! y = Some d -> exists d', dist' !! y = Some d' /\ d' <= d)
  /\ (forall y d', dist' !! y = Some d' -> dist !! y = Some d' \/ In (d', y) h')
  /\ (forall y w, In (y, w) nbs ->
                  y ∈ visited \/ exists dy, dist' !! y = Some dy /\ dy <= c + w)
  /\ (forall v u, prev' !! v = Some (Some u) ->
                  prev !! v = Some (Some u) \/ (u = x /\ v ∉ visited))
  /\ (length h' <= length h + length nbs)%nat.

(** A diamond with two routes of weight 2 from [A] to [D]. *)
Definition diamond_edges : list edge :=
  [("A", "C", 1); ("A", "B", 1); ("C", "D", 1); ("B", "D", 1)].
Definition diamond : Graph.t := Graph.from_edge_list diamond_edges.

(** ** Graphs as dictionaries *)

(** Both levels of the adjacency structure are dictionaries: a key occurs once. *)
Definition dict_graph (g : Graph.t) : Prop :=
  NoDup (Graph.nodes g) /\ forall s nb, In (s, nb) g -> NoDup (map fst nb).

(** The weight given by the last edge from [x] to [y] in an edge list. *)
Definition last_weight (es : list edge) (x y : string) : option Z :=
  fold_left (fun acc e => if String.eqb (src e) x && String.eqb (tgt e) y
                          then Some (wgt e) else acc) es None.

(** ** Bellman-Ford with negative weights *)

(** Every predecessor link follows an edge of the graph along which the
    distance of the target is not below that of the source plus the weight. *)
Definition tight_links (es : list edge) (dist : BellmanFord.dist_map)
           (prev : BellmanFord.prev_map) : Prop :=
  forall v u, prev !! v = Some (Some u) ->
              exists w a b, In (u, v, w) es
                            /\ BellmanFord.at_ dist u = Fin a /\ BellmanFord.at_ dist v = Fin b
                            /\ a + w <= b.

(** Every node with a finite distance, the start apart, has a predecessor. *)
Definition rooted (start : string) (dist : BellmanFord.dist_map)
           (prev : BellmanFord.prev_map) : Prop :=
  forall v d, BellmanFord.at_ dist v = Fin d ->
              v = start \/ exists u, prev !! v = Some (Some u).

(** [u] comes before [v]: its distance is closer to its final value [delta],
    or as close and last updated earlier. *)
Definition before (delta dist : BellmanFord.dist_map) (rank : string -> nat)
           (u v : string) : Prop :=
  exists a b ca cb,
    BellmanFord.at_ dist u = Fin a /\ BellmanFord.at_ dist v = Fin b
    /\ BellmanFord.at_ delta u = Fin ca /\ BellmanFord.at_ delta v = Fin cb
    /\ a - ca <= b - cb /\ (a - ca < b - cb \/ (rank u < rank v)%nat).

(** Predecessor links lead to nodes that come before. *)
Definition links_ordered (delta dist : BellmanFord.dist_map)
           (prev : BellmanFord.prev_map) : Prop :=
  exists rank : string -> nat,
    forall v u, prev !! v = Some (Some u) -> before delta dist rank u v.

(** Every predecessor link follows an edge that accounts exactly for the
    difference of the two distances. *)
Definition exact_links (es : list edge) (dist : BellmanFord.dist_map)
           (prev : BellmanFord.prev_map) : Prop :=
  forall v u, prev !! v = Some (Some u) ->
              exists w a, In (u, v, w) es
                          /\ BellmanFord.at_ dist u = Fin a
                          /\ BellmanFord.at_ dist v = Fin (a + w).

(** ** Dijkstra: what the predecessor links record *)

Record dijkstra_links (g : Graph.t) (start : string)
       (dist : Dijkstra.dist_map) (prev : Dijkstra.prev_map)
       (h : Dijkstra.heap) (visited : gset string) : Prop := {
  (* a queue entry is never below the distance on record *)
  links_heap :
    forall c v, In (c, v) h -> exists d, dist !! v = Some d /\ d <= c;
  (* a link leads to a finalised node along an edge that accounts for the
     distance on record *)
  links_exact :
    forall v u, prev !! v = Some (Some u) ->
                u ∈ visited
                /\ exists w du, In (u, v, w) (Graph.edges g)
                                /\ dist !! u = Some du /\ dist !! v = Some (du + w);
  (* every discovered node but the start has a link *)
  links_rooted :
    forall v d, dist !! v = Some d -> v = start \/ exists u, prev !! v = Some (Some u);
  links_start : dist !! start = Some 0 /\ forall u, prev !! start <> Some (Some u);
  (* the start node is the first to be finalised *)
  links_first : start ∈ visited \/ (h = [(0, start)] /\ visited = ∅);
}.

(** ** What a history of cache operations last stored *)

(** The time, result and time-to-live of the last [put] under [k] in a
    history, on a cache with the given default time-to-live. *)
Definition last_put {A} (default_ttl : Z) (ops : list (cache_op A)) (k : string)
  : option (Z * A * Z) :=
  fold_left
    (fun acc op =>
       match op with
       | OpPut now key _ result ttl =>
           if String.eqb key k
           then Some (now, result,
                      match ttl with
                      | Some t => if t =? 0 then default_ttl else t
                      | None => default_ttl
                      end)
           else acc
       | OpGet _ _ => acc
       end)
    ops None.

(** The cache [IdempotencyCache(maxsize, default_ttl)] after a history. *)
Definition run_ops {A} (maxsize default_ttl : Z) (ops : list (cache_op A))
  : IdempotencyCache A :=
  fold_left apply_op ops (new_cache maxsize default_ttl).

(** ** Counting attempts and waits of a retried call *)

(** A callable that also counts how often it is called, and a sleep that
    also records for how long; the counter and the record ride along with
    the state the callable acts on. *)
Definition counted_call {S A} (func : S -> result A * S)
  : S * (nat * list Z) -> result A * (S * (nat * list Z)) :=
  fun st => let '(r, s') := func (fst st) in
            (r, (s', (Datatypes.S (fst (snd st)), snd (snd st)))).

Definition recorded_sleep {S} (lift_sleep : Z -> S -> S)
  : Z -> S * (nat * list Z) -> S * (nat * list Z) :=
  fun secs st => (lift_sleep secs (fst st), (fst (snd st), snd (snd st) ++ [secs])).

(** The waits of the backoff schedule: the initial wait, then each wait
    times the multiplier, capped at [max_wait]. *)
Fixpoint backoff_waits (n : nat) (wait_time backoff_multiplier max_wait : Z) : list Z :=
  match n with
  | O => []
  | Datatypes.S n' =>
      wait_time :: backoff_waits n' (Z.min (wait_time * backoff_multiplier) max_wait)
                                 backoff_multiplier max_wait
  end.

(** ** Counting loader calls *)

(** A graph loader that counts its calls in a counter kept beside the world. *)
Definition counted_loader {W} (loader : string -> W -> result Graph.t * W)
  : string -> W * nat -> result Graph.t * (W * nat) :=
  fun graph_id st =>
    (fst (loader graph_id (fst st)), (snd (loader graph_id (fst st)), S (snd st))).

(** ** [routing_v2]: the edges that reach the adjacency structure *)

(** The edges of an edge list that [__post_init__] takes up: those with a
    source and a target that are present and not empty, each with its
    weight, or 0 when it has none. *)
Definition well_formed_edges (es : list RoutingV2.Edge) : list edge :=
  omap (fun e => match RoutingV2.truthy (RoutingV2.source e),
                       RoutingV2.truthy (RoutingV2.target e) with
                 | Some s, Some t => Some (s, t, default 0 (RoutingV2.weight e))
                 | _, _ => None
                 end) es.

(** ** [routing_v2]: the search for the goal *)

(** What the breadth-first search of [_is_reachable] maintains: the queue
    holds nodes in reach of [start]; the neighbours of a visited node are
    visited or queued; so is [start]; and [goal] is not visited. *)
Record bfs_inv (es : list edge) (start goal : string)
       (queue : list string) (visited : gset string) : Prop := {
  bfs_queue : forall x, x ∈ queue -> reachable es start x;
  bfs_closed : forall u v w, u ∈ visited -> In (u, v, w) es -> v ∈ visited \/ v ∈ queue;
  bfs_start : start ∈ visited \/ start ∈ queue;
  bfs_goal : goal ∉ visited;
}.

(** ** The second Dijkstra beside the first *)

(** How an outcome of [DijkstraAlgorithm.compute]'s loop reads as an
    outcome of [dijkstra_shortest_path]'s loop. *)
Definition second_outcome (r : result (list string * Z))
  : list string * Z + RoutingService.error :=
  match r with
  | Ok pc => inl pc
  | Raise _ => inr RoutingService.LookupError_no_path
  end.

(** The distance on record of a finalised node is the least weight of a
    walk to it. *)
Definition finalised (es : list edge) (start : string)
           (dist : Dijkstra.dist_map) (visited : gset string) : Prop :=
  forall y, y ∈ visited ->
            exists d, dist !! y = Some d
                      /\ forall p, is_walk es start p y -> d <= weight p.

(** ** [raptor-secondary]: [infra/circuit_breaker.py] *)

Module RaptorBreaker.

Record CircuitBreakerState : Type := {
  failures : Z;
  opened_at : option Z;
}.

Record t : Type := {
  failure_threshold : Z;
  reset_timeout_seconds : Z;
  state : CircuitBreakerState;
}.

(** [CircuitBreaker(failure_threshold, reset_timeout_seconds)] *)
Definition new (failure_threshold reset_timeout_seconds : Z) : t :=
  {| failure_threshold := failure_threshold;
     reset_timeout_seconds := reset_timeout_seconds;
     state := {| failures := 0; opened_at := None |} |}.

Definition allow_request (now : Z) (cb : t) : bool :=
  match opened_at (state cb) with
  | None => true
  | Some opened => reset_timeout_seconds cb <=? now - opened
  end.

Definition on_success (cb : t) : t :=
  {| failure_threshold := failure_threshold cb;
     reset_timeout_seconds := reset_timeout_seconds cb;
     state := {| failures := 0; opened_at := None |} |}.

Definition on_failure (now : Z) (cb : t) : t :=
  let failures' := failures (state cb) + 1 in
  {| failure_threshold := failure_threshold cb;
     reset_timeout_seconds := reset_timeout_seconds cb;
     state := {| failures := failures';
                 opened_at := if failure_threshold cb <=? failures'
                              then Some now else opened_at (state cb) |} |}.

Definition is_open (now : Z) (cb : t) : bool :=
  match opened_at (state cb) with
  | None => false
  | Some opened => if reset_timeout_seconds cb <=? now - opened then false else true
  end.

End RaptorBreaker.

(** What a caller reports to the breaker: a call that went through, or a
    call that failed at the given time. *)
Inductive breaker_report : Type :=
| went_through
| failed_at (now : Z).

Definition report (cb : RaptorBreaker.t) (r : breaker_report) : RaptorBreaker.t :=
  match r with
  | went_through => RaptorBreaker.on_success cb
  | failed_at now => RaptorBreaker.on_failure now cb
  end.

(** ** IEEE 754 double precision

    Python's [float]. [spec_float] and its operations are the Standard
    Library's specification of IEEE 754 arithmetic, here at 53 bits of
    precision, with rounding to nearest, ties to even. *)

Module Double.

Abbreviation t := spec_float.

Definition prec : Z := 53.
Definition emax : Z := 1024.

Definition zero : t := S754_zero false.          (* [0.0] *)
Definition inf : t := S754_infinity false.       (* [float("inf")] *)

Definition add : t -> t -> t := SFadd prec emax.
Definition sub : t -> t -> t := SFsub prec emax.
Definition abs : t -> t := SFabs.
Definition ltb : t -> t -> bool := SFltb.
Definition eqb : t -> t -> bool := SFeqb.

(** The double nearest to an integer (ties to even); beyond the largest
    finite double it is an infinity. *)
Definition of_Z (z : Z) : t := binary_normalize prec emax z 0 false.

(** [float(z)] for a Python [int]: [None] is [OverflowError]
    ("int too large to convert to float"). *)
Definition of_int (z : Z) : option t :=
  match of_Z z with
  | S754_infinity _ => None
  | f => Some f
  end.

(** [x + w] for a float [x] and an [int] [w]. *)
Definition add_int (x : t) (w : Z) : option t :=
  option_map (add x) (of_int w).

End Double.

#[global] Instance spec_float_eq_dec : EqDecision spec_float.
Proof. solve_decision. Defined.

(** [m * 2^k] *)
Definition pshl (m : positive) (k : nat) : positive := Nat.iter k xO m.

Abbreviation fexp64 := (fexp Double.prec Double.emax).
Abbreviation exact_record m := (Build_shr_record m false false).

(** The first shift of [binary_round]: the mantissa brought to the
    exponent of its binade, with what was shifted out. *)
Definition round_core (m : positive) (e : Z) : shr_record * Z :=
  let '(mz, ez) := shl_align m e (fexp64 (Zpos (digits2_pos m) + e)) in
  shr_fexp Double.prec Double.emax (Zpos mz) ez loc_Exact.

(** What [binary_round] does with it. *)
Definition round_finish (s : bool) (c : shr_record * Z) : spec_float :=
  let '(mrs', e') := c in
  let '(mrs'', e'') :=
    shr_fexp Double.prec Double.emax
             (round_nearest_even (shr_m mrs') (loc_of_shr_record mrs')) e' loc_Exact in
  match shr_m mrs'' with
  | Z0 => S754_zero s
  | Zpos m => if e'' <=? Double.emax - Double.prec then S754_finite s m e'' else S754_infinity s
  | Zneg _ => S754_nan
  end.

(** Integers below [2^53] in absolute value: they are doubles. *)
Definition small (z : Z) : Prop := Z.abs z < 2 ^ 53.

(** The number of leading zero bits of a 53-bit mantissa. *)
Definition lead (p : positive) : nat := Z.to_nat (53 - Zpos (digits2_pos p)).

(** ** The algorithms in the arithmetic of the code

    The sources keep distances and costs as Python floats ([dist[start] =
    0.0], [float("inf")]) and add the edge weights to them. Here the
    weights of a graph are Python ints, as in [Graph.t]; a sum [x + w]
    converts [w] to the nearest double and adds in double precision. *)

(** What a computation in doubles can raise. *)
Inductive raised64 : Type :=
| Raised (e : exn)                     (* an exception that carries no float *)
| NegativeCycle64 (cycle : list string) (cycle_cost : Double.t)   (* [NegativeCycleError] *)
| OverflowError.                       (* "int too large to convert to float" *)

Inductive result64 (A : Type) : Type :=
| Ok64 (a : A)
| Raise64 (e : raised64).
Arguments Ok64 {A} a.
Arguments Raise64 {A} e.

(** A left fold whose step can fail ([None]): the first failure ends it. *)
Fixpoint fold_left_opt {A B} (f : A -> B -> option A) (l : list B) (a : A) : option A :=
  match l with
  | [] => Some a
  | b :: l' =>
      match f a b with
      | Some a' => fold_left_opt f l' a'
      | None => None
      end
  end.

(** *** [core/algorithms/bellman_ford.py] *)

Module BellmanFord64.

Abbreviation dist_map := (gmap string Double.t).
Abbreviation prev_map := (gmap string (option string)).

(** [dist[k]]; every key read is a node of the graph. *)
Definition at_ (dist : dist_map) (k : string) : Double.t := default Double.inf (dist !! k).

(** [dist[source] + weight < dist[target]]; [None] is [OverflowError]. *)
Definition relaxable (dist : dist_map) (e : string * string * Z) : option bool :=
  let '(source, target, weight) := e in
  match Double.add_int (at_ dist source) weight with
  | Some d => Some (Double.ltb d (at_ dist target))
  | None => None
  end.

(** Body of the inner [for source, target, weight in graph.edges()]. *)
Definition relax_edge (st : dist_map * prev_map * bool) (e : string * string * Z)
  : option (dist_map * prev_map * bool) :=
  let '(dist, prev, updated) := st in
  let '(source, target, weight) := e in
  match Double.add_int (at_ dist source) weight with
  | Some d =>
      if Double.ltb d (at_ dist target)
      then Some (<[target := d]> dist, <[target := Some source]> prev, true)
      else Some st
  | None => None
  end.

Definition relax_pass (es : list (string * string * Z)) (dist : dist_map) (prev : prev_map)
  : option (dist_map * prev_map * bool) :=
  fold_left_opt relax_edge es (dist, prev, false).

(** [for _ in range(n - 1)] with the early [break]. *)
Fixpoint relax_loop (k : nat) (es : list (string * string * Z))
         (dist : dist_map) (prev : prev_map) : option (dist_map * prev_map) :=
  match k with
  | O => Some (dist, prev)
  | S k' =>
      match relax_pass es dist prev with
      | Some (dist', prev', updated) =>
          if updated then relax_loop k' es dist' prev' else Some (dist', prev')
      | None => None
      end
  end.

(** The first edge that can still be relaxed, if any. *)
Fixpoint find_relaxable (dist : dist_map) (es : list (string * string * Z))
  : option (option (string * string * Z)) :=
  match es with
  | [] => Some None
  | e :: es' =>
      match relaxable dist e with
      | Some true => Some (Some e)
      | Some false => find_relaxable dist es'
      | None => None
      end
  end.

(** The inner [for s, t, w in graph.edges(): if t == current and
    dist[s] + w == dist[current]: current = s; break]; the sum is only
    formed for the edges into [current]. *)
Fixpoint find_predecessor (es : list (string * string * Z)) (dist : dist_map)
         (current : string) : option string :=
  match es with
  | [] => Some current
  | (s, t, w) :: es' =>
      if String.eqb t current
      then match Double.add_int (at_ dist s) w with
           | Some d =>
               if Double.eqb d (at_ dist current) then Some s
               else find_predecessor es' dist current
           | None => None
           end
      else find_predecessor es' dist current
  end.

Fixpoint walk_back (room : nat) (es : list (string * string * Z)) (dist : dist_map)
         (cycle : list string) (visited : gset string) (current : string)
  : option (list string) :=
  match room with
  | O => Some cycle
  | S room' =>
      if bool_decide (current ∈ visited) then Some cycle
      else
        match find_predecessor es dist current with
        | Some p => walk_back room' es dist (cycle ++ [current]) ({[current]} ∪ visited) p
        | None => None
        end
  end.

(** [cycle_cost = 0.0; for i in range(len(cycle) - 1): .. cycle_cost += w]:
    the weights are added to the running sum one after the other. *)
Fixpoint cycle_cost_from (es : list (string * string * Z)) (cycle : list string)
         (cycle_cost : Double.t) : option Double.t :=
  match cycle with
  | a :: ((b :: _) as rest) =>
      match find (fun e => let '(s, t, w) := e in String.eqb s a && String.eqb t b) es with
      | Some (_, _, w) =>
          match Double.add_int cycle_cost w with
          | Some c => cycle_cost_from es rest c
          | None => None
          end
      | None => cycle_cost_from es rest cycle_cost
      end
  | _ => Some cycle_cost
  end.

(** [None] is [OverflowError]; [Some None] is "no cycle found". *)
Definition _detect_negative_cycle (g : Graph.t) (dist : dist_map)
  : option (option (list string * Double.t)) :=
  let es := Graph.edges g in
  match find_relaxable dist es with
  | Some (Some (source, target, _)) =>
      match walk_back (size dist - 1) es dist [target] {[target]} source with
      | Some cycle =>
          match cycle_cost_from es cycle Double.zero with
          | Some c => Some (Some (rev cycle, c))
          | None => None
          end
      | None => None
      end
  | Some None => Some None
  | None => None
  end.

Definition init_dist (ns : list string) (start : string) : dist_map :=
  <[start := Double.zero]> (fold_right (fun n d => <[n := Double.inf]> d) ∅ ns).

(** [BellmanFordAlgorithm.compute]. The outer [option] is [None] only if
    path reconstruction did not finish within [S (length nodes)] steps. *)
Definition compute (g : Graph.t) (start goal : string)
  : option (result64 (list string * Double.t)) :=
  match Graph.validate_nodes_exist g [start; goal] with
  | Raise e => Some (Raise64 (Raised e))
  | Ok _ =>
      let ns := Graph.nodes g in
      let n := length ns in
      match relax_loop (n - 1) (Graph.edges g) (init_dist ns start)
                       (BellmanFord.init_prev ns) with
      | None => Some (Raise64 OverflowError)
      | Some (dist, prev) =>
          match _detect_negative_cycle g dist with
          | None => Some (Raise64 OverflowError)
          | Some (Some (cycle, cycle_cost)) => Some (Raise64 (NegativeCycle64 cycle cycle_cost))
          | Some None =>
              if Double.eqb (at_ dist goal) Double.inf
              then Some (Raise64 (Raised (ValueError (NoPathExists start goal))))
              else option_map (fun p => Ok64 (p, at_ dist goal))
                              (BellmanFord._reconstruct_path (S n) prev goal)
          end
      end
  end.

End BellmanFord64.

(** *** [core/algorithms/dijkstra.py] *)

Module Dijkstra64.

Abbreviation dist_map := (gmap string Double.t).
Abbreviation prev_map := (gmap string (option string)).

Definition heap := list (Double.t * string).

(** Python tuple comparison [a <= b] on [(float, str)]. *)
Definition tuple_leb (a b : Double.t * string) : bool :=
  Double.ltb (fst a) (fst b) || (Double.eqb (fst a) (fst b) && String.leb (snd a) (snd b)).

Definition heap_min (x : Double.t * string) (h : heap) : Double.t * string :=
  fold_left (fun m y => if tuple_leb m y then m else y) h x.

Fixpoint remove_first (x : Double.t * string) (h : heap) : heap :=
  match h with
  | [] => []
  | y :: h' => if bool_decide (y = x) then h' else y :: remove_first x h'
  end.

Definition heappush (h : heap) (x : Double.t * string) : heap := x :: h.

Definition heappop (h : heap) : option (Double.t * string * heap) :=
  match h with
  | [] => None
  | x :: h' => let m := heap_min x h' in Some (m, remove_first m h)
  end.

(** Body of [for neighbor, weight in graph.neighbors(node).items()];
    [None] is [OverflowError]. *)
Definition relax_neighbor (node : string) (cost : Double.t) (visited : gset string)
           (st : dist_map * prev_map * heap) (nw : string * Z)
  : option (dist_map * prev_map * heap) :=
  let '(dist, prev, h) := st in
  let '(neighbor, weight) := nw in
  if bool_decide (neighbor ∈ visited) then Some st
  else
    match Double.add_int cost weight with
    | Some new_cost =>
        if Double.ltb new_cost (default Double.inf (dist !! neighbor))
        then Some (<[neighbor := new_cost]> dist, <[neighbor := Some node]> prev,
                   heappush h (new_cost, neighbor))
        else Some st
    | None => None
    end.

(** The [while heap:] loop; [fuel] bounds the number of pops. *)
Fixpoint loop (fuel : nat) (g : Graph.t) (start goal : string)
         (dist : dist_map) (prev : prev_map) (h : heap) (visited : gset string)
  : option (result64 (list string * Double.t)) :=
  match fuel with
  | O => None
  | S fuel' =>
      match heappop h with
      | None => Some (Raise64 (Raised (ValueError (NoPathExists start goal))))
      | Some ((cost, node), h') =>
          if bool_decide (node ∈ visited)
          then loop fuel' g start goal dist prev h' visited
          else
            let visited' := {[node]} ∪ visited in
            if String.eqb node goal
            then option_map (fun p => Ok64 (p, cost))
                   (BellmanFord._reconstruct_path (S (length (Graph.nodes g))) prev goal)
            else
              match fold_left_opt (relax_neighbor node cost visited')
                                  (Graph.neighbors g node) (dist, prev, h') with
              | Some (dist', prev', h'') => loop fuel' g start goal dist' prev' h'' visited'
              | None => Some (Raise64 OverflowError)
              end
      end
  end.

(** [DijkstraAlgorithm.compute] *)
Definition compute (g : Graph.t) (start goal : string)
  : option (result64 (list string * Double.t)) :=
  if Graph.has_negative_weights g
  then Some (Raise64 (Raised (ValueError (NegativeWeights (Graph.min_weight g)))))
  else
    match Graph.validate_nodes_exist g [start; goal] with
    | Raise e => Some (Raise64 (Raised e))
    | Ok _ =>
        loop (2 + length (Graph.edges g)) g start goal
             {[start := Double.zero]} {[start := None]} [(Double.zero, start)] ∅
    end.

End Dijkstra64.

(** ** From exact integers to doubles *)

Definition ext_to_double (x : ext) : Double.t :=
  match x with
  | Fin z => Double.of_Z z
  | Inf => Double.inf
  end.

(** An outcome of the exact algorithms, with its cost written as a double. *)
Definition in_double (r : result (list string * Z)) : result64 (list string * Double.t) :=
  match r with
  | Ok (p, c) => Ok64 (p, Double.of_Z c)
  | Raise (NegativeCycleError cycle c) => Raise64 (NegativeCycle64 cycle (Double.of_Z c))
  | Raise e => Raise64 (Raised e)
  end.

(** The largest absolute value of an edge weight. *)
Definition max_abs_weight (g : Graph.t) : Z :=
  fold_right (fun e m => Z.max (Z.abs (wgt e)) m) 0 (Graph.edges g).

(** Every sum the two algorithms can form on [g] stays below [2^53]. *)
Definition sums_exact (g : Graph.t) : Prop :=
  (Z.of_nat (length (Graph.nodes g)) + 1) * (Z.of_nat (length (Graph.edges g)) + 2)
  * max_abs_weight g < 2 ^ 53.

(** All finite distances are at most [B] in absolute value. *)
Definition within (B : Z) (dist : BellmanFord.dist_map) : Prop :=
  forall v d, dist !! v = Some (Fin d) -> Z.abs d <= B.

Definition dist64 (dist : BellmanFord.dist_map) : BellmanFord64.dist_map :=
  ext_to_double <$> dist.

Definition state64 (st : BellmanFord.dist_map * BellmanFord.prev_map * bool)
  : BellmanFord64.dist_map * BellmanFord64.prev_map * bool :=
  (dist64 (fst (fst st)), snd (fst st), snd st).

(** A queue entry and a queue of the exact algorithm, in doubles. *)
Definition entry64 (cx : Z * string) : Double.t * string := (Double.of_Z (fst cx), snd cx).
Definition heap64 (h : Dijkstra.heap) : Dijkstra64.heap := map entry64 h.

(** All recorded distances and queued costs are at most [B] in absolute value. *)
Definition dijkstra_within (B : Z) (dist : Dijkstra.dist_map) (h : Dijkstra.heap) : Prop :=
  (forall v d, dist !! v = Some d -> Z.abs d <= B)
  /\ (forall c x, In (c, x) h -> Z.abs c <= B).

Definition dijkstra_state64 (st : Dijkstra.dist_map * Dijkstra.prev_map * Dijkstra.heap)
  : Dijkstra64.dist_map * Dijkstra64.prev_map * Dijkstra64.heap :=
  (Double.of_Z <$> fst (fst st), snd (fst st), heap64 (snd st)).

(** [algorithm.compute(graph, start, goal)] in doubles. *)
Definition algorithm_compute64 (a : algorithm)
  : Graph.t -> string -> string -> option (result64 (list string * Double.t)) :=
  match a with
  | UseDijkstra => Dijkstra64.compute
  | UseBellmanFord => BellmanFord64.compute
  end.



(** *** [core/validator.py] *)

Module ResultValidator64.

(** [actual_cost = 0.0; for i in range(len(path) - 1): .. actual_cost +=
    neighbors[target]]: a missing edge raises [ValidationError], a weight
    too large for a double [OverflowError], whichever comes first. *)
Fixpoint actual_cost_from (g : Graph.t) (path : list string) (actual_cost : Double.t)
  : result64 Double.t :=
  match path with
  | source :: ((target :: _) as rest) =>
      match Graph.get (Graph.neighbors g source) target with
      | Some w =>
          match Double.add_int actual_cost w with
          | Some c => actual_cost_from g rest c
          | None => Raise64 OverflowError
          end
      | None => Raise64 (Raised ValidationError)
      end
  | _ => Ok64 actual_cost
  end.

(** The literal [1e-6]: the double [0x1.0c6f7a0b5ed8dp-20]. *)
Definition tolerance : Double.t := S754_finite false 4722366482869645 (-72).

Definition validate_path (g : Graph.t) (path : list string) (expected_cost : Double.t)
  : result64 unit :=
  if (length path <? 2)%nat then Raise64 (Raised ValidationError)
  else
    match actual_cost_from g path Double.zero with
    | Ok64 actual_cost =>
        if Double.ltb tolerance (Double.abs (Double.sub actual_cost expected_cost))
        then Raise64 (Raised ValidationError)
        else Ok64 tt
    | Raise64 e => Raise64 e
    end.

End ResultValidator64.

(** ** [oswe-mini-secondary/src/routing_service] in double precision

    [graph.py] stores [float(weight)], so the adjacency structure holds
    doubles and [cost + weight] adds two doubles. *)

Module RoutingService64.

(** [_adj : Dict[str, Dict[str, float]]] *)
Definition graph := list (string * list (string * Double.t)).

(** [Graph.add_edge]; [None] is the [OverflowError] of [float(weight)]. *)
Definition add_edge (g : graph) (source target : string) (weight : Z) : option graph :=
  let g1 := if Graph.mem source g then g else Graph.set g source [] in
  match Double.of_int weight with
  | Some w =>
      let g2 := Graph.set g1 source (Graph.set (default [] (Graph.get g1 source)) target w) in
      Some (if Graph.mem target g2 then g2 else Graph.set g2 target [])
  | None => None
  end.

Definition from_edge_list (es : list edge) : option graph :=
  fold_left_opt (fun g e => add_edge g (fst (fst e)) (snd (fst e)) (snd e)) es [].

Definition neighbors (g : graph) (node : string) : list (string * Double.t) :=
  default [] (Graph.get g node).

Definition has_negative_weight (g : graph) : bool :=
  existsb (fun sn => existsb (fun tw => Double.ltb (snd tw) Double.zero) (snd sn)) g.

Definition relax_neighbor (node : string) (cost : Double.t)
           (st : Dijkstra64.dist_map * Dijkstra64.prev_map * Dijkstra64.heap)
           (nw : string * Double.t)
  : Dijkstra64.dist_map * Dijkstra64.prev_map * Dijkstra64.heap :=
  let '(dist, prev, h) := st in
  let '(neighbor, weight) := nw in
  let new_cost := Double.add cost weight in
  if Double.ltb new_cost (default Double.inf (dist !! neighbor))
  then (<[neighbor := new_cost]> dist, <[neighbor := Some node]> prev,
        Dijkstra64.heappush h (new_cost, neighbor))
  else st.

Fixpoint loop (fuel : nat) (g : graph) (goal : string)
         (dist : Dijkstra64.dist_map) (prev : Dijkstra64.prev_map) (h : Dijkstra64.heap)
         (visited : gset string)
  : option (list string * Double.t + RoutingService.error) :=
  match fuel with
  | O => None
  | S fuel' =>
      match Dijkstra64.heappop h with
      | None => Some (inr RoutingService.LookupError_no_path)
      | Some ((cost, node), h') =>
          if bool_decide (node ∈ visited)
          then loop fuel' g goal dist prev h' visited
          else
            let visited' := {[node]} ∪ visited in
            if String.eqb node goal
            then option_map (fun p => inl (p, cost))
                   (BellmanFord._reconstruct_path (S (length g)) prev goal)
            else if Double.ltb (default Double.inf (dist !! node)) cost
            then loop fuel' g goal dist prev h' visited'
            else
              let '(dist', prev', h'') :=
                fold_left (relax_neighbor node cost) (neighbors g node) (dist, prev, h') in
              loop fuel' g goal dist' prev' h'' visited'
      end
  end.

Definition dijkstra_shortest_path (g : graph) (start goal : string)
  : option (list string * Double.t + RoutingService.error) :=
  if has_negative_weight g then Some (inr RoutingService.ValidationError_negative)
  else loop (2 + length (flat_map snd g)) g goal
            {[start := Double.zero]} {[start := None]} [(Double.zero, start)] ∅.

End RoutingService64.

(** A dict with its values mapped. *)
Definition map_values {V W} (f : V -> W) (d : list (string * V)) : list (string * W) :=
  map (fun kv => (fst kv, f (snd kv))) d.

(** The adjacency structure of exact weights, as [graph.py] stores it. *)
Definition graph64 (g : Graph.t) : RoutingService64.graph :=
  map_values (map_values Double.of_Z) g.

(** An outcome of the second Dijkstra, with its cost written as a double. *)
Definition second_in_double (r : list string * Z + RoutingService.error)
  : list string * Double.t + RoutingService.error :=
  match r with
  | inl (p, c) => inl (p, Double.of_Z c)
  | inr e => inr e
  end.

(** ** [routing_v2._has_negative_cycle] in double precision *)

Fixpoint iter_opt {A} (n : nat) (f : A -> option A) (a : A) : option A :=
  match n with
  | O => Some a
  | S n' =>
      match iter_opt n' f a with
      | Some a' => f a'
      | None => None
      end
  end.

Module RoutingV2_64.

Definition at_ (dist : gmap string Double.t) (k : string) : Double.t :=
  default Double.inf (dist !! k).

(** [if dist[u] + weight < dist[v]: dist[v] = dist[u] + weight]; [None] is
    the [OverflowError] of an integer weight too large for a double. *)
Definition relax_one (u : string) (d : gmap string Double.t) (vw : string * Z)
  : option (gmap string Double.t) :=
  match Double.add_int (at_ d u) (snd vw) with
  | Some x => Some (if Double.ltb x (at_ d (fst vw)) then <[fst vw := x]> d else d)
  | None => None
  end.

(** [for u in nodes: if dist[u] == inf: continue; for v, weight in ..] *)
Definition relax_from (g : RoutingV2.Graph) (dist : gmap string Double.t) (u : string)
  : option (gmap string Double.t) :=
  if Double.eqb (at_ dist u) Double.inf then Some dist
  else fold_left_opt (relax_one u) (RoutingV2.neighbors g u) dist.

(** The last loop over the neighbours of [u]: [Some true] is [return True]. *)
Fixpoint scan_neighbors (dist : gmap string Double.t) (u : string) (nbs : list (string * Z))
  : option bool :=
  match nbs with
  | [] => Some false
  | vw :: nbs' =>
      match Double.add_int (at_ dist u) (snd vw) with
      | Some x => if Double.ltb x (at_ dist (fst vw)) then Some true
                  else scan_neighbors dist u nbs'
      | None => None
      end
  end.

Fixpoint scan (g : RoutingV2.Graph) (dist : gmap string Double.t) (ns : list string)
  : option bool :=
  match ns with
  | [] => Some false
  | u :: ns' =>
      if Double.eqb (at_ dist u) Double.inf then scan g dist ns'
      else match scan_neighbors dist u (RoutingV2.neighbors g u) with
           | Some false => scan g dist ns'
           | other => other
           end
  end.

(** [_has_negative_cycle]; [None] is [OverflowError]. *)
Definition _has_negative_cycle (g : RoutingV2.Graph) : option bool :=
  match RoutingV2.nodes g with
  | [] => Some false
  | first :: _ =>
      let ns := RoutingV2.nodes g in
      let dist0 := <[first := Double.zero]>
                     (fold_right (fun n d => <[n := Double.inf]> d) ∅ ns) in
      match iter_opt (length ns - 1) (fun d => fold_left_opt (relax_from g) ns d) dist0 with
      | Some dist => scan g dist ns
      | None => None
      end
  end.

End RoutingV2_64.

(** The number of pairs the loops of [_has_negative_cycle] visit in one pass. *)
Definition pairs_of (g : RoutingV2.Graph) (ns : list string) : nat :=
  length (flat_map (RoutingV2.neighbors g) ns).

(** ** [routing.py] in double precision: [compute_route] after a cache miss

    The steps between the cache lookup and the cache store, with the costs
    as the algorithms return them (doubles). *)

Module RoutingEngine64.

Record ErrorInfo : Type := {
  code : string;
  details : option (list string * Double.t);
}.

Record RouteResponse : Type := {
  response_request_id : string;
  status : string;
  path : option (list string);
  cost : option Double.t;
  metadata : option Metadata;
  error : option ErrorInfo;
}.

Definition _error_response (request : RouteRequest) (status error_code : string)
           (details : option (list string * Double.t)) : RouteResponse :=
  {| response_request_id := request_id request;
     status := status;
     path := None; cost := None; metadata := None;
     error := Some {| code := error_code; details := details |} |}.

(** The [except] clauses of [compute_route], in source order;
    [OverflowError] falls to [except Exception]. *)
Definition handle_exception (request : RouteRequest) (e : raised64) : RouteResponse :=
  match e with
  | NegativeCycle64 cycle cycle_cost =>
      _error_response request "error" "NEGATIVE_CYCLE_DETECTED" (Some (cycle, cycle_cost))
  | Raised (NegativeCycleError cycle cycle_cost) =>
      _error_response request "error" "NEGATIVE_CYCLE_DETECTED"
                      (Some (cycle, Double.of_Z cycle_cost))
  | Raised TimeoutError => _error_response request "timeout" "COMPUTATION_TIMEOUT" None
  | Raised CircuitBreakerOpenError =>
      _error_response request "error" "CIRCUIT_BREAKER_OPEN" None
  | Raised (GraphValidationError _) => _error_response request "error" "INVALID_GRAPH" None
  | Raised ValidationError => _error_response request "error" "INVALID_RESULT" None
  | Raised (ValueError _) => _error_response request "error" "INVALID_INPUT" None
  | Raised IOError | Raised TransientError | Raised OtherException | OverflowError =>
      _error_response request "error" "INTERNAL_ERROR" None
  end.

Section Compute.

Context {W : Type}.
Variable alarm_fires : Z -> W -> bool.

(** [with timeout(timeout_ms / 1000.0, ..): path, cost = algorithm.compute(..)].
    [signal.setitimer] refuses a negative time and one beyond
    [timer_limit_ms] before the body runs; a time of [0] arms no timer, so
    the body runs unguarded; otherwise the alarm interrupts a body that is
    still running when it goes off. [None]: the statement never ends. *)
Definition with_timeout {A} (timeout_ms : Z) (w : W) (body : option (result64 A))
  : option (result64 A) :=
  if timeout_ms <? 0 then Some (Raise64 (Raised IOError))
  else if timer_limit_ms <? timeout_ms then Some (Raise64 (Raised OtherException))
  else if timeout_ms =? 0 then body
  else
    match body with
    | None => Some (Raise64 (Raised TimeoutError))
    | Some r => Some (if alarm_fires timeout_ms w then Raise64 (Raised TimeoutError) else r)
    end.

(** Steps 2-5 of [compute_route]; [None] when the computation never ends. *)
Definition compute_fresh (request : RouteRequest) (loaded : result Graph.t) (w : W)
  : option (result64 RouteResponse) :=
  match loaded with
  | Raise e => Some (Raise64 (Raised e))
  | Ok g =>
      match Graph.validate_nodes_exist g [start_node request; goal_node request] with
      | Raise e => Some (Raise64 (Raised e))
      | Ok _ =>
          match AlgorithmSelector.select g (algorithm_hint request) with
          | Raise e => Some (Raise64 (Raised e))
          | Ok algorithm =>
              match with_timeout (timeout_ms request) w
                      (algorithm_compute64 algorithm g (start_node request)
                                           (goal_node request)) with
              | None => None
              | Some (Raise64 e) => Some (Raise64 e)
              | Some (Ok64 pc) =>
                  match (if validate_result request
                         then ResultValidator64.validate_path g (fst pc) (snd pc)
                         else Ok64 tt) with
                  | Raise64 e => Some (Raise64 e)
                  | Ok64 _ =>
                      Some (Ok64 {| response_request_id := request_id request;
                                    status := "success";
                                    path := Some (fst pc);
                                    cost := Some (snd pc);
                                    metadata :=
                                      Some {| algorithm_used := algorithm_name algorithm;
                                              graph_nodes := length (Graph.nodes g);
                                              graph_edges := length (Graph.edges g);
                                              cache_hit := false |};
                                    error := None |})
                  end
              end
          end
      end
  end.

(** The response [compute_route] returns after a cache miss, if it returns. *)
Definition answer (request : RouteRequest) (loaded : result Graph.t) (w : W)
  : option RouteResponse :=
  match compute_fresh request loaded w with
  | Some (Ok64 response) => Some response
  | Some (Raise64 e) => Some (handle_exception request e)
  | None => None
  end.

End Compute.

End RoutingEngine64.

(** A request for the route from [A] to [D]. *)
Definition request_A_D : RouteRequest :=
  {| request_id := "r1"; graph_id := "g1"; start_node := "A"; goal_node := "D";
     algorithm_hint := "auto"; timeout_ms := 5000; validate_result := true |}.

(** * Properties *)

(** ** Dijkstra's precondition check *)

Lemma has_negative_weights_true (g : Graph.t) :
  Graph.has_negative_weights g = true <-> exists e, negative_edge g e.
Proof.
  unfold Graph.has_negative_weights, negative_edge. rewrite existsb_exists.
  split; intros (e & Hin & Hneg); exists e; split; auto; lia.
Qed.

Lemma has_negative_weight_agrees (g : Graph.t) :
  RoutingService.has_negative_weight g = Graph.has_negative_weights g.
Proof.
  unfold RoutingService.has_negative_weight, Graph.has_negative_weights, Graph.edges.
  induction g as [|[s nb] g IH]; simpl; [reflexivity|].
  rewrite existsb_app, IH. f_equal.
  induction nb as [|[t w] nb IHnb]; simpl; [reflexivity|].
  now rewrite IHnb.
Qed.

(** C3. A graph with a negative edge anywhere makes both Dijkstra
    implementations raise their negative-weight error at once, whatever the
    start and goal are (present or not, connected to that edge or not). *)
Theorem dijkstra_rejects_negative_weights
        (g : Graph.t) (e : string * string * Z) (start goal : string) :
  negative_edge g e ->
  Dijkstra.compute g start goal
    = Some (Raise (ValueError (NegativeWeights (Graph.min_weight g))))
  /\ RoutingService.dijkstra_shortest_path g start goal
    = Some (inr RoutingService.ValidationError_negative).
Proof.
  intros He.
  assert (Hneg : Graph.has_negative_weights g = true)
    by (apply has_negative_weights_true; eauto).
  unfold Dijkstra.compute, RoutingService.dijkstra_shortest_path.
  now rewrite has_negative_weight_agrees, Hneg.
Qed.

Lemma dijkstra_rejects_negative_weights_witness :
  let g := Graph.from_edge_list [("A", "B", 1); ("C", "D", -2)] in
  Dijkstra.compute g "A" "B" = Some (Raise (ValueError (NegativeWeights (-2))))
  /\ RoutingService.dijkstra_shortest_path g "A" "B"
     = Some (inr RoutingService.ValidationError_negative).
Proof.
  apply (dijkstra_rejects_negative_weights
           (Graph.from_edge_list [("A", "B", 1); ("C", "D", -2)]) ("C", "D", -2) "A" "B").
  split; [vm_compute; auto | vm_compute; reflexivity].
Defined.

(** ** State machines *)

Lemma can_transition_allowed (current target : AppointmentState) :
  can_transition current target = true <-> allowed current target.
Proof.
  split.
  - destruct current, target; simpl; intros H; try discriminate; constructor.
  - destruct 1; reflexivity.
Qed.

(** C8, as stated, fails on [StateMachine.transition]: the move from [INIT]
    straight to [SUCCESS] is carried out. *)
Lemma state_machine_accepts_init_to_success :
  StateMachine.state (StateMachine.transition StateMachine.init PS_SUCCESS "")
    = PS_SUCCESS
  /\ StateMachine.state (StateMachine.transition StateMachine.init PS_SUCCESS "")
    <> StateMachine.state StateMachine.init.
Proof. split; [reflexivity | discriminate]. Qed.

(** C8, amended. The raptor table allows exactly the eight transitions of
    [allowed]; [transition] refuses every other pair with [(False, reason)],
    in particular [INIT -> CONFIRMED] and everything out of [COMPENSATED],
    and being a pure check it changes no state. [StateMachine.transition]
    checks nothing: it moves to whatever state is asked for and appends the
    state it left, with the reason, to the history. *)
Theorem state_machine_transitions :
  (forall current target,
      transition current target
      = if can_transition current target then (true, None) else (false, Some (current, target)))
  /\ (forall current target, can_transition current target = true <-> allowed current target)
  /\ (forall current target,
         ~ allowed current target -> transition current target = (false, Some (current, target)))
  /\ transition INIT CONFIRMED = (false, Some (INIT, CONFIRMED))
  /\ (forall target, transition COMPENSATED target = (false, Some (COMPENSATED, target)))
  /\ (forall sm new_state reason,
         StateMachine.state (StateMachine.transition sm new_state reason) = new_state
         /\ StateMachine.history (StateMachine.transition sm new_state reason)
            = (StateMachine.history sm ++ [(StateMachine.state sm, reason)])%list).
Proof.
  split; [reflexivity|].
  split; [exact can_transition_allowed|].
  split.
  { intros current target Hno. unfold transition.
    destruct (can_transition current target) eqn:E; [|reflexivity].
    apply can_transition_allowed in E. contradiction. }
  split; [reflexivity|].
  split; [intros target; now destruct target|].
  intros sm new_state reason. split; reflexivity.
Qed.

(** ** The routing engine after a cache miss *)

Section EngineFacts.

Variable sha256_hexdigest : string -> string.
Context {W : Type}.
Variable clock : W -> Z.
Variable sleep : Z -> W -> W.
Variable alarm_fires : Z -> W -> bool.

Local Abbreviation engine := (@RoutingEngine W).
Local Abbreviation run := (compute_route sha256_hexdigest clock sleep alarm_fires).
Local Abbreviation lookup eng request w :=
  (get sha256_hexdigest (clock w) (cache eng) (request_id request) [] (request_kwargs request)).

Lemma compute_route_miss (eng : engine) (request : RouteRequest) (w : W) :
  fst (lookup eng request w) = None ->
  fst (fst (run eng request w))
  = let '(loaded, (_, w1)) := _load_graph_resilient clock sleep eng (graph_id request) w in
    match compute_fresh alarm_fires request loaded w1 with
    | Ok response => response
    | Raise e => handle_exception request e
    end.
Proof.
  intros Hmiss. unfold compute_route.
  destruct (get _ _ _ _ _ _) as [cached cache1]. simpl in Hmiss. subst cached.
  destruct (_load_graph_resilient _ _ _ _ _) as [loaded [cb1 w1]].
  now destruct (compute_fresh _ _ _ _).
Qed.

Lemma new_engine_miss (loader : string -> W -> result Graph.t * W)
      (request : RouteRequest) (w : W) :
  fst (lookup (new_engine loader) request w) = None.
Proof.
  unfold get, get_key. simpl. now rewrite lookup_empty.
Qed.

(** With the breaker closed, a loader that succeeds at once is called once. *)
Lemma load_closed_ok (eng : engine) (gid : string) (w w' : W) (g : Graph.t) :
  state (circuit_breaker eng) = CLOSED ->
  _graph_loader eng gid w = (Ok g, w') ->
  _load_graph_resilient clock sleep eng gid w = (Ok g, (circuit_breaker eng, w')).
Proof.
  intros Hst Hload. unfold _load_graph_resilient. simpl.
  unfold call. simpl. rewrite Hst, Hload. unfold _on_success. now rewrite Hst.
Qed.

(** The engine has no code of its own for an empty graph: the missing
    start node is reported as [INVALID_GRAPH]. *)
Lemma routing_engine_empty_graph (eng : engine) (request : RouteRequest) (w : W) :
  fst (lookup eng request w) = None ->
  fst (_load_graph_resilient clock sleep eng (graph_id request) w) = Ok Graph.empty ->
  fst (fst (run eng request w)) = _error_response request "error" "INVALID_GRAPH" None.
Proof.
  intros Hmiss Hload. rewrite compute_route_miss by assumption.
  destruct (_load_graph_resilient _ _ _ _ _) as [loaded [cb1 w1]].
  simpl in Hload. subst loaded.
  unfold compute_fresh. simpl bind. reflexivity.
Qed.

End EngineFacts.

(** ** The empty graph *)

Section EmptyGraphV2.

Variable sha256_hexdigest : string -> string.
Variable json_dumps : list RoutingV2.Edge -> string.
Variable _compute_with_retry :
  RoutingV2.Graph -> string -> string -> string -> RoutingV2.RoutingConfig
  -> option (list string * Z * string).

(** [routing_v2] answers a request on a graph without nodes with
    [EMPTY_GRAPH], unless an unexpired cache entry is returned instead. *)
Lemma routing_v2_empty_graph
      (now : Z) (s : RoutingV2.RoutingService) (g : RoutingV2.Graph)
      (start goal request_id : string) (cfg : RoutingV2.RoutingConfig) :
  RoutingV2.nodes g = [] ->
  (RoutingV2.cache_enabled cfg = true ->
   fst (RoutingV2._get_cached_result sha256_hexdigest json_dumps now s g start goal) = None) ->
  exists r s',
    RoutingV2.compute_shortest_path sha256_hexdigest json_dumps _compute_with_retry
      now s g start goal request_id cfg = Some (r, s')
    /\ RoutingV2.status r = "error"
    /\ RoutingV2.error_code r = Some "EMPTY_GRAPH"
    /\ RoutingV2.path r = None /\ RoutingV2.cost r = None.
Proof.
  intros Hnodes Hmiss.
  assert (Hval : RoutingV2._validate_graph g start goal = Some (false, ["EMPTY_GRAPH"])).
  { unfold RoutingV2._validate_graph. now rewrite Hnodes. }
  unfold RoutingV2.compute_shortest_path.
  destruct (RoutingV2.cache_enabled cfg).
  - specialize (Hmiss eq_refl).
    destruct (RoutingV2._get_cached_result _ _ _ _ _ _ _) as [cached s1].
    simpl in Hmiss. subst cached.
    unfold RoutingV2.compute_uncached. rewrite Hval. eauto 10.
  - unfold RoutingV2.compute_uncached. rewrite Hval. eauto 10.
Qed.

End EmptyGraphV2.

(** C9, as stated, fails on the routing engine: a fresh engine whose loader
    delivers the empty graph answers [INVALID_GRAPH], not [EMPTY_GRAPH]. *)
Lemma routing_engine_empty_graph_is_invalid_graph :
  let response :=
    fst (fst (compute_route (fun s => s) (fun w => w) (fun secs w => w + secs) (fun _ _ => false)
                (new_engine (constant_loader Graph.empty)) (request_A_B "r1" "g1") 0)) in
  option_map code (error response) = Some "INVALID_GRAPH"
  /\ option_map code (error response) <> Some "EMPTY_GRAPH".
Proof.
  split; [vm_compute; reflexivity | vm_compute; discriminate].
Qed.

(** C9, amended. On a graph without nodes, [routing_v2]'s
    [compute_shortest_path] fails with [EMPTY_GRAPH] whenever it does not
    return a cached result, and the routing engine's [compute_route], once
    it has loaded such a graph after a cache miss, fails with
    [INVALID_GRAPH]; neither returns a path or a cost. *)
Theorem empty_graph_error_codes :
  (forall sha256_hexdigest json_dumps _compute_with_retry
          now s g start goal request_id cfg,
      RoutingV2.nodes g = [] ->
      (RoutingV2.cache_enabled cfg = true ->
       fst (RoutingV2._get_cached_result sha256_hexdigest json_dumps now s g start goal) = None) ->
      exists r s',
        RoutingV2.compute_shortest_path sha256_hexdigest json_dumps _compute_with_retry
          now s g start goal request_id cfg = Some (r, s')
        /\ RoutingV2.status r = "error"
        /\ RoutingV2.error_code r = Some "EMPTY_GRAPH"
        /\ RoutingV2.path r = None /\ RoutingV2.cost r = None)
  /\ (forall sha256_hexdigest (W : Type) (clock : W -> Z) sleep alarm_fires
             (eng : @RoutingEngine W) request w,
         fst (get sha256_hexdigest (clock w) (cache eng) (request_id request) []
                  (request_kwargs request)) = None ->
         fst (_load_graph_resilient clock sleep eng (graph_id request) w) = Ok Graph.empty ->
         let response := fst (fst (compute_route sha256_hexdigest clock sleep alarm_fires
                                     eng request w)) in
         status response = "error"
         /\ option_map code (error response) = Some "INVALID_GRAPH"
         /\ path response = None /\ cost response = None).
Proof.
  split.
  - intros. now apply routing_v2_empty_graph.
  - intros sha W clock sleep alarm eng request w Hmiss Hload. cbv zeta.
    rewrite (routing_engine_empty_graph sha clock sleep alarm eng request w Hmiss Hload).
    repeat split.
Qed.

Lemma empty_graph_error_codes_witness :
  (exists r s',
      RoutingV2.compute_shortest_path (fun s => s) (fun _ => "") (fun _ _ _ _ _ => None)
        0 new_service_v2 empty_graph_v2 "A" "B" "r1" default_config_v2 = Some (r, s')
      /\ RoutingV2.status r = "error"
      /\ RoutingV2.error_code r = Some "EMPTY_GRAPH"
      /\ RoutingV2.path r = None /\ RoutingV2.cost r = None)
  /\ (let response :=
        fst (fst (compute_route (fun s => s) (fun w => w) (fun secs w => w + secs)
                    (fun _ _ => false)
                    (new_engine (constant_loader Graph.empty)) (request_A_B "r1" "g1") 0)) in
      status response = "error"
      /\ option_map code (error response) = Some "INVALID_GRAPH"
      /\ path response = None /\ cost response = None).
Proof.
  split.
  - apply (proj1 empty_graph_error_codes); [reflexivity | intros _; vm_compute; reflexivity].
  - apply (proj2 empty_graph_error_codes (fun s => s) Z (fun w => w) (fun secs w => w + secs)
             (fun _ _ => false) (new_engine (constant_loader Graph.empty))
             (request_A_B "r1" "g1") 0);
      vm_compute; reflexivity.
Defined.

Lemma state_machine_transitions_witness :
  transition FAILED CONFIRMED = (false, Some (FAILED, CONFIRMED)).
Proof.
  apply (proj1 (proj2 (proj2 state_machine_transitions)) FAILED CONFIRMED).
  inversion 1.
Defined.

(** ** The example graph *)

Lemma example_graph_edges :
  Graph.edges example_graph
  = [("A", "B", 5); ("A", "C", 2); ("A", "E", 1); ("C", "D", 1);
     ("D", "F", -3); ("F", "B", 1); ("E", "B", 6)].
Proof. reflexivity. Qed.

Lemma example_graph_bellman_ford :
  BellmanFord.compute example_graph "A" "B" = Some (Ok (["A"; "C"; "D"; "F"; "B"], 1)).
Proof. vm_compute. reflexivity. Qed.

(** C4. On the example graph a request from [A] to [B] with hint ["auto"]
    makes the selector choose Bellman-Ford, because an edge is negative, and
    a fresh engine whose loader delivers that graph answers with the path
    [A, C, D, F, B] at cost 1 (provided the timeout alarm does not go off). *)
Theorem example_route_uses_bellman_ford
        (sha256_hexdigest : string -> string) (W : Type) (clock : W -> Z)
        (sleep : Z -> W -> W) (alarm_fires : Z -> W -> bool)
        (loader : string -> W -> result Graph.t * W)
        (rid gid : string) (w w' : W) :
  loader gid w = (Ok example_graph, w') ->
  alarm_fires 5000 w' = false ->
  Graph.has_negative_weights example_graph = true
  /\ AlgorithmSelector.select example_graph "auto" = Ok UseBellmanFord
  /\ fst (fst (compute_route sha256_hexdigest clock sleep alarm_fires
                 (new_engine loader) (request_A_B rid gid) w))
     = {| response_request_id := rid;
          status := "success";
          path := Some ["A"; "C"; "D"; "F"; "B"];
          cost := Some 1;
          metadata := Some {| algorithm_used := "bellman_ford"; graph_nodes := 6;
                              graph_edges := 7; cache_hit := false |};
          error := None |}.
Proof.
  intros Hload Halarm.
  split; [reflexivity|]. split; [reflexivity|].
  rewrite compute_route_miss by apply new_engine_miss.
  cbn [request_A_B graph_id].
  rewrite (load_closed_ok clock sleep (new_engine loader) gid w w' example_graph)
    by (reflexivity || exact Hload).
  unfold compute_fresh. cbn [request_A_B start_node goal_node algorithm_hint timeout_ms
                             validate_result request_id].
  assert (Hsel : AlgorithmSelector.select example_graph "auto" = Ok UseBellmanFord)
    by reflexivity.
  assert (Hval : Graph.validate_nodes_exist example_graph ["A"; "B"] = Ok tt)
    by reflexivity.
  cbn [bind]. rewrite Hval. cbn [bind]. rewrite Hsel. cbn [bind algorithm_compute].
  rewrite example_graph_bellman_ford. unfold with_timeout.
  change (5000 <? 0) with false. change (timer_limit_ms <? 5000) with false.
  change (negb (5000 =? 0)) with true. cbv iota.
  rewrite Halarm. cbn [andb bind fst snd].
  assert (Hres : ResultValidator.validate_path example_graph ["A"; "C"; "D"; "F"; "B"] 1 = Ok tt)
    by reflexivity.
  rewrite Hres. reflexivity.
Qed.

Lemma example_route_uses_bellman_ford_witness :
  fst (fst (compute_route (fun s => s) (fun w => w) (fun secs w => w + secs) (fun _ _ => false)
              (new_engine (constant_loader example_graph)) (request_A_B "r1" "g1") 0))
  = {| response_request_id := "r1";
       status := "success";
       path := Some ["A"; "C"; "D"; "F"; "B"];
       cost := Some 1;
       metadata := Some {| algorithm_used := "bellman_ford"; graph_nodes := 6;
                           graph_edges := 7; cache_hit := false |};
       error := None |}.
Proof.
  apply (example_route_uses_bellman_ford (fun s => s) Z (fun w => w) (fun secs w => w + secs)
           (fun _ _ => false) (constant_loader example_graph) "r1" "g1" 0 0);
    reflexivity.
Defined.

(** ** The circuit breaker *)

Lemma reachable_breaker_parameters threshold duration expected cb :
  reachable_breaker threshold duration expected cb ->
  failure_threshold cb = threshold /\ timeout_duration cb = duration
  /\ expected_exceptions cb = expected.
Proof.
  induction 1 as [|W A clock cb cb' func w w' r Hreach IH Hcall]; [now repeat split|].
  unfold call in Hcall.
  destruct IH as (IH1 & IH2 & IH3).
  destruct (state cb) eqn:Hst;
    try destruct (_should_attempt_reset (clock w) cb);
    try (inversion Hcall; subst; now repeat split);
    destruct (func w) as [[a|e] w1];
    try destruct (expected_exceptions _ e);
    inversion Hcall; subst; unfold _on_success, _on_failure, set_state;
    simpl; try rewrite Hst; simpl; now repeat split.
Qed.

(** The breaker is away from [CLOSED] only while its failure counter is at
    or above the threshold. *)
Lemma reachable_breaker_open_count threshold duration expected cb :
  reachable_breaker threshold duration expected cb ->
  state cb <> CLOSED -> threshold <= failure_count cb.
Proof.
  induction 1 as [|W A clock cb cb' func w w' r Hreach IH Hcall]; [now intros []|].
  pose proof (reachable_breaker_parameters _ _ _ _ Hreach) as (Hth & _ & _).
  unfold call in Hcall.
  destruct (state cb) eqn:Hst.
  - (* CLOSED *)
    destruct (func w) as [[a|e] w1].
    + inversion Hcall; subst. unfold _on_success. rewrite Hst. congruence.
    + destruct (expected_exceptions cb e); inversion Hcall; subst; [|congruence].
      unfold _on_failure. simpl. rewrite Hst.
      destruct (failure_threshold cb <=? failure_count cb + 1) eqn:E; [lia | congruence].
  - (* OPEN *)
    assert (Hc : failure_threshold cb <= failure_count cb) by (rewrite Hth; now apply IH).
    destruct (_should_attempt_reset (clock w) cb).
    + destruct (func w) as [[a|e] w1].
      * inversion Hcall; subst. now intros [].
      * simpl in Hcall. destruct (expected_exceptions cb e); inversion Hcall; subst; simpl; lia.
    + inversion Hcall; subst. lia.
  - (* HALF_OPEN *)
    assert (Hc : failure_threshold cb <= failure_count cb) by (rewrite Hth; now apply IH).
    destruct (func w) as [[a|e] w1].
    + inversion Hcall; subst. unfold _on_success. rewrite Hst. now intros [].
    + destruct (expected_exceptions cb e); inversion Hcall; subst; simpl; lia.
Qed.

(** C5, as stated, fails: with threshold 2 the run failure, success,
    failure opens the breaker, and the success in between leaves the
    counter at 1. *)
Lemma breaker_counts_failures_across_successes :
  let cb0 := new_breaker 2 60 (fun _ => true) in
  let cb1 := after_call cb0 0 (Raise IOError) in
  let cb2 := after_call cb1 1 (Ok tt) in
  let cb3 := after_call cb2 2 (Raise IOError) in
  state cb1 = CLOSED /\ state cb2 = CLOSED /\ failure_count cb2 = 1 /\ state cb3 = OPEN.
Proof. repeat split. Qed.

(** C5, amended. The breaker counts failures (exceptions of the expected
    kinds) cumulatively: a success while [CLOSED] changes nothing, a failure
    while [CLOSED] adds one and opens the breaker as soon as the counter
    reaches the threshold, and a breaker reached from a new one is away from
    [CLOSED] only with its counter at or above the threshold. While [OPEN]
    and before [timeout_duration] has passed since the last failure, a call
    is answered with [CircuitBreakerOpenError] and the callable is not run.
    Once that time has passed the next call is run as a trial: its success
    closes the breaker and resets the counter, its failure opens the breaker
    again with the time of that failure. *)
Theorem circuit_breaker_behaviour :
  (* success while CLOSED *)
  (forall W A (clock : W -> Z) cb (func : W -> result A * W) w a w1,
      state cb = CLOSED -> func w = (Ok a, w1) ->
      call clock cb func w = (Ok a, cb, w1))
  (* failure while CLOSED *)
  /\ (forall W A (clock : W -> Z) cb (func : W -> result A * W) w e w1,
         state cb = CLOSED -> func w = (Raise e, w1) -> expected_exceptions cb e = true ->
         exists cb', call clock cb func w = (Raise e, cb', w1)
                     /\ failure_count cb' = failure_count cb + 1
                     /\ last_failure_time cb' = Some (clock w1)
                     /\ state cb' = if failure_threshold cb <=? failure_count cb + 1
                                    then OPEN else CLOSED)
  (* only a counter at the threshold keeps the breaker from CLOSED *)
  /\ (forall threshold duration expected cb,
         reachable_breaker threshold duration expected cb ->
         state cb <> CLOSED -> threshold <= failure_count cb)
  (* OPEN, before the timeout *)
  /\ (forall W A (clock : W -> Z) cb (func : W -> result A * W) w t,
         state cb = OPEN -> last_failure_time cb = Some t ->
         clock w - t < timeout_duration cb ->
         call clock cb func w = (Raise CircuitBreakerOpenError, cb, w))
  (* OPEN, after the timeout: the trial succeeds *)
  /\ (forall W A (clock : W -> Z) cb (func : W -> result A * W) w t a w1,
         state cb = OPEN -> last_failure_time cb = Some t ->
         timeout_duration cb <= clock w - t -> func w = (Ok a, w1) ->
         exists cb', call clock cb func w = (Ok a, cb', w1)
                     /\ state cb' = CLOSED /\ failure_count cb' = 0)
  (* OPEN, after the timeout: the trial fails *)
  /\ (forall W A (clock : W -> Z) cb (func : W -> result A * W) w t e w1,
         state cb = OPEN -> last_failure_time cb = Some t ->
         timeout_duration cb <= clock w - t -> func w = (Raise e, w1) ->
         expected_exceptions cb e = true ->
         exists cb', call clock cb func w = (Raise e, cb', w1)
                     /\ state cb' = OPEN /\ last_failure_time cb' = Some (clock w1)
                     /\ failure_count cb' = failure_count cb + 1).
Proof.
  split; [|split; [|split; [|split; [|split]]]].
  - intros W A clock cb func w a w1 Hst Hf. unfold call. rewrite Hst, Hf.
    unfold _on_success. now rewrite Hst.
  - intros W A clock cb func w e w1 Hst Hf He. unfold call. rewrite Hst, Hf, He.
    eexists. split; [reflexivity|]. unfold _on_failure. simpl. rewrite Hst.
    repeat split.
  - exact reachable_breaker_open_count.
  - intros W A clock cb func w t Hst Ht Hlt. unfold call, _should_attempt_reset.
    rewrite Hst, Ht.
    destruct (timeout_duration cb <=? clock w - t) eqn:E; [lia | reflexivity].
  - intros W A clock cb func w t a w1 Hst Ht Hge Hf. unfold call, _should_attempt_reset.
    rewrite Hst, Ht.
    destruct (timeout_duration cb <=? clock w - t) eqn:E; [|lia].
    rewrite Hf. eexists. split; [reflexivity|]. now split.
  - intros W A clock cb func w t e w1 Hst Ht Hge Hf He. unfold call, _should_attempt_reset.
    rewrite Hst, Ht.
    destruct (timeout_duration cb <=? clock w - t) eqn:E; [|lia].
    rewrite Hf. simpl. rewrite He. eexists. split; [reflexivity|]. now repeat split.
Qed.

Lemma circuit_breaker_behaviour_witness :
  let cb := after_call (after_call (new_breaker 2 60 (fun _ => true)) 0 (Raise IOError))
                       1 (Raise IOError) in
  call (fun w => w) cb (outcome_now (Ok tt)) 30 = (Raise CircuitBreakerOpenError, cb, 30).
Proof.
  apply (proj1 (proj2 (proj2 (proj2 circuit_breaker_behaviour)))
           Z unit (fun w => w)
           (after_call (after_call (new_breaker 2 60 (fun _ => true)) 0 (Raise IOError))
                       1 (Raise IOError))
           (outcome_now (Ok tt)) 30 1);
    [reflexivity | reflexivity | vm_compute; reflexivity].
Defined.

(** ** The cache key of a request *)

Lemma request_key_fields (sha256_hexdigest : string -> string) (r1 r2 : RouteRequest) :
  same_key_fields r1 r2 ->
  request_key sha256_hexdigest r1 = request_key sha256_hexdigest r2.
Proof.
  intros (Hid & Hg & Hs & Ht). unfold request_key, request_kwargs.
  now rewrite Hid, Hg, Hs, Ht.
Qed.

Lemma string_length_app (a b : string) :
  String.length (a +:+ b) = (String.length a + String.length b)%nat.
Proof. induction a as [|c a IH]; simpl; [reflexivity | now rewrite IH]. Qed.

Lemma string_app_inj_r (a b s : string) : a +:+ s = b +:+ s -> a = b.
Proof.
  revert b. induction a as [|c a IH]; intros [|d b] H.
  - reflexivity.
  - apply (f_equal String.length) in H. rewrite !string_length_app in H.
    cbn [String.length] in H. lia.
  - apply (f_equal String.length) in H. rewrite !string_length_app in H.
    cbn [String.length] in H. lia.
  - simpl in H. inversion H. f_equal. now apply IH.
Qed.

(** The key is the digest of [key_str]. *)
Lemma request_key_str (sha256_hexdigest : string -> string) (r : RouteRequest) :
  request_key sha256_hexdigest r = sha256_hexdigest (key_str r).
Proof. reflexivity. Qed.

(** Changing one of the four fields changes the digested string. *)
Lemma key_str_one_field (r1 r2 : RouteRequest) :
  differ_in_one_key_field r1 r2 -> key_str r1 <> key_str r2.
Proof.
  unfold key_str.
  intros [(Hne & Hg & Hs & Ht) | [(Hid & Hne & Hs & Ht) | [(Hid & Hg & Hne & Ht)
         | (Hid & Hg & Hs & Hne)]]] Heq; apply Hne.
  - rewrite Hg, Hs, Ht in Heq. now apply string_app_inj_r in Heq.
  - rewrite Hid, Hs, Ht in Heq.
    do 4 apply (inj (String.app _)) in Heq.
    now apply string_app_inj_r in Heq.
  - rewrite Hid, Hg, Ht in Heq.
    do 6 apply (inj (String.app _)) in Heq. exact Heq.
  - rewrite Hid, Hg, Hs in Heq.
    do 2 apply (inj (String.app _)) in Heq.
    now apply string_app_inj_r in Heq.
Qed.

Lemma handle_exception_not_success (request : RouteRequest) (e : exn) :
  status (handle_exception request e) <> "success".
Proof. destruct e; simpl; discriminate. Qed.

Section CacheReplay.

Variable sha256_hexdigest : string -> string.
Context {W : Type}.
Variable clock : W -> Z.
Variable sleep : Z -> W -> W.
Variable alarm_fires : Z -> W -> bool.

Local Abbreviation run := (compute_route sha256_hexdigest clock sleep alarm_fires).

(** A lookup leaves the configuration of the cache alone. *)
Lemma get_key_default_ttl {A} (now : Z) (c : IdempotencyCache A) (key : string) :
  default_ttl (snd (get_key now c key)) = default_ttl c.
Proof.
  unfold get_key. destruct (_cache c !! key) as [entry|]; [|reflexivity].
  now destruct (is_expired now entry).
Qed.

(** A key just stored is found as long as its time-to-live has not run out. *)
Lemma get_key_put_key {A} (now now' : Z) (c : IdempotencyCache A)
      (key request_id : string) (result : A) :
  now' - now <= default_ttl c ->
  fst (get_key now' (put_key now c key request_id result None) key) = Some result.
Proof.
  intros Hfresh. unfold get_key, put_key. cbn [_cache].
  rewrite lookup_insert_eq. unfold is_expired. cbn [ttl timestamp entry_result effective_ttl].
  destruct (default_ttl c <? now' - now) eqn:E; [lia | reflexivity].
Qed.

(** Whoever computed a route successfully after a cache miss, a request with
    the same key gets that response back, marked as a cache hit, for as long
    as the entry lives. *)
Lemma compute_route_replay (eng eng1 : @RoutingEngine W) (r1 r2 : RouteRequest)
      (w w1 w2 : W) (response : RouteResponse) :
  request_key sha256_hexdigest r1 = request_key sha256_hexdigest r2 ->
  fst (get sha256_hexdigest (clock w) (cache eng) (request_id r1) [] (request_kwargs r1)) = None ->
  run eng r1 w = (response, eng1, w1) ->
  status response = "success" ->
  clock w2 - clock w1 <= default_ttl (cache eng) ->
  exists m, metadata response = Some m
            /\ fst (fst (run eng1 r2 w2)) = mark_cache_hit response m.
Proof.
  intros Hkey Hmiss Hrun Hok Hfresh.
  unfold compute_route in Hrun.
  destruct (get _ _ _ _ _ _) as [cached cache1] eqn:Hget. simpl in Hmiss. subst cached.
  destruct (_load_graph_resilient _ _ _ _ _) as [loaded [cb1 w1']].
  destruct (compute_fresh _ _ _ _) as [resp|e] eqn:Hfreshly.
  2:{ inversion Hrun; subst. now apply handle_exception_not_success in Hok. }
  inversion Hrun; subst resp eng1 w1'. clear Hrun.
  assert (Hm : exists m, metadata response = Some m).
  { unfold compute_fresh, bind in Hfreshly.
    repeat match type of Hfreshly with
           | match ?x with _ => _ end = _ => destruct x; try discriminate
           end; inversion Hfreshly; simpl; eauto. }
  destruct Hm as [m Hm]. exists m. split; [assumption|].
  unfold compute_route. cbn [cache].
  unfold get, put.
  fold (request_key sha256_hexdigest r1). fold (request_key sha256_hexdigest r2).
  rewrite <- Hkey.
  assert (Httl : default_ttl cache1 = default_ttl (cache eng)).
  { unfold get in Hget. rewrite (surjective_pairing (get_key _ _ _)) in Hget.
    inversion Hget. apply get_key_default_ttl. }
  pose proof (get_key_put_key (clock w1) (clock w2) cache1
                (request_key sha256_hexdigest r1) (request_id r1) response) as Hhit.
  rewrite Httl in Hhit. specialize (Hhit Hfresh).
  destruct (get_key (clock w2) _ _) as [cached cache2]. simpl in Hhit. subst cached.
  now rewrite Hm.
Qed.

End CacheReplay.

(** C6, as stated, fails: two requests that differ only in the algorithm
    hint have the same key, and the second one, which asks for Dijkstra on a
    graph with a negative edge, is served the Bellman-Ford result cached for
    the first instead of the error it gets from a fresh engine. *)
Lemma hint_is_not_part_of_the_fingerprint :
  let r1 := request_with_hint "bellman_ford" in
  let r2 := request_with_hint "dijkstra" in
  let eng0 := new_engine (constant_loader example_graph) in
  let '(response1, eng1) := serve eng0 r1 0 in
  let '(response2, _) := serve eng1 r2 1 in
  let '(alone, _) := serve eng0 r2 1 in
  request_key (fun s => s) r1 = request_key (fun s => s) r2
  /\ option_map algorithm_used (metadata response1) = Some "bellman_ford"
  /\ status response2 = "success"
  /\ path response2 = path response1
  /\ option_map algorithm_used (metadata response2) = Some "bellman_ford"
  /\ option_map cache_hit (metadata response2) = Some true
  /\ option_map code (error alone) = Some "INVALID_INPUT".
Proof. vm_compute. repeat split. Qed.

(** C6, amended. The cache key is the SHA-256 digest of the string
    [request_id|goal_node=..|graph_id=..|start_node=..] and of nothing
    else: requests that agree on the request id, graph id, start node and
    goal node have the same key whatever their algorithm hint, timeout or
    validation flag, and changing one of the four changes the digested
    string (and, as far as the digest tells strings apart, the key).
    Requests with the same key are the same request to the cache: a lookup
    gives the same answer for both, and after a successful computation for
    one of them the other is answered with that response, marked as a cache
    hit, until the entry's time-to-live is over. *)
Theorem fingerprint_covers_id_graph_start_goal :
  (forall sha256_hexdigest r,
      request_key sha256_hexdigest r = sha256_hexdigest (key_str r))
  /\ (forall sha256_hexdigest r1 r2,
         same_key_fields r1 r2 ->
         request_key sha256_hexdigest r1 = request_key sha256_hexdigest r2)
  /\ (forall r1 r2,
         differ_in_one_key_field r1 r2 ->
         key_str r1 <> key_str r2
         /\ forall sha256_hexdigest : string -> string,
              (forall a b, sha256_hexdigest a = sha256_hexdigest b -> a = b) ->
              request_key sha256_hexdigest r1 <> request_key sha256_hexdigest r2)
  /\ (forall sha256_hexdigest now (c : IdempotencyCache RouteResponse) r1 r2,
         request_key sha256_hexdigest r1 = request_key sha256_hexdigest r2 ->
         get sha256_hexdigest now c (request_id r1) [] (request_kwargs r1)
         = get sha256_hexdigest now c (request_id r2) [] (request_kwargs r2))
  /\ (forall sha256_hexdigest (W : Type) (clock : W -> Z) sleep alarm_fires
             (eng eng1 : @RoutingEngine W) r1 r2 w w1 w2 response,
         request_key sha256_hexdigest r1 = request_key sha256_hexdigest r2 ->
         fst (get sha256_hexdigest (clock w) (cache eng) (request_id r1) []
                  (request_kwargs r1)) = None ->
         compute_route sha256_hexdigest clock sleep alarm_fires eng r1 w = (response, eng1, w1) ->
         status response = "success" ->
         clock w2 - clock w1 <= default_ttl (cache eng) ->
         exists m, metadata response = Some m
                   /\ fst (fst (compute_route sha256_hexdigest clock sleep alarm_fires eng1 r2 w2))
                      = mark_cache_hit response m).
Proof.
  split; [exact request_key_str|]. split; [exact request_key_fields|]. split; [|split].
  - intros r1 r2 Hdiff. pose proof (key_str_one_field r1 r2 Hdiff) as Hne.
    split; [exact Hne|]. intros sha Hinj Hkey. apply Hne, Hinj.
    now rewrite <- !request_key_str.
  - intros sha now c r1 r2 Hkey. unfold get.
    fold (request_key sha r1). fold (request_key sha r2). now rewrite Hkey.
  - intros. eapply compute_route_replay; eauto.
Qed.

Lemma fingerprint_covers_id_graph_start_goal_witness :
  request_key (fun s => s) (request_with_hint "bellman_ford")
  = request_key (fun s => s) (request_with_hint "dijkstra")
  /\ request_key (fun s => s) (request_with_hint "auto")
     <> request_key (fun s => s) (request_A_B "r1" "g2").
Proof.
  split.
  - apply (proj1 (proj2 fingerprint_covers_id_graph_start_goal) (fun s => s)
             (request_with_hint "bellman_ford") (request_with_hint "dijkstra")).
    repeat split.
  - apply (proj2 (proj1 (proj2 (proj2 fingerprint_covers_id_graph_start_goal))
                    (request_with_hint "auto") (request_A_B "r1" "g2")
                    ltac:(right; left; repeat split; discriminate))
             (fun s => s) (fun a b H => H)).
Defined.

(** ** The idempotency cache *)

Lemma list_remove_notin (k : string) (l : list string) :
  k ∉ l -> list_remove k l = l.
Proof.
  induction l as [|y l IH]; simpl; [reflexivity|].
  rewrite not_elem_of_cons. intros [Hne Hnot].
  destruct (String.eqb_spec y k); [congruence | now rewrite IH].
Qed.

Lemma elem_of_list_remove (k x : string) (l : list string) :
  NoDup l -> x ∈ list_remove k l <-> x ∈ l /\ x <> k.
Proof.
  induction l as [|y l IH]; simpl; intros Hnd.
  - rewrite elem_of_nil. tauto.
  - apply NoDup_cons in Hnd as [Hy Hnd].
    destruct (String.eqb_spec y k) as [->|Hne].
    + rewrite elem_of_cons. split; [intros Hx; split; [auto | congruence] | tauto].
    + rewrite !elem_of_cons, IH by assumption. split; [|tauto].
      intros [->|[Hx Hk]]; auto.
Qed.

Lemma list_remove_sublist (k : string) (l : list string) :
  sublist (list_remove k l) l.
Proof.
  induction l as [|y l IH]; simpl; [constructor|].
  destruct (String.eqb y k); [now apply sublist_cons | now apply sublist_skip].
Qed.

Lemma NoDup_list_remove (k : string) (l : list string) :
  NoDup l -> NoDup (list_remove k l).
Proof. intros Hnd. exact (sublist_NoDup _ _ Hnd (list_remove_sublist k l)). Qed.

Lemma StronglySorted_sublist {T} (R : relation T) (l1 l2 : list T) :
  sublist l1 l2 -> StronglySorted R l2 -> StronglySorted R l1.
Proof.
  induction 1 as [|x l1 l2 Hsub IH|x l1 l2 Hsub IH]; [auto| |].
  - rewrite !StronglySorted_cons, !Forall_forall. intros [Hall Hs]. split; [|auto].
    intros y Hy. apply Hall. eapply elem_of_sublist; eassumption.
  - rewrite StronglySorted_cons. intros [_ Hs]. auto.
Qed.

Lemma StronglySorted_list_remove (R : relation string) (k : string) (l : list string) :
  StronglySorted R l -> StronglySorted R (list_remove k l).
Proof. apply StronglySorted_sublist, list_remove_sublist. Qed.

Section CacheInvariant.

Context {A : Type}.
Implicit Types (c : IdempotencyCache A) (st : stamped A).

Lemma cache_inv_new (maxsize default_ttl : Z) :
  cache_inv (@new_cache A maxsize default_ttl).
Proof.
  split; [constructor|]. intros k. simpl. rewrite elem_of_nil, lookup_empty.
  split; [tauto | intros [x Hx]; discriminate].
Qed.

Lemma cache_inv_drop c (k : string) :
  cache_inv c ->
  cache_inv {| maxsize := maxsize c; default_ttl := default_ttl c;
               _cache := delete k (_cache c);
               _access_order := list_remove k (_access_order c) |}.
Proof.
  intros [Hnd Hkeys]. split; simpl.
  - now apply NoDup_list_remove.
  - intros x. rewrite elem_of_list_remove, lookup_delete_is_Some, Hkeys by assumption.
    split; intros [? ?]; split; auto.
Qed.

Lemma cache_inv_touch c (k : string) (m : gmap string (CacheEntry A)) :
  cache_inv c ->
  (forall x, is_Some (m !! x) <-> x = k \/ is_Some (_cache c !! x)) ->
  cache_inv {| maxsize := maxsize c; default_ttl := default_ttl c;
               _cache := m;
               _access_order := list_remove k (_access_order c) ++ [k] |}.
Proof.
  intros [Hnd Hkeys] Hm. split; simpl.
  - apply NoDup_app. split; [now apply NoDup_list_remove|]. split; [|apply NoDup_singleton].
    intros x Hx Hk. apply list_elem_of_singleton in Hk. subst x.
    apply elem_of_list_remove in Hx; [tauto | assumption].
  - intros x. rewrite elem_of_app, elem_of_list_remove, list_elem_of_singleton, Hm, Hkeys
      by assumption.
    destruct (decide (x = k)); tauto.
Qed.

Lemma evict_lru_cons c (victim : string) (rest : list string) :
  _access_order c = victim :: rest ->
  _evict_lru c = {| maxsize := maxsize c; default_ttl := default_ttl c;
                    _cache := delete victim (_cache c); _access_order := rest |}.
Proof. intros H. unfold _evict_lru. now rewrite H. Qed.

Lemma cache_inv_evict c : cache_inv c -> cache_inv (_evict_lru c).
Proof.
  intros Hinv. destruct (_access_order c) as [|victim rest] eqn:Horder.
  - unfold _evict_lru. now rewrite Horder.
  - rewrite (evict_lru_cons c victim rest Horder).
    pose proof (cache_inv_drop c victim Hinv) as Hdrop.
    rewrite Horder in Hdrop. simpl in Hdrop. now rewrite String.eqb_refl in Hdrop.
Qed.

Lemma cache_inv_get_key (now : Z) c (k : string) :
  cache_inv c -> cache_inv (snd (get_key now c k)).
Proof.
  intros Hinv. unfold get_key.
  destruct (_cache c !! k) as [entry|] eqn:Hk; [|assumption].
  destruct (is_expired now entry); simpl.
  - now apply cache_inv_drop.
  - apply cache_inv_touch; [assumption|].
    intros x. split; [auto|]. intros [->|Hx]; [now rewrite Hk | assumption].
Qed.

(** The list kept by [put]: the key moves to the most recent end. *)
Lemma put_key_order (now : Z) c (k request_id : string) (result : A) (ttl : option Z) :
  _access_order (put_key now c k request_id result ttl)
  = list_remove k
      (_access_order
         (if (maxsize c <=? Z.of_nat (size (_cache c)))
             && negb (bool_decide (is_Some (_cache c !! k)))
          then _evict_lru c else c)) ++ [k].
Proof.
  unfold put_key. cbn [_access_order]. f_equal.
  case_bool_decide as Hin; [reflexivity|]. symmetry. now apply list_remove_notin.
Qed.

Lemma cache_inv_put_key (now : Z) c (k request_id : string) (result : A) (ttl : option Z) :
  cache_inv c -> cache_inv (put_key now c k request_id result ttl).
Proof.
  intros Hinv.
  set (c1 := if (maxsize c <=? Z.of_nat (size (_cache c)))
                && negb (bool_decide (is_Some (_cache c !! k)))
             then _evict_lru c else c).
  assert (Hinv1 : cache_inv c1).
  { subst c1. destruct (_ && _); [now apply cache_inv_evict | assumption]. }
  pose proof (put_key_order now c k request_id result ttl) as Horder. fold c1 in Horder.
  pose proof (cache_inv_touch c1 k (_cache (put_key now c k request_id result ttl)) Hinv1)
    as Htouch.
  assert (Hm : forall x, is_Some (_cache (put_key now c k request_id result ttl) !! x)
                         <-> x = k \/ is_Some (_cache c1 !! x)).
  { intros x. unfold put_key. cbn [_cache]. fold c1. rewrite lookup_insert_is_Some.
    destruct (decide (k = x)); split; intros; intuition congruence. }
  specialize (Htouch Hm). destruct Htouch as [Hnd Hkeys]. simpl in Hnd, Hkeys.
  split; [now rewrite Horder | intros x; rewrite Horder; apply Hkeys].
Qed.

Lemma cache_inv_apply_op c (op : cache_op A) : cache_inv c -> cache_inv (apply_op c op).
Proof.
  destruct op; simpl; [apply cache_inv_get_key | apply cache_inv_put_key].
Qed.

End CacheInvariant.

Section LeastRecentlyUsed.

Context {A : Type}.
Implicit Types (c : IdempotencyCache A) (st : stamped A).

Local Abbreviation by_stamp f := (fun a b : string => (f a < f b)%nat).

Lemma sorted_by_stamp_ext (f g : string -> nat) (l : list string) :
  (forall x, x ∈ l -> g x = f x) ->
  StronglySorted (by_stamp f) l -> StronglySorted (by_stamp g) l.
Proof.
  induction l as [|a l IH]; intros Hext; [constructor|].
  rewrite !StronglySorted_cons, !Forall_forall. intros [Hall Hs]. split.
  - intros b Hb. rewrite !Hext by (rewrite elem_of_cons; auto). now apply Hall.
  - apply IH; [|assumption]. intros x Hx. apply Hext. rewrite elem_of_cons. auto.
Qed.

(** Moving the key just used to the end keeps the list in order of use. *)
Lemma sorted_by_stamp_touch (f g : string -> nat) (n : nat) (k : string) (l : list string) :
  NoDup l ->
  StronglySorted (by_stamp f) l ->
  (forall x, x ∈ l -> (f x <= n)%nat) ->
  g k = S n ->
  (forall x, x <> k -> g x = f x) ->
  StronglySorted (by_stamp g) (list_remove k l ++ [k])
  /\ forall x, x ∈ list_remove k l ++ [k] -> (g x <= S n)%nat.
Proof.
  intros Hnd Hs Hle Hk Hother.
  assert (Hrem : forall x, x ∈ list_remove k l -> x ∈ l /\ x <> k)
    by (intros x; now apply elem_of_list_remove).
  split.
  - apply StronglySorted_app_2.
    + intros x1 x2 Hx1 Hx2. apply list_elem_of_singleton in Hx2. subst x2.
      destruct (Hrem _ Hx1) as [Hin Hne]. rewrite Hk, Hother by assumption.
      specialize (Hle _ Hin). lia.
    + apply (sorted_by_stamp_ext f); [|now apply StronglySorted_list_remove].
      intros x Hx. apply Hother. now apply Hrem.
    + repeat constructor.
  - intros x. rewrite elem_of_app, list_elem_of_singleton. intros [Hx| ->]; [|lia].
    destruct (Hrem _ Hx) as [Hin Hne]. rewrite Hother by assumption.
    specialize (Hle _ Hin). lia.
Qed.

Lemma lru_inv_step st (op : cache_op A) : lru_inv st -> lru_inv (step_stamped st op).
Proof.
  intros (Hinv & Hs & Hle). pose proof Hinv as [Hnd Hkeys].
  unfold lru_inv. split; [now apply cache_inv_apply_op|].
  unfold step_stamped. cbn [current last_use ops_done].
  destruct op as [now key | now key request_id result ttl]; cbn [apply_op uses].
  - (* get *)
    unfold get_key. destruct (_cache (current st) !! key) as [entry|] eqn:Hk.
    + destruct (is_expired now entry); cbn [fst snd _access_order].
      * split.
        -- apply (sorted_by_stamp_ext (last_use st)); [intros; now rewrite andb_false_r|].
           now apply StronglySorted_list_remove.
        -- intros x Hx. rewrite andb_false_r.
           apply elem_of_list_remove in Hx as [Hx _]; [|assumption].
           specialize (Hle _ Hx). lia.
      * apply (sorted_by_stamp_touch (last_use st)); try assumption.
        -- now rewrite String.eqb_refl.
        -- intros x Hne. rewrite andb_true_r.
           destruct (String.eqb_spec key x); [congruence | reflexivity].
    + cbn [fst snd]. split.
      * apply (sorted_by_stamp_ext (last_use st)); [|assumption].
        intros x _. now rewrite andb_false_r.
      * intros x Hx. rewrite andb_false_r. specialize (Hle _ Hx). lia.
  - (* put *)
    rewrite put_key_order.
    set (c1 := if (maxsize (current st) <=? Z.of_nat (size (_cache (current st))))
                  && negb (bool_decide (is_Some (_cache (current st) !! key)))
               then _evict_lru (current st) else current st).
    assert (Hsub : sublist (_access_order c1) (_access_order (current st))).
    { subst c1. destruct (_ && _); [|reflexivity]. unfold _evict_lru.
      destruct (_access_order (current st)) as [|victim rest] eqn:E;
        [rewrite E; reflexivity | now apply sublist_cons]. }
    apply (sorted_by_stamp_touch (last_use st)).
    + exact (sublist_NoDup _ _ Hnd Hsub).
    + exact (StronglySorted_sublist _ _ _ Hsub Hs).
    + intros x Hx. apply Hle. eapply elem_of_sublist; eassumption.
    + now rewrite String.eqb_refl.
    + intros x Hne. destruct (String.eqb_spec key x); [congruence | reflexivity].
Qed.

Lemma lru_inv_run (maxsize default_ttl : Z) (ops : list (cache_op A)) :
  lru_inv (run_stamped maxsize default_ttl ops).
Proof.
  unfold run_stamped.
  assert (Hinit : lru_inv {| current := @new_cache A maxsize default_ttl;
                             last_use := fun _ => O; ops_done := O |}).
  { split; [apply cache_inv_new|]. split; [constructor|]. intros k Hk. inversion Hk. }
  revert Hinit. generalize {| current := @new_cache A maxsize default_ttl;
                              last_use := fun _ => O; ops_done := O |}.
  induction ops as [|op ops IH]; intros st Hst; [assumption|].
  simpl. apply IH. now apply lru_inv_step.
Qed.

(** At capacity, storing a new key drops the head of the order list and
    nothing else. *)
Lemma put_key_evicts (now : Z) c (key request_id : string) (result : A) (ttl : option Z) :
  cache_inv c ->
  maxsize c <= Z.of_nat (size (_cache c)) ->
  _cache c <> ∅ ->
  _cache c !! key = None ->
  exists victim rest,
    _access_order c = victim :: rest
    /\ is_Some (_cache c !! victim)
    /\ _cache (put_key now c key request_id result ttl)
       = <[key := {| entry_request_id := request_id; entry_result := result;
                     timestamp := now; ttl := effective_ttl c ttl |}]>
           (delete victim (_cache c)).
Proof.
  intros [Hnd Hkeys] Hfull Hne Hnew.
  apply map_choose in Hne as (x & e & Hx).
  assert (Hin : x ∈ _access_order c) by (apply Hkeys; eauto).
  destruct (_access_order c) as [|victim rest] eqn:Horder; [inversion Hin|].
  exists victim, rest. split; [reflexivity|]. split.
  - apply Hkeys. apply elem_of_cons. auto.
  - unfold put_key. cbn [_cache]. rewrite Hnew.
    destruct (maxsize c <=? Z.of_nat (size (_cache c))) eqn:E; [|lia].
    rewrite bool_decide_eq_false_2 by (intros [? ?]; discriminate).
    cbn [andb negb]. now rewrite (evict_lru_cons c victim rest Horder).
Qed.

End LeastRecentlyUsed.

Lemma apply_op_maxsize {A} (c : IdempotencyCache A) (op : cache_op A) :
  maxsize (apply_op c op) = maxsize c.
Proof.
  destruct op as [now key | now key request_id result ttl]; simpl.
  - unfold get_key. destruct (_cache c !! key) as [entry|]; [|reflexivity].
    now destruct (is_expired now entry).
  - unfold put_key. cbn [maxsize]. destruct (_ && _); [|reflexivity].
    unfold _evict_lru. now destruct (_access_order c).
Qed.

Lemma run_stamped_maxsize {A} (maxsize0 default_ttl0 : Z) (ops : list (cache_op A)) :
  maxsize (current (run_stamped maxsize0 default_ttl0 ops)) = maxsize0.
Proof.
  unfold run_stamped.
  change maxsize0 with
    (maxsize (current {| current := @new_cache A maxsize0 default_ttl0;
                         last_use := fun _ => O; ops_done := O |})) at 2.
  generalize {| current := @new_cache A maxsize0 default_ttl0;
                last_use := fun _ => O; ops_done := O |}.
  induction ops as [|op ops IH]; intros st; [reflexivity|].
  simpl. rewrite IH. apply apply_op_maxsize.
Qed.

(** C7. In a cache reached by any history of gets and puts: a put of a new
    key at capacity removes exactly one entry, the one whose last use (its
    put, or its last successful get) lies furthest back, and then inserts
    the new key; after a successful get of an entry, if another entry is
    present, that put leaves the entry just read in place; and a get of an
    entry whose age exceeds its time-to-live returns nothing and removes
    the entry from the store and from the order list. ([get] and [put] are
    [get_key] and [put_key] at the key computed by [_make_key].) *)
Theorem cache_evicts_least_recently_used :
  (forall A maxsize default_ttl (ops : list (cache_op A)) now key request_id result ttl,
      let st := run_stamped maxsize default_ttl ops in
      let c := current st in
      maxsize <= Z.of_nat (size (_cache c)) ->
      _cache c <> ∅ ->
      _cache c !! key = None ->
      exists victim,
        is_Some (_cache c !! victim)
        /\ (forall k, is_Some (_cache c !! k) -> k <> victim ->
                      (last_use st victim < last_use st k)%nat)
        /\ _cache (put_key now c key request_id result ttl)
           = <[key := {| entry_request_id := request_id; entry_result := result;
                         timestamp := now; ttl := effective_ttl c ttl |}]>
               (delete victim (_cache c)))
  /\ (forall A maxsize default_ttl (ops : list (cache_op A)) now k found other
             now' key request_id result ttl,
         let c := current (run_stamped maxsize default_ttl ops) in
         let c' := snd (get_key now c k) in
         fst (get_key now c k) = Some found ->
         other <> k ->
         is_Some (_cache c !! other) ->
         maxsize <= Z.of_nat (size (_cache c')) ->
         _cache c' !! key = None ->
         _cache (put_key now' c' key request_id result ttl) !! k = _cache c !! k
         /\ is_Some (_cache c !! k))
  /\ (forall A now (c : IdempotencyCache A) k entry,
         _cache c !! k = Some entry ->
         ttl entry < now - timestamp entry ->
         get_key now c k
         = (None, {| maxsize := maxsize c; default_ttl := default_ttl c;
                     _cache := delete k (_cache c);
                     _access_order := list_remove k (_access_order c) |})).
Proof.
  split; [|split].
  - intros A maxsize0 default_ttl0 ops now key request_id result ttl st c Hfull Hne Hnew.
    destruct (lru_inv_run maxsize0 default_ttl0 ops) as (Hinv & Hsorted & _).
    fold st in Hinv, Hsorted. fold c in Hinv, Hsorted.
    assert (Hmax : maxsize c = maxsize0) by apply run_stamped_maxsize.
    rewrite <- Hmax in Hfull.
    destruct (put_key_evicts now c key request_id result ttl Hinv Hfull Hne Hnew)
      as (victim & rest & Horder & Hvictim & Hput).
    exists victim. split; [assumption|]. split; [|assumption].
    intros k Hk Hdiff. destruct Hinv as [_ Hkeys].
    apply Hkeys in Hk. rewrite Horder in Hk, Hsorted.
    apply StronglySorted_cons in Hsorted as [Hall _]. rewrite Forall_forall in Hall.
    apply Hall. apply elem_of_cons in Hk as [->|Hk]; [contradiction | assumption].
  - intros A maxsize0 default_ttl0 ops now k found other now' key request_id result ttl
           c c' Hhit Hother Hpresent Hfull Hnew.
    destruct (lru_inv_run maxsize0 default_ttl0 ops) as (Hinv & _ & _). fold c in Hinv.
    assert (Hinv' : cache_inv c') by now apply cache_inv_get_key.
    assert (Hmax : maxsize c' = maxsize0).
    { subst c'. change (snd (get_key now c k)) with (apply_op c (OpGet now k)).
      rewrite apply_op_maxsize. apply run_stamped_maxsize. }
    unfold get_key in Hhit, c'.
    destruct (_cache c !! k) as [entry|] eqn:Hk; [|discriminate].
    destruct (is_expired now entry); [discriminate|]. cbn [fst snd] in Hhit, c'.
    assert (Hne : _cache c' <> ∅).
    { intros Hempty. subst c'. cbn [_cache] in Hempty. rewrite Hempty in Hk.
      now rewrite lookup_empty in Hk. }
    rewrite <- Hmax in Hfull.
    destruct (put_key_evicts now' c' key request_id result ttl Hinv' Hfull Hne Hnew)
      as (victim & rest & Horder & _ & Hput).
    rewrite Hput. split; [|eauto].
    assert (Hkey : key <> k).
    { intros ->. subst c'. cbn [_cache] in Hnew. congruence. }
    assert (Hvictim : victim <> k).
    { destruct Hinv as [Hnd Hkeys].
      assert (Hin : other ∈ list_remove k (_access_order c))
        by (apply elem_of_list_remove; [assumption | split; [now apply Hkeys | assumption]]).
      subst c'. cbn [_access_order] in Horder.
      destruct (list_remove k (_access_order c)) as [|v l] eqn:Hrem; [inversion Hin|].
      simpl in Horder. inversion Horder; subst v.
      assert (Hv : victim ∈ list_remove k (_access_order c))
        by (rewrite Hrem; apply elem_of_cons; auto).
      apply elem_of_list_remove in Hv; [tauto | assumption]. }
    rewrite lookup_insert_ne by assumption.
    rewrite lookup_delete_ne by assumption. subst c'. exact Hk.
  - intros A now c k entry Hk Hold. unfold get_key, is_expired. rewrite Hk.
    destruct (ttl entry <? now - timestamp entry) eqn:E; [reflexivity | lia].
Qed.

(** After storing [a], storing [b] and reading [a], storing [c] drops [b],
    the older insertion [a] having been used since. *)
Example cache_keeps_the_entry_just_read :
  let c := put_key 3 (current (run_stamped 2 300 history_a_b_a)) "c" "req-c" 3 None in
  option_map entry_result (_cache c !! "a") = Some 1
  /\ _cache c !! "b" = None
  /\ option_map entry_result (_cache c !! "c") = Some 3
  /\ _access_order c = ["a"; "c"].
Proof. vm_compute. repeat split. Qed.

Lemma cache_evicts_least_recently_used_witness :
  let st := run_stamped 2 300 history_a_b_a in
  exists victim,
    is_Some (_cache (current st) !! victim)
    /\ (forall k, is_Some (_cache (current st) !! k) -> k <> victim ->
                  (last_use st victim < last_use st k)%nat)
    /\ _cache (put_key 3 (current st) "c" "req-c" 3 None)
       = <[ "c" := {| entry_request_id := "req-c"; entry_result := 3;
                      timestamp := 3; ttl := effective_ttl (current st) None |}]>
           (delete victim (_cache (current st))).
Proof.
  apply (proj1 cache_evicts_least_recently_used Z 2 300 history_a_b_a 3 "c" "req-c" 3 None).
  - vm_compute. discriminate.
  - intros H. apply (f_equal (fun m => m !! "a")) in H. vm_compute in H. discriminate.
  - vm_compute. reflexivity.
Defined.

(** ** Walks *)

Lemma is_walk_app (es : list edge) (u v x : string) (p q : list edge) :
  is_walk es u p x -> is_walk es x q v -> is_walk es u (p ++ q) v.
Proof.
  revert u. induction p as [|e p IH]; simpl; intros u.
  - now intros ->.
  - intros (Hs & Hin & Hp) Hq. eauto.
Qed.

Lemma weight_app (p q : list edge) : weight (p ++ q) = weight p + weight q.
Proof. induction p as [|e p IH]; simpl; lia. Qed.

Lemma is_walk_snoc (es : list edge) (u : string) (p : list edge) (e : edge) :
  is_walk es u p (src e) -> In e es -> is_walk es u (p ++ [e]) (tgt e).
Proof.
  intros Hp Hin. apply (is_walk_app es u (tgt e) (src e)); [assumption|].
  simpl. auto.
Qed.


(** ** Bellman-Ford: relaxation *)

Section Relaxation.

Import BellmanFord.

Lemma at_insert (dist : dist_map) (t v : string) (x : ext) :
  at_ (<[t := x]> dist) v = if decide (t = v) then x else at_ dist v.
Proof.
  unfold at_. destruct (decide (t = v)) as [->|Hne].
  - now rewrite lookup_insert_eq.
  - now rewrite lookup_insert_ne.
Qed.

Lemma relaxable_true (dist : dist_map) (s t : string) (w : Z) :
  relaxable dist (s, t, w) = true ->
  exists a, at_ dist s = Fin a /\ forall b, at_ dist t = Fin b -> a + w < b.
Proof.
  unfold relaxable. destruct (at_ dist s) as [a|]; simpl; [|discriminate].
  intros H. exists a. split; [reflexivity|]. intros b Hb. rewrite Hb in H. simpl in H. lia.
Qed.

Lemma relaxable_false (dist : dist_map) (s t : string) (w a : Z) :
  relaxable dist (s, t, w) = false -> at_ dist s = Fin a ->
  exists b, at_ dist t = Fin b /\ b <= a + w.
Proof.
  unfold relaxable. intros H Ha. rewrite Ha in H. simpl in H.
  destruct (at_ dist t) as [b|]; [|discriminate]. exists b. split; [reflexivity | lia].
Qed.

(** Once nothing can be relaxed, distances are a feasible potential along
    every walk. *)
Lemma settled_walk (es : list edge) (dist : dist_map) (u v : string) (p : list edge) (a : Z) :
  settled es dist -> is_walk es u p v -> at_ dist u = Fin a ->
  exists b, at_ dist v = Fin b /\ b <= a + weight p.
Proof.
  intros Hset. revert u a. induction p as [|[[s t] w] p IH]; simpl; intros u a.
  - intros <- Ha. exists a. split; [assumption | lia].
  - unfold src, tgt, wgt. cbn [fst snd]. intros (Hs & Hin & Hp) Ha. subst s.
    destruct (relaxable_false dist u t w a (Hset _ Hin) Ha) as (b1 & Hb1 & Hle1).
    destruct (IH t b1 Hp Hb1) as (b & Hb & Hle). exists b. split; [assumption | lia].
Qed.

(** A property of [(dist, prev)] kept by every single relaxation is kept by
    a pass and by the whole loop. *)
Section Preserved.

Variable es : list edge.
Variable P : dist_map -> prev_map -> Prop.
Hypothesis step :
  forall dist prev s t w a,
    In (s, t, w) es -> P dist prev -> at_ dist s = Fin a ->
    (forall b, at_ dist t = Fin b -> a + w < b) ->
    P (<[t := Fin (a + w)]> dist) (<[t := Some s]> prev).

Lemma relax_edge_preserves (dist : dist_map) (prev : prev_map) (upd : bool) (e : edge) :
  In e es -> P dist prev ->
  P (fst (fst (relax_edge (dist, prev, upd) e))) (snd (fst (relax_edge (dist, prev, upd) e))).
Proof.
  destruct e as [[s t] w]. intros Hin HP. unfold relax_edge.
  destruct (relaxable dist (s, t, w)) eqn:Hrel; [|assumption].
  destruct (relaxable_true _ _ _ _ Hrel) as (a & Ha & Hlt).
  simpl. rewrite Ha. simpl. now apply step.
Qed.

Lemma relax_fold_preserves (l : list edge) (st : dist_map * prev_map * bool) :
  incl l es -> P (fst (fst st)) (snd (fst st)) ->
  P (fst (fst (fold_left relax_edge l st))) (snd (fst (fold_left relax_edge l st))).
Proof.
  revert st. induction l as [|e l IH]; intros [[dist prev] upd] Hincl HP; [assumption|].
  simpl. apply IH.
  - intros x Hx. apply Hincl. now right.
  - apply relax_edge_preserves; [apply Hincl; now left | assumption].
Qed.

Lemma relax_loop_preserves (k : nat) (dist : dist_map) (prev : prev_map) :
  P dist prev ->
  P (fst (relax_loop k es dist prev)) (snd (relax_loop k es dist prev)).
Proof.
  revert dist prev. induction k as [|k IH]; intros dist prev HP; [assumption|].
  simpl. unfold relax_pass.
  pose proof (relax_fold_preserves es (dist, prev, false) (incl_refl es) HP) as Hpass.
  destruct (fold_left relax_edge es (dist, prev, false)) as [[dist' prev'] updated].
  destruct updated; [now apply IH | assumption].
Qed.

End Preserved.

Lemma init_dist_start (ns : list string) (start : string) :
  at_ (init_dist ns start) start = Fin 0.
Proof. unfold init_dist. rewrite at_insert. now destruct (decide (start = start)). Qed.

Lemma init_dist_other (ns : list string) (start v : string) :
  v <> start -> at_ (init_dist ns start) v = Inf.
Proof.
  intros Hne. unfold init_dist. rewrite at_insert.
  destruct (decide (start = v)) as [|_]; [congruence|].
  induction ns as [|m ns IH]; simpl; [reflexivity|].
  rewrite at_insert. now destruct (decide (m = v)).
Qed.

Lemma init_prev_none (ns : list string) (v u : string) :
  init_prev ns !! v <> Some (Some u).
Proof.
  induction ns as [|n ns IH]; simpl; [now rewrite lookup_empty|].
  destruct (decide (n = v)) as [->|Hne].
  - now rewrite lookup_insert_eq.
  - now rewrite lookup_insert_ne.
Qed.

Lemma dist_sound_loop (es : list edge) (ns : list string) (start : string) (k : nat) :
  dist_sound es start (fst (relax_loop k es (init_dist ns start) (init_prev ns))).
Proof.
  apply (relax_loop_preserves es (fun dist _ => dist_sound es start dist)).
  - intros dist prev s t w a Hin Hsound Ha _ v d. rewrite at_insert.
    destruct (decide (t = v)) as [<-|Hne]; [|apply Hsound].
    intros Hd. inversion Hd; subst d.
    destruct (Hsound s a Ha) as (p & Hp & Hw).
    exists (p ++ [(s, t, w)]). split.
    + now apply (is_walk_snoc es start p (s, t, w)).
    + rewrite weight_app, Hw. unfold wgt. simpl. lia.
  - intros v d. destruct (decide (v = start)) as [->|Hne].
    + rewrite init_dist_start. intros Hd. inversion Hd. exists []. now split.
    + now rewrite init_dist_other.
Qed.

Lemma start_untouched_loop (es : list edge) (ns : list string) (start : string) (k : nat) :
  start_untouched start (fst (relax_loop k es (init_dist ns start) (init_prev ns)))
                  (snd (relax_loop k es (init_dist ns start) (init_prev ns))).
Proof.
  apply (relax_loop_preserves es (start_untouched start)).
  - intros dist prev s t w a Hin Hstart Ha Hlt.
    unfold start_untouched. rewrite at_insert.
    destruct (decide (t = start)) as [->|Hne].
    + right. exists (a + w). split; [reflexivity|].
      destruct Hstart as [[H0 _] | (a0 & Ha0 & Hneg)];
        [specialize (Hlt 0 H0) | specialize (Hlt a0 Ha0)]; lia.
    + destruct Hstart as [[H0 Hnone] | Hneg]; [left | now right].
      split; [assumption|]. intros u. now rewrite lookup_insert_ne.
  - left. split; [apply init_dist_start | apply init_prev_none].
Qed.

(** Every node keeps its entry in [dist]; the endpoints of the edges are
    nodes ([edge_source_is_node], [wf_graph]), so [dist[..]] never misses. *)
Lemma distances_cover_nodes (es : list edge) (ns : list string) (start node : string)
      (k : nat) :
  node ∈ ns ->
  is_Some (fst (relax_loop k es (init_dist ns start) (init_prev ns)) !! node).
Proof.
  intros Hnode.
  apply (relax_loop_preserves es (fun dist _ => is_Some (dist !! node))).
  - intros dist prev s t w a _ Hsome _ _. apply lookup_insert_is_Some'. auto.
  - unfold init_dist. apply lookup_insert_is_Some'. right.
    induction ns as [|m ns IH]; [inversion Hnode|]. simpl.
    apply lookup_insert_is_Some'. apply elem_of_cons in Hnode as [->|Hnode]; auto.
Qed.

(** A finite distance stays finite, whatever is relaxed. *)
Lemma start_finite_loop (es : list edge) (ns : list string) (start : string) (k : nat) :
  exists a, at_ (fst (relax_loop k es (init_dist ns start) (init_prev ns))) start = Fin a.
Proof.
  destruct (start_untouched_loop es ns start k) as [[H0 _] | (a & Ha & _)]; eauto.
Qed.

(** With a negative closed walk in reach, some edge can always be relaxed. *)
Lemma negative_cycle_unsettled (es : list edge) (start : string) (dist : dist_map) (a : Z) :
  negative_cycle_reachable es start -> at_ dist start = Fin a -> ~ settled es dist.
Proof.
  intros (v & p & c & Hp & Hc & Hneg) Ha Hset.
  destruct (settled_walk es dist start v p a Hset Hp Ha) as (b & Hb & _).
  destruct (settled_walk es dist v v c b Hset Hc Hb) as (b' & Hb' & Hle).
  rewrite Hb in Hb'. inversion Hb'. lia.
Qed.

End Relaxation.

(** ** Bellman-Ford: negative cycles *)

Lemma validate_nodes_ok (g : Graph.t) (start goal : string) :
  start ∈ Graph.nodes g -> goal ∈ Graph.nodes g ->
  Graph.validate_nodes_exist g [start; goal] = Ok tt.
Proof.
  intros Hs Hg. unfold Graph.validate_nodes_exist. simpl.
  now rewrite !bool_decide_eq_true_2 by assumption.
Qed.

Lemma validate_nodes_inv (g : Graph.t) (start goal : string) :
  Graph.validate_nodes_exist g [start; goal] = Ok tt ->
  start ∈ Graph.nodes g /\ goal ∈ Graph.nodes g.
Proof.
  unfold Graph.validate_nodes_exist. simpl.
  case_bool_decide as Hs; simpl; [|discriminate].
  case_bool_decide as Hg; [auto | discriminate].
Qed.

Lemma find_relaxable_none (es : list edge) (dist : BellmanFord.dist_map) :
  find (BellmanFord.relaxable dist) es = None -> settled es dist.
Proof. intros Hfind e Hin. exact (find_none _ _ Hfind e Hin). Qed.

(** Whenever a negative closed walk can be reached from [start],
    Bellman-Ford ends in [NegativeCycleError]; it returns no path. *)
Theorem bellman_ford_raises_on_negative_cycle (g : Graph.t) (start goal : string) :
  start ∈ Graph.nodes g -> goal ∈ Graph.nodes g ->
  negative_cycle_reachable (Graph.edges g) start ->
  exists cycle cycle_cost,
    BellmanFord.compute g start goal = Some (Raise (NegativeCycleError cycle cycle_cost)).
Proof.
  intros Hs Hg Hneg. unfold BellmanFord.compute.
  rewrite validate_nodes_ok by assumption.
  destruct (start_finite_loop (Graph.edges g) (Graph.nodes g) start
              (length (Graph.nodes g) - 1)) as [a Ha].
  destruct (BellmanFord.relax_loop _ _ _ _) as [dist prev]. simpl in Ha.
  unfold BellmanFord._detect_negative_cycle.
  destruct (find (BellmanFord.relaxable dist) (Graph.edges g)) as [[[s t] w]|] eqn:Hfind.
  - eauto.
  - apply find_relaxable_none in Hfind.
    now destruct (negative_cycle_unsettled _ _ _ _ Hneg Ha).
Qed.

Lemma two_cycle_has_negative_cycle :
  negative_cycle_reachable (Graph.edges two_cycle) "A".
Proof.
  exists "A", [], [("A", "B", 1); ("B", "A", -3)].
  repeat split; vm_compute; auto.
Qed.

(** C1 fails on [two_cycle], started at [A]: a negative cycle is in reach
    and [NegativeCycleError] is raised, but the cost it carries is 1, which
    is positive (the true weight of the cycle is -2), and the node list it
    carries does not return to its first node. *)
Theorem bellman_ford_cycle_cost_can_be_positive :
  negative_cycle_reachable (Graph.edges two_cycle) "A"
  /\ BellmanFord.compute two_cycle "A" "B" = Some (Raise (NegativeCycleError ["B"; "A"] 1))
  /\ ~ (1 <= 0)
  /\ hd "" ["B"; "A"] <> List.last ["B"; "A"] "".
Proof.
  split; [exact two_cycle_has_negative_cycle|].
  split; [vm_compute; reflexivity|].
  split; [lia | vm_compute; discriminate].
Qed.

(** ** A route from a node to itself *)






Section SameNode.

Variable sha256_hexdigest : string -> string.
Context {W : Type}.
Variable clock : W -> Z.
Variable sleep : Z -> W -> W.
Variable alarm_fires : Z -> W -> bool.


End SameNode.




(** ** Graphs built by [add_edge] *)

Section Dict.

Context {V : Type}.
Implicit Types (d : list (string * V)) (k : string) (v : V).

Lemma mem_true d k : Graph.mem k d = true <-> k ∈ map fst d.
Proof.
  unfold Graph.mem. rewrite existsb_exists, list_elem_of_fmap. split.
  - intros (kv & Hin & Heq). apply String.eqb_eq in Heq. exists kv.
    split; [auto | now apply list_elem_of_In].
  - intros (kv & -> & Hin). exists kv. split; [now apply list_elem_of_In|].
    apply String.eqb_refl.
Qed.

Lemma set_keys d k v :
  map fst (Graph.set d k v) = if Graph.mem k d then map fst d else map fst d ++ [k].
Proof.
  induction d as [|[k' v'] d IH]; simpl; [reflexivity|].
  destruct (String.eqb_spec k' k) as [->|Hne]; simpl; [reflexivity|].
  rewrite IH. now destruct (Graph.mem k d).
Qed.

Lemma set_keys_NoDup d k v : NoDup (map fst d) -> NoDup (map fst (Graph.set d k v)).
Proof.
  intros Hnd. rewrite set_keys. destruct (Graph.mem k d) eqn:Hmem; [assumption|].
  apply NoDup_app. split; [assumption|]. split; [|apply NoDup_singleton].
  intros x Hx Hk. apply list_elem_of_singleton in Hk. subst x.
  apply mem_true in Hx. congruence.
Qed.

Lemma set_keys_incl d k v x : x ∈ map fst d -> x ∈ map fst (Graph.set d k v).
Proof.
  rewrite set_keys. destruct (Graph.mem k d); [auto|]. rewrite elem_of_app. auto.
Qed.

Lemma set_key_in d k v : k ∈ map fst (Graph.set d k v).
Proof.
  rewrite set_keys. destruct (Graph.mem k d) eqn:Hmem; [now apply mem_true|].
  rewrite elem_of_app, list_elem_of_singleton. auto.
Qed.

Lemma set_In d k v k' v' :
  In (k', v') (Graph.set d k v) -> (k' = k /\ v' = v) \/ In (k', v') d.
Proof.
  induction d as [|[k0 v0] d IH]; simpl.
  - intros [H|[]]. inversion H. auto.
  - destruct (String.eqb_spec k0 k) as [->|Hne]; simpl.
    + intros [H|H]; [inversion H; auto | auto].
    + intros [H|H]; [auto|]. destruct (IH H); auto.
Qed.

Lemma get_In d k v : Graph.get d k = Some v -> In (k, v) d.
Proof.
  induction d as [|[k0 v0] d IH]; simpl; [discriminate|].
  destruct (String.eqb_spec k0 k) as [->|Hne]; [|auto].
  intros H. inversion H. auto.
Qed.

Lemma In_get d k v : NoDup (map fst d) -> In (k, v) d -> Graph.get d k = Some v.
Proof.
  induction d as [|[k0 v0] d IH]; simpl; [tauto|].
  intros Hnd. apply NoDup_cons in Hnd as [Hk0 Hnd].
  intros [H|H].
  - inversion H; subst. now rewrite String.eqb_refl.
  - destruct (String.eqb_spec k0 k) as [->|Hne]; [|auto].
    exfalso. apply Hk0. apply list_elem_of_fmap. exists (k, v).
    split; [reflexivity | now apply list_elem_of_In].
Qed.

End Dict.

Lemma In_edges (g : Graph.t) (e : edge) :
  In e (Graph.edges g) <-> exists nb, In (src e, nb) g /\ In (tgt e, wgt e) nb.
Proof.
  unfold Graph.edges. rewrite in_flat_map. split.
  - intros ([s nb] & Hin & He). apply in_map_iff in He as ([t w] & <- & Htw).
    exists nb. unfold src, tgt, wgt. simpl. auto.
  - intros (nb & Hin & Htw). exists (src e, nb). split; [assumption|].
    apply in_map_iff. exists (tgt e, wgt e). split; [|assumption].
    destruct e as [[s t] w]. reflexivity.
Qed.

Lemma edge_source_is_node (g : Graph.t) (e : edge) :
  In e (Graph.edges g) -> src e ∈ Graph.nodes g.
Proof.
  rewrite In_edges. intros (nb & Hin & _). unfold Graph.nodes.
  apply list_elem_of_fmap. exists (src e, nb). split; [reflexivity | now apply list_elem_of_In].
Qed.

(** In a well-formed graph the neighbours of a node are its outgoing edges. *)
Lemma neighbors_edges (g : Graph.t) (x y : string) (w : Z) :
  NoDup (Graph.nodes g) ->
  In (y, w) (Graph.neighbors g x) <-> In (x, y, w) (Graph.edges g).
Proof.
  intros Hnd. rewrite In_edges. unfold Graph.neighbors, src, tgt, wgt. simpl. split.
  - destruct (Graph.get g x) as [nb|] eqn:Hget; simpl; [|tauto].
    intros Hin. exists nb. split; [now apply get_In | assumption].
  - intros (nb & Hin & Htw). now rewrite (In_get g x nb Hnd Hin).
Qed.

Lemma add_edge_wf (g : Graph.t) (source target : string) (weight : Z) :
  wf_graph g -> wf_graph (Graph.add_edge g source target weight).
Proof.
  intros [Hnd Htgt]. unfold Graph.add_edge.
  set (g1 := if Graph.mem source g then g else Graph.set g source []).
  set (g2 := Graph.set g1 source
               (Graph.set (default [] (Graph.get g1 source)) target weight)).
  set (g3 := if Graph.mem target g2 then g2 else Graph.set g2 target []).
  assert (Hnd1 : NoDup (Graph.nodes g1))
    by (subst g1; destruct (Graph.mem source g); [assumption | now apply set_keys_NoDup]).
  assert (Hnd2 : NoDup (Graph.nodes g2)) by now apply set_keys_NoDup.
  assert (Hnd3 : NoDup (Graph.nodes g3))
    by (subst g3; destruct (Graph.mem target g2); [assumption | now apply set_keys_NoDup]).
  assert (Hsub1 : forall x, x ∈ Graph.nodes g -> x ∈ Graph.nodes g1)
    by (intros x Hx; subst g1; destruct (Graph.mem source g);
        [assumption | now apply set_keys_incl]).
  assert (Hsub3 : forall x, x ∈ Graph.nodes g2 -> x ∈ Graph.nodes g3)
    by (intros x Hx; subst g3; destruct (Graph.mem target g2);
        [assumption | now apply set_keys_incl]).
  assert (Htarget : target ∈ Graph.nodes g3).
  { subst g3. destruct (Graph.mem target g2) eqn:Hmem;
      [now apply mem_true | apply set_key_in]. }
  assert (Hold : forall k nb, In (k, nb) g1 -> nb = [] \/ In (k, nb) g).
  { intros k nb Hin. subst g1. destruct (Graph.mem source g); [auto|].
    apply set_In in Hin as [[_ ->]|Hin]; auto. }
  split; [assumption|].
  intros e He. apply In_edges in He as (nb & Hin & Htw).
  assert (Hin2 : In (src e, nb) g2 \/ nb = []).
  { subst g3. destruct (Graph.mem target g2); [auto|].
    apply set_In in Hin as [[_ ->]|Hin]; auto. }
  destruct Hin2 as [Hin2 | ->]; [|destruct Htw].
  assert (Hedge : tgt e = target \/ In e (Graph.edges g)).
  { subst g2. apply set_In in Hin2 as [[Hsrc ->]|Hin1].
    - apply set_In in Htw as [[Ht _]|Htw]; [auto|]. right.
      destruct (Graph.get g1 source) as [nb1|] eqn:Hget; simpl in Htw; [|destruct Htw].
      apply get_In in Hget. destruct (Hold _ _ Hget) as [-> | Hg]; [destruct Htw|].
      apply In_edges. exists nb1. rewrite Hsrc. auto.
    - right. destruct (Hold _ _ Hin1) as [-> | Hg]; [destruct Htw|].
      apply In_edges. eauto. }
  destruct Hedge as [-> | Hg]; [assumption|].
  apply Hsub3. unfold g2, Graph.nodes. apply set_keys_incl. apply Hsub1. now apply Htgt.
Qed.

Lemma from_edge_list_wf (es : list edge) : wf_graph (Graph.from_edge_list es).
Proof.
  unfold Graph.from_edge_list.
  assert (H0 : wf_graph Graph.empty) by (split; [constructor | intros e []]).
  revert H0. generalize Graph.empty.
  induction es as [|e es IH]; intros g Hg; [assumption|].
  simpl. apply IH. now apply add_edge_wf.
Qed.

(** ** Bellman-Ford: convergence *)

Section Convergence.

Import BellmanFord.

Variable es : list edge.
Variable start : string.

Lemma below_refl (dist : dist_map) : below dist dist.
Proof. intros v b Hb. exists b. split; [assumption | lia]. Qed.

Lemma below_trans (d1 d2 d3 : dist_map) : below d1 d2 -> below d2 d3 -> below d1 d3.
Proof.
  intros H12 H23 v b Hb. destruct (H23 v b Hb) as (b2 & Hb2 & Hle2).
  destruct (H12 v b2 Hb2) as (b1 & Hb1 & Hle1). exists b1. split; [assumption | lia].
Qed.

Lemma relax_edge_below (st : dist_map * prev_map * bool) (e : edge) :
  below (fst (fst (relax_edge st e))) (fst (fst st)).
Proof.
  destruct st as [[dist prev] upd]. destruct e as [[s t] w]. unfold relax_edge.
  destruct (relaxable dist (s, t, w)) eqn:Hrel; [|apply below_refl].
  destruct (relaxable_true _ _ _ _ Hrel) as (a & Ha & Hlt). simpl. rewrite Ha. simpl.
  intros v b Hb. rewrite at_insert. destruct (decide (t = v)) as [<-|Hne].
  - exists (a + w). split; [reflexivity|]. specialize (Hlt b Hb). lia.
  - exists b. split; [assumption | lia].
Qed.

Lemma relax_fold_below (l : list edge) (st : dist_map * prev_map * bool) :
  below (fst (fst (fold_left relax_edge l st))) (fst (fst st)).
Proof.
  revert st. induction l as [|e l IH]; intros st; [apply below_refl|].
  simpl. eapply below_trans; [apply IH | apply relax_edge_below].
Qed.

(** Right after an edge has been looked at, its target is within reach of
    its source. *)
Lemma relax_edge_tight (dist : dist_map) (prev : prev_map) (upd : bool)
      (s t : string) (w a : Z) :
  at_ dist s = Fin a ->
  exists b, at_ (fst (fst (relax_edge (dist, prev, upd) (s, t, w)))) t = Fin b /\ b <= a + w.
Proof.
  intros Ha. unfold relax_edge.
  destruct (relaxable dist (s, t, w)) eqn:Hrel.
  - simpl. rewrite Ha, at_insert. simpl. destruct (decide (t = t)); [|congruence].
    exists (a + w). split; [reflexivity | lia].
  - simpl. now apply (relaxable_false dist s t w a).
Qed.

Lemma relax_edge_eq (dist : dist_map) (prev : prev_map) (upd : bool) (s t : string) (w : Z) :
  relax_edge (dist, prev, upd) (s, t, w)
  = if relaxable dist (s, t, w)
    then (<[t := ext_add (at_ dist s) w]> dist, <[t := Some s]> prev, true)
    else (dist, prev, upd).
Proof. reflexivity. Qed.

(** A pass that reports no update has changed nothing and found nothing to relax. *)
Lemma relax_fold_quiet (l : list edge) (dist dist' : dist_map) (prev prev' : prev_map)
      (upd : bool) :
  fold_left relax_edge l (dist, prev, upd) = (dist', prev', false) ->
  dist' = dist /\ prev' = prev /\ upd = false
  /\ forall e, In e l -> relaxable dist e = false.
Proof.
  revert dist prev upd. induction l as [|e l IH]; cbn [fold_left]; intros dist prev upd Hfold.
  - inversion Hfold. repeat split; auto. intros e [].
  - destruct e as [[s t] w]. rewrite relax_edge_eq in Hfold.
    destruct (relaxable dist (s, t, w)) eqn:Hrel.
    + apply IH in Hfold as (_ & _ & Hupd & _). discriminate.
    + apply IH in Hfold as (-> & -> & -> & Hall). repeat split; auto.
      intros e [<-|He]; auto.
Qed.

Lemma bounded_mono (k : nat) (dist dist' : dist_map) :
  below dist' dist -> bounded es start k dist -> bounded es start k dist'.
Proof.
  intros Hbelow Hb p v Hp Hlen. destruct (Hb p v Hp Hlen) as (b & Hv & Hle).
  destruct (Hbelow v b Hv) as (b' & Hv' & Hle'). exists b'. split; [assumption | lia].
Qed.

(** Splitting a walk at its last edge. *)
Lemma is_walk_last (u v : string) (p : list edge) (e : edge) :
  is_walk es u (p ++ [e]) v -> is_walk es u p (src e) /\ In e es /\ tgt e = v.
Proof.
  revert u. induction p as [|e0 p IH]; simpl; intros u.
  - intros (Hs & Hin & Ht). auto.
  - intros (Hs & Hin & Hp). destruct (IH _ Hp) as (Hp' & Hin' & Ht). auto.
Qed.

(** One more pass accounts for walks one edge longer. *)
Lemma bounded_pass (k : nat) (dist : dist_map) (prev : prev_map) :
  bounded es start k dist ->
  bounded es start (S k) (fst (fst (relax_pass es dist prev))).
Proof.
  intros Hb p v Hp Hlen. unfold relax_pass.
  destruct (Nat.le_gt_cases (length p) k) as [Hshort|Hlong].
  { exact (bounded_mono k dist _ (relax_fold_below es (dist, prev, false)) Hb p v Hp Hshort). }
  destruct (exists_last (l := p)) as (p' & e & ->); [intros ->; simpl in Hlong; lia|].
  rewrite length_app in Hlen, Hlong. simpl in Hlen, Hlong.
  apply is_walk_last in Hp as (Hp' & Hin & Ht). subst v.
  destruct (Hb p' (src e) Hp' ltac:(lia)) as (a & Ha & Hle).
  apply in_split in Hin as (l1 & l2 & Hsplit). rewrite Hsplit, fold_left_app.
  cbn [fold_left].
  pose proof (relax_fold_below l1 (dist, prev, false)) as Hbelow1.
  destruct (fold_left relax_edge l1 (dist, prev, false)) as [[dist1 prev1] upd1].
  cbn [fst] in Hbelow1.
  destruct (Hbelow1 (src e) a Ha) as (a1 & Ha1 & Hle1).
  destruct e as [[s t] w]. unfold src, tgt, wgt in *. cbn [fst snd] in *.
  destruct (relax_edge_tight dist1 prev1 upd1 s t w a1 Ha1) as (b2 & Hb2 & Hle2).
  destruct (relax_fold_below l2 (relax_edge (dist1, prev1, upd1) (s, t, w)) t b2 Hb2)
    as (b & Hbt & Hleb).
  exists b. split; [exact Hbt|].
  rewrite weight_app. cbn [weight]. unfold wgt. cbn [snd]. lia.
Qed.

(** The loop stops with nothing left to relax, or after [k] full passes. *)
Lemma relax_loop_outcome (k j : nat) (dist : dist_map) (prev : prev_map) :
  bounded es start j dist ->
  settled es (fst (relax_loop k es dist prev))
  \/ bounded es start (j + k) (fst (relax_loop k es dist prev)).
Proof.
  revert j dist prev. induction k as [|k IH]; intros j dist prev Hb.
  - right. now rewrite Nat.add_0_r.
  - simpl. pose proof (bounded_pass j dist prev Hb) as Hpass.
    unfold relax_pass in *.
    destruct (fold_left relax_edge es (dist, prev, false)) as [[dist' prev'] updated] eqn:Hfold.
    destruct updated.
    + replace (j + S k)%nat with (S j + k)%nat by lia. now apply IH.
    + left. apply relax_fold_quiet in Hfold as (-> & _ & _ & Hall). exact Hall.
Qed.

Lemma bounded_init (ns : list string) : bounded es start 0 (init_dist ns start).
Proof.
  intros p v Hp Hlen. destruct p; [|simpl in Hlen; lia]. simpl in Hp. subst v.
  exists 0. split; [apply init_dist_start | simpl; lia].
Qed.

End Convergence.

(** ** Simple walks *)

Lemma walk_split_at (es : list edge) (b v x : string) (q : list edge) :
  is_walk es b q v -> x ∈ map tgt q ->
  exists q1 q2, q = q1 ++ q2 /\ x ∈ map tgt q1 /\ is_walk es b q1 x /\ is_walk es x q2 v.
Proof.
  revert b. induction q as [|e q IH]; simpl; intros b Hq Hx; [inversion Hx|].
  destruct Hq as (Hs & Hin & Hq).
  destruct (decide (x = tgt e)) as [->|Hne].
  - exists [e], q. simpl. repeat split; auto. apply elem_of_cons. auto.
  - apply elem_of_cons in Hx as [Hx|Hx]; [contradiction|].
    destruct (IH _ Hq Hx) as (q1 & q2 & -> & Hx1 & Hq1 & Hq2).
    exists (e :: q1), q2. simpl. repeat split; auto. apply elem_of_cons. auto.
Qed.


Lemma walk_nodes_in_graph (g : Graph.t) (u v : string) (p : list edge) :
  wf_graph g -> u ∈ Graph.nodes g -> is_walk (Graph.edges g) u p v ->
  forall x, x ∈ walk_nodes u p -> x ∈ Graph.nodes g.
Proof.
  intros [_ Htgt] Hu Hp x Hx. unfold walk_nodes in Hx.
  apply elem_of_cons in Hx as [->|Hx]; [assumption|].
  clear Hu. revert u Hp. induction p as [|e p IH]; intros u Hp; [inversion Hx|].
  destruct Hp as (_ & Hin & Hp). simpl in Hx.
  apply elem_of_cons in Hx as [->|Hx]; [now apply Htgt | eauto].
Qed.

Lemma simple_walk_length (g : Graph.t) (u v : string) (p : list edge) :
  wf_graph g -> u ∈ Graph.nodes g -> is_walk (Graph.edges g) u p v ->
  NoDup (walk_nodes u p) -> (length p <= length (Graph.nodes g) - 1)%nat.
Proof.
  intros Hwf Hu Hp Hnd.
  pose proof (NoDup_submseteq _ _ Hnd (walk_nodes_in_graph g u v p Hwf Hu Hp)) as Hsub.
  apply submseteq_length in Hsub. unfold walk_nodes in Hsub. simpl in Hsub.
  rewrite length_map in Hsub. lia.
Qed.

(** ** Bellman-Ford on graphs without negative weights *)

Section NonNegative.

Import BellmanFord.

Variable g : Graph.t.
Hypothesis Hwf : wf_graph g.
Hypothesis Hnn : nonnegative (Graph.edges g).
Variable start : string.
Hypothesis Hstart : start ∈ Graph.nodes g.

Local Abbreviation es := (Graph.edges g).
Local Abbreviation n := (length (Graph.nodes g)).




End NonNegative.

(** ** Following predecessor links *)

Lemma chain_none_linked (k : nat) (prev : BellmanFord.prev_map) (v : string) :
  BellmanFord.chain k prev v = None ->
  exists l, length l = k /\ linked prev (v :: l).
Proof.
  revert v. induction k as [|k IH]; intros v; simpl.
  - intros _. exists []. now split.
  - destruct (prev !! v) as [[u|]|] eqn:Hv; try discriminate.
    destruct (BellmanFord.chain k prev u) eqn:Hc; [discriminate|]. intros _.
    destruct (IH u Hc) as (l & Hlen & Hl). exists (u :: l). simpl. auto.
Qed.




Lemma linked_tail prev (x : string) (l : list string) : linked prev (x :: l) -> linked prev l.
Proof. destruct l as [|y l]; simpl; [auto | tauto]. Qed.




(** ** The priority queue *)

Section Heap.

Import Dijkstra.

Lemma tuple_leb_fst (a b : Z * string) : tuple_leb a b = true -> fst a <= fst b.
Proof.
  unfold tuple_leb. intros H. apply orb_true_iff in H as [H|H]; [lia|].
  apply andb_true_iff in H as [H _]. lia.
Qed.

Lemma tuple_leb_false_fst (a b : Z * string) : tuple_leb a b = false -> fst b <= fst a.
Proof.
  unfold tuple_leb. intros H. apply orb_false_iff in H as [H _]. lia.
Qed.

Lemma heap_min_spec (x : Z * string) (h : heap) :
  In (heap_min x h) (x :: h) /\ forall e, In e (x :: h) -> fst (heap_min x h) <= fst e.
Proof.
  unfold heap_min. revert x. induction h as [|y h IH]; intros x; simpl.
  - split; [auto|]. intros e [<-|[]]. lia.
  - destruct (tuple_leb x y) eqn:E.
    + destruct (IH x) as [Hin Hmin]. split.
      * simpl in Hin. tauto.
      * intros e [<-|[<-|He]].
        -- apply Hmin. now left.
        -- apply tuple_leb_fst in E. specialize (Hmin x (or_introl eq_refl)). lia.
        -- apply Hmin. now right.
    + destruct (IH y) as [Hin Hmin]. split.
      * simpl in Hin. tauto.
      * intros e [<-|[<-|He]].
        -- apply tuple_leb_false_fst in E. specialize (Hmin y (or_introl eq_refl)). lia.
        -- apply Hmin. now left.
        -- apply Hmin. now right.
Qed.

Lemma remove_first_In (m e : Z * string) (h : heap) :
  In e (remove_first m h) -> In e h.
Proof.
  induction h as [|y h IH]; simpl; [auto|].
  case_bool_decide; simpl; [auto|]. intros [<-|He]; auto.
Qed.

Lemma In_remove_first (m e : Z * string) (h : heap) :
  In e h -> e = m \/ In e (remove_first m h).
Proof.
  induction h as [|y h IH]; simpl; [auto|].
  case_bool_decide as Hy; simpl.
  - intros [<-|He]; auto.
  - intros [<-|He]; [auto|]. destruct (IH He); auto.
Qed.

Lemma remove_first_length (m : Z * string) (h : heap) :
  In m h -> length h = S (length (remove_first m h)).
Proof.
  induction h as [|y h IH]; simpl; [tauto|].
  case_bool_decide as Hy; simpl; [reflexivity|].
  intros [<-|Hm]; [congruence|]. now rewrite <- IH.
Qed.

Lemma heappop_none (h : heap) : heappop h = None -> h = [].
Proof. destruct h; [reflexivity | discriminate]. Qed.

(** [heappop] hands out an entry of least cost and keeps all the others. *)
Lemma heappop_some (h h' : heap) (m : Z * string) :
  heappop h = Some (m, h') ->
  In m h
  /\ (forall e, In e h -> fst m <= fst e)
  /\ (forall e, In e h -> e = m \/ In e h')
  /\ (forall e, In e h' -> In e h)
  /\ length h = S (length h').
Proof.
  destruct h as [|x h0]; [discriminate|]. unfold heappop.
  intros H. inversion H; subst m h'. clear H.
  destruct (heap_min_spec x h0) as [Hin Hmin].
  split; [assumption|]. split; [assumption|].
  split; [intros e; exact (In_remove_first (heap_min x h0) e (x :: h0))|].
  split; [intros e; exact (remove_first_In (heap_min x h0) e (x :: h0))|].
  exact (remove_first_length (heap_min x h0) (x :: h0) Hin).
Qed.

End Heap.

(** ** Dijkstra: the loop invariant *)

Lemma walk_end_in_graph (g : Graph.t) (u v : string) (p : list edge) :
  wf_graph g -> u ∈ Graph.nodes g -> is_walk (Graph.edges g) u p v -> v ∈ Graph.nodes g.
Proof.
  intros Hwf Hu Hp. apply (walk_nodes_in_graph g u v p Hwf Hu Hp).
  unfold walk_nodes. clear Hu. revert u Hp.
  induction p as [|e p IH]; simpl; intros u Hp.
  - subst. apply elem_of_cons. auto.
  - destruct Hp as (_ & _ & Hp). specialize (IH _ Hp).
    apply elem_of_cons. right. exact IH.
Qed.

Lemma pending_app (visited : gset string) (l1 l2 : list edge) :
  pending visited (l1 ++ l2) = (pending visited l1 + pending visited l2)%nat.
Proof.
  induction l1 as [|e l1 IH]; simpl; [reflexivity|].
  case_bool_decide; rewrite IH; reflexivity.
Qed.

Lemma pending_le_length (visited : gset string) (es : list edge) :
  (pending visited es <= length es)%nat.
Proof. induction es as [|e es IH]; simpl; [lia|]. case_bool_decide; lia. Qed.

Lemma pending_mono (visited visited' : gset string) (es : list edge) :
  visited ⊆ visited' -> (pending visited' es <= pending visited es)%nat.
Proof.
  intros Hsub. induction es as [|e es IH]; simpl; [lia|].
  repeat case_bool_decide; try lia. exfalso. auto.
Qed.

Lemma pending_source (visited : gset string) (k : string) (nb : list (string * Z)) :
  pending visited (map (fun tw => (k, fst tw, snd tw)) nb)
  = if bool_decide (k ∈ visited) then O else length nb.
Proof.
  induction nb as [|tw nb IH]; simpl; [now destruct (bool_decide (k ∈ visited))|].
  unfold src at 1. simpl. rewrite IH. now destruct (bool_decide (k ∈ visited)).
Qed.

(** Finalising [x] takes its outgoing edges out of the pending ones. *)
Lemma pending_visit (g : Graph.t) (visited : gset string) (x : string) :
  x ∉ visited ->
  (pending ({[x]} ∪ visited) (Graph.edges g) + length (Graph.neighbors g x)
   <= pending visited (Graph.edges g))%nat.
Proof.
  intros Hx. unfold Graph.edges, Graph.neighbors.
  induction g as [|[k nb] g IH]; simpl; [lia|].
  rewrite !pending_app, !pending_source.
  destruct (String.eqb_spec k x) as [->|Hne]; simpl.
  - rewrite bool_decide_eq_true_2 by set_solver.
    rewrite bool_decide_eq_false_2 by assumption.
    pose proof (pending_mono visited ({[x]} ∪ visited)
                  (flat_map (fun sn => map (fun tw => (sn.1, tw.1, tw.2)) sn.2) g)
                  ltac:(set_solver)).
    lia.
  - assert (Hk : bool_decide (k ∈ {[x]} ∪ visited) = bool_decide (k ∈ visited)).
    { apply bool_decide_ext. set_solver. }
    rewrite Hk. lia.
Qed.

Section DijkstraInvariant.

Import Dijkstra.

Variable g : Graph.t.
Hypothesis Hwf : wf_graph g.
Hypothesis Hnn : nonnegative (Graph.edges g).
Variables start goal : string.
Hypothesis Hstart : start ∈ Graph.nodes g.

Local Abbreviation es := (Graph.edges g).
Local Abbreviation Inv := (dijkstra_inv g start goal).

Lemma inv_init :
  goal ∈ Graph.nodes g -> Inv {[start := 0]} {[start := None]} [(0, start)] ∅.
Proof.
  intros Hgoal. split.
  - intros c v [H|[]]. inversion H; subst. exists []. now split.
  - intros y d Hy. apply lookup_singleton_Some in Hy as [<- <-]. right. now left.
  - intros x y w _ Hx. set_solver.
  - right. now left.
  - set_solver.
  - exists (fun _ => O), O. split; [set_solver|].
    intros v u Hv. apply lookup_singleton_Some in Hv as [_ Hv]. discriminate.
  - set_solver.
Qed.

(** Every walk from the start ends in a finalised node or is at least as
    heavy as some queue entry. *)
Lemma frontier dist prev h visited (p : list edge) (u : string) :
  Inv dist prev h visited -> is_walk es start p u ->
  u ∈ visited \/ exists c y, In (c, y) h /\ c <= weight p.
Proof.
  intros HI. revert u. induction p as [|e p IH] using rev_ind; intros u Hp.
  - simpl in Hp. subst u. destruct (inv_start _ _ _ _ _ _ _ HI) as [Hs|Hs]; [auto|].
    right. exists 0, start. split; [assumption | simpl; lia].
  - apply is_walk_last in Hp as (Hp & Hin & Ht). subst u.
    pose proof (Hnn _ Hin) as Hw. rewrite weight_app. simpl.
    destruct (IH _ Hp) as [Hv | (c & y & Hh & Hle)].
    + destruct e as [[s t] w]. unfold src, tgt, wgt in *. simpl in *.
      destruct (inv_done _ _ _ _ _ _ _ HI s t w Hin Hv) as [Ht | (dy & Hdy & Hbound)];
        [auto|].
      destruct (inv_dist_heap _ _ _ _ _ _ _ HI t dy Hdy) as [Ht | Hh]; [auto|].
      right. exists dy, t. split; [assumption|]. specialize (Hbound p Hp). lia.
    + right. exists c, y. split; [assumption | lia].
Qed.

(** Discarding a stale queue entry keeps the invariant. *)
Lemma inv_stale dist prev h h' visited (c : Z) (x : string) :
  Inv dist prev h visited -> heappop h = Some ((c, x), h') -> x ∈ visited ->
  Inv dist prev h' visited.
Proof.
  intros HI Hpop Hx. apply heappop_some in Hpop as (Hm & _ & Hrest & Hsub & _).
  destruct HI as [I1 I3 I4 I6 I7 I9 I10]. split; auto.
  - intros y d Hy. destruct (I3 y d Hy) as [Hv|Hh]; [auto|].
    destruct (Hrest _ Hh) as [Heq|Hh']; [|auto]. inversion Heq; subst. auto.
  - destruct I6 as [Hs|Hs]; [auto|].
    destruct (Hrest _ Hs) as [Heq|Hh']; [|auto]. inversion Heq; subst. auto.
Qed.

End DijkstraInvariant.

(** ** Dijkstra: relaxing the neighbours of a finalised node *)

Section RelaxNeighbours.

Import Dijkstra.

Variable x : string.
Variable c : Z.
Variable visited : gset string.

Lemma relaxed_nil st : relaxed x c visited [] st st.
Proof.
  destruct st as [[dist prev] h]. unfold relaxed.
  split; [auto|]. split; [auto|]. split; [intros y d Hy; exists d; split; [auto | lia]|].
  split; [auto|]. split; [intros y w []|]. split; [auto | simpl; lia].
Qed.

Lemma relaxed_one st (y : string) (w : Z) :
  relaxed x c visited [(y, w)] st (relax_neighbor x c visited st (y, w)).
Proof.
  destruct st as [[dist prev] h]. unfold relax_neighbor.
  case_bool_decide as Hy.
  { split; [auto|]. split; [auto|].
    split; [intros y0 d Hd; exists d; split; [auto | lia]|].
    split; [auto|]. split; [intros y0 w0 [H|[]]; inversion H; subst; auto|].
    split; [auto | simpl; lia]. }
  destruct (dist !! y) as [d0|] eqn:Hd0.
  - destruct (c + w <? d0) eqn:Hlt.
    + split; [|split; [|split; [|split; [|split; [|split]]]]].
      * intros e [<-|He]; [|auto]. right. exists y, w. simpl. auto.
      * intros e He. now right.
      * intros y0 d Hd. destruct (decide (y = y0)) as [<-|Hne].
        -- rewrite lookup_insert_eq. exists (c + w). split; [reflexivity|].
           rewrite Hd0 in Hd. inversion Hd. lia.
        -- rewrite lookup_insert_ne by assumption. exists d. split; [assumption | lia].
      * intros y0 d' Hd'. destruct (decide (y = y0)) as [<-|Hne].
        -- rewrite lookup_insert_eq in Hd'. inversion Hd'. right. now left.
        -- rewrite lookup_insert_ne in Hd' by assumption. auto.
      * intros y0 w0 [H|[]]. inversion H; subst. right. exists (c + w0).
        rewrite lookup_insert_eq. split; [reflexivity | lia].
      * intros v u Hv. destruct (decide (y = v)) as [<-|Hne].
        -- rewrite lookup_insert_eq in Hv. inversion Hv. auto.
        -- rewrite lookup_insert_ne in Hv by assumption. auto.
      * simpl. lia.
    + split; [auto|]. split; [auto|].
      split; [intros y0 d Hd; exists d; split; [auto | lia]|].
      split; [auto|]. split; [|split; [auto | simpl; lia]].
      intros y0 w0 [H|[]]. inversion H; subst. right. exists d0. split; [assumption | lia].
  - split; [|split; [|split; [|split; [|split; [|split]]]]].
    * intros e [<-|He]; [|auto]. right. exists y, w. simpl. auto.
    * intros e He. now right.
    * intros y0 d Hd. destruct (decide (y = y0)) as [<-|Hne]; [congruence|].
      rewrite lookup_insert_ne by assumption. exists d. split; [assumption | lia].
    * intros y0 d' Hd'. destruct (decide (y = y0)) as [<-|Hne].
      -- rewrite lookup_insert_eq in Hd'. inversion Hd'. right. now left.
      -- rewrite lookup_insert_ne in Hd' by assumption. auto.
    * intros y0 w0 [H|[]]. inversion H; subst. right. exists (c + w0).
      rewrite lookup_insert_eq. split; [reflexivity | lia].
    * intros v u Hv. destruct (decide (y = v)) as [<-|Hne].
      -- rewrite lookup_insert_eq in Hv. inversion Hv. auto.
      -- rewrite lookup_insert_ne in Hv by assumption. auto.
    * simpl. lia.
Qed.

Lemma relaxed_cons (yw : string * Z) (nbs : list (string * Z)) st st1 st2 :
  relaxed x c visited [yw] st st1 -> relaxed x c visited nbs st1 st2 ->
  relaxed x c visited (yw :: nbs) st st2.
Proof.
  destruct st as [[dist prev] h], st1 as [[dist1 prev1] h1], st2 as [[dist2 prev2] h2].
  intros (A1 & B1 & C1 & D1 & E1 & F1 & G1) (A2 & B2 & C2 & D2 & E2 & F2 & G2).
  split; [|split; [|split; [|split; [|split; [|split]]]]].
  - intros e He. destruct (A2 e He) as [H1 | (y & w & Hin & Heq & Hy)].
    + destruct (A1 e H1) as [H0 | (y & w & Hin & Heq & Hy)]; [auto|].
      right. exists y, w. destruct Hin as [Hyw|[]]. simpl. auto.
    + right. exists y, w. simpl. auto.
  - auto.
  - intros y d Hd. destruct (C1 y d Hd) as (d1 & Hd1 & Hle1).
    destruct (C2 y d1 Hd1) as (d2 & Hd2 & Hle2). exists d2. split; [assumption | lia].
  - intros y d' Hd'. destruct (D2 y d' Hd') as [H1|H2]; [|auto].
    destruct (D1 y d' H1) as [H0|Hh]; auto.
  - intros y w [Heq|Hin]; [|auto].
    destruct (E1 y w (or_introl Heq)) as [Hy | (dy & Hdy & Hle)]; [auto|].
    destruct (C2 y dy Hdy) as (d2 & Hd2 & Hle2). right. exists d2. split; [assumption | lia].
  - intros v u Hv. destruct (F2 v u Hv) as [H1|H2]; auto.
  - simpl in *. lia.
Qed.

Lemma relaxed_fold (nbs : list (string * Z)) st :
  relaxed x c visited nbs st (fold_left (relax_neighbor x c visited) nbs st).
Proof.
  revert st. induction nbs as [|[y w] nbs IH]; intros st; [apply relaxed_nil|].
  cbn [fold_left]. eapply relaxed_cons; [apply relaxed_one | apply IH].
Qed.

End RelaxNeighbours.

(** ** Dijkstra: correctness of the loop *)

Section DijkstraCorrect.

Import Dijkstra.

Variable g : Graph.t.
Hypothesis Hwf : wf_graph g.
Hypothesis Hnn : nonnegative (Graph.edges g).
Variables start goal : string.
Hypothesis Hstart : start ∈ Graph.nodes g.

Local Abbreviation es := (Graph.edges g).
Local Abbreviation Inv := (dijkstra_inv g start goal).

(** The cost at which a node is finalised is the least weight of a walk to it. *)
Lemma popped_cost_shortest dist prev h h' visited (c : Z) (x : string) :
  Inv dist prev h visited -> heappop h = Some ((c, x), h') -> x ∉ visited ->
  shortest es start x c.
Proof.
  intros HI Hpop Hx. apply heappop_some in Hpop as (Hm & Hmin & _).
  split; [exact (inv_heap_walks _ _ _ _ _ _ _ HI c x Hm)|].
  intros p Hp. destruct (frontier g Hnn start goal dist prev h visited p x HI Hp)
    as [Hv | (c' & y & Hh & Hle)]; [contradiction|].
  specialize (Hmin _ Hh). simpl in Hmin. lia.
Qed.

(** Finalising a node other than the goal and relaxing its neighbours keeps
    the invariant. *)
Lemma inv_fresh dist prev h h1 visited (c : Z) (x : string) dist' prev' h' :
  Inv dist prev h visited -> heappop h = Some ((c, x), h1) -> x ∉ visited -> x <> goal ->
  fold_left (relax_neighbor x c ({[x]} ∪ visited)) (Graph.neighbors g x) (dist, prev, h1)
  = (dist', prev', h') ->
  Inv dist' prev' h' ({[x]} ∪ visited).
Proof.
  intros HI Hpop Hx Hgoal Hfold.
  destruct (popped_cost_shortest _ _ _ _ _ _ _ HI Hpop Hx) as [(px & Hpx & Hwx) Hcmin].
  apply heappop_some in Hpop as (Hm & _ & Hrest & Hsub & _).
  pose proof (relaxed_fold x c ({[x]} ∪ visited) (Graph.neighbors g x) (dist, prev, h1))
    as Hrel.
  rewrite Hfold in Hrel. destruct Hrel as (A & B & C & D & E & F & _).
  destruct HI as [I1 I3 I4 I6 I7 I9 I10].
  destruct Hwf as [Hnd _].
  split.
  - intros c0 v Hin. destruct (A _ Hin) as [H1 | (y & w & Hyw & Heq & _)]; [auto|].
    inversion Heq; subst c0 v.
    exists (px ++ [(x, y, w)]). split.
    + apply (is_walk_snoc es start px (x, y, w)); [assumption|].
      now apply neighbors_edges.
    + rewrite weight_app, Hwx. simpl. unfold wgt. simpl. lia.
  - intros y d' Hd'. destruct (D y d' Hd') as [H0|Hh]; [|auto].
    destruct (I3 y d' H0) as [Hv|Hh]; [left; set_solver|].
    destruct (Hrest _ Hh) as [Heq|Hh1]; [|auto]. inversion Heq; subst. left. set_solver.
  - intros x0 y w Hin Hx0. apply elem_of_union in Hx0 as [Hx0|Hx0].
    + apply elem_of_singleton in Hx0. subst x0.
      apply neighbors_edges in Hin; [|assumption].
      destruct (E y w Hin) as [Hy | (dy & Hdy & Hle)]; [auto|].
      right. exists dy. split; [assumption|]. intros p Hp. specialize (Hcmin p Hp). lia.
    + destruct (I4 x0 y w Hin Hx0) as [Hy | (dy & Hdy & Hbound)]; [left; set_solver|].
      destruct (C y dy Hdy) as (d' & Hd' & Hle). right. exists d'. split; [assumption|].
      intros p Hp. specialize (Hbound p Hp). lia.
  - destruct I6 as [Hs|Hs]; [left; set_solver|].
    destruct (Hrest _ Hs) as [Heq|Hh1]; [|auto]. inversion Heq; subst. left. set_solver.
  - set_solver.
  - destruct I9 as (rank & k & Hbound & Hlinks).
    exists (fun u => if decide (u = x) then k else rank u), (S k). split.
    + intros u Hu. destruct (decide (u = x)); [lia|].
      assert (u ∈ visited) by set_solver. specialize (Hbound u H). lia.
    + intros v u Hv. destruct (F v u Hv) as [Hold | [-> Hnew]].
      * destruct (Hlinks v u Hold) as [Hu Hvu]. split; [set_solver|].
        intros Hv'. destruct (decide (u = x)) as [->|_]; [contradiction|].
        destruct (decide (v = x)) as [_|Hne]; [now apply Hbound|].
        apply Hvu. set_solver.
      * split; [set_solver | intros Hv'; contradiction].
  - intros u Hu. apply elem_of_union in Hu as [Hu|Hu]; [|auto].
    apply elem_of_singleton in Hu. subst u.
    exact (walk_end_in_graph g start x px (conj Hnd (proj2 Hwf)) Hstart Hpx).
Qed.

Lemma linked_visited (prev : prev_map) (visited : gset string) (rank : string -> nat)
      (y : string) (l : list string) :
  (forall v u, prev !! v = Some (Some u) ->
               u ∈ visited /\ (v ∈ visited -> (rank u < rank v)%nat)) ->
  y ∈ visited -> linked prev (y :: l) ->
  forall z, z ∈ l -> z ∈ visited /\ (rank z < rank y)%nat.
Proof.
  intros Hlinks. revert y. induction l as [|y0 l IH]; intros y Hy Hl z Hz; [inversion Hz|].
  destruct Hl as [Hlink Hl]. destruct (Hlinks _ _ Hlink) as [Hy0 Hlt]. specialize (Hlt Hy).
  apply elem_of_cons in Hz as [->|Hz]; [auto|].
  destruct (IH y0 Hy0 Hl z Hz) as [Hz' Hlt']. split; [assumption | lia].
Qed.

Lemma linked_visited_NoDup (prev : prev_map) (visited : gset string) (rank : string -> nat)
      (l : list string) :
  (forall v u, prev !! v = Some (Some u) ->
               u ∈ visited /\ (v ∈ visited -> (rank u < rank v)%nat)) ->
  (forall z, z ∈ l -> z ∈ visited) -> linked prev l -> NoDup l.
Proof.
  intros Hlinks. induction l as [|y l IH]; intros Hin Hl; [constructor|].
  apply NoDup_cons. split.
  - intros Hy.
    destruct (linked_visited prev visited rank y l Hlinks
                (Hin y ltac:(apply elem_of_cons; auto)) Hl y Hy) as [_ Hlt]. lia.
  - apply IH; [intros z Hz; apply Hin, elem_of_cons; auto | now apply linked_tail in Hl].
Qed.

(** The predecessor links of the loop never form a circle. *)
Lemma dijkstra_chain dist prev h visited (v : string) :
  Inv dist prev h visited ->
  exists p, BellmanFord.chain (S (length (Graph.nodes g))) prev v = Some p.
Proof.
  intros HI. destruct (BellmanFord.chain _ prev v) as [p|] eqn:Hc; [eauto|]. exfalso.
  apply chain_none_linked in Hc as (l & Hlen & Hl).
  destruct (inv_links _ _ _ _ _ _ _ HI) as (rank & k & _ & Hlinks).
  destruct l as [|u l]; [discriminate|]. destruct Hl as [Hvu Hl].
  destruct (Hlinks v u Hvu) as [Hu _].
  assert (Hin : forall z, z ∈ u :: l -> z ∈ visited).
  { intros z Hz. apply elem_of_cons in Hz as [->|Hz]; [assumption|].
    now destruct (linked_visited prev visited rank u l Hlinks Hu Hl z Hz). }
  pose proof (linked_visited_NoDup prev visited rank (u :: l) Hlinks Hin Hl) as Hnd.
  assert (Hnodes : forall z, z ∈ u :: l -> z ∈ Graph.nodes g)
    by (intros z Hz; apply (inv_visited_nodes _ _ _ _ _ _ _ HI); auto).
  pose proof (submseteq_length _ _ (NoDup_submseteq _ _ Hnd Hnodes)) as Hle.
  rewrite Hlen in Hle. lia.
Qed.

(** With enough fuel for the entries queued and the edges still pending,
    the loop returns a path and the least weight of a walk to the goal. *)
Lemma loop_shortest (fuel : nat) dist prev h visited :
  Inv dist prev h visited ->
  reachable es start goal ->
  (length h + pending visited es < fuel)%nat ->
  exists p d, loop fuel g start goal dist prev h visited = Some (Ok (p, d))
              /\ shortest es start goal d.
Proof.
  intros HI [walk Hwalk]. revert dist prev h visited HI.
  induction fuel as [|fuel IH]; intros dist prev h visited HI Hfuel; [lia|].
  cbn [loop].
  destruct (heappop h) as [[[c x] h1]|] eqn:Hpop.
  2:{ apply heappop_none in Hpop. subst h.
      destruct (frontier g Hnn start goal _ _ _ _ walk goal HI Hwalk)
        as [Hv | (c & y & [] & _)].
      now apply (inv_goal _ _ _ _ _ _ _ HI) in Hv. }
  pose proof (heappop_some _ _ _ Hpop) as (_ & _ & _ & _ & Hlen).
  case_bool_decide as Hx.
  - apply IH; [eapply inv_stale; eassumption | lia].
  - destruct (String.eqb_spec x goal) as [->|Hne].
    + destruct (dijkstra_chain dist prev h visited goal HI) as [p Hp].
      unfold BellmanFord._reconstruct_path. rewrite Hp. simpl.
      exists (rev p), c. split; [reflexivity|].
      eapply popped_cost_shortest; eassumption.
    + destruct (fold_left _ _ _) as [[dist' prev'] h'] eqn:Hfold.
      apply IH; [eapply inv_fresh; eassumption|].
      pose proof (relaxed_fold x c ({[x]} ∪ visited) (Graph.neighbors g x) (dist, prev, h1))
        as Hrel.
      rewrite Hfold in Hrel. destruct Hrel as (_ & _ & _ & _ & _ & _ & Hpush).
      pose proof (pending_visit g visited x Hx). lia.
Qed.

(** The loop always comes to an end within its fuel. *)
Lemma loop_total (fuel : nat) dist prev h visited :
  Inv dist prev h visited ->
  (length h + pending visited es < fuel)%nat ->
  exists r, loop fuel g start goal dist prev h visited = Some r.
Proof.
  revert dist prev h visited.
  induction fuel as [|fuel IH]; intros dist prev h visited HI Hfuel; [lia|].
  cbn [loop].
  destruct (heappop h) as [[[c x] h1]|] eqn:Hpop; [|eauto].
  pose proof (heappop_some _ _ _ Hpop) as (_ & _ & _ & _ & Hlen).
  case_bool_decide as Hx.
  - apply IH; [eapply inv_stale; eassumption | lia].
  - destruct (String.eqb_spec x goal) as [->|Hne].
    + destruct (dijkstra_chain dist prev h visited goal HI) as [p Hp].
      unfold BellmanFord._reconstruct_path. rewrite Hp. simpl. eauto.
    + destruct (fold_left _ _ _) as [[dist' prev'] h'] eqn:Hfold.
      apply IH; [eapply inv_fresh; eassumption|].
      pose proof (relaxed_fold x c ({[x]} ∪ visited) (Graph.neighbors g x) (dist, prev, h1))
        as Hrel.
      rewrite Hfold in Hrel. destruct Hrel as (_ & _ & _ & _ & _ & _ & Hpush).
      pose proof (pending_visit g visited x Hx). lia.
Qed.

End DijkstraCorrect.

Lemma nonnegative_no_negative_weights (g : Graph.t) :
  Graph.has_negative_weights g = false <-> nonnegative (Graph.edges g).
Proof.
  unfold Graph.has_negative_weights, nonnegative. split.
  - intros Hnone e Hin.
    destruct (Z.ltb_spec (snd e) 0) as [Hneg|Hok]; [|exact Hok].
    assert (Hex : existsb (fun e => snd e <? 0) (Graph.edges g) = true).
    { apply existsb_exists. exists e. split; [assumption | lia]. }
    congruence.
  - intros Hall. destruct (existsb _ _) eqn:E; [|reflexivity].
    apply existsb_exists in E as (e & Hin & Hneg). specialize (Hall e Hin).
    unfold wgt in Hall. lia.
Qed.

(** Dijkstra never runs out of fuel on a graph built by [add_edge]. *)
Theorem dijkstra_terminates (g : Graph.t) (start goal : string) :
  wf_graph g -> exists r, Dijkstra.compute g start goal = Some r.
Proof.
  intros Hwf. unfold Dijkstra.compute.
  destruct (Graph.has_negative_weights g) eqn:Hneg; [eauto|].
  apply nonnegative_no_negative_weights in Hneg.
  destruct (Graph.validate_nodes_exist g [start; goal]) as [[]|e] eqn:Hval; [|eauto].
  apply validate_nodes_inv in Hval as [Hs Hg].
  apply loop_total; try assumption.
  - now apply inv_init.
  - simpl. pose proof (pending_le_length ∅ (Graph.edges g)). lia.
Qed.

(** On a graph without negative weights Dijkstra returns, for every goal in
    reach, a path together with the least weight of a walk. *)
Theorem dijkstra_shortest (g : Graph.t) (start goal : string) :
  wf_graph g -> nonnegative (Graph.edges g) ->
  start ∈ Graph.nodes g -> goal ∈ Graph.nodes g ->
  reachable (Graph.edges g) start goal ->
  exists p d, Dijkstra.compute g start goal = Some (Ok (p, d))
              /\ shortest (Graph.edges g) start goal d.
Proof.
  intros Hwf Hnn Hs Hg Hreach. unfold Dijkstra.compute.
  rewrite (proj2 (nonnegative_no_negative_weights g) Hnn).
  rewrite validate_nodes_ok by assumption.
  apply loop_shortest; try assumption.
  - now apply inv_init.
  - simpl. pose proof (pending_le_length ∅ (Graph.edges g)). lia.
Qed.

(** ** Dijkstra and Bellman-Ford side by side *)



(** ** The graph as a dictionary of dictionaries *)

Section DictLookup.

Context {V : Type}.
Implicit Types (d : list (string * V)) (k : string) (v : V).

Lemma get_set_eq d k v : Graph.get (Graph.set d k v) k = Some v.
Proof.
  induction d as [|[k' v'] d IH]; simpl; [now rewrite String.eqb_refl|].
  destruct (String.eqb_spec k' k) as [->|Hne]; simpl.
  - now rewrite String.eqb_refl.
  - destruct (String.eqb_spec k' k); [contradiction | assumption].
Qed.

Lemma get_set_ne d k v k' : k' <> k -> Graph.get (Graph.set d k v) k' = Graph.get d k'.
Proof.
  intros Hne. induction d as [|[k0 v0] d IH]; simpl.
  - destruct (String.eqb_spec k k'); [congruence | reflexivity].
  - destruct (String.eqb_spec k0 k) as [->|Hk0]; simpl.
    + destruct (String.eqb_spec k k'); [congruence | reflexivity].
    + now rewrite IH.
Qed.

Lemma mem_false_get d k : Graph.mem k d = false -> Graph.get d k = None.
Proof.
  unfold Graph.mem. induction d as [|[k0 v0] d IH]; simpl; [reflexivity|].
  destruct (String.eqb_spec k0 k); simpl; [discriminate | assumption].
Qed.

Lemma set_values d k v k' v' :
  In (k', v') (Graph.set d k v) -> v' = v \/ In (k', v') d.
Proof. intros H. apply set_In in H. tauto. Qed.

End DictLookup.

(** The neighbour dictionaries after [add_edge]. *)
Lemma add_edge_neighbors_of (g : Graph.t) (s t : string) (w : Z) (x : string) :
  Graph.neighbors (Graph.add_edge g s t w) x
  = if String.eqb x s then Graph.set (Graph.neighbors g s) t w else Graph.neighbors g x.
Proof.
  unfold Graph.add_edge.
  set (g1 := if Graph.mem s g then g else Graph.set g s []).
  assert (H1 : forall y, Graph.neighbors g1 y = Graph.neighbors g y).
  { intros y. subst g1. unfold Graph.neighbors.
    destruct (Graph.mem s g) eqn:Hmem; [reflexivity|].
    destruct (String.eqb_spec y s) as [->|Hne].
    - now rewrite get_set_eq, (mem_false_get _ _ Hmem).
    - now rewrite get_set_ne. }
  fold (Graph.neighbors g1 s). rewrite H1.
  set (g2 := Graph.set g1 s (Graph.set (Graph.neighbors g s) t w)).
  assert (H2 : Graph.neighbors g2 x
               = if String.eqb x s then Graph.set (Graph.neighbors g s) t w
                 else Graph.neighbors g x).
  { subst g2. unfold Graph.neighbors at 1.
    destruct (String.eqb_spec x s) as [->|Hne].
    - now rewrite get_set_eq.
    - rewrite get_set_ne by assumption. apply H1. }
  destruct (Graph.mem t g2) eqn:Hmem; [assumption|].
  rewrite <- H2. unfold Graph.neighbors.
  destruct (String.eqb_spec x t) as [->|Hne].
  - now rewrite get_set_eq, (mem_false_get _ _ Hmem).
  - now rewrite get_set_ne.
Qed.

Lemma add_edge_nodes (g : Graph.t) (s t : string) (w : Z) :
  Graph.nodes (Graph.add_edge g s t w)
  = Graph.nodes g
      ++ (if bool_decide (s ∈ Graph.nodes g) then [] else [s])
      ++ (if bool_decide (t ∈ Graph.nodes g) || String.eqb t s then [] else [t]).
Proof.
  unfold Graph.add_edge, Graph.nodes.
  set (g1 := if Graph.mem s g then g else Graph.set g s []).
  assert (H1 : map fst g1 = map fst g ++ (if bool_decide (s ∈ map fst g) then [] else [s])).
  { subst g1. destruct (Graph.mem s g) eqn:Hmem.
    - rewrite bool_decide_eq_true_2 by now apply mem_true. now rewrite app_nil_r.
    - rewrite bool_decide_eq_false_2
        by (intros Hin; apply mem_true in Hin; congruence).
      now rewrite set_keys, Hmem. }
  assert (Hs1 : Graph.mem s g1 = true).
  { apply mem_true. rewrite H1. case_bool_decide as Hs.
    - now rewrite app_nil_r.
    - rewrite elem_of_app, list_elem_of_singleton. auto. }
  set (g2 := Graph.set g1 s _).
  assert (H2 : map fst g2 = map fst g1) by (subst g2; now rewrite set_keys, Hs1).
  assert (Ht : Graph.mem t g2 = bool_decide (t ∈ map fst g) || String.eqb t s).
  { apply eq_true_iff_eq. rewrite mem_true, H2, H1, orb_true_iff, bool_decide_eq_true.
    rewrite String.eqb_eq, elem_of_app. case_bool_decide as Hs.
    - split; [intros [H|H]; [auto | inversion H] | intros [H | ->]; auto].
    - rewrite list_elem_of_singleton. tauto. }
  rewrite <- Ht. destruct (Graph.mem t g2) eqn:Hmem.
  - now rewrite H2, H1, app_nil_r.
  - now rewrite set_keys, Hmem, H2, H1, <- app_assoc.
Qed.

(** X1. [add_edge] as a dictionary update: afterwards the weight stored for
    [source -> target] is the one just given, every other stored weight is
    what it was, and the nodes are the old ones, in their old order,
    followed by whichever of [source] and [target] are new. *)
Theorem add_edge_lookup (g : Graph.t) (source target : string) (weight : Z) :
  let g' := Graph.add_edge g source target weight in
  Graph.get (Graph.neighbors g' source) target = Some weight
  /\ (forall x y, (x, y) <> (source, target) ->
                  Graph.get (Graph.neighbors g' x) y = Graph.get (Graph.neighbors g x) y)
  /\ (exists new, Graph.nodes g' = Graph.nodes g ++ new
                  /\ forall x, x ∈ new <-> (x = source \/ x = target) /\ x ∉ Graph.nodes g).
Proof.
  intros g'. subst g'. split; [|split].
  - rewrite add_edge_neighbors_of, String.eqb_refl. apply get_set_eq.
  - intros x y Hne. rewrite add_edge_neighbors_of.
    destruct (String.eqb_spec x source) as [->|Hx]; [|reflexivity].
    apply get_set_ne. congruence.
  - rewrite add_edge_nodes. eexists. split; [reflexivity|].
    intros x. rewrite elem_of_app.
    case_bool_decide as Hs; destruct (bool_decide (target ∈ Graph.nodes g)) eqn:Ht;
      [apply bool_decide_eq_true in Ht | apply bool_decide_eq_false in Ht
       | apply bool_decide_eq_true in Ht | apply bool_decide_eq_false in Ht];
      simpl; destruct (String.eqb_spec target source) as [Heq|Hneq];
      rewrite ?list_elem_of_singleton; split;
      try (intros [H|H]; inversion H; fail);
      try (intros [[-> | ->] H]; tauto);
      try (intros [H|H]; try inversion H; subst; tauto);
      try (intros [-> | ->]; tauto);
      try (subst; tauto).
Qed.

(** ** Graphs built from edge lists *)

Lemma set_values_NoDup (g : list (string * list (string * Z))) (k : string)
      (v : list (string * Z)) :
  NoDup (map fst v) ->
  (forall s nb, In (s, nb) g -> NoDup (map fst nb)) ->
  forall s nb, In (s, nb) (Graph.set g k v) -> NoDup (map fst nb).
Proof.
  intros Hv Hg s nb Hin. apply set_In in Hin as [[_ ->]|Hin]; eauto.
Qed.

Lemma neighbors_NoDup (g : Graph.t) (x : string) :
  dict_graph g -> NoDup (map fst (Graph.neighbors g x)).
Proof.
  intros [_ Hin]. unfold Graph.neighbors.
  destruct (Graph.get g x) as [nb|] eqn:Hget; simpl; [|constructor].
  apply get_In in Hget. eauto.
Qed.

Lemma add_edge_dict (g : Graph.t) (s t : string) (w : Z) :
  dict_graph g -> dict_graph (Graph.add_edge g s t w).
Proof.
  intros Hg. pose proof (neighbors_NoDup g s Hg) as Hnb. destruct Hg as [Hnd Hin].
  unfold Graph.add_edge.
  set (g1 := if Graph.mem s g then g else Graph.set g s []).
  assert (Hg1 : dict_graph g1).
  { subst g1. destruct (Graph.mem s g); [now split|]. split.
    - now apply set_keys_NoDup.
    - apply set_values_NoDup; [constructor | assumption]. }
  assert (Hnb1 : Graph.neighbors g1 s = Graph.neighbors g s).
  { subst g1. unfold Graph.neighbors. destruct (Graph.mem s g) eqn:Hmem; [reflexivity|].
    now rewrite get_set_eq, (mem_false_get _ _ Hmem). }
  fold (Graph.neighbors g1 s). rewrite Hnb1.
  set (g2 := Graph.set g1 s _).
  assert (Hg2 : dict_graph g2).
  { subst g2. destruct Hg1 as [Hnd1 Hin1]. split.
    - now apply set_keys_NoDup.
    - apply set_values_NoDup; [now apply set_keys_NoDup | assumption]. }
  destruct (Graph.mem t g2); [assumption|]. destruct Hg2 as [Hnd2 Hin2]. split.
  - now apply set_keys_NoDup.
  - apply set_values_NoDup; [constructor | assumption].
Qed.

Lemma from_edge_list_dict (es : list edge) : dict_graph (Graph.from_edge_list es).
Proof.
  unfold Graph.from_edge_list.
  assert (H0 : dict_graph Graph.empty) by (split; [constructor | intros s nb []]).
  revert H0. generalize Graph.empty.
  induction es as [|e es IH]; intros g Hg; [assumption|].
  simpl. apply IH. now apply add_edge_dict.
Qed.

(** In a dictionary of dictionaries the edges are the stored weights. *)
Lemma edges_lookup (g : Graph.t) (x y : string) (w : Z) :
  dict_graph g ->
  In (x, y, w) (Graph.edges g) <-> Graph.get (Graph.neighbors g x) y = Some w.
Proof.
  intros Hg. rewrite <- (neighbors_edges g x y w) by apply Hg. split.
  - apply In_get. now apply neighbors_NoDup.
  - apply get_In.
Qed.

Lemma from_edge_list_lookup (es : list edge) (x y : string) :
  Graph.get (Graph.neighbors (Graph.from_edge_list es) x) y = last_weight es x y.
Proof.
  unfold Graph.from_edge_list, last_weight.
  change (@None Z) with (Graph.get (Graph.neighbors Graph.empty x) y).
  generalize Graph.empty.
  induction es as [|[[s t] w] es IH]; intros g; [reflexivity|].
  cbn [fold_left]. rewrite IH. f_equal. unfold src, tgt, wgt. cbn [fst snd].
  rewrite add_edge_neighbors_of.
  destruct (String.eqb_spec s x) as [->|Hs].
  - rewrite String.eqb_refl. destruct (String.eqb_spec t y) as [->|Ht]; simpl.
    + apply get_set_eq.
    + apply get_set_ne. congruence.
  - destruct (String.eqb_spec x s); [congruence | reflexivity].
Qed.

Lemma last_weight_snoc (es : list edge) (e : edge) (x y : string) :
  last_weight (es ++ [e]) x y
  = if String.eqb (src e) x && String.eqb (tgt e) y then Some (wgt e) else last_weight es x y.
Proof. unfold last_weight. now rewrite fold_left_app. Qed.

(** [last_weight] is the weight of an edge of the list that no later edge
    between the same two nodes follows. *)
Lemma last_weight_Some (es : list edge) (x y : string) (w : Z) :
  last_weight es x y = Some w
  <-> exists l1 l2, es = l1 ++ (x, y, w) :: l2
                    /\ forall e, In e l2 -> ~ (src e = x /\ tgt e = y).
Proof.
  induction es as [|e es IH] using rev_ind.
  - split; [discriminate | intros (l1 & l2 & H & _); now destruct l1].
  - rewrite last_weight_snoc.
    destruct (String.eqb_spec (src e) x) as [Hs|Hs];
      [destruct (String.eqb_spec (tgt e) y) as [Ht|Ht]|]; simpl.
    + split.
      * intros H. inversion H. exists es, []. split.
        -- destruct e as [[s t] w0]. unfold src, tgt, wgt in *. simpl in *. now subst.
        -- intros e0 [].
      * intros (l1 & l2 & Heq & Hlast).
        destruct l2 as [|e2 l2 _] using rev_ind.
        -- apply app_inj_tail in Heq as [_ ->]. reflexivity.
        -- rewrite app_comm_cons, app_assoc in Heq. apply app_inj_tail in Heq as [_ He].
           exfalso. apply (Hlast e2); [apply in_or_app; right; now left|].
           now rewrite <- He.
    + rewrite IH. split.
      * intros (l1 & l2 & -> & Hlast). exists l1, (l2 ++ [e]).
        split; [now rewrite <- app_assoc|].
        intros e0 Hin. apply in_app_or in Hin as [Hin|[<-|[]]]; [auto | tauto].
      * intros (l1 & l2 & Heq & Hlast).
        destruct l2 as [|e2 l2 _] using rev_ind.
        -- apply app_inj_tail in Heq as [_ ->]. now unfold tgt in Ht.
        -- rewrite app_comm_cons, app_assoc in Heq. apply app_inj_tail in Heq as [-> ->].
           exists l1, l2. split; [reflexivity|].
           intros e0 Hin. apply Hlast. apply in_or_app. auto.
    + rewrite IH. split.
      * intros (l1 & l2 & -> & Hlast). exists l1, (l2 ++ [e]).
        split; [now rewrite <- app_assoc|].
        intros e0 Hin. apply in_app_or in Hin as [Hin|[<-|[]]]; [auto | tauto].
      * intros (l1 & l2 & Heq & Hlast).
        destruct l2 as [|e2 l2 _] using rev_ind.
        -- apply app_inj_tail in Heq as [_ ->]. now unfold src in Hs.
        -- rewrite app_comm_cons, app_assoc in Heq. apply app_inj_tail in Heq as [-> ->].
           exists l1, l2. split; [reflexivity|].
           intros e0 Hin. apply Hlast. apply in_or_app. auto.
Qed.

(** X2. A graph built by [from_edge_list] is a proper dictionary of
    dictionaries (no node is stored twice, no node has two weights to the
    same neighbour), and both ends of each of its edges are nodes. *)
Theorem from_edge_list_well_formed (es : list edge) :
  let g := Graph.from_edge_list es in
  NoDup (Graph.nodes g)
  /\ (forall x, NoDup (map fst (Graph.neighbors g x)))
  /\ (forall e, In e (Graph.edges g) -> src e ∈ Graph.nodes g /\ tgt e ∈ Graph.nodes g).
Proof.
  intros g. pose proof (from_edge_list_dict es) as Hd.
  pose proof (from_edge_list_wf es) as [Hnd Htgt]. fold g in Hd, Hnd, Htgt.
  split; [assumption|]. split.
  - intros x. now apply neighbors_NoDup.
  - intros e He. split; [now apply edge_source_is_node | now apply Htgt].
Qed.

(** X3. The edges of [from_edge_list es] are the edges of [es] with
    repetitions resolved in favour of the last one: [x -> y] is an edge of
    weight [w] exactly when [(x, y, w)] occurs in [es] and no later element
    of [es] joins [x] to [y] again; and that weight is the one
    [neighbors(x)] holds for [y]. *)
Theorem from_edge_list_edges (es : list edge) (x y : string) (w : Z) :
  let g := Graph.from_edge_list es in
  (In (x, y, w) (Graph.edges g)
   <-> exists l1 l2, es = l1 ++ (x, y, w) :: l2
                     /\ forall e, In e l2 -> ~ (src e = x /\ tgt e = y))
  /\ (In (x, y, w) (Graph.edges g) <-> Graph.get (Graph.neighbors g x) y = Some w).
Proof.
  intros g. pose proof (from_edge_list_dict es) as Hd. fold g in Hd.
  split; [|now apply edges_lookup].
  rewrite edges_lookup by assumption. subst g.
  rewrite from_edge_list_lookup. apply last_weight_Some.
Qed.

(** ** The least weight and the node check *)

Lemma fold_min_le (ws : list Z) (w : Z) :
  fold_left Z.min ws w <= w /\ forall x, In x ws -> fold_left Z.min ws w <= x.
Proof.
  revert w. induction ws as [|a ws IH]; intros w; simpl; [split; [lia | tauto]|].
  destruct (IH (Z.min w a)) as [H1 H2]. split; [lia|].
  intros x [<-|Hx]; [lia | auto].
Qed.

Lemma fold_min_In (ws : list Z) (w : Z) :
  fold_left Z.min ws w = w \/ In (fold_left Z.min ws w) ws.
Proof.
  revert w. induction ws as [|a ws IH]; intros w; simpl; [auto|].
  destruct (IH (Z.min w a)) as [H|H]; [|auto].
  rewrite H. destruct (Z.min_spec w a) as [[_ ->]|[_ ->]]; auto.
Qed.

(** X4. [min_weight] is 0 on a graph without edges and otherwise the
    weight of some edge that no edge undercuts; the graph has a negative
    weight exactly when that minimum is negative, so the minimum that
    Dijkstra reports when it refuses a graph is below zero. *)
Theorem min_weight_least (g : Graph.t) :
  (Graph.edges g = [] -> Graph.min_weight g = 0)
  /\ (forall e, In e (Graph.edges g) -> Graph.min_weight g <= wgt e)
  /\ (Graph.edges g <> [] -> exists e, In e (Graph.edges g) /\ wgt e = Graph.min_weight g)
  /\ (Graph.has_negative_weights g = true <-> Graph.min_weight g < 0).
Proof.
  unfold Graph.min_weight, Graph.has_negative_weights.
  assert (Hle : forall e, In e (Graph.edges g) ->
                          match map snd (Graph.edges g) with
                          | [] => 0
                          | w :: ws => fold_left Z.min ws w
                          end <= wgt e).
  { intros e He. apply (in_map snd) in He. fold (wgt e) in He.
    destruct (map snd (Graph.edges g)) as [|w ws]; [destruct He|].
    destruct (fold_min_le ws w) as [H1 H2]. destruct He as [<-|He]; auto. }
  assert (Hin : Graph.edges g <> [] ->
                exists e, In e (Graph.edges g)
                          /\ wgt e = match map snd (Graph.edges g) with
                                     | [] => 0
                                     | w :: ws => fold_left Z.min ws w
                                     end).
  { intros Hne.
    assert (Hm : In (match map snd (Graph.edges g) with
                     | [] => 0
                     | w :: ws => fold_left Z.min ws w
                     end) (map snd (Graph.edges g))).
    { destruct (Graph.edges g) as [|e es]; [contradiction|]. cbn [map].
      destruct (fold_min_In (map snd es) (snd e)) as [-> | H]; [now left | now right]. }
    apply in_map_iff in Hm as (e & He & Hin). exists e. auto. }
  split; [|split; [|split]].
  - now intros ->.
  - exact Hle.
  - exact Hin.
  - rewrite existsb_exists. split.
    + intros (e & He & Hneg). specialize (Hle e He). unfold wgt in Hle. lia.
    + intros Hneg. destruct (Graph.edges g) as [|e0 es] eqn:Hes; [simpl in Hneg; lia|].
      destruct Hin as (e & He & Hw); [discriminate|].
      exists e. split; [assumption|]. unfold wgt in Hw. lia.
Qed.

Lemma validate_nodes_raise (g : Graph.t) (ns : list string) (e : exn) :
  fold_left
    (fun r n => do _ <- r in
                if bool_decide (n ∈ Graph.nodes g) then Ok tt
                else Raise (GraphValidationError (NodeNotFound n)))
    ns (Raise e) = Raise e.
Proof. induction ns as [|n ns IH]; simpl; auto. Qed.

(** X5. [validate_nodes_exist] accepts a list exactly when every node in
    it is a node of the graph, and otherwise raises [GraphValidationError]
    for the first node of the list that is missing. *)
Theorem validate_nodes_exist_first_missing (g : Graph.t) (ns : list string) :
  (Graph.validate_nodes_exist g ns = Ok tt <-> forall n, n ∈ ns -> n ∈ Graph.nodes g)
  /\ (forall l1 n l2,
         ns = l1 ++ n :: l2 -> (forall m, m ∈ l1 -> m ∈ Graph.nodes g) ->
         n ∉ Graph.nodes g ->
         Graph.validate_nodes_exist g ns = Raise (GraphValidationError (NodeNotFound n))).
Proof.
  unfold Graph.validate_nodes_exist. split.
  - induction ns as [|n ns IH]; simpl.
    + split; [intros _ n Hn; inversion Hn | reflexivity].
    + case_bool_decide as Hn.
      * rewrite IH. split.
        -- intros Hall m Hm. apply elem_of_cons in Hm as [->|Hm]; auto.
        -- intros Hall m Hm. apply Hall. apply elem_of_cons. auto.
      * rewrite validate_nodes_raise. split; [discriminate|].
        intros Hall. exfalso. apply Hn, Hall. apply elem_of_cons. auto.
  - intros l1 n l2 -> Hl1 Hn. induction l1 as [|m l1 IH]; simpl.
    + rewrite bool_decide_eq_false_2 by assumption. apply validate_nodes_raise.
    + rewrite bool_decide_eq_true_2 by (apply Hl1, elem_of_cons; auto).
      apply IH. intros m' Hm'. apply Hl1, elem_of_cons. auto.
Qed.

Lemma validate_nodes_exist_first_missing_witness :
  Graph.validate_nodes_exist example_graph ["A"; "Z"; "Y"]
  = Raise (GraphValidationError (NodeNotFound "Z")).
Proof.
  apply (proj2 (validate_nodes_exist_first_missing example_graph ["A"; "Z"; "Y"])
               ["A"] "Z" ["Y"]).
  - reflexivity.
  - intros m Hm. apply list_elem_of_singleton in Hm as ->.
    apply (proj1 (bool_decide_eq_true _)). vm_compute. reflexivity.
  - apply (proj1 (bool_decide_eq_false _)). vm_compute. reflexivity.
Defined.

(** ** Bellman-Ford with negative weights *)

Section NoNegativeCycle.

Import BellmanFord.

Variable g : Graph.t.
Hypothesis Hwf : wf_graph g.
Variable start : string.
Hypothesis Hstart : start ∈ Graph.nodes g.
Hypothesis Hnc : ~ negative_cycle_reachable (Graph.edges g) start.

Local Abbreviation es := (Graph.edges g).
Local Abbreviation n := (length (Graph.nodes g)).

Lemma closed_walk_nonnegative (u : string) (c : list edge) :
  reachable es start u -> is_walk es u c u -> 0 <= weight c.
Proof.
  intros [p Hp] Hc. destruct (Z.lt_ge_cases (weight c) 0) as [Hneg|Hok]; [|lia].
  exfalso. apply Hnc. exists u, p, c. auto.
Qed.

(** Cutting the loops out of a walk that starts within reach of [start]
    does not make it heavier. *)
Lemma simple_walk_reachable (u v : string) (p : list edge) :
  reachable es start u -> is_walk es u p v ->
  exists q, is_walk es u q v /\ weight q <= weight p /\ NoDup (walk_nodes u q).
Proof.
  revert u. induction p as [|e p IH]; intros u Hu Hp.
  - exists []. simpl in *. repeat split; auto; [lia | apply NoDup_singleton].
  - destruct Hp as (Hs & Hin & Hp).
    assert (Hte : reachable es start (tgt e)).
    { destruct Hu as [r Hr]. exists (r ++ [e]). apply is_walk_snoc; [now rewrite Hs | assumption]. }
    destruct (IH _ Hte Hp) as (q & Hq & Hle & Hnd). unfold walk_nodes in *. simpl.
    destruct (decide (u ∈ tgt e :: map tgt q)) as [Hin'|Hout].
    + apply elem_of_cons in Hin' as [Heq|Hin'].
      * exists q. rewrite Heq. split; [assumption|]. split; [|assumption].
        assert (Hloop : is_walk es u [e] u) by (simpl; auto).
        pose proof (closed_walk_nonnegative u [e] Hu Hloop) as H0. simpl in H0. lia.
      * destruct (walk_split_at es (tgt e) v u q Hq Hin') as (q1 & q2 & -> & Hu1 & Hq1 & Hq2).
        exists q2. split; [assumption|]. split.
        -- rewrite weight_app in Hle.
           assert (Hloop : is_walk es u (e :: q1) u) by (simpl; auto).
           pose proof (closed_walk_nonnegative u (e :: q1) Hu Hloop) as H0.
           simpl in H0. lia.
        -- apply NoDup_cons in Hnd as [_ Hnd]. rewrite map_app in Hnd.
           apply NoDup_app in Hnd as (_ & Hdisj & Hnd2).
           apply NoDup_cons. split; [now apply Hdisj | assumption].
    + exists (e :: q). simpl. repeat split; auto; [lia|].
      apply NoDup_cons. split; assumption.
Qed.

Lemma bounded_settled_reachable (dist : dist_map) :
  dist_sound es start dist -> bounded es start (n - 1) dist -> settled es dist.
Proof.
  intros Hsound Hb [[s t] w] Hin.
  destruct (relaxable dist (s, t, w)) eqn:Hrel; [|reflexivity]. exfalso.
  destruct (relaxable_true _ _ _ _ Hrel) as (a & Ha & Hlt).
  destruct (Hsound s a Ha) as (p & Hp & Hw).
  pose proof (is_walk_snoc es start p (s, t, w) Hp Hin) as Hpt.
  destruct (simple_walk_reachable start t _ (ex_intro _ [] eq_refl) Hpt) as (q & Hq & Hle & Hnd).
  pose proof (simple_walk_length g start t q Hwf Hstart Hq Hnd) as Hlen.
  destruct (Hb q t Hq Hlen) as (b & Hb' & Hleb).
  specialize (Hlt b Hb'). rewrite weight_app, Hw in Hle. simpl in Hle.
  unfold wgt in Hle. simpl in Hle. lia.
Qed.

(** Without a negative cycle in reach, [|V| - 1] passes leave nothing to relax. *)
Lemma relax_loop_settled_reachable :
  settled es (fst (relax_loop (n - 1) es (init_dist (Graph.nodes g) start)
                              (init_prev (Graph.nodes g)))).
Proof.
  destruct (relax_loop_outcome es start (n - 1) 0 _ (init_prev (Graph.nodes g))
              (bounded_init es start (Graph.nodes g))) as [Hset|Hb]; [assumption|].
  apply bounded_settled_reachable; [apply dist_sound_loop | exact Hb].
Qed.

End NoNegativeCycle.

(** ** Predecessor links of Bellman-Ford *)

Section Links.

Import BellmanFord.

Variable es : list edge.
Variable ns : list string.
Variable start : string.

Local Abbreviation final k := (relax_loop k es (init_dist ns start) (init_prev ns)).

Lemma tight_links_loop (k : nat) : tight_links es (fst (final k)) (snd (final k)).
Proof.
  apply (relax_loop_preserves es (tight_links es)).
  - intros dist prev s t w a Hin Htight Ha Hlt v u Hlink.
    destruct (decide (v = t)) as [->|Hv].
    + rewrite lookup_insert_eq in Hlink. inversion Hlink; subst u.
      exists w. rewrite !at_insert.
      destruct (decide (t = t)) as [_|]; [|congruence].
      destruct (decide (t = s)) as [->|_].
      * specialize (Hlt a Ha). exists (a + w), (a + w). repeat split; auto. lia.
      * exists a, (a + w). repeat split; auto. lia.
    + rewrite lookup_insert_ne in Hlink by congruence.
      destruct (Htight v u Hlink) as (w0 & a0 & b0 & Hin0 & Hu & Hv0 & Hle).
      exists w0. rewrite !at_insert.
      destruct (decide (t = v)) as [|_]; [congruence|].
      destruct (decide (t = u)) as [<-|_].
      * specialize (Hlt a0 Hu). exists (a + w), b0. repeat split; auto. lia.
      * exists a0, b0. repeat split; auto.
  - intros v u Hlink. now apply init_prev_none in Hlink.
Qed.

Lemma rooted_loop (k : nat) : rooted start (fst (final k)) (snd (final k)).
Proof.
  apply (relax_loop_preserves es (rooted start)).
  - intros dist prev s t w a Hin Hroot Ha Hlt v d. rewrite at_insert.
    destruct (decide (t = v)) as [<-|Hne].
    + intros _. right. exists s. now rewrite lookup_insert_eq.
    + intros Hd. destruct (Hroot v d Hd) as [->|[u Hu]]; [auto|].
      right. exists u. now rewrite lookup_insert_ne.
  - intros v d. destruct (decide (v = start)) as [->|Hne]; [auto|].
    now rewrite init_dist_other.
Qed.

(** Links stay ordered with respect to any distances [delta] that leave
    nothing to relax and are finite at [start]. *)
Lemma links_ordered_loop (delta : dist_map) (c0 : Z) (k : nat) :
  settled es delta -> at_ delta start = Fin c0 ->
  links_ordered delta (fst (final k)) (snd (final k)).
Proof.
  intros Hset Hc0.
  enough (H : dist_sound es start (fst (final k))
              /\ links_ordered delta (fst (final k)) (snd (final k))) by apply H.
  apply (relax_loop_preserves es
           (fun dist prev => dist_sound es start dist /\ links_ordered delta dist prev)).
  - intros dist prev s t w a Hin [Hsound [rank Hrank]] Ha Hlt.
    assert (Hsound' : dist_sound es start (<[t := Fin (a + w)]> dist)).
    { intros v d. rewrite at_insert.
      destruct (decide (t = v)) as [<-|Hne]; [|apply Hsound].
      intros Hd. inversion Hd; subst d.
      destruct (Hsound s a Ha) as (p & Hp & Hw).
      exists (p ++ [(s, t, w)]). split.
      - now apply (is_walk_snoc es start p (s, t, w)).
      - rewrite weight_app, Hw. unfold wgt. simpl. lia. }
    split; [assumption|].
    destruct (Hsound s a Ha) as (p & Hp & _).
    destruct (settled_walk es delta start s p c0 Hset Hp Hc0) as (cs & Hcs & _).
    destruct (relaxable_false delta s t w cs (Hset _ Hin) Hcs) as (ct & Hct & Hle).
    assert (Hst : s <> t).
    { intros ->. specialize (Hlt a Ha). rewrite Hcs in Hct. inversion Hct. lia. }
    exists (fun x => if decide (x = t) then S (rank s) else rank x).
    intros v u Hlink. unfold before. destruct (decide (v = t)) as [->|Hv].
    + rewrite lookup_insert_eq in Hlink. inversion Hlink; subst u.
      exists a, (a + w), cs, ct. rewrite !at_insert.
      destruct (decide (t = s)) as [|_]; [congruence|].
      destruct (decide (t = t)) as [_|]; [|congruence].
      destruct (decide (s = t)) as [|_]; [congruence|].
      do 4 (split; [first [assumption | reflexivity]|]). split; [lia | right; lia].
    + rewrite lookup_insert_ne in Hlink by congruence.
      destruct (Hrank v u Hlink) as (a0 & b0 & ca & cb & Hu & Hv0 & Hca & Hcb & Hle0 & Hord).
      rewrite !at_insert.
      destruct (decide (t = v)) as [|_]; [congruence|].
      destruct (decide (v = t)) as [|_]; [congruence|].
      destruct (decide (t = u)) as [<-|Hu'].
      * exists (a + w), b0, ca, cb. specialize (Hlt a0 Hu).
        do 4 (split; [first [assumption | reflexivity]|]). split; [lia | left; lia].
      * exists a0, b0, ca, cb. destruct (decide (u = t)) as [|_]; [congruence|].
        do 4 (split; [first [assumption | reflexivity]|]). split; assumption.
  - split.
    + intros v d. destruct (decide (v = start)) as [->|Hne].
      * rewrite init_dist_start. intros Hd. inversion Hd. exists []. now split.
      * now rewrite init_dist_other.
    + exists (fun _ => O). intros v u Hlink. now apply init_prev_none in Hlink.
Qed.

End Links.

Lemma before_trans delta dist rank (x y z : string) :
  before delta dist rank x y -> before delta dist rank y z -> before delta dist rank x z.
Proof.
  intros (a & b & ca & cb & Ha & Hb & Hca & Hcb & Hle & Hc)
         (b' & c & cb' & cc & Hb' & Hc' & Hcb' & Hcc & Hle' & Hc'').
  rewrite Hb in Hb'. inversion Hb'; subst b'.
  rewrite Hcb in Hcb'. inversion Hcb'; subst cb'.
  exists a, c, ca, cc. repeat split; auto; lia.
Qed.

Lemma before_irrefl delta dist rank (x : string) : ~ before delta dist rank x x.
Proof.
  intros (a & b & ca & cb & Ha & Hb & Hca & Hcb & Hle & Hc).
  rewrite Ha in Hb. inversion Hb. rewrite Hca in Hcb. inversion Hcb. lia.
Qed.

Lemma linked_before delta dist prev rank (x : string) (l : list string) :
  (forall v u, prev !! v = Some (Some u) -> before delta dist rank u v) ->
  linked prev (x :: l) -> forall y, y ∈ l -> before delta dist rank y x.
Proof.
  intros Hrank. revert x. induction l as [|y0 l IH]; intros x Hl y Hy; [inversion Hy|].
  destruct Hl as [Hx Hl]. pose proof (Hrank _ _ Hx) as Hc.
  apply elem_of_cons in Hy as [->|Hy]; [assumption|].
  eapply before_trans; [apply (IH y0 Hl y Hy) | assumption].
Qed.

(** Ordered links do not go round in circles. *)
Lemma linked_ordered_NoDup delta dist prev (l : list string) :
  links_ordered delta dist prev -> linked prev l -> NoDup l.
Proof.
  intros [rank Hrank]. induction l as [|x l IH]; intros Hl; [constructor|].
  apply NoDup_cons. split; [|apply IH; now apply linked_tail in Hl].
  intros Hx. apply (before_irrefl delta dist rank x).
  exact (linked_before delta dist prev rank x l Hrank Hl x Hx).
Qed.

Lemma linked_in_graph (g : Graph.t) dist prev (x : string) (l : list string) :
  tight_links (Graph.edges g) dist prev -> linked prev (x :: l) ->
  forall y, y ∈ l -> y ∈ Graph.nodes g.
Proof.
  intros Htight. revert x. induction l as [|y0 l IH]; intros x Hl y Hy; [inversion Hy|].
  destruct Hl as [Hx Hl].
  apply elem_of_cons in Hy as [->|Hy]; [|eauto].
  destruct (Htight _ _ Hx) as (w & _ & _ & Hin & _).
  exact (edge_source_is_node g (y0, x, w) Hin).
Qed.

Lemma chain_terminates_ordered (g : Graph.t) delta dist prev (goal : string) :
  tight_links (Graph.edges g) dist prev -> links_ordered delta dist prev ->
  goal ∈ Graph.nodes g ->
  exists p, BellmanFord.chain (S (length (Graph.nodes g))) prev goal = Some p.
Proof.
  intros Htight Hord Hgoal.
  destruct (BellmanFord.chain _ prev goal) as [p|] eqn:Hc; [eauto|]. exfalso.
  apply chain_none_linked in Hc as (l & Hlen & Hl).
  pose proof (linked_ordered_NoDup delta dist prev _ Hord Hl) as Hnd.
  assert (Hin : forall x, x ∈ goal :: l -> x ∈ Graph.nodes g).
  { intros x Hx. apply elem_of_cons in Hx as [->|Hx]; [assumption|].
    exact (linked_in_graph g dist prev goal l Htight Hl x Hx). }
  pose proof (submseteq_length _ _ (NoDup_submseteq _ _ Hnd Hin)) as Hle.
  simpl in Hle. lia.
Qed.

(** ** Node paths and walks *)

Lemma actual_cost_cons (g : Graph.t) (u t : string) (rest : list string) :
  ResultValidator.actual_cost g (u :: t :: rest)
  = match Graph.get (Graph.neighbors g u) t with
    | Some w => option_map (Z.add w) (ResultValidator.actual_cost g (t :: rest))
    | None => None
    end.
Proof. reflexivity. Qed.

(** What the validator's loop computes: the weight of the walk through the
    given nodes, if consecutive nodes are joined by edges. *)
Lemma actual_cost_walk (g : Graph.t) (u : string) (rest : list string) (c : Z) :
  dict_graph g ->
  ResultValidator.actual_cost g (u :: rest) = Some c
  <-> exists q v, is_walk (Graph.edges g) u q v /\ map tgt q = rest /\ weight q = c.
Proof.
  intros Hd. revert u c. induction rest as [|t rest IH]; intros u c.
  - simpl. split.
    + intros H. inversion H. exists [], u. now repeat split.
    + intros (q & v & _ & Hmap & Hw). destruct q; [|discriminate]. simpl in Hw. now subst.
  - rewrite actual_cost_cons. split.
    + destruct (Graph.get (Graph.neighbors g u) t) as [w|] eqn:Hget; [|discriminate].
      destruct (ResultValidator.actual_cost g (t :: rest)) as [c'|] eqn:Hrest;
        [|simpl; discriminate].
      simpl. intros H. inversion H; subst c.
      apply IH in Hrest as (q & v & Hq & Hmap & Hw).
      apply (edges_lookup g u t w Hd) in Hget.
      exists ((u, t, w) :: q), v. split; [|split].
      * cbn [is_walk]. split; [reflexivity|]. split; [exact Hget | exact Hq].
      * cbn [map]. now rewrite Hmap.
      * cbn [weight]. rewrite Hw. reflexivity.
    + intros (q & v & Hq & Hmap & Hw). destruct q as [|[[s t'] w] q]; [discriminate|].
      cbn [map] in Hmap. change (tgt (s, t', w)) with t' in Hmap.
      inversion Hmap; subst t' rest.
      destruct Hq as (Hs & Hin & Hq). change (src (s, t, w)) with s in Hs.
      change (tgt (s, t, w)) with t in Hq. subst s.
      apply (edges_lookup g u t w Hd) in Hin. rewrite Hin.
      assert (Hrest : ResultValidator.actual_cost g (t :: map tgt q) = Some (weight q))
        by (apply IH; eauto).
      rewrite Hrest. cbn [weight] in Hw. change (wgt (u, t, w)) with w in Hw.
      simpl. now subst c.
Qed.

(** ** The path read off the predecessor links *)

Lemma chain_linked (fuel : nat) (prev : BellmanFord.prev_map) (v : string) (l : list string) :
  BellmanFord.chain fuel prev v = Some l ->
  exists l' root, l = v :: l' /\ linked prev l /\ last l = Some root
                  /\ forall u, prev !! root <> Some (Some u).
Proof.
  revert v l. induction fuel as [|fuel IH]; intros v l; simpl; [discriminate|].
  destruct (prev !! v) as [[u|]|] eqn:Hv.
  - destruct (BellmanFord.chain fuel prev u) as [l0|] eqn:Hc; [|discriminate].
    simpl. intros H. inversion H; subst l.
    destruct (IH u l0 Hc) as (l' & root & -> & Hl & Hlast & Hroot).
    exists (u :: l'), root. split; [reflexivity|]. split; [simpl; auto|].
    split; [now rewrite last_cons_cons | assumption].
  - intros H. inversion H; subst l. exists [], v. simpl. repeat split; auto.
    intros u. rewrite Hv. discriminate.
  - intros H. inversion H; subst l. exists [], v. simpl. repeat split; auto.
    intros u. rewrite Hv. discriminate.
Qed.

(** Links that account exactly for the distances spell out a walk from the
    root of the chain, of weight the difference of the end distances. *)
Lemma linked_walk (es : list edge) dist prev (v : string) (l : list string) (dv : Z) :
  exact_links es dist prev -> linked prev (v :: l) -> BellmanFord.at_ dist v = Fin dv ->
  exists root q droot,
    last (v :: l) = Some root /\ is_walk es root q v
    /\ walk_nodes root q = rev (v :: l)
    /\ BellmanFord.at_ dist root = Fin droot /\ weight q = dv - droot.
Proof.
  intros Hexact. revert v dv. induction l as [|u l IH]; intros v dv Hl Hv.
  - exists v, [], dv. simpl. repeat split; auto. lia.
  - destruct Hl as [Hlink Hl]. destruct (Hexact v u Hlink) as (w & a & Hin & Hu & Hv').
    rewrite Hv in Hv'. inversion Hv'; subst dv.
    destruct (IH u a Hl Hu) as (root & q & droot & Hlast & Hq & Hnodes & Hroot & Hw).
    exists root, (q ++ [(u, v, w)]), droot.
    split; [now rewrite last_cons_cons|]. split.
    { exact (is_walk_snoc es root q (u, v, w) Hq Hin). }
    split.
    { unfold walk_nodes in *. rewrite map_app. cbn [map]. change (tgt (u, v, w)) with v.
      rewrite app_comm_cons, Hnodes. reflexivity. }
    split; [assumption|].
    rewrite weight_app, Hw. cbn [weight]. change (wgt (u, v, w)) with w. lia.
Qed.

(** ** What Bellman-Ford returns *)

Lemma settled_exact_links (es : list edge) dist prev :
  settled es dist -> tight_links es dist prev -> exact_links es dist prev.
Proof.
  intros Hset Htight v u Hlink.
  destruct (Htight v u Hlink) as (w & a & b & Hin & Hu & Hv & Hle).
  destruct (relaxable_false dist u v w a (Hset _ Hin) Hu) as (b' & Hv' & Hle').
  rewrite Hv in Hv'. inversion Hv'; subst b'.
  exists w, a. repeat split; auto. rewrite Hv. f_equal. lia.
Qed.

(** With nothing left to relax, the start node has kept distance 0 and has
    no predecessor. *)
Lemma settled_start (es : list edge) (start : string) dist prev :
  settled es dist -> dist_sound es start dist -> start_untouched start dist prev ->
  BellmanFord.at_ dist start = Fin 0 /\ forall u, prev !! start <> Some (Some u).
Proof.
  intros Hset Hsound [H0 | (a & Ha & Hneg)]; [assumption|]. exfalso.
  destruct (Hsound start a Ha) as (p & Hp & Hw).
  destruct (settled_walk es dist start start p a Hset Hp Ha) as (b & Hb & Hle).
  rewrite Ha in Hb. inversion Hb. lia.
Qed.

Lemma bellman_ford_returns_walk (g : Graph.t) (start goal : string)
      (p : list string) (d : Z) :
  BellmanFord.compute g start goal = Some (Ok (p, d)) ->
  exists q, is_walk (Graph.edges g) start q goal
            /\ p = walk_nodes start q /\ weight q = d /\ NoDup p
            /\ forall q', is_walk (Graph.edges g) start q' goal -> d <= weight q'.
Proof.
  unfold BellmanFord.compute.
  destruct (Graph.validate_nodes_exist g [start; goal]) as [_|e0]; [|discriminate].
  set (k := (length (Graph.nodes g) - 1)%nat).
  pose proof (dist_sound_loop (Graph.edges g) (Graph.nodes g) start k) as Hsound.
  pose proof (start_untouched_loop (Graph.edges g) (Graph.nodes g) start k) as Hstart.
  pose proof (tight_links_loop (Graph.edges g) (Graph.nodes g) start k) as Htight.
  pose proof (rooted_loop (Graph.edges g) (Graph.nodes g) start k) as Hroot.
  pose proof (fun delta c0 => links_ordered_loop (Graph.edges g) (Graph.nodes g) start
                                delta c0 k) as Hord.
  destruct (BellmanFord.relax_loop _ _ _ _) as [dist prev].
  cbn [fst snd] in Hsound, Hstart, Htight, Hroot, Hord.
  unfold BellmanFord._detect_negative_cycle.
  destruct (find (BellmanFord.relaxable dist) (Graph.edges g)) as [[[x y] w]|] eqn:Hfind;
    [discriminate|].
  apply find_relaxable_none in Hfind.
  destruct (settled_start _ _ _ _ Hfind Hsound Hstart) as [H0 Hnone].
  specialize (Hord dist 0 Hfind H0).
  destruct (BellmanFord.at_ dist goal) as [dg|] eqn:Hgoal; [|discriminate].
  unfold BellmanFord._reconstruct_path.
  destruct (BellmanFord.chain _ prev goal) as [l|] eqn:Hchain; [|discriminate].
  simpl. intros H. inversion H; subst p d. clear H.
  apply chain_linked in Hchain as (l' & root & -> & Hl & Hlast & Hnoprev).
  pose proof (settled_exact_links _ _ _ Hfind Htight) as Hexact.
  destruct (linked_walk _ dist prev goal l' dg Hexact Hl Hgoal)
    as (root' & q & droot & Hlast' & Hq & Hnodes & Hdroot & Hw).
  rewrite Hlast in Hlast'. inversion Hlast'; subst root'.
  assert (Hrs : root = start).
  { destruct (Hroot root droot Hdroot) as [->|[u Hu]]; [reflexivity|].
    now destruct (Hnoprev u). }
  subst root. rewrite H0 in Hdroot. inversion Hdroot; subst droot.
  exists q. split; [assumption|]. split; [now rewrite Hnodes|].
  split; [lia|]. split.
  - apply NoDup_ListNoDup, List.NoDup_rev, NoDup_ListNoDup.
    exact (linked_ordered_NoDup dist dist prev _ Hord Hl).
  - intros q' Hq'.
    destruct (settled_walk _ dist start goal q' 0 Hfind Hq' H0) as (b & Hb & Hle).
    rewrite Hgoal in Hb. inversion Hb. lia.
Qed.

Lemma bellman_ford_without_negative_cycle (g : Graph.t) (start goal : string) :
  wf_graph g -> start ∈ Graph.nodes g -> goal ∈ Graph.nodes g ->
  ~ negative_cycle_reachable (Graph.edges g) start ->
  (reachable (Graph.edges g) start goal ->
   exists p d, BellmanFord.compute g start goal = Some (Ok (p, d))
               /\ shortest (Graph.edges g) start goal d)
  /\ (~ reachable (Graph.edges g) start goal ->
      BellmanFord.compute g start goal = Some (Raise (ValueError (NoPathExists start goal)))).
Proof.
  intros Hwf Hs Hg Hnc. unfold BellmanFord.compute.
  rewrite validate_nodes_ok by assumption.
  set (k := (length (Graph.nodes g) - 1)%nat).
  pose proof (relax_loop_settled_reachable g Hwf start Hs Hnc) as Hset. fold k in Hset.
  pose proof (dist_sound_loop (Graph.edges g) (Graph.nodes g) start k) as Hsound.
  pose proof (start_untouched_loop (Graph.edges g) (Graph.nodes g) start k) as Hstart.
  pose proof (tight_links_loop (Graph.edges g) (Graph.nodes g) start k) as Htight.
  pose proof (fun delta c0 => links_ordered_loop (Graph.edges g) (Graph.nodes g) start
                                delta c0 k) as Hord.
  destruct (BellmanFord.relax_loop _ _ _ _) as [dist prev].
  cbn [fst snd] in Hset, Hsound, Hstart, Htight, Hord.
  unfold BellmanFord._detect_negative_cycle.
  destruct (find (BellmanFord.relaxable dist) (Graph.edges g)) as [e|] eqn:Hfind.
  { apply find_some in Hfind as [Hin Hrel]. rewrite (Hset e Hin) in Hrel. discriminate. }
  destruct (settled_start _ _ _ _ Hset Hsound Hstart) as [H0 _].
  specialize (Hord dist 0 Hset H0).
  split.
  - intros [walk Hwalk].
    destruct (settled_walk _ _ _ _ _ 0 Hset Hwalk H0) as (d & Hd & _). rewrite Hd.
    destruct (chain_terminates_ordered g dist dist prev goal Htight Hord Hg) as [p Hp].
    unfold BellmanFord._reconstruct_path. rewrite Hp. simpl.
    exists (rev p), d. split; [reflexivity|]. split.
    + exact (Hsound goal d Hd).
    + intros q Hq. destruct (settled_walk _ _ _ _ _ 0 Hset Hq H0) as (d' & Hd' & Hle).
      rewrite Hd in Hd'. inversion Hd'. lia.
  - intros Hno. destruct (BellmanFord.at_ dist goal) as [d|] eqn:Hd; [|reflexivity].
    exfalso. apply Hno. destruct (Hsound goal d Hd) as (p & Hp & _). now exists p.
Qed.

Lemma settled_check (es : list edge) (dist : BellmanFord.dist_map) :
  forallb (fun e => negb (BellmanFord.relaxable dist e)) es = true -> settled es dist.
Proof.
  intros Hall e Hin. rewrite forallb_forall in Hall. specialize (Hall e Hin).
  now destruct (BellmanFord.relaxable dist e).
Qed.

(** The example graph has a negative weight but no negative cycle. *)
Lemma example_graph_no_negative_cycle :
  ~ negative_cycle_reachable (Graph.edges example_graph) "A".
Proof.
  intros Hneg.
  refine (negative_cycle_unsettled (Graph.edges example_graph) "A"
            (fst (BellmanFord.relax_loop 5 (Graph.edges example_graph)
                    (BellmanFord.init_dist (Graph.nodes example_graph) "A")
                    (BellmanFord.init_prev (Graph.nodes example_graph))))
            0 Hneg _ _).
  - vm_compute. reflexivity.
  - apply settled_check. vm_compute. reflexivity.
Qed.

(** ** Dijkstra: the path it returns *)

Lemma neighbors_are_edges (g : Graph.t) (x y : string) (w : Z) :
  In (y, w) (Graph.neighbors g x) -> In (x, y, w) (Graph.edges g).
Proof.
  intros Hin. apply In_edges. unfold Graph.neighbors in Hin.
  destruct (Graph.get g x) as [nb|] eqn:Hget; simpl in Hin; [|destruct Hin].
  exists nb. split; [now apply get_In | assumption].
Qed.

Section DijkstraLinks.

Import Dijkstra.

Variable g : Graph.t.
Variable start : string.

Local Abbreviation Links := (dijkstra_links g start).

Lemma links_init : Links {[start := 0]} {[start := None]} [(0, start)] ∅.
Proof.
  split.
  - intros c v [H|[]]. inversion H; subst. exists 0. rewrite lookup_singleton_eq.
    split; [reflexivity | lia].
  - intros v u Hv. apply lookup_singleton_Some in Hv as [_ Hv]. discriminate.
  - intros v d Hv. apply lookup_singleton_Some in Hv as [<- _]. auto.
  - rewrite lookup_singleton_eq. split; [reflexivity|].
    intros u. rewrite lookup_singleton_eq. discriminate.
  - auto.
Qed.

(** Relaxing one neighbour of a finalised node [x] keeps the links in order. *)
Lemma links_relax_neighbor (x : string) (c : Z) (visited : gset string)
      dist prev h (y : string) (w : Z) :
  x ∈ visited -> start ∈ visited -> In (x, y, w) (Graph.edges g) ->
  Links dist prev h visited -> dist !! x = Some c ->
  Links (fst (fst (relax_neighbor x c visited (dist, prev, h) (y, w))))
        (snd (fst (relax_neighbor x c visited (dist, prev, h) (y, w))))
        (snd (relax_neighbor x c visited (dist, prev, h) (y, w))) visited
  /\ fst (fst (relax_neighbor x c visited (dist, prev, h) (y, w))) !! x = Some c.
Proof.
  intros Hx Hs Hedge HL Hdx. unfold relax_neighbor.
  case_bool_decide as Hy; [now split|].
  assert (Hxy : x <> y) by (intros ->; contradiction).
  assert (Hsy : start <> y) by (intros ->; contradiction).
  destruct (match dist !! y with Some d => c + w <? d | None => true end) eqn:Hbetter;
    [|now split].
  cbn [fst snd]. split; [|now rewrite lookup_insert_ne by congruence].
  destruct HL as [L1 L2 L3 L4 L5]. split.
  - intros c0 v [H|Hin].
    + inversion H; subst c0 v. exists (c + w). rewrite lookup_insert_eq.
      split; [reflexivity | lia].
    + destruct (L1 c0 v Hin) as (d & Hd & Hle).
      destruct (decide (v = y)) as [->|Hne].
      * rewrite Hd in Hbetter. exists (c + w). rewrite lookup_insert_eq.
        split; [reflexivity | lia].
      * exists d. rewrite lookup_insert_ne by congruence. auto.
  - intros v u Hv. destruct (decide (v = y)) as [->|Hne].
    + rewrite lookup_insert_eq in Hv. inversion Hv; subst u. split; [assumption|].
      exists w, c. rewrite lookup_insert_ne by congruence. rewrite lookup_insert_eq. auto.
    + rewrite lookup_insert_ne in Hv by congruence.
      destruct (L2 v u Hv) as (Hu & w0 & du & Hin & Hdu & Hdv). split; [assumption|].
      exists w0, du. assert (u <> y) by (intros ->; contradiction).
      rewrite !lookup_insert_ne by congruence. auto.
  - intros v d Hv. destruct (decide (v = y)) as [->|Hne].
    + right. exists x. now rewrite lookup_insert_eq.
    + rewrite lookup_insert_ne in Hv by congruence.
      destruct (L3 v d Hv) as [->|[u Hu]]; [auto|].
      right. exists u. now rewrite lookup_insert_ne by congruence.
  - destruct L4 as [H0 Hnone]. rewrite !lookup_insert_ne by congruence. auto.
  - auto.
Qed.

Lemma links_relax_fold (x : string) (c : Z) (visited : gset string)
      (nbs : list (string * Z)) dist prev h :
  x ∈ visited -> start ∈ visited ->
  (forall y w, In (y, w) nbs -> In (x, y, w) (Graph.edges g)) ->
  Links dist prev h visited -> dist !! x = Some c ->
  Links (fst (fst (fold_left (relax_neighbor x c visited) nbs (dist, prev, h))))
        (snd (fst (fold_left (relax_neighbor x c visited) nbs (dist, prev, h))))
        (snd (fold_left (relax_neighbor x c visited) nbs (dist, prev, h))) visited.
Proof.
  intros Hx Hs. revert dist prev h.
  induction nbs as [|[y w] nbs IH]; intros dist prev h Hedges HL Hdx; [assumption|].
  cbn [fold_left].
  destruct (links_relax_neighbor x c visited dist prev h y w Hx Hs
              (Hedges y w (or_introl eq_refl)) HL Hdx) as [HL' Hdx'].
  destruct (relax_neighbor x c visited (dist, prev, h) (y, w)) as [[dist1 prev1] h1].
  cbn [fst snd] in HL', Hdx'.
  apply IH; [intros y0 w0 Hin; apply Hedges; now right | assumption | assumption].
Qed.

Lemma links_stale dist prev h h' visited (c : Z) (x : string) :
  Links dist prev h visited -> heappop h = Some ((c, x), h') -> x ∈ visited ->
  Links dist prev h' visited.
Proof.
  intros [L1 L2 L3 L4 L5] Hpop Hx.
  apply heappop_some in Hpop as (_ & _ & _ & Hsub & _).
  split; auto.
  destruct L5 as [Hs | [_ Hempty]]; [auto|]. rewrite Hempty in Hx. set_solver.
Qed.

(** The cost at which a node is taken from the queue is its distance on record. *)
Lemma popped_cost_on_record dist prev h h' visited (c : Z) (x : string) :
  Links dist prev h visited ->
  (forall y d, dist !! y = Some d -> y ∈ visited \/ In (d, y) h) ->
  heappop h = Some ((c, x), h') -> x ∉ visited ->
  dist !! x = Some c.
Proof.
  intros HL Hqueued Hpop Hx.
  apply heappop_some in Hpop as (Hm & Hmin & _).
  destruct (links_heap _ _ _ _ _ _ HL c x Hm) as (d & Hd & Hle).
  destruct (Hqueued x d Hd) as [Hv|Hin]; [contradiction|].
  specialize (Hmin _ Hin). simpl in Hmin. rewrite Hd. f_equal. lia.
Qed.

Lemma links_fresh dist prev h h1 visited (c : Z) (x : string) dist' prev' h' :
  Links dist prev h visited ->
  (forall y d, dist !! y = Some d -> y ∈ visited \/ In (d, y) h) ->
  heappop h = Some ((c, x), h1) -> x ∉ visited ->
  fold_left (relax_neighbor x c ({[x]} ∪ visited)) (Graph.neighbors g x) (dist, prev, h1)
  = (dist', prev', h') ->
  Links dist' prev' h' ({[x]} ∪ visited).
Proof.
  intros HL Hqueued Hpop Hx Hfold.
  pose proof (popped_cost_on_record _ _ _ _ _ _ _ HL Hqueued Hpop Hx) as Hdx.
  apply heappop_some in Hpop as (Hm & _ & _ & Hsub & _).
  assert (Hs : start ∈ {[x]} ∪ visited).
  { destruct (links_first _ _ _ _ _ _ HL) as [Hs | [Hh _]]; [set_solver|].
    rewrite Hh in Hm. destruct Hm as [Hm|[]]. inversion Hm. set_solver. }
  assert (HL1 : Links dist prev h1 ({[x]} ∪ visited)).
  { destruct HL as [L1 L2 L3 L4 L5]. split; auto.
    intros v u Hv. destruct (L2 v u Hv) as [Hu Hrest]. split; [set_solver | assumption]. }
  pose proof (links_relax_fold x c ({[x]} ∪ visited) (Graph.neighbors g x) dist prev h1
                ltac:(set_solver) Hs (fun y w => neighbors_are_edges g x y w) HL1 Hdx) as HL'.
  now rewrite Hfold in HL'.
Qed.

End DijkstraLinks.

Lemma at_fmap_Fin (dist : Dijkstra.dist_map) (v : string) :
  BellmanFord.at_ (Fin <$> dist) v = match dist !! v with Some d => Fin d | None => Inf end.
Proof. unfold BellmanFord.at_. rewrite lookup_fmap. now destruct (dist !! v). Qed.

Section DijkstraSound.

Import Dijkstra.

Variable g : Graph.t.
Hypothesis Hwf : wf_graph g.
Hypothesis Hnn : nonnegative (Graph.edges g).
Variables start goal : string.
Hypothesis Hstart : start ∈ Graph.nodes g.

Local Abbreviation es := (Graph.edges g).
Local Abbreviation Inv := (dijkstra_inv g start goal).
Local Abbreviation Links := (dijkstra_links g start).

(** The path read off the links when the goal is taken from the queue. *)
Lemma goal_path dist prev h h1 visited (c : Z) (l : list string) :
  Inv dist prev h visited -> Links dist prev h visited ->
  heappop h = Some ((c, goal), h1) ->
  BellmanFord.chain (S (length (Graph.nodes g))) prev goal = Some l ->
  exists q, is_walk es start q goal /\ rev l = walk_nodes start q
            /\ weight q = c /\ NoDup (rev l).
Proof.
  intros HI HL Hpop Hchain.
  pose proof (inv_goal _ _ _ _ _ _ _ HI) as Hgoal.
  pose proof (popped_cost_on_record g start _ _ _ _ _ _ _ HL
                (inv_dist_heap _ _ _ _ _ _ _ HI) Hpop Hgoal) as Hdg.
  apply chain_linked in Hchain as (l' & root & -> & Hl & Hlast & Hnoprev).
  assert (Hexact : exact_links es (Fin <$> dist) prev).
  { intros v u Hv. destruct (links_exact _ _ _ _ _ _ HL v u Hv) as (_ & w & du & Hin & Hu & Hv').
    exists w, du. rewrite !at_fmap_Fin, Hu, Hv'. auto. }
  assert (Hg : BellmanFord.at_ (Fin <$> dist) goal = Fin c) by now rewrite at_fmap_Fin, Hdg.
  destruct (linked_walk es _ prev goal l' c Hexact Hl Hg)
    as (root' & q & droot & Hlast' & Hq & Hnodes & Hdroot & Hw).
  rewrite Hlast in Hlast'. inversion Hlast'; subst root'.
  rewrite at_fmap_Fin in Hdroot.
  destruct (dist !! root) as [dr|] eqn:Hdr; [|discriminate]. inversion Hdroot; subst dr.
  assert (Hrs : root = start).
  { destruct (links_rooted _ _ _ _ _ _ HL root droot Hdr) as [->|[u Hu]]; [reflexivity|].
    now destruct (Hnoprev u). }
  subst root. destruct (links_start _ _ _ _ _ _ HL) as [H0 _].
  rewrite H0 in Hdr. inversion Hdr; subst droot.
  exists q. split; [assumption|]. split; [now rewrite Hnodes|]. split; [lia|].
  apply NoDup_ListNoDup, List.NoDup_rev, NoDup_ListNoDup.
  destruct (inv_links _ _ _ _ _ _ _ HI) as (rank & k & _ & Hlinks).
  assert (Hvis : forall z, z ∈ l' -> z ∈ visited).
  { destruct l' as [|u l'']; [intros z Hz; inversion Hz|].
    destruct Hl as [Hgu Hl]. destruct (Hlinks goal u Hgu) as [Hu _].
    intros z Hz. apply elem_of_cons in Hz as [->|Hz]; [assumption|].
    now destruct (linked_visited prev visited rank u l'' Hlinks Hu Hl z Hz). }
  apply NoDup_cons. split.
  - intros Hin. apply Hgoal. now apply Hvis.
  - apply (linked_visited_NoDup prev visited rank l' Hlinks Hvis).
    now apply linked_tail in Hl.
Qed.

(** Whatever the loop returns is a simple walk of least weight. *)
Lemma loop_sound (fuel : nat) dist prev h visited (p : list string) (d : Z) :
  Inv dist prev h visited -> Links dist prev h visited ->
  loop fuel g start goal dist prev h visited = Some (Ok (p, d)) ->
  exists q, is_walk es start q goal /\ p = walk_nodes start q /\ weight q = d /\ NoDup p
            /\ forall q', is_walk es start q' goal -> d <= weight q'.
Proof.
  revert dist prev h visited.
  induction fuel as [|fuel IH]; intros dist prev h visited HI HL; [discriminate|].
  cbn [loop].
  destruct (heappop h) as [[[c x] h1]|] eqn:Hpop; [|discriminate].
  case_bool_decide as Hx.
  - apply IH; [eapply inv_stale; eassumption | eapply links_stale; eassumption].
  - destruct (String.eqb_spec x goal) as [->|Hne].
    + unfold BellmanFord._reconstruct_path.
      destruct (BellmanFord.chain _ prev goal) as [l|] eqn:Hchain; [|discriminate].
      simpl. intros H. inversion H; subst p d.
      destruct (goal_path dist prev h h1 visited c l HI HL Hpop Hchain)
        as (q & Hq & Hnodes & Hw & Hnd).
      exists q. repeat split; auto.
      exact (proj2 (popped_cost_shortest g Hnn start goal _ _ _ _ _ _ _ HI Hpop Hx)).
    + destruct (fold_left _ _ _) as [[dist' prev'] h'] eqn:Hfold.
      apply IH.
      * eapply inv_fresh; eassumption.
      * eapply links_fresh; try eassumption.
        exact (inv_dist_heap _ _ _ _ _ _ _ HI).
Qed.

(** The loop ends with a path or with "No path exists". *)
Lemma loop_outcome (fuel : nat) dist prev h visited (r : result (list string * Z)) :
  loop fuel g start goal dist prev h visited = Some r ->
  (exists p d, r = Ok (p, d)) \/ r = Raise (ValueError (NoPathExists start goal)).
Proof.
  revert dist prev h visited.
  induction fuel as [|fuel IH]; intros dist prev h visited; [discriminate|].
  cbn [loop].
  destruct (heappop h) as [[[c x] h1]|]; [|intros H; inversion H; auto].
  case_bool_decide as Hx; [apply IH|].
  destruct (String.eqb x goal).
  - destruct (BellmanFord._reconstruct_path _ prev goal) as [p|]; [|discriminate].
    simpl. intros H. inversion H. eauto.
  - destruct (fold_left _ _ _) as [[dist' prev'] h']. apply IH.
Qed.

End DijkstraSound.

Lemma dijkstra_returns_walk (g : Graph.t) (start goal : string) (p : list string) (d : Z) :
  wf_graph g ->
  Dijkstra.compute g start goal = Some (Ok (p, d)) ->
  exists q, is_walk (Graph.edges g) start q goal
            /\ p = walk_nodes start q /\ weight q = d /\ NoDup p
            /\ forall q', is_walk (Graph.edges g) start q' goal -> d <= weight q'.
Proof.
  intros Hwf. unfold Dijkstra.compute.
  destruct (Graph.has_negative_weights g) eqn:Hneg; [discriminate|].
  apply nonnegative_no_negative_weights in Hneg.
  destruct (Graph.validate_nodes_exist g [start; goal]) as [[]|e] eqn:Hval; [|discriminate].
  apply validate_nodes_inv in Hval as [Hs Hg].
  apply loop_sound; try assumption.
  - now apply inv_init.
  - apply links_init.
Qed.

(** With exact integer costs. Dijkstra always comes to an answer on a graph built by [add_edge]
    that has no negative weight and contains [start] and [goal]: a path
    with the least weight of a walk from [start] to [goal] when [goal] can
    be reached, and [ValueError] ("No path exists") when it cannot. *)
Lemma exact_dijkstra_complete (g : Graph.t) (start goal : string) :
  wf_graph g -> Graph.has_negative_weights g = false ->
  start ∈ Graph.nodes g -> goal ∈ Graph.nodes g ->
  (reachable (Graph.edges g) start goal ->
   exists p d, Dijkstra.compute g start goal = Some (Ok (p, d))
               /\ shortest (Graph.edges g) start goal d)
  /\ (~ reachable (Graph.edges g) start goal ->
      Dijkstra.compute g start goal = Some (Raise (ValueError (NoPathExists start goal)))).
Proof.
  intros Hwf Hneg Hs Hg. split.
  - apply dijkstra_shortest; try assumption.
    now apply nonnegative_no_negative_weights.
  - intros Hno.
    assert (Hnn : nonnegative (Graph.edges g)) by now apply nonnegative_no_negative_weights.
    destruct (dijkstra_terminates g start goal Hwf) as [r Hr]. rewrite Hr. f_equal.
    pose proof Hr as Hloop. unfold Dijkstra.compute in Hloop.
    rewrite Hneg, validate_nodes_ok in Hloop by assumption.
    destruct (loop_outcome g start goal _ _ _ _ _ r Hloop) as [(p & d & ->) | ->];
      [|reflexivity].
    exfalso. apply Hno.
    destruct (dijkstra_returns_walk g start goal p d Hwf Hr) as (q & Hq & _). now exists q.
Qed.

(** ** The validator and the algorithms *)


Lemma validate_path_walk (g : Graph.t) (u : string) (q : list edge) (v : string) :
  dict_graph g -> is_walk (Graph.edges g) u q v -> q <> [] ->
  ResultValidator.validate_path g (walk_nodes u q) (weight q) = Ok tt.
Proof.
  intros Hd Hq Hne. unfold ResultValidator.validate_path, walk_nodes.
  destruct q as [|e q]; [contradiction|]. cbn [length map Nat.ltb Nat.leb].
  assert (Hcost : ResultValidator.actual_cost g (u :: map tgt (e :: q)) = Some (weight (e :: q)))
    by (apply actual_cost_walk; eauto).
  cbn [map] in Hcost. rewrite Hcost. now rewrite Z.eqb_refl.
Qed.

(** With exact integer costs. The result validator accepts a node list and a cost exactly when
    the list has at least two nodes, consecutive nodes are joined by edges
    of the graph, and the weights of those edges add up to the cost. *)
Lemma exact_validate_path_accepts_walks (g : Graph.t) (p : list string) (c : Z) :
  dict_graph g ->
  ResultValidator.validate_path g p c = Ok tt
  <-> exists u q v, q <> [] /\ is_walk (Graph.edges g) u q v
                    /\ p = walk_nodes u q /\ weight q = c.
Proof.
  intros Hd. split.
  - unfold ResultValidator.validate_path.
    destruct (length p <? 2)%nat eqn:Hlen; [discriminate|].
    destruct (ResultValidator.actual_cost g p) as [c'|] eqn:Hcost; [|discriminate].
    destruct (Z.eqb_spec c' c) as [->|]; [|discriminate]. intros _.
    destruct p as [|u [|t rest]]; try discriminate.
    apply actual_cost_walk in Hcost as (q & v & Hq & Hmap & Hw); [|assumption].
    exists u, q, v. repeat split; auto.
    + intros ->. discriminate.
    + unfold walk_nodes. now rewrite Hmap.
  - intros (u & q & v & Hne & Hq & -> & <-). now apply (validate_path_walk g u q v).
Qed.



(** With exact integer costs. Bellman-Ford raises [NegativeCycleError] exactly on negative
    cycles in reach: on a graph built by [add_edge], with [start] and
    [goal] among its nodes, it raises the error whenever some closed walk
    of negative weight can be reached from [start], and never raises it
    otherwise. *)
Lemma exact_bellman_ford_detects_negative_cycles (g : Graph.t) (start goal : string) :
  wf_graph g -> start ∈ Graph.nodes g -> goal ∈ Graph.nodes g ->
  (negative_cycle_reachable (Graph.edges g) start ->
   exists cycle cycle_cost,
     BellmanFord.compute g start goal = Some (Raise (NegativeCycleError cycle cycle_cost)))
  /\ (~ negative_cycle_reachable (Graph.edges g) start ->
      forall cycle cycle_cost,
        BellmanFord.compute g start goal <> Some (Raise (NegativeCycleError cycle cycle_cost))).
Proof.
  intros Hwf Hs Hg. split.
  - now apply bellman_ford_raises_on_negative_cycle.
  - intros Hnc cycle cycle_cost. unfold BellmanFord.compute.
    rewrite validate_nodes_ok by assumption.
    pose proof (relax_loop_settled_reachable g Hwf start Hs Hnc) as Hset.
    destruct (BellmanFord.relax_loop _ _ _ _) as [dist prev]. cbn [fst] in Hset.
    unfold BellmanFord._detect_negative_cycle.
    destruct (find (BellmanFord.relaxable dist) (Graph.edges g)) as [e|] eqn:Hfind.
    { apply find_some in Hfind as [Hin Hrel]. rewrite (Hset e Hin) in Hrel. discriminate. }
    destruct (BellmanFord.at_ dist goal); [|discriminate].
    destruct (BellmanFord._reconstruct_path _ prev goal); discriminate.
Qed.

(** ** Automatic selection *)

Lemma select_auto (g : Graph.t) :
  AlgorithmSelector.select g "auto"
  = if Graph.has_negative_weights g then Ok UseBellmanFord else Ok UseDijkstra.
Proof. reflexivity. Qed.

(** With exact integer costs. Automatic selection picks an algorithm that fits the graph: on a
    graph built by [add_edge] with no negative cycle in reach of [start],
    the algorithm chosen for the hint ["auto"] (Bellman-Ford exactly when
    the graph has a negative weight) returns a path and the least weight
    of a walk from [start] to [goal], for every [goal] in reach. *)
Lemma exact_auto_selection_finds_shortest (g : Graph.t) (start goal : string) :
  wf_graph g -> start ∈ Graph.nodes g -> goal ∈ Graph.nodes g ->
  ~ negative_cycle_reachable (Graph.edges g) start ->
  reachable (Graph.edges g) start goal ->
  exists a p d,
    AlgorithmSelector.select g "auto" = Ok a
    /\ (a = UseBellmanFord <-> Graph.has_negative_weights g = true)
    /\ algorithm_compute a g start goal = Some (Ok (p, d))
    /\ shortest (Graph.edges g) start goal d.
Proof.
  intros Hwf Hs Hg Hnc Hreach.
  rewrite (select_auto g).
  destruct (Graph.has_negative_weights g) eqn:Hneg.
  - destruct (proj1 (bellman_ford_without_negative_cycle g start goal Hwf Hs Hg Hnc) Hreach)
      as (p & d & Hrun & Hshort).
    exists UseBellmanFord, p, d. split; [reflexivity|]. split; [tauto|]. now split.
  - apply nonnegative_no_negative_weights in Hneg.
    destruct (dijkstra_shortest g start goal Hwf Hneg Hs Hg Hreach) as (p & d & Hrun & Hshort).
    exists UseDijkstra, p, d. split; [reflexivity|].
    split; [split; discriminate|]. now split.
Qed.

Lemma bellman_ford_never_rejects_weights (g : Graph.t) (start goal : string) (m : Z) :
  BellmanFord.compute g start goal <> Some (Raise (ValueError (NegativeWeights m))).
Proof.
  unfold BellmanFord.compute, Graph.validate_nodes_exist. simpl.
  repeat case_bool_decide; simpl; try discriminate.
  destruct (BellmanFord.relax_loop _ _ _ _) as [dist prev].
  destruct (BellmanFord._detect_negative_cycle g dist) as [[cycle cost]|]; [discriminate|].
  destruct (BellmanFord.at_ dist goal); [|discriminate].
  destruct (BellmanFord._reconstruct_path _ prev goal); discriminate.
Qed.

(** X14. The hint decides, and only ["auto"] looks at the graph: an
    explicit ["dijkstra"] on a graph with a negative weight is obeyed and
    the computation then fails with the negative-weight [ValueError]; with
    ["auto"] that error never occurs; and any hint other than the three
    names is refused with [ValueError]. *)
Theorem selection_and_negative_weights (g : Graph.t) (start goal : string) :
  (Graph.has_negative_weights g = true ->
   exists a, AlgorithmSelector.select g "dijkstra" = Ok a
             /\ algorithm_compute a g start goal
                = Some (Raise (ValueError (NegativeWeights (Graph.min_weight g)))))
  /\ (forall a m, AlgorithmSelector.select g "auto" = Ok a ->
                  algorithm_compute a g start goal
                  <> Some (Raise (ValueError (NegativeWeights m))))
  /\ (forall hint, hint <> "dijkstra" -> hint <> "bellman_ford" -> hint <> "auto" ->
                   AlgorithmSelector.select g hint = Raise (ValueError (UnknownAlgorithm hint))).
Proof.
  split; [|split].
  - intros Hneg. exists UseDijkstra. split; [reflexivity|].
    simpl. unfold Dijkstra.compute. now rewrite Hneg.
  - intros a m. rewrite select_auto.
    destruct (Graph.has_negative_weights g) eqn:Hneg; intros H; inversion H; subst a; simpl.
    + apply bellman_ford_never_rejects_weights.
    + unfold Dijkstra.compute. rewrite Hneg.
      destruct (Graph.validate_nodes_exist g [start; goal]) as [[]|e] eqn:Hval.
      * intros Hrun.
        destruct (loop_outcome g start goal _ _ _ _ _ _ Hrun) as [(p & d & Heq) | Heq];
          discriminate.
      * unfold Graph.validate_nodes_exist in Hval. simpl in Hval.
        repeat case_bool_decide; simpl in Hval; inversion Hval; discriminate.
  - intros hint H1 H2 H3. unfold AlgorithmSelector.select.
    destruct (String.eqb_spec hint "dijkstra"); [contradiction|].
    destruct (String.eqb_spec hint "bellman_ford"); [contradiction|].
    destruct (String.eqb_spec hint "auto"); [contradiction | reflexivity].
Qed.

Lemma selection_and_negative_weights_witness :
  exists a, AlgorithmSelector.select example_graph "dijkstra" = Ok a
            /\ algorithm_compute a example_graph "A" "B"
               = Some (Raise (ValueError (NegativeWeights (Graph.min_weight example_graph)))).
Proof.
  apply (proj1 (selection_and_negative_weights example_graph "A" "B")).
  vm_compute. reflexivity.
Defined.

(** ** The cache: size, round trips and hits *)

Section CacheFacts.

Context {A : Type}.
Implicit Types (c : IdempotencyCache A).

Lemma apply_op_default_ttl c (op : cache_op A) :
  default_ttl (apply_op c op) = default_ttl c.
Proof.
  destruct op as [now key | now key request_id result ttl]; simpl.
  - apply get_key_default_ttl.
  - unfold put_key. cbn [default_ttl]. destruct (_ && _); [|reflexivity].
    unfold _evict_lru. now destruct (_access_order c).
Qed.

Lemma run_ops_snoc (maxsize0 default_ttl0 : Z) (ops : list (cache_op A)) (op : cache_op A) :
  run_ops maxsize0 default_ttl0 (ops ++ [op])
  = apply_op (run_ops maxsize0 default_ttl0 ops) op.
Proof. unfold run_ops. now rewrite fold_left_app. Qed.

Lemma run_ops_config (maxsize0 default_ttl0 : Z) (ops : list (cache_op A)) :
  maxsize (run_ops maxsize0 default_ttl0 ops) = maxsize0
  /\ default_ttl (run_ops maxsize0 default_ttl0 ops) = default_ttl0
  /\ cache_inv (run_ops maxsize0 default_ttl0 ops).
Proof.
  induction ops as [|op ops IH] using rev_ind.
  - split; [reflexivity|]. split; [reflexivity | apply cache_inv_new].
  - rewrite run_ops_snoc, apply_op_maxsize, apply_op_default_ttl.
    destruct IH as (H1 & H2 & H3). split; [assumption|]. split; [assumption|].
    now apply cache_inv_apply_op.
Qed.

(** The store after eviction holds what it held, less the victim. *)
Lemma evict_lru_lookup c (k : string) (e : CacheEntry A) :
  _cache (_evict_lru c) !! k = Some e -> _cache c !! k = Some e.
Proof.
  unfold _evict_lru. destruct (_access_order c) as [|victim rest]; [auto|]. cbn [_cache].
  intros H. apply lookup_delete_Some in H. tauto.
Qed.

Lemma get_key_lookup (now : Z) c (key k : string) (e : CacheEntry A) :
  _cache (snd (get_key now c key)) !! k = Some e -> _cache c !! k = Some e.
Proof.
  unfold get_key. destruct (_cache c !! key) as [entry|]; [|auto].
  destruct (is_expired now entry); cbn [snd _cache]; [|auto].
  intros H. apply lookup_delete_Some in H. tauto.
Qed.

Lemma put_key_size (now : Z) c (key request_id : string) (result : A) (ttl : option Z) :
  cache_inv c -> 1 <= maxsize c -> Z.of_nat (size (_cache c)) <= maxsize c ->
  Z.of_nat (size (_cache (put_key now c key request_id result ttl))) <= maxsize c.
Proof.
  intros [Hnd Hkeys] Hpos Hsize. unfold put_key. cbn [_cache].
  destruct (_cache c !! key) as [old|] eqn:Hkey.
  - rewrite bool_decide_eq_true_2 by eauto. rewrite andb_false_r.
    rewrite map_size_insert_Some by eauto. assumption.
  - rewrite bool_decide_eq_false_2 by (intros [? ?]; discriminate). rewrite andb_true_r.
    destruct (maxsize c <=? Z.of_nat (size (_cache c))) eqn:Hfull.
    + apply Z.leb_le in Hfull.
      assert (Hne : size (_cache c) <> O) by lia.
      apply map_size_ne_0_lookup_1 in Hne as [x Hx]. apply Hkeys in Hx.
      destruct (_access_order c) as [|victim rest] eqn:Horder; [inversion Hx|].
      rewrite (evict_lru_cons c victim rest Horder). cbn [_cache].
      assert (Hv : is_Some (_cache c !! victim)) by (apply Hkeys, elem_of_cons; auto).
      rewrite map_size_insert_None
        by (rewrite lookup_delete_ne; [assumption | intros ->; destruct Hv; congruence]).
      rewrite map_size_delete_Some by assumption. lia.
    + apply Z.leb_gt in Hfull. rewrite map_size_insert_None by assumption. lia.
Qed.

Lemma get_key_size (now : Z) c (key : string) :
  (size (_cache (snd (get_key now c key))) <= size (_cache c))%nat.
Proof.
  unfold get_key. destruct (_cache c !! key) as [entry|] eqn:Hkey; [|simpl; lia].
  destruct (is_expired now entry); cbn [snd _cache]; [|lia].
  rewrite map_size_delete_Some by eauto. lia.
Qed.

End CacheFacts.

(** X15. The cache keeps within its capacity: after any history of gets
    and puts on [IdempotencyCache(maxsize, default_ttl)] with [maxsize] at
    least 1, the store holds at most [maxsize] entries, and the order list
    holds exactly the keys of the store, each once. *)
Theorem cache_stays_within_maxsize {A} (maxsize0 default_ttl0 : Z) (ops : list (cache_op A)) :
  1 <= maxsize0 ->
  let c := run_ops maxsize0 default_ttl0 ops in
  Z.of_nat (size (_cache c)) <= maxsize0
  /\ NoDup (_access_order c)
  /\ forall k, k ∈ _access_order c <-> is_Some (_cache c !! k).
Proof.
  intros Hpos c. subst c.
  destruct (run_ops_config maxsize0 default_ttl0 ops) as (_ & _ & [Hnd Hkeys]).
  split; [|now split].
  clear Hnd Hkeys. induction ops as [|op ops IH] using rev_ind.
  - unfold run_ops. simpl. rewrite map_size_empty. lia.
  - rewrite run_ops_snoc.
    destruct (run_ops_config maxsize0 default_ttl0 ops) as (Hmax & _ & Hinv).
    destruct op as [now key | now key request_id result ttl]; simpl.
    + pose proof (get_key_size now (run_ops maxsize0 default_ttl0 ops) key). lia.
    + pose proof (put_key_size now (run_ops maxsize0 default_ttl0 ops) key request_id
                    result ttl Hinv) as Hput.
      rewrite Hmax in Hput. now apply Hput.
Qed.

Lemma cache_stays_within_maxsize_witness :
  let c := run_ops 2 300 (history_a_b_a ++ [OpPut 3 "c" "req-c" 3 None]) in
  Z.of_nat (size (_cache c)) <= 2
  /\ NoDup (_access_order c)
  /\ forall k, k ∈ _access_order c <-> is_Some (_cache c !! k).
Proof.
  apply (cache_stays_within_maxsize 2 300 (history_a_b_a ++ [OpPut 3 "c" "req-c" 3 None])).
  lia.
Defined.

(** X16. A put followed by a get of the same key is a round trip until
    the entry expires: the get returns the stored result as long as no
    more than the entry's time-to-live has passed since the put, and
    nothing afterwards; the time-to-live is the one given, or the cache's
    default when none or 0 is given. A put leaves every other key as it
    was, except that a put of a new key at capacity removes the key at
    the head of the order list. *)
Theorem put_then_get {A} (now now' : Z) (c : IdempotencyCache A)
        (key request_id : string) (result : A) (ttl_given : option Z) :
  let life := match ttl_given with
              | Some t => if t =? 0 then default_ttl c else t
              | None => default_ttl c
              end in
  fst (get_key now' (put_key now c key request_id result ttl_given) key)
  = (if life <? now' - now then None else Some result)
  /\ forall k', k' <> key ->
                (Z.of_nat (size (_cache c)) < maxsize c \/ is_Some (_cache c !! key)
                 \/ head (_access_order c) <> Some k') ->
                _cache (put_key now c key request_id result ttl_given) !! k' = _cache c !! k'.
Proof.
  intros life. split.
  - unfold get_key, put_key. cbn [_cache]. rewrite lookup_insert_eq.
    unfold is_expired. cbn [ttl timestamp entry_result]. fold life.
    unfold effective_ttl. fold life. now destruct (life <? now' - now).
  - intros k' Hne Hfree. unfold put_key. cbn [_cache].
    rewrite lookup_insert_ne by congruence.
    destruct ((maxsize c <=? Z.of_nat (size (_cache c)))
              && negb (bool_decide (is_Some (_cache c !! key)))) eqn:Hevict; [|reflexivity].
    apply andb_true_iff in Hevict as [Hfull Hnew]. apply Z.leb_le in Hfull.
    apply negb_true_iff, bool_decide_eq_false in Hnew.
    destruct Hfree as [Hroom | [Hold | Hhead]]; [lia | contradiction |].
    unfold _evict_lru. destruct (_access_order c) as [|victim rest]; [reflexivity|].
    cbn [_cache]. apply lookup_delete_ne. intros ->. now apply Hhead.
Qed.

Lemma last_put_snoc {A} (default_ttl0 : Z) (ops : list (cache_op A)) (op : cache_op A)
      (k : string) :
  last_put default_ttl0 (ops ++ [op]) k
  = match op with
    | OpPut now key _ result ttl_given =>
        if String.eqb key k
        then Some (now, result,
                   match ttl_given with
                   | Some t => if t =? 0 then default_ttl0 else t
                   | None => default_ttl0
                   end)
        else last_put default_ttl0 ops k
    | OpGet _ _ => last_put default_ttl0 ops k
    end.
Proof. unfold last_put. rewrite fold_left_app. simpl. now destruct op. Qed.

(** Every entry in the store is what the last put under its key stored. *)
Lemma stored_is_last_put {A} (maxsize0 default_ttl0 : Z) (ops : list (cache_op A))
      (k : string) (e : CacheEntry A) :
  _cache (run_ops maxsize0 default_ttl0 ops) !! k = Some e ->
  last_put default_ttl0 ops k = Some (timestamp e, entry_result e, ttl e).
Proof.
  revert e. induction ops as [|op ops IH] using rev_ind; intros e.
  - unfold run_ops. simpl. now rewrite lookup_empty.
  - rewrite run_ops_snoc, last_put_snoc.
    destruct (run_ops_config maxsize0 default_ttl0 ops) as (_ & Httl & _).
    destruct op as [now key | now key request_id result ttl_given]; simpl.
    + intros He. apply get_key_lookup in He. auto.
    + unfold put_key. cbn [_cache].
      destruct (String.eqb_spec key k) as [->|Hne].
      * rewrite lookup_insert_eq. intros He. inversion He. simpl.
        unfold effective_ttl. now rewrite Httl.
      * rewrite lookup_insert_ne by assumption. intros He. apply IH.
        destruct (_ && _); [now apply evict_lru_lookup | assumption].
Qed.

(** X17. A hit returns what was last stored: in a cache reached by any
    history of gets and puts, a get that returns a result returns the
    result of the most recent put under that key, and no more than that
    put's time-to-live has passed since; results stored under other keys,
    results of earlier puts and expired results are never returned. *)
Theorem cache_hit_is_last_put {A} (maxsize0 default_ttl0 : Z) (ops : list (cache_op A))
        (now : Z) (k : string) (r : A) :
  fst (get_key now (run_ops maxsize0 default_ttl0 ops) k) = Some r ->
  exists t life, last_put default_ttl0 ops k = Some (t, r, life) /\ now - t <= life.
Proof.
  unfold get_key.
  destruct (_cache (run_ops maxsize0 default_ttl0 ops) !! k) as [e|] eqn:He; [|discriminate].
  unfold is_expired. destruct (ttl e <? now - timestamp e) eqn:Hexp; [discriminate|].
  simpl. intros H. inversion H; subst r.
  exists (timestamp e), (ttl e). split; [now apply (stored_is_last_put maxsize0)|].
  apply Z.ltb_ge in Hexp. lia.
Qed.

Lemma cache_hit_is_last_put_witness :
  exists t life, last_put 300 history_a_b_a "a" = Some (t, 1, life) /\ 100 - t <= life.
Proof.
  apply (cache_hit_is_last_put 2 300 history_a_b_a 100 "a" 1).
  vm_compute. reflexivity.
Defined.

(** ** The circuit breaker: what reachable breakers look like *)

Lemma reachable_breaker_failed threshold duration expected cb :
  reachable_breaker threshold duration expected cb ->
  0 <= failure_count cb
  /\ (state cb <> CLOSED \/ 0 < failure_count cb -> is_Some (last_failure_time cb)).
Proof.
  induction 1 as [|W A clock cb cb' func w w' r Hreach [IH0 IH] Hcall].
  { simpl. split; [lia|]. intros [H|H]; [contradiction | lia]. }
  unfold call in Hcall.
  destruct (state cb) eqn:Hst.
  - (* CLOSED *)
    destruct (func w) as [[a|e] w1].
    + inversion Hcall; subst. unfold _on_success. rewrite Hst. split; [assumption|].
      rewrite Hst. exact IH.
    + destruct (expected_exceptions cb e); inversion Hcall; subst.
      * unfold _on_failure. simpl. split; [lia | eauto].
      * split; [assumption|]. rewrite Hst. exact IH.
  - (* OPEN *)
    destruct (_should_attempt_reset (clock w) cb).
    + destruct (func w) as [[a|e] w1].
      * inversion Hcall; subst. simpl. split; [lia|]. intros _. apply IH. left. congruence.
      * simpl in Hcall. destruct (expected_exceptions cb e); inversion Hcall; subst; simpl.
        -- split; [lia | eauto].
        -- split; [assumption|]. intros _. apply IH. left. congruence.
    + inversion Hcall; subst. split; [assumption|]. rewrite Hst. exact IH.
  - (* HALF_OPEN *)
    destruct (func w) as [[a|e] w1].
    + inversion Hcall; subst. unfold _on_success. rewrite Hst. simpl. split; [lia|].
      intros _. apply IH. left. congruence.
    + destruct (expected_exceptions cb e); inversion Hcall; subst; simpl.
      * split; [lia | eauto].
      * split; [assumption|]. rewrite Hst. exact IH.
Qed.

(** X18. An open breaker always recovers: a breaker reached from
    [CircuitBreaker(..)] through calls never has a negative failure count,
    and whenever it is [OPEN] it has the time of its last failure on
    record, so that a call made once [timeout_duration] has passed since
    then runs the callable again instead of being rejected. *)
Theorem open_breaker_recovers threshold duration expected cb :
  reachable_breaker threshold duration expected cb ->
  0 <= failure_count cb
  /\ (state cb = OPEN ->
      exists t, last_failure_time cb = Some t
                /\ forall W A (clock : W -> Z) (func : W -> result A * W) (w : W),
                     duration <= clock w - t ->
                     fst (fst (call clock cb func w)) = fst (func w)
                     /\ snd (call clock cb func w) = snd (func w)).
Proof.
  intros Hreach.
  destruct (reachable_breaker_failed _ _ _ _ Hreach) as [H0 Hsome].
  destruct (reachable_breaker_parameters _ _ _ _ Hreach) as (_ & Hdur & _).
  split; [assumption|]. intros Hopen.
  destruct Hsome as [t Ht]; [left; congruence|].
  exists t. split; [assumption|].
  intros W A clock func w Hlate. unfold call, _should_attempt_reset.
  rewrite Hopen, Ht, Hdur.
  destruct (duration <=? clock w - t) eqn:E; [|lia].
  destruct (func w) as [[a|e] w1]; simpl; [auto|].
  now destruct (expected_exceptions cb e).
Qed.

Lemma reachable_after_call threshold duration expected cb (now : Z) (r : result unit) :
  reachable_breaker threshold duration expected cb ->
  reachable_breaker threshold duration expected (after_call cb now r).
Proof.
  intros Hreach. unfold after_call.
  destruct (call (fun w => w) cb (outcome_now r) now) as [[r' cb'] w'] eqn:Hcall.
  exact (reachable_call threshold duration expected Z unit (fun w => w) cb cb'
           (outcome_now r) now w' r' Hreach Hcall).
Qed.

Lemma open_breaker_recovers_witness :
  let cb := after_call (after_call (new_breaker 2 60 (fun _ => true)) 0 (Raise IOError))
                       1 (Raise IOError) in
  0 <= failure_count cb
  /\ (state cb = OPEN ->
      exists t, last_failure_time cb = Some t
                /\ forall W A (clock : W -> Z) (func : W -> result A * W) (w : W),
                     60 <= clock w - t ->
                     fst (fst (call clock cb func w)) = fst (func w)
                     /\ snd (call clock cb func w) = snd (func w)).
Proof.
  apply (open_breaker_recovers 2 60 (fun _ => true)).
  do 2 apply reachable_after_call. apply reachable_new.
Defined.

(** X19. Exceptions outside [expected_exceptions] pass through the breaker
    uncounted: the failure count and the time of the last failure stay as
    they were. In particular a trial call that ends in such an exception
    leaves the breaker [HALF_OPEN], and a [HALF_OPEN] breaker lets every
    call through, so that more than one trial can follow. *)
Theorem unexpected_exceptions_are_not_counted :
  (forall W A (clock : W -> Z) cb (func : W -> result A * W) w e w1,
      func w = (Raise e, w1) -> expected_exceptions cb e = false ->
      state cb <> OPEN ->
      call clock cb func w = (Raise e, cb, w1))
  /\ (forall W A (clock : W -> Z) cb (func : W -> result A * W) w e w1 t,
         func w = (Raise e, w1) -> expected_exceptions cb e = false ->
         state cb = OPEN -> last_failure_time cb = Some t ->
         timeout_duration cb <= clock w - t ->
         call clock cb func w = (Raise e, set_state cb HALF_OPEN, w1))
  /\ (forall W A (clock : W -> Z) cb (func : W -> result A * W) w,
         state cb = HALF_OPEN ->
         fst (fst (call clock cb func w)) = fst (func w)
         /\ snd (call clock cb func w) = snd (func w)).
Proof.
  split; [|split].
  - intros W A clock cb func w e w1 Hf He Hst. unfold call.
    destruct (state cb); [|contradiction|]; now rewrite Hf, He.
  - intros W A clock cb func w e w1 t Hf He Hst Ht Hlate.
    unfold call, _should_attempt_reset. rewrite Hst, Ht.
    destruct (timeout_duration cb <=? clock w - t) eqn:E; [|lia].
    rewrite Hf. simpl. now rewrite He.
  - intros W A clock cb func w Hst. unfold call. rewrite Hst.
    destruct (func w) as [[a|e] w1]; simpl; [auto|].
    now destruct (expected_exceptions cb e).
Qed.

Lemma unexpected_exceptions_are_not_counted_witness :
  let cb := after_call (after_call (new_breaker 2 60 loader_failures) 0 (Raise IOError))
                       1 (Raise IOError) in
  call (fun w => w) cb (outcome_now (Raise TransientError)) 100
  = (Raise TransientError, set_state cb HALF_OPEN, 100).
Proof.
  apply (proj1 (proj2 unexpected_exceptions_are_not_counted) Z unit (fun w => w)
           (after_call (after_call (new_breaker 2 60 loader_failures) 0 (Raise IOError))
                       1 (Raise IOError))
           (outcome_now (Raise TransientError)) 100 TransientError 100 1);
    [reflexivity | reflexivity | reflexivity | reflexivity | vm_compute; discriminate].
Defined.

(** ** Retrying *)

Section RetryCounts.

Context {S A : Type}.
Variable exceptions : exn -> bool.
Variable lift_sleep : Z -> S -> S.
Variable func : S -> result A * S.
Variables backoff_multiplier max_wait : Z.

Local Abbreviation run remaining wait_time st :=
  (retry_loop remaining wait_time backoff_multiplier max_wait exceptions
              (recorded_sleep lift_sleep) (counted_call func) st).

Lemma counted_call_eq (s : S) (count : nat * list Z) :
  counted_call func (s, count)
  = (fst (func s), (snd (func s), (Datatypes.S (fst count), snd count))).
Proof. unfold counted_call. cbn [fst snd]. now destruct (func s). Qed.

Lemma recorded_sleep_eq (secs : Z) (s : S) (count : nat * list Z) :
  recorded_sleep lift_sleep secs (s, count)
  = (lift_sleep secs s, (fst count, snd count ++ [secs])).
Proof. reflexivity. Qed.

(** The counted run does to the state what the plain run does, and counts
    the attempts and records the waits on the side. *)
Lemma counted_run (remaining : nat) (wait_time : Z) (s : S) (n : nat) (zs : list Z) :
  exists m,
    (m <= remaining)%nat /\ (remaining <> O -> m <> O)
    /\ run remaining wait_time (s, (n, zs))
       = (fst (retry_loop remaining wait_time backoff_multiplier max_wait exceptions
                          lift_sleep func s),
          (snd (retry_loop remaining wait_time backoff_multiplier max_wait exceptions
                           lift_sleep func s),
           ((n + m)%nat,
            zs ++ firstn (m - 1)
                    (backoff_waits remaining wait_time backoff_multiplier max_wait)))).
Proof.
  revert wait_time s n zs. induction remaining as [|k IH]; intros wait_time s n zs.
  - exists O. cbn [retry_loop fst snd firstn Nat.sub backoff_waits].
    rewrite Nat.add_0_r, app_nil_r. repeat split; auto.
  - cbn [retry_loop]. rewrite counted_call_eq. cbn [fst snd].
    destruct (func s) as [[a|e] s1]; cbn [fst snd].
    + exists 1%nat. cbn [fst snd firstn Nat.sub]. rewrite app_nil_r, Nat.add_1_r.
      repeat split; auto; lia.
    + destruct (exceptions e).
      * destruct k as [|k'].
        -- exists 1%nat. cbn [fst snd firstn Nat.sub]. rewrite app_nil_r, Nat.add_1_r.
           repeat split; auto; lia.
        -- rewrite recorded_sleep_eq. cbn [fst snd].
           destruct (IH (Z.min (wait_time * backoff_multiplier) max_wait)
                        (lift_sleep wait_time s1) (Datatypes.S n) (zs ++ [wait_time]))
             as (m & Hle & Hpos & Heq).
           exists (Datatypes.S m). split; [lia|]. split; [lia|].
           rewrite Heq. f_equal. f_equal. f_equal; [lia|].
           rewrite <- app_assoc. f_equal. cbn [backoff_waits].
           destruct m as [|m']; [now destruct Hpos|].
           cbn [Nat.sub]. rewrite Nat.sub_0_r. reflexivity.
      * exists 1%nat. cbn [fst snd firstn Nat.sub]. rewrite app_nil_r, Nat.add_1_r.
        repeat split; auto; lia.
Qed.

End RetryCounts.

(** X20. A retried call is attempted at most [max_attempts] times, and at
    least once when [max_attempts] is not 0; between attempts, and only
    there, it sleeps, first for [initial_wait] and then each time for the
    previous wait times [backoff_multiplier], capped at [max_wait]. The
    counters added to observe this do not change what the call does. *)
Theorem retry_attempts_and_waits {S A} (max_attempts : nat)
        (initial_wait backoff_multiplier max_wait : Z) (exceptions : exn -> bool)
        (lift_sleep : Z -> S -> S) (func : S -> result A * S) (s : S) :
  let counted := retry_loop max_attempts initial_wait backoff_multiplier max_wait exceptions
                            (recorded_sleep lift_sleep) (counted_call func) (s, (O, [])) in
  (fst counted, fst (snd counted))
  = retry_loop max_attempts initial_wait backoff_multiplier max_wait exceptions
               lift_sleep func s
  /\ exists attempts,
       snd (snd counted)
       = (attempts,
          firstn (attempts - 1)
                 (backoff_waits max_attempts initial_wait backoff_multiplier max_wait))
       /\ (attempts <= max_attempts)%nat /\ (max_attempts <> O -> attempts <> O).
Proof.
  intros counted. subst counted.
  destruct (counted_run exceptions lift_sleep func backoff_multiplier max_wait
              max_attempts initial_wait s O []) as (m & Hle & Hpos & Heq).
  rewrite Heq. cbn [fst snd]. split; [symmetry; apply surjective_pairing|].
  exists m. auto.
Qed.

(** ** The routing engine: what a request gets *)

Section EngineResults.

Variable sha256_hexdigest : string -> string.
Context {W : Type}.
Variable clock : W -> Z.
Variable sleep : Z -> W -> W.
Variable alarm_fires : Z -> W -> bool.

Local Abbreviation run := (compute_route sha256_hexdigest clock sleep alarm_fires).
Local Abbreviation lookup eng request w :=
  (get sha256_hexdigest (clock w) (cache eng) (request_id request) [] (request_kwargs request)).

Lemma with_timeout_ok {A} (timeout_ms : Z) (w : W) (body : option (result A)) (a : A) :
  with_timeout alarm_fires timeout_ms w body = Ok a -> body = Some (Ok a).
Proof.
  unfold with_timeout. destruct (timeout_ms <? 0); [discriminate|].
  destruct (timer_limit_ms <? timeout_ms); [discriminate|].
  destruct body as [r|]; [|discriminate].
  destruct (negb _ && alarm_fires timeout_ms w); [discriminate | now intros ->].
Qed.

(** What a response computed afresh is made of. *)
Lemma compute_fresh_ok (request : RouteRequest) (g : Graph.t) (w : W)
      (response : RouteResponse) :
  compute_fresh alarm_fires request (Ok g) w = Ok response ->
  exists a p d,
    AlgorithmSelector.select g (algorithm_hint request) = Ok a
    /\ algorithm_compute a g (start_node request) (goal_node request) = Some (Ok (p, d))
    /\ (validate_result request = true -> ResultValidator.validate_path g p d = Ok tt)
    /\ response
       = {| response_request_id := request_id request; status := "success";
            path := Some p; cost := Some d;
            metadata := Some {| algorithm_used := algorithm_name a;
                                graph_nodes := length (Graph.nodes g);
                                graph_edges := length (Graph.edges g);
                                cache_hit := false |};
            error := None |}.
Proof.
  unfold compute_fresh. cbn [bind].
  destruct (Graph.validate_nodes_exist g _) as [[]|e]; [|discriminate]. cbn [bind].
  destruct (AlgorithmSelector.select g _) as [a|e]; [|discriminate]. cbn [bind].
  destruct (with_timeout _ _ _ _) as [[p d]|e] eqn:Hrun; [|discriminate]. cbn [bind fst snd].
  apply with_timeout_ok in Hrun.
  destruct (validate_result request).
  - destruct (ResultValidator.validate_path g p d) as [[]|e] eqn:Hval; [|discriminate].
    cbn [bind]. intros H. inversion H. exists a, p, d. auto.
  - cbn [bind]. intros H. inversion H. exists a, p, d. repeat split; auto. discriminate.
Qed.

Lemma run_miss (eng : @RoutingEngine W) (request : RouteRequest) (w : W) :
  fst (lookup eng request w) = None ->
  run eng request w
  = let '(loaded, (cb1, w1)) := _load_graph_resilient clock sleep eng (graph_id request) w in
    match compute_fresh alarm_fires request loaded w1 with
    | Ok response =>
        (response,
         {| cache := put sha256_hexdigest (clock w1) (snd (lookup eng request w))
                         (request_id request) response None [] (request_kwargs request);
            circuit_breaker := cb1; _graph_loader := _graph_loader eng |}, w1)
    | Raise e =>
        (handle_exception request e,
         {| cache := snd (lookup eng request w); circuit_breaker := cb1;
            _graph_loader := _graph_loader eng |}, w1)
    end.
Proof.
  intros Hmiss. unfold compute_route.
  destruct (get _ _ _ _ _ _) as [cached cache1]. simpl in Hmiss. subst cached.
  reflexivity.
Qed.

(** X22. Failures are not cached: when a request that is not in the cache
    is answered with anything but ["success"], nothing is stored under
    its key, so the same request is computed afresh the next time; a
    success is stored under its key, with the default time-to-live. *)
Theorem failures_are_not_cached
        (eng eng' : @RoutingEngine W) (request : RouteRequest) (w w' : W)
        (response : RouteResponse) :
  fst (lookup eng request w) = None ->
  run eng request w = (response, eng', w') ->
  (status response <> "success" ->
   _cache (cache eng') !! request_key sha256_hexdigest request = None)
  /\ (status response = "success" ->
      exists entry,
        _cache (cache eng') !! request_key sha256_hexdigest request = Some entry
        /\ entry_result entry = response /\ timestamp entry = clock w'
        /\ ttl entry = default_ttl (cache eng)).
Proof.
  intros Hmiss Hrun. rewrite run_miss in Hrun by assumption.
  assert (Habsent : _cache (snd (lookup eng request w))
                      !! request_key sha256_hexdigest request = None).
  { unfold get, get_key in *. fold (request_key sha256_hexdigest request) in *.
    destruct (_cache (cache eng) !! request_key sha256_hexdigest request) as [entry|] eqn:Hk;
      [|exact Hk].
    destruct (is_expired (clock w) entry); [|discriminate].
    cbn [snd _cache]. apply lookup_delete_eq. }
  assert (Httl : default_ttl (snd (lookup eng request w)) = default_ttl (cache eng))
    by apply get_key_default_ttl.
  destruct (_load_graph_resilient _ _ _ _ _) as [loaded [cb1 w1]].
  destruct (compute_fresh _ _ _ _) as [resp|e] eqn:Hfresh; inversion Hrun; subst; cbn [cache].
  - split.
    + intros Hno. exfalso. apply Hno.
      destruct loaded as [g|e]; [|discriminate].
      now apply compute_fresh_ok in Hfresh as (a & p & d & _ & _ & _ & ->).
    + intros _. unfold put, put_key. cbn [_cache].
      fold (request_key sha256_hexdigest request). rewrite lookup_insert_eq.
      eexists. split; [reflexivity|]. cbn. repeat split. exact Httl.
  - split; [intros _; exact Habsent|].
    intros Hok. now apply handle_exception_not_success in Hok.
Qed.

(** X23. An open breaker makes the engine fail fast: while the breaker is
    [OPEN] and [timeout_duration] has not passed since the last failure, a
    request that is not in the cache is answered [CIRCUIT_BREAKER_OPEN]
    at once; the loader is not called, nothing is slept, the world is as
    it was, and breaker and cache keep their state. *)
Theorem open_breaker_fails_fast
        (eng : @RoutingEngine W) (request : RouteRequest) (w : W) (t : Z) :
  fst (lookup eng request w) = None ->
  state (circuit_breaker eng) = OPEN ->
  last_failure_time (circuit_breaker eng) = Some t ->
  clock w - t < timeout_duration (circuit_breaker eng) ->
  run eng request w
  = (_error_response request "error" "CIRCUIT_BREAKER_OPEN" None,
     {| cache := snd (lookup eng request w); circuit_breaker := circuit_breaker eng;
        _graph_loader := _graph_loader eng |},
     w).
Proof.
  intros Hmiss Hst Ht Hearly. rewrite run_miss by assumption.
  unfold _load_graph_resilient. cbn [retry_loop fst snd].
  unfold call, _should_attempt_reset. rewrite Hst, Ht.
  destruct (timeout_duration (circuit_breaker eng) <=? clock w - t) eqn:E; [lia|].
  reflexivity.
Qed.

End EngineResults.

Lemma failures_are_not_cached_witness :
  let out := compute_route (fun s => s) (fun w => w) (fun secs w => w + secs)
               (fun _ _ => false)
               (new_engine (constant_loader Graph.empty)) (request_A_B "r1" "g1") 0 in
  (status (fst (fst out)) <> "success" ->
   _cache (cache (snd (fst out))) !! request_key (fun s => s) (request_A_B "r1" "g1") = None)
  /\ (status (fst (fst out)) = "success" ->
      exists entry,
        _cache (cache (snd (fst out))) !! request_key (fun s => s) (request_A_B "r1" "g1")
        = Some entry
        /\ entry_result entry = fst (fst out) /\ timestamp entry = snd out
        /\ ttl entry = default_ttl (cache (new_engine (constant_loader Graph.empty)))).
Proof.
  intros out.
  apply (failures_are_not_cached (fun s => s) (fun w => w) (fun secs w => w + secs)
           (fun _ _ => false)
           (new_engine (constant_loader Graph.empty)) (snd (fst out))
           (request_A_B "r1" "g1") 0 (snd out) (fst (fst out))).
  - vm_compute. reflexivity.
  - subst out. now rewrite <- !surjective_pairing.
Defined.

Lemma open_breaker_fails_fast_witness :
  let eng := {| cache := new_cache 1000 300;
                circuit_breaker :=
                  after_call (after_call (new_breaker 2 60 loader_failures) 0 (Raise IOError))
                             1 (Raise IOError);
                _graph_loader := constant_loader example_graph |} in
  compute_route (fun s => s) (fun w => w) (fun secs w => w + secs) (fun _ _ => false)
                eng (request_A_B "r1" "g1") 30
  = (_error_response (request_A_B "r1" "g1") "error" "CIRCUIT_BREAKER_OPEN" None,
     {| cache := snd (get (fun s => s) 30 (cache eng) "r1" []
                          (request_kwargs (request_A_B "r1" "g1")));
        circuit_breaker := circuit_breaker eng; _graph_loader := _graph_loader eng |},
     30).
Proof.
  apply (open_breaker_fails_fast (fun s => s) (fun w => w) (fun secs w => w + secs)
           (fun _ _ => false)
           {| cache := new_cache 1000 300;
              circuit_breaker :=
                after_call (after_call (new_breaker 2 60 loader_failures) 0 (Raise IOError))
                           1 (Raise IOError);
              _graph_loader := constant_loader example_graph |}
           (request_A_B "r1" "g1") 30 1).
  - vm_compute. reflexivity.
  - reflexivity.
  - reflexivity.
  - vm_compute. reflexivity.
Defined.

(** ** The routing engine: how often the loader is called *)

Section LoaderCalls.

Variable sha256_hexdigest : string -> string.
Context {W : Type}.
Variable clock : W -> Z.
Variable sleep : Z -> W -> W.
Variable alarm_fires : Z -> W -> bool.
Variable loader : string -> W -> result Graph.t * W.

Local Abbreviation clock' := (fun st : W * nat => clock (fst st)).
Local Abbreviation sleep' := (fun (secs : Z) (st : W * nat) => (sleep secs (fst st), snd st)).
Local Abbreviation alarm' := (fun (ms : Z) (st : W * nat) => alarm_fires ms (fst st)).

Lemma call_counts (cb : CircuitBreaker) (graph_id : string) (w : W) (n : nat) :
  (n <= snd (snd (call clock' cb (counted_loader loader graph_id) (w, n))) <= S n)%nat.
Proof.
  unfold call.
  destruct (match state cb with
            | OPEN => if _should_attempt_reset (clock' (w, n)) cb
                      then Ok (set_state cb HALF_OPEN) else Raise CircuitBreakerOpenError
            | _ => Ok cb
            end) as [cb1|e]; [|simpl; lia].
  unfold counted_loader. cbn [fst snd].
  destruct (loader graph_id w) as [[g|e] w1]; cbn [fst snd]; [simpl; lia|].
  destruct (expected_exceptions cb1 e); simpl; lia.
Qed.

Lemma retry_counts (remaining : nat) (wait_time : Z) (graph_id : string)
      (cb : CircuitBreaker) (w : W) (n : nat) :
  (n <= snd (snd (snd
         (retry_loop remaining wait_time 2 10 retryable
            (fun secs s => (fst s, sleep' secs (snd s)))
            (fun s => let '(r, cb', w') :=
                        call clock' (fst s) (counted_loader loader graph_id) (snd s) in
                      (r, (cb', w')))
            (cb, (w, n)))))
   <= n + remaining)%nat.
Proof.
  revert wait_time cb w n. induction remaining as [|k IH]; intros wait_time cb w n.
  - simpl. lia.
  - cbn [retry_loop fst snd].
    pose proof (call_counts cb graph_id w n) as Hcall.
    destruct (call clock' cb (counted_loader loader graph_id) (w, n)) as [[r cb1] [w1 n1]].
    cbn [fst snd] in Hcall. destruct r as [g|e]; [simpl; lia|].
    destruct (retryable e); [|simpl; lia].
    destruct k as [|k']; [simpl; lia|].
    cbn [fst snd]. specialize (IH (Z.min (wait_time * 2) 10) cb1 (sleep wait_time w1) n1). lia.
Qed.

(** X24. One request calls the graph loader at most three times, and a
    request answered from the cache does not call it at all. *)
Theorem loader_called_at_most_three_times
        (eng : @RoutingEngine (W * nat)) (request : RouteRequest) (w : W) (n : nat) :
  _graph_loader eng = counted_loader loader ->
  let calls_after :=
    snd (snd (compute_route sha256_hexdigest clock' sleep' alarm' eng request (w, n))) in
  (n <= calls_after <= n + 3)%nat
  /\ (fst (get sha256_hexdigest (clock w) (cache eng) (request_id request) []
               (request_kwargs request)) <> None ->
      calls_after = n).
Proof.
  intros Hloader calls_after. subst calls_after. unfold compute_route. cbn [fst].
  destruct (get _ _ _ _ _ _) as [[cached|] cache1]; cbn [fst].
  - destruct (metadata cached); simpl; split; auto; lia.
  - split; [|intros H; now destruct H].
    unfold _load_graph_resilient. rewrite Hloader.
    pose proof (retry_counts 3 1 (graph_id request) (circuit_breaker eng) w n) as Hcount.
    destruct (retry_loop _ _ _ _ _ _ _ _) as [loaded [cb1 [w1 n1]]].
    cbn [fst snd] in Hcount.
    destruct (compute_fresh _ _ _ _); simpl; lia.
Qed.

End LoaderCalls.

Lemma loader_called_at_most_three_times_witness :
  let eng := new_engine (counted_loader (fun (_ : string) (w : Z) => (@Raise Graph.t IOError, w))) in
  let calls_after :=
    snd (snd (compute_route (fun s => s) (fun st : Z * nat => fst st)
                (fun secs (st : Z * nat) => (fst st + secs, snd st))
                (fun (_ : Z) (_ : Z * nat) => false)
                eng (request_A_B "r1" "g1") (0, O))) in
  (0 <= calls_after <= 0 + 3)%nat
  /\ (fst (get (fun s => s) 0 (cache eng) "r1" [] (request_kwargs (request_A_B "r1" "g1")))
      <> None -> calls_after = O).
Proof.
  apply (loader_called_at_most_three_times (fun s => s) (fun w : Z => w)
           (fun secs w => w + secs) (fun _ _ => false)
           (fun (_ : string) (w : Z) => (@Raise Graph.t IOError, w))
           (new_engine (counted_loader (fun (_ : string) (w : Z) => (@Raise Graph.t IOError, w))))
           (request_A_B "r1" "g1") 0 O).
  reflexivity.
Defined.

(** ** [routing_v2]: the graph *)

Lemma v2_add_well_formed (adj : Graph.t) (e : RoutingV2.Edge) :
  RoutingV2.add adj e
  = fold_left (fun g e => Graph.add_edge g (fst (fst e)) (snd (fst e)) (snd e))
              (well_formed_edges [e]) adj.
Proof.
  unfold RoutingV2.add, well_formed_edges. cbn [omap list_omap].
  destruct (RoutingV2.truthy (RoutingV2.source e)) as [s|]; [|reflexivity].
  destruct (RoutingV2.truthy (RoutingV2.target e)) as [t|]; reflexivity.
Qed.

Lemma v2_adjacency (es : list RoutingV2.Edge) (adj : Graph.t) :
  fold_left RoutingV2.add es adj
  = fold_left (fun g e => Graph.add_edge g (fst (fst e)) (snd (fst e)) (snd e))
              (well_formed_edges es) adj.
Proof.
  revert adj. induction es as [|e es IH]; intros adj; [reflexivity|].
  cbn [fold_left]. rewrite IH, v2_add_well_formed.
  change (e :: es) with ([e] ++ es). unfold well_formed_edges.
  now rewrite omap_app, fold_left_app.
Qed.

Lemma last_weight_In (es : list edge) (x y : string) (w : Z) :
  last_weight es x y = Some w -> In (x, y, w) es.
Proof.
  intros H. apply last_weight_Some in H as (l1 & l2 & -> & _).
  apply in_or_app. right. now left.
Qed.

(** X25. [routing_v2] builds its adjacency structure the way
    [Graph.from_edge_list] does, from the edges that have a source and a
    target (absent or empty ones are skipped, a missing weight counts as
    0); the result is well formed. The negative-weight check reads the
    edge list as given, so it is true whenever the adjacency structure
    holds a negative weight. *)
Theorem v2_graph_is_from_edge_list (es : list RoutingV2.Edge) :
  let g := RoutingV2.make es in
  RoutingV2._adj g = Graph.from_edge_list (well_formed_edges es)
  /\ wf_graph (RoutingV2._adj g) /\ dict_graph (RoutingV2._adj g)
  /\ RoutingV2.edges g = es
  /\ (Graph.has_negative_weights (RoutingV2._adj g) = true ->
      RoutingV2._has_negative_weights g = true).
Proof.
  intros g.
  assert (Hadj : RoutingV2._adj g = Graph.from_edge_list (well_formed_edges es)).
  { subst g. unfold RoutingV2.make. cbn [RoutingV2._adj]. apply v2_adjacency. }
  split; [assumption|]. rewrite Hadj.
  split; [apply from_edge_list_wf|]. split; [apply from_edge_list_dict|].
  split; [reflexivity|].
  intros Hneg. apply has_negative_weights_true in Hneg as ([[x y] w] & Hin & Hw).
  simpl in Hw.
  apply (edges_lookup _ x y w (from_edge_list_dict _)) in Hin.
  rewrite from_edge_list_lookup in Hin. apply last_weight_In in Hin.
  unfold well_formed_edges in Hin. apply list_elem_of_In, list_elem_of_omap in Hin
    as (e & He & Hwf).
  unfold RoutingV2._has_negative_weights. apply existsb_exists. exists e.
  split; [now apply list_elem_of_In|].
  destruct (RoutingV2.truthy (RoutingV2.source e)); [|discriminate].
  destruct (RoutingV2.truthy (RoutingV2.target e)); [|discriminate].
  inversion Hwf; subst. lia.
Qed.

(** ** [routing_v2]: reachability *)

Section Reachability.

Variable g : RoutingV2.Graph.
Hypothesis Hnd : NoDup (RoutingV2.nodes g).
Variables start goal : string.

Local Abbreviation adj := (RoutingV2._adj g).
Local Abbreviation es := (Graph.edges (RoutingV2._adj g)).
Local Abbreviation Inv := (bfs_inv (Graph.edges (RoutingV2._adj g)) start goal).

Lemma bfs_inv_init : start <> goal -> Inv [start] ∅.
Proof.
  intros Hne. split.
  - intros x Hx. apply list_elem_of_singleton in Hx as ->. now exists [].
  - intros u v w Hu. set_solver.
  - right. apply list_elem_of_singleton. reflexivity.
  - set_solver.
Qed.

Lemma bfs_inv_stale (node : string) (rest : list string) (visited : gset string) :
  Inv (node :: rest) visited -> node ∈ visited -> Inv rest visited.
Proof.
  intros [B1 B2 B3 B4] Hnode. split.
  - intros x Hx. apply B1, elem_of_cons. auto.
  - intros u v w Hu Hin. destruct (B2 u v w Hu Hin) as [Hv|Hv]; [auto|].
    apply elem_of_cons in Hv as [->|Hv]; auto.
  - destruct B3 as [Hs|Hs]; [auto|]. apply elem_of_cons in Hs as [->|Hs]; auto.
  - assumption.
Qed.

Lemma bfs_inv_fresh (node : string) (rest : list string) (visited : gset string) :
  Inv (node :: rest) visited -> node ∉ visited -> node <> goal ->
  Inv (rest ++ filter (fun n => n ∉ {[node]} ∪ visited)
                      (map fst (RoutingV2.neighbors g node)))
      ({[node]} ∪ visited).
Proof.
  intros [B1 B2 B3 B4] Hnode Hgoal.
  assert (Hpush : forall v w, In (node, v, w) es ->
                              v ∈ {[node]} ∪ visited
                              \/ v ∈ filter (fun n => n ∉ {[node]} ∪ visited)
                                            (map fst (RoutingV2.neighbors g node))).
  { intros v w Hin. destruct (decide (v ∈ {[node]} ∪ visited)) as [Hv|Hv]; [auto|].
    right. apply list_elem_of_filter. split; [assumption|].
    apply (neighbors_edges adj node v w Hnd) in Hin.
    apply list_elem_of_fmap. exists (v, w). split; [reflexivity | now apply list_elem_of_In]. }
  split.
  - intros x Hx. apply elem_of_app in Hx as [Hx|Hx]; [apply B1, elem_of_cons; auto|].
    apply list_elem_of_filter in Hx as [_ Hx].
    apply list_elem_of_fmap in Hx as ([y w] & -> & Hyw). apply list_elem_of_In in Hyw.
    apply neighbors_are_edges in Hyw.
    destruct (B1 node ltac:(apply elem_of_cons; auto)) as [p Hp].
    exists (p ++ [(node, y, w)]). exact (is_walk_snoc es start p (node, y, w) Hp Hyw).
  - intros u v w Hu Hin. rewrite elem_of_app.
    apply elem_of_union in Hu as [Hu|Hu].
    + apply elem_of_singleton in Hu. subst u. destruct (Hpush v w Hin); auto.
    + destruct (B2 u v w Hu Hin) as [Hv|Hv]; [left; set_solver|].
      apply elem_of_cons in Hv as [->|Hv]; [left; set_solver | auto].
  - destruct B3 as [Hs|Hs]; [left; set_solver|].
    apply elem_of_cons in Hs as [->|Hs]; [left; set_solver|].
    right. apply elem_of_app. auto.
  - set_solver.
Qed.

(** With the queue empty, every node in reach of [start] has been visited. *)
Lemma bfs_exhausted (visited : gset string) (p : list edge) (v : string) :
  Inv [] visited -> is_walk es start p v -> v ∈ visited.
Proof.
  intros [B1 B2 B3 B4]. revert v. induction p as [|e p IH] using rev_ind; intros v Hp.
  - simpl in Hp. subst v. destruct B3 as [Hs|Hs]; [assumption | inversion Hs].
  - apply is_walk_last in Hp as (Hp & Hin & Ht). subst v.
    destruct e as [[s t] w]. specialize (IH s Hp).
    destruct (B2 s t w IH Hin) as [Ht|Ht]; [assumption | inversion Ht].
Qed.

Lemma bfs_correct (fuel : nat) (queue : list string) (visited : gset string) :
  Inv queue visited ->
  (length queue + pending visited es < fuel)%nat ->
  exists b, RoutingV2.bfs fuel g goal queue visited = Some b
            /\ (b = true <-> reachable es start goal).
Proof.
  revert queue visited. induction fuel as [|fuel IH]; intros queue visited HI Hfuel; [lia|].
  cbn [RoutingV2.bfs]. destruct queue as [|node rest].
  - exists false. split; [reflexivity|]. split; [discriminate|].
    intros [p Hp]. exfalso. apply (bfs_goal _ _ _ _ _ HI).
    exact (bfs_exhausted visited p goal HI Hp).
  - destruct (String.eqb_spec node goal) as [->|Hne].
    + exists true. split; [reflexivity|]. split; [|reflexivity]. intros _.
      apply (bfs_queue _ _ _ _ _ HI). apply elem_of_cons. auto.
    + case_bool_decide as Hnode.
      * apply IH; [now apply (bfs_inv_stale node) | simpl in Hfuel; lia].
      * apply IH; [now apply bfs_inv_fresh|].
        rewrite length_app.
        pose proof (length_filter (fun n => n ∉ {[node]} ∪ visited)
                      (map fst (RoutingV2.neighbors g node))) as Hlen.
        rewrite length_map in Hlen.
        pose proof (pending_visit adj visited node Hnode) as Hpend.
        change (Graph.neighbors adj node) with (RoutingV2.neighbors g node) in Hpend.
        simpl in Hfuel. lia.
Qed.

End Reachability.

(** X26. [_is_reachable] decides reachability: on a graph whose adjacency
    structure stores no node twice, the breadth-first search comes to an
    end (within one queue pop per edge, and two more) and returns [True]
    exactly when some walk leads from [start] to [goal]. *)
Theorem v2_is_reachable_decides (g : RoutingV2.Graph) (start goal : string) :
  NoDup (RoutingV2.nodes g) ->
  exists b, RoutingV2._is_reachable g start goal = Some b
            /\ (b = true <-> reachable (Graph.edges (RoutingV2._adj g)) start goal).
Proof.
  intros Hnd. unfold RoutingV2._is_reachable.
  destruct (String.eqb_spec start goal) as [->|Hne].
  - exists true. split; [reflexivity|]. split; [|reflexivity]. intros _. now exists [].
  - apply bfs_correct; [assumption | now apply bfs_inv_init|].
    simpl. pose proof (pending_le_length ∅ (Graph.edges (RoutingV2._adj g))). lia.
Qed.

Lemma v2_is_reachable_decides_witness :
  let g := RoutingV2.make
             [ {| RoutingV2.source := Some "A"; RoutingV2.target := Some "B";
                  RoutingV2.weight := Some 5 |};
               {| RoutingV2.source := Some "C"; RoutingV2.target := Some "A";
                  RoutingV2.weight := None |} ] in
  exists b, RoutingV2._is_reachable g "B" "C" = Some b
            /\ (b = true <-> reachable (Graph.edges (RoutingV2._adj g)) "B" "C").
Proof.
  apply (v2_is_reachable_decides
           (RoutingV2.make
              [ {| RoutingV2.source := Some "A"; RoutingV2.target := Some "B";
                   RoutingV2.weight := Some 5 |};
                {| RoutingV2.source := Some "C"; RoutingV2.target := Some "A";
                   RoutingV2.weight := None |} ]) "B" "C").
  apply (proj1 (bool_decide_eq_true _)). vm_compute. reflexivity.
Defined.

(** ** [routing_v2]: the negative-cycle check *)

Section NegativeCycleCheck.

Import BellmanFord.

Variable g : RoutingV2.Graph.
Hypothesis Hwf : wf_graph (RoutingV2._adj g).

Local Abbreviation adj := (RoutingV2._adj g).
Local Abbreviation es := (Graph.edges (RoutingV2._adj g)).

(** The loop over the neighbours of [u] is the relaxation of the edges out of [u]. *)
Lemma relax_neighbours (u : string) (nbs : list (string * Z)) (dist : dist_map)
      (prev : prev_map) (upd : bool) :
  fold_left (fun d vw =>
               if ext_ltb (ext_add (RoutingV2.at_ d u) (snd vw)) (RoutingV2.at_ d (fst vw))
               then <[fst vw := ext_add (RoutingV2.at_ d u) (snd vw)]> d else d) nbs dist
  = fst (fst (fold_left relax_edge (map (fun tw => (u, fst tw, snd tw)) nbs)
                        (dist, prev, upd))).
Proof.
  revert dist prev upd. induction nbs as [|[v w] nbs IH]; intros dist prev upd; [reflexivity|].
  cbn [fold_left map fst snd]. rewrite relax_edge_eq.
  change (relaxable dist (u, v, w))
    with (ext_ltb (ext_add (RoutingV2.at_ dist u) w) (RoutingV2.at_ dist v)).
  destruct (ext_ltb (ext_add (RoutingV2.at_ dist u) w) (RoutingV2.at_ dist v)); apply IH.
Qed.

(** Edges out of a node at infinite distance relax nothing. *)
Lemma relax_unreached (u : string) (nbs : list (string * Z)) (dist : dist_map)
      (prev : prev_map) (upd : bool) :
  at_ dist u = Inf ->
  fold_left relax_edge (map (fun tw => (u, fst tw, snd tw)) nbs) (dist, prev, upd)
  = (dist, prev, upd).
Proof.
  intros Hu. induction nbs as [|[v w] nbs IH]; [reflexivity|].
  cbn [fold_left map fst snd]. rewrite relax_edge_eq.
  unfold relaxable. rewrite Hu. exact IH.
Qed.

Lemma relax_from_edges (u : string) (dist : dist_map) (prev : prev_map) (upd : bool) :
  RoutingV2.relax_from g dist u
  = fst (fst (fold_left relax_edge
                        (map (fun tw => (u, fst tw, snd tw)) (RoutingV2.neighbors g u))
                        (dist, prev, upd))).
Proof.
  unfold RoutingV2.relax_from. destruct (RoutingV2.at_ dist u) eqn:Hu.
  - apply relax_neighbours.
  - now rewrite relax_unreached.
Qed.

(** One sweep over the nodes is one Bellman-Ford pass over the edges. *)
Lemma relax_sweep (l : list (string * list (string * Z))) (dist : dist_map)
      (prev : prev_map) (upd : bool) :
  (forall sn, In sn l -> RoutingV2.neighbors g (fst sn) = snd sn) ->
  fold_left (RoutingV2.relax_from g) (map fst l) dist
  = fst (fst (fold_left relax_edge (Graph.edges l) (dist, prev, upd))).
Proof.
  revert dist prev upd. induction l as [|[u nbs] l IH]; intros dist prev upd Hl; [reflexivity|].
  unfold Graph.edges. cbn [flat_map map fold_left fst snd].
  rewrite fold_left_app.
  rewrite (relax_from_edges u dist prev upd).
  pose proof (Hl (u, nbs) (or_introl eq_refl)) as Hn. cbn [fst snd] in Hn. rewrite Hn.
  destruct (fold_left relax_edge (map (fun tw => (u, fst tw, snd tw)) nbs) (dist, prev, upd))
    as [[dist1 prev1] upd1].
  cbn [fst]. apply IH. intros sn Hsn. apply Hl. now right.
Qed.

Lemma neighbors_stored (sn : string * list (string * Z)) :
  In sn adj -> RoutingV2.neighbors g (fst sn) = snd sn.
Proof.
  intros Hin. destruct sn as [u nbs]. cbn [fst snd]. unfold RoutingV2.neighbors.
  rewrite (In_get adj u nbs (proj1 Hwf) Hin). reflexivity.
Qed.

Lemma relax_sweep_pass (dist : dist_map) (prev : prev_map) :
  fold_left (RoutingV2.relax_from g) (RoutingV2.nodes g) dist
  = fst (fst (relax_pass es dist prev)).
Proof. apply relax_sweep. exact neighbors_stored. Qed.

Lemma iter_fixed {T} (f : T -> T) (x : T) (k : nat) : f x = x -> Nat.iter k f x = x.
Proof. intros Hx. induction k as [|k IH]; [reflexivity|]. simpl. now rewrite IH. Qed.

(** The sweeps without early exit end where the loop with [break] ends. *)
Lemma relax_sweeps_loop (k : nat) (dist : dist_map) (prev : prev_map) :
  Nat.iter k (fun d => fold_left (RoutingV2.relax_from g) (RoutingV2.nodes g) d) dist
  = fst (relax_loop k es dist prev).
Proof.
  revert dist prev. induction k as [|k IH]; intros dist prev; [reflexivity|].
  rewrite Nat.iter_succ_r. cbn [relax_loop].
  rewrite (relax_sweep_pass dist prev).
  destruct (relax_pass es dist prev) as [[dist' prev'] updated] eqn:Hpass.
  cbn [fst]. destruct updated; [apply IH|].
  apply relax_fold_quiet in Hpass as (-> & _ & _ & Hall).
  cbn [fst]. apply iter_fixed. rewrite (relax_sweep_pass dist prev).
  destruct (relax_pass es dist prev) as [[dist2 prev2] updated] eqn:Hpass. cbn [fst].
  unfold relax_pass in Hpass.
  assert (Hsame : forall l st, (forall e, In e l -> relaxable (fst (fst st)) e = false) ->
                               fold_left relax_edge l st = st).
  { clear. induction l as [|[[s t] w] l IHl]; intros [[d p] u] Hl; [reflexivity|].
    pose proof (Hl (s, t, w) (or_introl eq_refl)) as Hq. cbn [fst] in Hq.
    cbn [fold_left]. rewrite relax_edge_eq, Hq.
    apply IHl. intros e He. apply Hl. now right. }
  rewrite (Hsame es (dist, prev, false) Hall) in Hpass. now inversion Hpass.
Qed.

Lemma scan_neighbours (u : string) (nbs : list (string * Z)) (dist : dist_map) :
  existsb (relaxable dist) (map (fun tw => (u, fst tw, snd tw)) nbs)
  = match RoutingV2.at_ dist u with
    | Inf => false
    | Fin _ =>
        existsb (fun vw => ext_ltb (ext_add (RoutingV2.at_ dist u) (snd vw))
                                   (RoutingV2.at_ dist (fst vw))) nbs
    end.
Proof.
  induction nbs as [|[v w] nbs IH]; [now destruct (RoutingV2.at_ dist u)|].
  cbn [map existsb fst snd]. rewrite IH.
  change (relaxable dist (u, v, w))
    with (ext_ltb (ext_add (RoutingV2.at_ dist u) w) (RoutingV2.at_ dist v)).
  destruct (RoutingV2.at_ dist u); reflexivity.
Qed.

(** The final scan finds an edge that can still be relaxed, if there is one. *)
Lemma scan_relaxable (l : list (string * list (string * Z))) (dist : dist_map) :
  (forall sn, In sn l -> RoutingV2.neighbors g (fst sn) = snd sn) ->
  existsb (fun u =>
             match RoutingV2.at_ dist u with
             | Inf => false
             | Fin _ =>
                 existsb (fun vw => ext_ltb (ext_add (RoutingV2.at_ dist u) (snd vw))
                                            (RoutingV2.at_ dist (fst vw)))
                         (RoutingV2.neighbors g u)
             end) (map fst l)
  = existsb (relaxable dist) (Graph.edges l).
Proof.
  intros Hl. induction l as [|[u nbs] l IH]; [reflexivity|].
  unfold Graph.edges. cbn [flat_map map existsb fst snd]. rewrite existsb_app.
  pose proof (Hl (u, nbs) (or_introl eq_refl)) as Hn. cbn [fst snd] in Hn. rewrite Hn.
  rewrite scan_neighbours.
  f_equal. apply IH. intros sn Hsn. apply Hl. now right.
Qed.

(** What [_has_negative_cycle] computes, in terms of Bellman-Ford from the
    first node. *)
Lemma has_negative_cycle_scan (first : string) (rest : list string) :
  RoutingV2.nodes g = first :: rest ->
  RoutingV2._has_negative_cycle g
  = existsb (relaxable (fst (relax_loop (length (Graph.nodes adj) - 1) es
                                        (init_dist (Graph.nodes adj) first)
                                        (init_prev (Graph.nodes adj)))))
            es.
Proof.
  intros Hns. unfold RoutingV2._has_negative_cycle. rewrite Hns. rewrite <- Hns.
  rewrite <- (relax_sweeps_loop _ _ (init_prev (Graph.nodes adj))).
  apply (scan_relaxable adj). exact neighbors_stored.
Qed.

Lemma has_negative_cycle_found (first : string) (rest : list string) :
  RoutingV2.nodes g = first :: rest ->
  negative_cycle_reachable es first -> RoutingV2._has_negative_cycle g = true.
Proof.
  intros Hns Hcyc. rewrite (has_negative_cycle_scan first rest Hns).
  destruct (start_finite_loop es (Graph.nodes adj) first (length (Graph.nodes adj) - 1))
    as [a Ha].
  destruct (existsb _ es) eqn:Hscan; [reflexivity|]. exfalso.
  apply (negative_cycle_unsettled es first _ a Hcyc Ha).
  intros e He. destruct (relaxable _ e) eqn:Hrel; [|reflexivity].
  rewrite <- Hscan. symmetry. apply existsb_exists. eauto.
Qed.

Lemma has_negative_cycle_none (first : string) (rest : list string) :
  RoutingV2.nodes g = first :: rest ->
  ~ negative_cycle_reachable es first -> RoutingV2._has_negative_cycle g = false.
Proof.
  intros Hns Hnc. rewrite (has_negative_cycle_scan first rest Hns).
  assert (Hfirst : first ∈ Graph.nodes adj).
  { change (Graph.nodes adj) with (RoutingV2.nodes g). rewrite Hns. apply elem_of_cons. auto. }
  pose proof (relax_loop_settled_reachable adj Hwf first Hfirst Hnc) as Hset.
  destruct (existsb _ es) eqn:Hscan; [|reflexivity].
  apply existsb_exists in Hscan as (e & He & Hrel). now rewrite (Hset e He) in Hrel.
Qed.

End NegativeCycleCheck.

(** With exact integer costs. [_has_negative_cycle] runs Bellman-Ford from the first node of the
    graph only: it answers [True] when a cycle of negative total weight can
    be reached from that node and [False] when none can, so a negative
    cycle out of reach of the first node goes unreported. *)
Lemma exact_v2_negative_cycle_from_first_node (edge_list : list RoutingV2.Edge)
        (first : string) (rest : list string) :
  let g := RoutingV2.make edge_list in
  RoutingV2.nodes g = first :: rest ->
  (negative_cycle_reachable (Graph.edges (RoutingV2._adj g)) first ->
   RoutingV2._has_negative_cycle g = true)
  /\ (~ negative_cycle_reachable (Graph.edges (RoutingV2._adj g)) first ->
      RoutingV2._has_negative_cycle g = false).
Proof.
  intros g Hns.
  assert (Hwf : wf_graph (RoutingV2._adj g)).
  { unfold g, RoutingV2.make. cbn [RoutingV2._adj]. rewrite v2_adjacency.
    apply from_edge_list_wf. }
  split.
  - exact (has_negative_cycle_found g Hwf first rest Hns).
  - exact (has_negative_cycle_none g Hwf first rest Hns).
Qed.

(** ** [routing_v2]: replay from the result cache *)

Section ReplayV2.

Variable sha256_hexdigest : string -> string.
Variable json_dumps : list RoutingV2.Edge -> string.
Variable _compute_with_retry :
  RoutingV2.Graph -> string -> string -> string -> RoutingV2.RoutingConfig ->
  option (list string * Z * string).

Local Abbreviation compute_shortest_path :=
  (RoutingV2.compute_shortest_path sha256_hexdigest json_dumps _compute_with_retry).
Local Abbreviation key := (RoutingV2._get_cache_key sha256_hexdigest json_dumps).

Lemma cached_result_config (now : Z) (s : RoutingV2.RoutingService) (g : RoutingV2.Graph)
      (start goal : string) :
  RoutingV2.config
    (snd (RoutingV2._get_cached_result sha256_hexdigest json_dumps now s g start goal))
  = RoutingV2.config s.
Proof.
  unfold RoutingV2._get_cached_result.
  destruct (RoutingV2.cache s !! _); [|reflexivity].
  destruct (_ <? _); reflexivity.
Qed.

(** Every result but the catch-all [INTERNAL_ERROR] is in the cache when
    the call returns, stamped with the time of the call. *)
Lemma uncached_result_is_stored (now : Z) (s s1 : RoutingV2.RoutingService)
      (g : RoutingV2.Graph) (start goal request_id : string)
      (cfg : RoutingV2.RoutingConfig) (r1 : RoutingV2.RoutingResult) :
  RoutingV2.compute_uncached sha256_hexdigest json_dumps _compute_with_retry
    now s g start goal request_id cfg = Some (r1, s1) ->
  RoutingV2.error_code r1 <> Some "INTERNAL_ERROR" ->
  RoutingV2.cache s1 !! key g start goal = Some r1
  /\ RoutingV2.cache_access_times s1 !! key g start goal = Some now
  /\ RoutingV2.config s1 = RoutingV2.config s.
Proof.
  unfold RoutingV2.compute_uncached. intros Hcall Hcode.
  destruct (RoutingV2._validate_graph g start goal) as [[[] errors]|]; [| |discriminate].
  - destruct (_compute_with_retry _ _ _ _ _) as [[[p c] algo_used]|].
    + inversion Hcall; subst. cbn. rewrite !lookup_insert_eq. auto.
    + inversion Hcall; subst. now contradict Hcode.
  - inversion Hcall; subst. cbn. rewrite !lookup_insert_eq. auto.
Qed.

Lemma result_is_stored (now : Z) (s s1 : RoutingV2.RoutingService)
      (g : RoutingV2.Graph) (start goal request_id : string)
      (cfg : RoutingV2.RoutingConfig) (r1 : RoutingV2.RoutingResult) :
  compute_shortest_path now s g start goal request_id cfg = Some (r1, s1) ->
  RoutingV2.error_code r1 <> Some "INTERNAL_ERROR" ->
  RoutingV2.cache s1 !! key g start goal = Some r1
  /\ RoutingV2.cache_access_times s1 !! key g start goal = Some now
  /\ RoutingV2.config s1 = RoutingV2.config s.
Proof.
  unfold RoutingV2.compute_shortest_path. intros Hcall Hcode.
  destruct (RoutingV2.cache_enabled cfg);
    [|exact (uncached_result_is_stored _ _ _ _ _ _ _ _ _ Hcall Hcode)].
  pose proof (cached_result_config now s g start goal) as Hcfg.
  destruct (RoutingV2._get_cached_result _ _ now s g start goal) as [[cached|] s0] eqn:Hget.
  - inversion Hcall; subst. cbn. rewrite lookup_insert_eq. split; [reflexivity|].
    split; [|exact Hcfg].
    unfold RoutingV2._get_cached_result in Hget.
    destruct (RoutingV2.cache s !! _); [|discriminate].
    destruct (_ <? _); [|discriminate].
    inversion Hget; subst. cbn. apply lookup_insert_eq.
  - cbn [snd] in Hcfg. rewrite <- Hcfg.
    exact (uncached_result_is_stored _ _ _ _ _ _ _ _ _ Hcall Hcode).
Qed.

Lemma stored_result_is_replayed (now now' : Z) (s1 : RoutingV2.RoutingService)
      (g : RoutingV2.Graph) (start goal request_id : string)
      (cfg : RoutingV2.RoutingConfig) (r1 : RoutingV2.RoutingResult) :
  RoutingV2.cache s1 !! key g start goal = Some r1 ->
  RoutingV2.cache_access_times s1 !! key g start goal = Some now ->
  RoutingV2.cache_enabled cfg = true ->
  now' - now < RoutingV2.cache_ttl_sec (RoutingV2.config s1) ->
  exists s2, compute_shortest_path now' s1 g start goal request_id cfg
             = Some (RoutingV2.mark_hit r1, s2)
             /\ RoutingV2.cache s2 !! key g start goal = Some (RoutingV2.mark_hit r1)
             /\ RoutingV2.cache_access_times s2 !! key g start goal = Some now'
             /\ RoutingV2.config s2 = RoutingV2.config s1.
Proof.
  intros Hc Ht Hen Hfresh. unfold RoutingV2.compute_shortest_path. rewrite Hen.
  unfold RoutingV2._get_cached_result. rewrite Hc, Ht.
  change (default 0 (Some now)) with now.
  rewrite (proj2 (Z.ltb_lt _ _) Hfresh).
  eexists. split; [reflexivity|]. cbn. rewrite !lookup_insert_eq. auto.
Qed.

End ReplayV2.

(** X28. [routing_v2] replays results from its cache. Whatever a call of
    [compute_shortest_path] returns, other than the catch-all
    [INTERNAL_ERROR], a later call for the same graph, start and goal with
    caching enabled, made before [cache_ttl_sec] has passed, returns that
    same result marked as a cache hit: validation errors are replayed like
    successes, the result keeps the request id of the call that produced
    it, the request id and algorithm hint of the later call play no part,
    and the first call stores its result even when its own configuration
    has caching disabled. *)
Theorem v2_result_is_replayed
        (sha256_hexdigest : string -> string) (json_dumps : list RoutingV2.Edge -> string)
        (_compute_with_retry :
           RoutingV2.Graph -> string -> string -> string -> RoutingV2.RoutingConfig ->
           option (list string * Z * string))
        (now now' : Z) (s s1 : RoutingV2.RoutingService) (g : RoutingV2.Graph)
        (start goal id1 id2 : string) (cfg1 cfg2 : RoutingV2.RoutingConfig)
        (r1 : RoutingV2.RoutingResult) :
  RoutingV2.compute_shortest_path sha256_hexdigest json_dumps _compute_with_retry
    now s g start goal id1 cfg1 = Some (r1, s1) ->
  RoutingV2.error_code r1 <> Some "INTERNAL_ERROR" ->
  RoutingV2.cache_enabled cfg2 = true ->
  now' - now < RoutingV2.cache_ttl_sec (RoutingV2.config s) ->
  exists s2,
    RoutingV2.compute_shortest_path sha256_hexdigest json_dumps _compute_with_retry
      now' s1 g start goal id2 cfg2 = Some (RoutingV2.mark_hit r1, s2)
    /\ RoutingV2.request_id (RoutingV2.mark_hit r1) = RoutingV2.request_id r1
    /\ RoutingV2.cache_hit (RoutingV2.mark_hit r1) = true.
Proof.
  intros Hcall Hcode Hen Hfresh.
  destruct (result_is_stored _ _ _ _ _ _ _ _ _ _ _ _ Hcall Hcode) as (Hc & Ht & Hcfg).
  rewrite <- Hcfg in Hfresh.
  destruct (stored_result_is_replayed sha256_hexdigest json_dumps _compute_with_retry
              now now' s1 g start goal id2 cfg2 r1 Hc Ht Hen Hfresh) as (s2 & Hcall2 & _).
  exists s2. split; [exact Hcall2|]. split; reflexivity.
Qed.

Lemma v2_result_is_replayed_witness :
  let unreachable := RoutingV2.make
                       [ {| RoutingV2.source := Some "A"; RoutingV2.target := Some "B";
                            RoutingV2.weight := Some 5 |};
                         {| RoutingV2.source := Some "C"; RoutingV2.target := Some "A";
                            RoutingV2.weight := None |} ] in
  let retry := fun (_ : RoutingV2.Graph) (_ _ _ : string) (_ : RoutingV2.RoutingConfig) =>
                 @None (list string * Z * string) in
  exists r1 s1 s2,
    RoutingV2.compute_shortest_path (fun s => s) (fun _ => "") retry
      0 new_service_v2 unreachable "B" "C" "first" default_config_v2 = Some (r1, s1)
    /\ RoutingV2.error_code r1 = Some "NO_PATH_FOUND"
    /\ RoutingV2.compute_shortest_path (fun s => s) (fun _ => "") retry
         10 s1 unreachable "B" "C" "second" default_config_v2
       = Some (RoutingV2.mark_hit r1, s2)
    /\ RoutingV2.request_id (RoutingV2.mark_hit r1) = "first".
Proof.
  intros unreachable retry.
  destruct (RoutingV2.compute_shortest_path (fun s => s) (fun _ => "") retry
              0 new_service_v2 unreachable "B" "C" "first" default_config_v2)
    as [[r1 s1]|] eqn:Hcall; [|vm_compute in Hcall; discriminate].
  assert (Hcode : RoutingV2.error_code r1 = Some "NO_PATH_FOUND").
  { pose proof Hcall as Hrun. vm_compute in Hrun. inversion Hrun. reflexivity. }
  assert (Hid : RoutingV2.request_id r1 = "first").
  { pose proof Hcall as Hrun. vm_compute in Hrun. inversion Hrun. reflexivity. }
  destruct (v2_result_is_replayed (fun s => s) (fun _ => "") retry 0 10 new_service_v2 s1
              unreachable "B" "C" "first" "second" default_config_v2 default_config_v2 r1
              Hcall ltac:(rewrite Hcode; discriminate) eq_refl ltac:(vm_compute; reflexivity))
    as (s2 & Hcall2 & Hreq & _).
  exists r1, s1, s2. split; [reflexivity|]. split; [exact Hcode|].
  split; [exact Hcall2|]. now rewrite Hreq.
Defined.


(** ** [oswe-mini-secondary]: the second Dijkstra *)

(** Relaxing the neighbours of a node leaves the finalised nodes alone. *)
Lemma relax_keeps_finalised (x : string) (c : Z) (visited : gset string)
      (nbs : list (string * Z)) (st : Dijkstra.dist_map * Dijkstra.prev_map * Dijkstra.heap)
      (y : string) :
  y ∈ visited ->
  fst (fst (fold_left (Dijkstra.relax_neighbor x c visited) nbs st)) !! y = fst (fst st) !! y.
Proof.
  intros Hy. revert st. induction nbs as [|[z w] nbs IH]; intros [[dist prev] h]; [reflexivity|].
  cbn [fold_left]. rewrite IH. unfold Dijkstra.relax_neighbor.
  case_bool_decide as Hz; [reflexivity|].
  destruct (match dist !! z with Some d => c + w <? d | None => true end); [|reflexivity].
  cbn [fst]. apply lookup_insert_ne. intros ->. contradiction.
Qed.

(** The second Dijkstra does not skip finalised neighbours, but it never
    finds a better cost for one. *)
Lemma relax_without_skip (x : string) (c : Z) (visited : gset string)
      (nbs : list (string * Z)) (dist : Dijkstra.dist_map) (prev : Dijkstra.prev_map)
      (h : Dijkstra.heap) :
  (forall y w, In (y, w) nbs -> y ∈ visited -> exists d, dist !! y = Some d /\ d <= c + w) ->
  fold_left (RoutingService.relax_neighbor x c) nbs (dist, prev, h)
  = fold_left (Dijkstra.relax_neighbor x c visited) nbs (dist, prev, h).
Proof.
  revert dist prev h. induction nbs as [|[z w] nbs IH]; intros dist prev h Hfin; [reflexivity|].
  cbn [fold_left]. unfold RoutingService.relax_neighbor at 2, Dijkstra.relax_neighbor at 2.
  case_bool_decide as Hz.
  - destruct (Hfin z w (or_introl eq_refl) Hz) as (d & Hd & Hle). rewrite Hd.
    destruct (Z.ltb_spec (c + w) d); [lia|].
    apply IH. intros y w' Hin. apply Hfin. now right.
  - destruct (match dist !! z with Some d => c + w <? d | None => true end).
    + apply IH. intros y w' Hin Hy. rewrite lookup_insert_ne by (intros ->; contradiction).
      apply Hfin; [now right | assumption].
    + apply IH. intros y w' Hin. apply Hfin. now right.
Qed.

Section SecondDijkstra.

Variable g : Graph.t.
Hypothesis Hwf : wf_graph g.
Hypothesis Hnn : nonnegative (Graph.edges g).
Variables start goal : string.
Hypothesis Hstart : start ∈ Graph.nodes g.

Local Abbreviation es := (Graph.edges g).
Local Abbreviation Inv := (dijkstra_inv g start goal).
Local Abbreviation Links := (dijkstra_links g start).
Local Abbreviation Final := (finalised (Graph.edges g) start).

Lemma finalised_fresh dist prev h h1 visited (c : Z) (x : string) dist' prev' h' :
  Inv dist prev h visited -> Links dist prev h visited -> Final dist visited ->
  Dijkstra.heappop h = Some ((c, x), h1) -> x ∉ visited ->
  fold_left (Dijkstra.relax_neighbor x c ({[x]} ∪ visited)) (Graph.neighbors g x)
            (dist, prev, h1) = (dist', prev', h') ->
  Final dist' ({[x]} ∪ visited).
Proof.
  intros HI HL HF Hpop Hx Hfold y Hy.
  pose proof (relax_keeps_finalised x c ({[x]} ∪ visited) (Graph.neighbors g x)
                (dist, prev, h1) y Hy) as Hkeep.
  rewrite Hfold in Hkeep. cbn [fst] in Hkeep. rewrite Hkeep.
  apply elem_of_union in Hy as [Hy|Hy].
  - apply elem_of_singleton in Hy. subst y. exists c. split.
    + exact (popped_cost_on_record g start _ _ _ _ _ _ _ HL
               (inv_dist_heap _ _ _ _ _ _ _ HI) Hpop Hx).
    + exact (proj2 (popped_cost_shortest g Hnn start goal _ _ _ _ _ _ _ HI Hpop Hx)).
  - exact (HF y Hy).
Qed.

(** On the states Dijkstra goes through, the two loops do the same. *)
Lemma second_loop_agrees (fuel : nat) dist prev h visited :
  Inv dist prev h visited -> Links dist prev h visited -> Final dist visited ->
  RoutingService.loop fuel g goal dist prev h visited
  = option_map second_outcome (Dijkstra.loop fuel g start goal dist prev h visited).
Proof.
  revert dist prev h visited.
  induction fuel as [|fuel IH]; intros dist prev h visited HI HL HF; [reflexivity|].
  cbn [RoutingService.loop Dijkstra.loop].
  destruct (Dijkstra.heappop h) as [[[c x] h1]|] eqn:Hpop; [|reflexivity].
  case_bool_decide as Hx.
  - apply IH; [eapply inv_stale | eapply links_stale | ]; eassumption.
  - destruct (String.eqb_spec x goal) as [->|Hne].
    + now destruct (BellmanFord._reconstruct_path _ prev goal).
    + pose proof (popped_cost_on_record g start _ _ _ _ _ _ _ HL
                    (inv_dist_heap _ _ _ _ _ _ _ HI) Hpop Hx) as Hrec.
      rewrite Hrec, Z.ltb_irrefl.
      destruct (popped_cost_shortest g Hnn start goal _ _ _ _ _ _ _ HI Hpop Hx)
        as [(px & Hpx & Hwx) _].
      rewrite (relax_without_skip x c ({[x]} ∪ visited)).
      * destruct (fold_left _ _ _) as [[dist' prev'] h'] eqn:Hfold.
        apply IH.
        -- eapply inv_fresh; eassumption.
        -- eapply links_fresh; try eassumption. exact (inv_dist_heap _ _ _ _ _ _ _ HI).
        -- eapply finalised_fresh; eassumption.
      * intros y w Hin Hy. apply neighbors_are_edges in Hin.
        apply elem_of_union in Hy as [Hy|Hy].
        -- apply elem_of_singleton in Hy. subst y. exists c. split; [assumption|].
           pose proof (Hnn _ Hin) as Hw. unfold wgt in Hw. simpl in Hw. lia.
        -- destruct (HF y Hy) as (d & Hd & Hmin). exists d. split; [assumption|].
           specialize (Hmin (px ++ [(x, y, w)])
                            (is_walk_snoc es start px (x, y, w) Hpx Hin)).
           rewrite weight_app, Hwx in Hmin. simpl in Hmin. unfold wgt in Hmin.
           simpl in Hmin. lia.
Qed.

Lemma second_dijkstra_agrees :
  goal ∈ Graph.nodes g ->
  RoutingService.dijkstra_shortest_path g start goal
  = option_map second_outcome (Dijkstra.compute g start goal).
Proof.
  intros Hgoal. unfold RoutingService.dijkstra_shortest_path, Dijkstra.compute.
  rewrite has_negative_weight_agrees.
  rewrite (proj2 (nonnegative_no_negative_weights g) Hnn).
  rewrite validate_nodes_ok by assumption.
  apply second_loop_agrees.
  - now apply inv_init.
  - apply links_init.
  - intros y Hy. set_solver.
Qed.

End SecondDijkstra.

(** With exact integer costs. The second Dijkstra, [routing_service.dijkstra_shortest_path], is
    right as well: on a graph built by [add_edge] that has no negative
    weight and contains [start] and [goal], it returns a path along the
    edges from [start] to [goal] with its cost, the least weight of any
    walk between them, when [goal] can be reached, and raises
    [LookupError] when it cannot. *)
Lemma exact_second_dijkstra_correct (g : Graph.t) (start goal : string) :
  wf_graph g -> Graph.has_negative_weights g = false ->
  start ∈ Graph.nodes g -> goal ∈ Graph.nodes g ->
  (reachable (Graph.edges g) start goal ->
   exists p d q,
     RoutingService.dijkstra_shortest_path g start goal = Some (inl (p, d))
     /\ is_walk (Graph.edges g) start q goal /\ p = walk_nodes start q /\ weight q = d
     /\ forall q', is_walk (Graph.edges g) start q' goal -> d <= weight q')
  /\ (~ reachable (Graph.edges g) start goal ->
      RoutingService.dijkstra_shortest_path g start goal
      = Some (inr RoutingService.LookupError_no_path)).
Proof.
  intros Hwf Hneg Hs Hg.
  assert (Hnn : nonnegative (Graph.edges g)) by now apply nonnegative_no_negative_weights.
  rewrite (second_dijkstra_agrees g Hwf Hnn start goal Hs Hg).
  split.
  - intros Hreach.
    destruct (dijkstra_shortest g start goal Hwf Hnn Hs Hg Hreach) as (p & d & Hrun & _).
    destruct (dijkstra_returns_walk g start goal p d Hwf Hrun)
      as (q & Hq & Hp & Hw & _ & Hmin).
    exists p, d, q. rewrite Hrun. auto.
  - intros Hno.
    destruct (dijkstra_terminates g start goal Hwf) as [r Hr]. rewrite Hr.
    destruct r as [[p d]|e]; [|reflexivity].
    exfalso. apply Hno.
    destruct (dijkstra_returns_walk g start goal p d Hwf Hr) as (q & Hq & _). now exists q.
Qed.

(** ** [raptor-secondary]: the circuit breaker counts consecutive failures *)

Lemma report_parameters (rs : list breaker_report) (cb : RaptorBreaker.t) :
  RaptorBreaker.failure_threshold (fold_left report rs cb) = RaptorBreaker.failure_threshold cb
  /\ RaptorBreaker.reset_timeout_seconds (fold_left report rs cb)
     = RaptorBreaker.reset_timeout_seconds cb.
Proof.
  revert cb. induction rs as [|r rs IH]; intros cb; [auto|].
  cbn [fold_left]. destruct (IH (report cb r)) as [-> ->]. now destruct r.
Qed.

(** After a history that is empty or ends with a success, the breaker is
    as good as new. *)
Lemma report_reset (threshold timeout : Z) (rs : list breaker_report) :
  rs = [] \/ last rs = Some went_through ->
  fold_left report rs (RaptorBreaker.new threshold timeout) = RaptorBreaker.new threshold timeout.
Proof.
  intros [->|Hlast]; [reflexivity|].
  destruct rs as [|r rs] using rev_ind; [discriminate|].
  rewrite last_snoc in Hlast. inversion Hlast; subst r.
  rewrite fold_left_app. cbn [fold_left report].
  destruct (report_parameters rs (RaptorBreaker.new threshold timeout)) as [Hth Hto].
  unfold RaptorBreaker.on_success. rewrite Hth, Hto. reflexivity.
Qed.

Lemma report_failures (threshold timeout : Z) (times : list Z) :
  1 <= threshold ->
  fold_left report (map failed_at times) (RaptorBreaker.new threshold timeout)
  = {| RaptorBreaker.failure_threshold := threshold;
       RaptorBreaker.reset_timeout_seconds := timeout;
       RaptorBreaker.state :=
         {| RaptorBreaker.failures := Z.of_nat (length times);
            RaptorBreaker.opened_at :=
              if threshold <=? Z.of_nat (length times) then last times else None |} |}.
Proof.
  intros Hth. induction times as [|t times IH] using rev_ind.
  - unfold RaptorBreaker.new. cbn. change (Z.of_nat 0) with 0. now destruct (threshold <=? 0).
  - rewrite map_app, fold_left_app, IH. cbn [map fold_left report].
    unfold RaptorBreaker.on_failure. cbn.
    rewrite length_app, last_snoc. cbn [length].
    replace (Z.of_nat (length times + 1)) with (Z.of_nat (length times) + 1) by lia.
    destruct (Z.leb_spec threshold (Z.of_nat (length times) + 1)); [reflexivity|].
    destruct (Z.leb_spec threshold (Z.of_nat (length times))); [lia | reflexivity].
Qed.

(** X30. The raptor circuit breaker counts consecutive failures. After any
    history of reported outcomes, what matters is the run of failures
    since the last success: the counter is its length; while it is shorter
    than [failure_threshold], every request is allowed; once it has
    reached the threshold, the breaker is open since the most recent
    failure (each further failure restarts the clock) and a request is
    allowed exactly when [reset_timeout_seconds] have passed since then.
    One success closes the breaker whatever came before. *)
Theorem raptor_breaker_counts_consecutive_failures
        (threshold timeout : Z) (before : list breaker_report) (times : list Z) :
  1 <= threshold ->
  before = [] \/ last before = Some went_through ->
  let cb := fold_left report (before ++ map failed_at times)
                      (RaptorBreaker.new threshold timeout) in
  RaptorBreaker.failures (RaptorBreaker.state cb) = Z.of_nat (length times)
  /\ (Z.of_nat (length times) < threshold ->
      forall now, RaptorBreaker.allow_request now cb = true
                  /\ RaptorBreaker.is_open now cb = false)
  /\ (threshold <= Z.of_nat (length times) ->
      exists t, last times = Some t
                /\ RaptorBreaker.opened_at (RaptorBreaker.state cb) = Some t
                /\ forall now, (RaptorBreaker.allow_request now cb = true <-> timeout <= now - t)
                               /\ RaptorBreaker.is_open now cb
                                  = negb (RaptorBreaker.allow_request now cb)).
Proof.
  intros Hth Hbefore cb. subst cb.
  rewrite fold_left_app, (report_reset threshold timeout before Hbefore).
  rewrite (report_failures threshold timeout times Hth).
  unfold RaptorBreaker.allow_request, RaptorBreaker.is_open. cbn.
  split; [reflexivity|]. split.
  - intros Hlt now. destruct (Z.leb_spec threshold (Z.of_nat (length times))); [lia|]. auto.
  - intros Hge. destruct (Z.leb_spec threshold (Z.of_nat (length times))); [|lia].
    destruct times as [|t0 times] using rev_ind; [simpl in Hge; lia|].
    rewrite last_snoc. exists t0. split; [reflexivity|]. split; [reflexivity|].
    intros now. split; [apply Z.leb_le|]. now destruct (timeout <=? now - t0).
Qed.

Lemma raptor_breaker_counts_consecutive_failures_witness :
  let cb := fold_left report [failed_at 1; failed_at 2; went_through; failed_at 5; failed_at 7]
                      (RaptorBreaker.new 2 10) in
  RaptorBreaker.opened_at (RaptorBreaker.state cb) = Some 7
  /\ RaptorBreaker.allow_request 16 cb = false
  /\ RaptorBreaker.allow_request 17 cb = true.
Proof.
  intros cb.
  destruct (raptor_breaker_counts_consecutive_failures 2 10
              [failed_at 1; failed_at 2; went_through] [5; 7]
              ltac:(lia) (or_intror eq_refl)) as (_ & _ & Hopen).
  destruct (Hopen ltac:(simpl; lia)) as (t & Ht & Hat & Hallow).
  inversion Ht; subst t. fold cb in Hat, Hallow.
  split; [exact Hat|]. split.
  - destruct (RaptorBreaker.allow_request 16 cb) eqn:H16; [|reflexivity].
    apply (proj1 (Hallow 16)) in H16. lia.
  - apply (proj1 (Hallow 17)). lia.
Defined.


(** ** Double precision: integers below [2^53] are computed exactly *)

Lemma pshl_add (m : positive) (a b : nat) : pshl (pshl m a) b = pshl m (a + b).
Proof.
  unfold pshl. revert m. induction b as [|b IH]; intros m.
  - now rewrite Nat.add_0_r.
  - rewrite Nat.add_succ_r. simpl. now rewrite IH.
Qed.

Lemma pshl_Z (m : positive) (k : nat) : Zpos (pshl m k) = Zpos m * 2 ^ Z.of_nat k.
Proof.
  induction k as [|k IH].
  - simpl. lia.
  - change (pshl m (S k)) with (xO (pshl m k)).
    rewrite (Pos2Z.inj_xO (pshl m k)), IH, Nat2Z.inj_succ, Z.pow_succ_r by lia. lia.
Qed.

Lemma digits_pshl (m : positive) (k : nat) :
  Zpos (digits2_pos (pshl m k)) = Zpos (digits2_pos m) + Z.of_nat k.
Proof.
  induction k as [|k IH].
  - simpl. lia.
  - change (pshl m (S k)) with (xO (pshl m k)). cbn [digits2_pos].
    rewrite Pos2Z.inj_succ, IH. lia.
Qed.

Lemma digits_bounds (p : positive) :
  2 ^ (Zpos (digits2_pos p) - 1) <= Zpos p < 2 ^ Zpos (digits2_pos p).
Proof.
  induction p as [p IH|p IH|]; cbn [digits2_pos].
  - rewrite Pos2Z.inj_succ, (Pos2Z.inj_xI p).
    replace (Z.succ (Zpos (digits2_pos p)) - 1) with (Z.succ (Zpos (digits2_pos p) - 1)) by lia.
    rewrite !Z.pow_succ_r by lia.
    revert IH. generalize (2 ^ (Zpos (digits2_pos p) - 1)) (2 ^ Zpos (digits2_pos p)).
    lia.
  - rewrite Pos2Z.inj_succ, (Pos2Z.inj_xO p).
    replace (Z.succ (Zpos (digits2_pos p)) - 1) with (Z.succ (Zpos (digits2_pos p) - 1)) by lia.
    rewrite !Z.pow_succ_r by lia.
    revert IH. generalize (2 ^ (Zpos (digits2_pos p) - 1)) (2 ^ Zpos (digits2_pos p)). lia.
  - simpl. lia.
Qed.

Lemma pos_iter_pshl (m d : positive) : Pos.iter xO m d = pshl m (Pos.to_nat d).
Proof. unfold pshl. rewrite Pos2Nat.inj_iter. induction (Pos.to_nat d); simpl; congruence. Qed.

Lemma iter_pos_nat {A} (f : A -> A) (p : positive) (x : A) :
  iter_pos f p x = Nat.iter (Pos.to_nat p) f x.
Proof.
  revert x. induction p as [p IH|p IH|]; intros x; cbn [iter_pos].
  - rewrite !IH, Pos2Nat.inj_xI. rewrite <- Nat.iter_add.
    replace (S (2 * Pos.to_nat p)) with (Pos.to_nat p + Pos.to_nat p + 1)%nat by lia.
    rewrite (Nat.iter_add _ 1). reflexivity.
  - rewrite !IH, Pos2Nat.inj_xO. rewrite <- Nat.iter_add. f_equal. lia.
  - reflexivity.
Qed.

Lemma shl_align_spec (m : positive) (e e' : Z) :
  shl_align m e e' = if e' <? e then (pshl m (Z.to_nat (e - e')), e') else (m, e).
Proof.
  unfold shl_align. destruct (Z.ltb_spec e' e) as [Hlt|Hge].
  - destruct (e' - e) as [|d|d] eqn:Hd; try lia.
    rewrite pos_iter_pshl. do 2 f_equal. lia.
  - destruct (e' - e) as [|d|d] eqn:Hd; try lia; reflexivity.
Qed.

Lemma shr_spec (r : shr_record) (e n : Z) :
  shr r e n = if 0 <? n then (Nat.iter (Z.to_nat n) shr_1 r, e + n) else (r, e).
Proof.
  unfold shr. destruct n as [|p|p]; try reflexivity.
  simpl. now rewrite iter_pos_nat.
Qed.

Lemma shr_pshl (m : positive) (a b : nat) :
  Nat.iter a shr_1 (Build_shr_record (Zpos (pshl m (b + a))) false false)
  = Build_shr_record (Zpos (pshl m b)) false false.
Proof.
  induction a as [|a IH].
  - now rewrite Nat.add_0_r.
  - rewrite Nat.iter_succ_r. rewrite Nat.add_succ_r.
    change (pshl m (S (b + a))) with (xO (pshl m (b + a))). cbn [shr_1 orb]. exact IH.
Qed.

Lemma binary_round_core (s : bool) (m : positive) (e : Z) :
  binary_round Double.prec Double.emax s m e = round_finish s (round_core m e).
Proof.
  unfold binary_round, round_core, binary_round_aux, round_finish.
  destruct (shl_align m e _) as [mz ez]. reflexivity.
Qed.

Lemma round_core_spec (m : positive) (e : Z) :
  let F := fexp64 (Zpos (digits2_pos m) + e) in
  round_core m e
  = (if F <? e then exact_record (Zpos (pshl m (Z.to_nat (e - F))))
     else Nat.iter (Z.to_nat (F - e)) shr_1 (exact_record (Zpos m)),
     F).
Proof.
  intros F. unfold round_core. fold F. rewrite shl_align_spec.
  destruct (Z.ltb_spec F e) as [Hlt|Hge].
  - unfold shr_fexp. cbn [Zdigits2 shr_record_of_loc].
    rewrite digits_pshl, shr_spec.
    replace (Zpos (digits2_pos m) + Z.of_nat (Z.to_nat (e - F)) + F)
      with (Zpos (digits2_pos m) + e) by lia.
    fold F. rewrite Z.sub_diag. reflexivity.
  - unfold shr_fexp. cbn [Zdigits2 shr_record_of_loc]. fold F. rewrite shr_spec.
    destruct (Z.ltb_spec 0 (F - e)) as [Hpos|Hzero].
    + f_equal. lia.
    + replace (F - e) with 0 by lia. simpl. f_equal. lia.
Qed.

(** Rounding does not depend on how the number is written: [m * 2^k] at
    exponent [e - k] rounds like [m] at exponent [e]. *)
Lemma round_core_shift (m : positive) (e : Z) (k : nat) :
  round_core (pshl m k) (e - Z.of_nat k) = round_core m e.
Proof.
  rewrite !round_core_spec. cbv zeta. rewrite digits_pshl.
  replace (Zpos (digits2_pos m) + Z.of_nat k + (e - Z.of_nat k))
    with (Zpos (digits2_pos m) + e) by lia.
  set (F := fexp64 (Zpos (digits2_pos m) + e)).
  f_equal.
  destruct (Z.ltb_spec F (e - Z.of_nat k)) as [Hlt|Hge].
  - destruct (Z.ltb_spec F e) as [_|?]; [|lia].
    rewrite pshl_add. do 3 f_equal. lia.
  - destruct (Z.ltb_spec F e) as [Hlt|Hge'].
    + replace k with (Z.to_nat (e - F) + Z.to_nat (F - (e - Z.of_nat k)))%nat at 2 by lia.
      apply shr_pshl.
    + replace (Z.to_nat (F - (e - Z.of_nat k))) with (Z.to_nat (F - e) + k)%nat by lia.
      rewrite Nat.iter_add. f_equal. exact (shr_pshl m k 0).
Qed.

Lemma binary_round_shift (s : bool) (m : positive) (e : Z) (k : nat) :
  binary_round Double.prec Double.emax s (pshl m k) (e - Z.of_nat k)
  = binary_round Double.prec Double.emax s m e.
Proof. now rewrite !binary_round_core, round_core_shift. Qed.

Lemma digits_small (p : positive) : Zpos p < 2 ^ 53 -> Zpos (digits2_pos p) <= 53.
Proof.
  intros Hp. destruct (Z.le_gt_cases (Zpos (digits2_pos p)) 53) as [|Hgt]; [assumption|].
  pose proof (digits_bounds p) as [Hlo _].
  assert (2 ^ 53 <= 2 ^ (Zpos (digits2_pos p) - 1)) by (apply Z.pow_le_mono_r; lia).
  lia.
Qed.

Lemma binary_round_small (s : bool) (p : positive) :
  Zpos p < 2 ^ 53 ->
  binary_round Double.prec Double.emax s p 0
  = S754_finite s (pshl p (lead p)) (- Z.of_nat (lead p)).
Proof.
  intros Hp. pose proof (digits_small p Hp) as Hd.
  rewrite binary_round_core, round_core_spec. cbv zeta.
  assert (HF : fexp64 (Zpos (digits2_pos p) + 0) = - Z.of_nat (lead p)).
  { unfold fexp, emin, Double.prec, Double.emax, lead. lia. }
  rewrite HF.
  assert (Hrec : (if - Z.of_nat (lead p) <? 0
                  then exact_record (Zpos (pshl p (Z.to_nat (0 - - Z.of_nat (lead p)))))
                  else Nat.iter (Z.to_nat (- Z.of_nat (lead p) - 0)) shr_1
                                (exact_record (Zpos p)))
                 = exact_record (Zpos (pshl p (lead p)))).
  { destruct (Z.ltb_spec (- Z.of_nat (lead p)) 0) as [Hlt|Hge].
    - do 3 f_equal. lia.
    - replace (lead p) with O by lia. reflexivity. }
  rewrite Hrec. unfold round_finish. cbn [shr_m loc_of_shr_record round_nearest_even].
  unfold shr_fexp. cbn [Zdigits2 shr_record_of_loc]. rewrite digits_pshl, shr_spec.
  assert (HF2 : fexp64 (Zpos (digits2_pos p) + Z.of_nat (lead p) + - Z.of_nat (lead p))
                - - Z.of_nat (lead p) = 0).
  { unfold fexp, emin, Double.prec, Double.emax, lead. lia. }
  rewrite HF2. cbn [Z.ltb Z.compare shr_m].
  destruct (Z.leb_spec (- Z.of_nat (lead p)) (Double.emax - Double.prec)) as [_|Hbad];
    [reflexivity|]. unfold Double.emax, Double.prec in Hbad. lia.
Qed.

Lemma of_Z_signed (s : bool) (p : positive) :
  Zpos p < 2 ^ 53 ->
  Double.of_Z (cond_Zopp s (Zpos p)) = S754_finite s (pshl p (lead p)) (- Z.of_nat (lead p)).
Proof.
  intros Hp. unfold Double.of_Z. destruct s; cbn [cond_Zopp Z.opp binary_normalize];
    now apply binary_round_small.
Qed.

Lemma signed_cases (z : Z) :
  z = 0 \/ exists s p, z = cond_Zopp s (Zpos p) /\ Zpos p = Z.abs z.
Proof.
  destruct z as [|p|p]; [auto| |]; right.
  - exists false, p. auto.
  - exists true, p. auto.
Qed.

Lemma normalize_shift (z : Z) (k : nat) :
  binary_normalize Double.prec Double.emax (z * 2 ^ Z.of_nat k) (- Z.of_nat k) false
  = Double.of_Z z.
Proof.
  unfold Double.of_Z. destruct z as [|p|p].
  - reflexivity.
  - rewrite <- pshl_Z. cbn [binary_normalize].
    exact (binary_round_shift false p 0 k).
  - change (Zneg p) with (- Zpos p). rewrite Z.mul_opp_l, <- pshl_Z.
    cbn [Z.opp binary_normalize]. exact (binary_round_shift true p 0 k).
Qed.

Lemma cond_Zopp_mul (s : bool) (a b : Z) : cond_Zopp s (a * b) = cond_Zopp s a * b.
Proof. destruct s; simpl; lia. Qed.

(** Adding two integers below [2^53] as doubles gives the double nearest to
    their sum. *)
Lemma add_of_Z (a b : Z) :
  small a -> small b -> Double.add (Double.of_Z a) (Double.of_Z b) = Double.of_Z (a + b).
Proof.
  unfold small. intros Ha Hb.
  destruct (signed_cases a) as [->|(sa & pa & -> & Hpa)];
    destruct (signed_cases b) as [->|(sb & pb & -> & Hpb)].
  - reflexivity.
  - rewrite Z.add_0_l, of_Z_signed by lia. reflexivity.
  - rewrite Z.add_0_r, of_Z_signed by lia. reflexivity.
  - rewrite !of_Z_signed by lia. unfold Double.add. cbn [SFadd].
    set (ka := lead pa). set (kb := lead pb).
    set (k := Nat.max ka kb).
    replace (Z.min (- Z.of_nat ka) (- Z.of_nat kb)) with (- Z.of_nat k) by lia.
    rewrite !shl_align_spec.
    assert (Hma : fst (if - Z.of_nat k <? - Z.of_nat ka
                       then (pshl (pshl pa ka) (Z.to_nat (- Z.of_nat ka - - Z.of_nat k)),
                             - Z.of_nat k)
                       else (pshl pa ka, - Z.of_nat ka)) = pshl pa k).
    { destruct (Z.ltb_spec (- Z.of_nat k) (- Z.of_nat ka)); cbn [fst].
      - rewrite pshl_add. f_equal. lia.
      - f_equal. lia. }
    assert (Hmb : fst (if - Z.of_nat k <? - Z.of_nat kb
                       then (pshl (pshl pb kb) (Z.to_nat (- Z.of_nat kb - - Z.of_nat k)),
                             - Z.of_nat k)
                       else (pshl pb kb, - Z.of_nat kb)) = pshl pb k).
    { destruct (Z.ltb_spec (- Z.of_nat k) (- Z.of_nat kb)); cbn [fst].
      - rewrite pshl_add. f_equal. lia.
      - f_equal. lia. }
    rewrite Hma, Hmb, !pshl_Z, !cond_Zopp_mul, <- Z.mul_add_distr_r.
    apply normalize_shift.
Qed.

Lemma sub_of_Z (a b : Z) :
  small a -> small b -> Double.sub (Double.of_Z a) (Double.of_Z b) = Double.of_Z (a - b).
Proof.
  unfold small. intros Ha Hb.
  destruct (signed_cases a) as [->|(sa & pa & -> & Hpa)];
    destruct (signed_cases b) as [->|(sb & pb & -> & Hpb)].
  - reflexivity.
  - rewrite Z.sub_0_l, of_Z_signed by lia.
    replace (- cond_Zopp sb (Zpos pb)) with (cond_Zopp (negb sb) (Zpos pb))
      by (destruct sb; reflexivity).
    rewrite of_Z_signed by lia. reflexivity.
  - rewrite Z.sub_0_r, of_Z_signed by lia. reflexivity.
  - rewrite !of_Z_signed by lia. unfold Double.sub. cbn [SFsub].
    set (ka := lead pa). set (kb := lead pb).
    set (k := Nat.max ka kb).
    replace (Z.min (- Z.of_nat ka) (- Z.of_nat kb)) with (- Z.of_nat k) by lia.
    rewrite !shl_align_spec.
    assert (Hma : fst (if - Z.of_nat k <? - Z.of_nat ka
                       then (pshl (pshl pa ka) (Z.to_nat (- Z.of_nat ka - - Z.of_nat k)),
                             - Z.of_nat k)
                       else (pshl pa ka, - Z.of_nat ka)) = pshl pa k).
    { destruct (Z.ltb_spec (- Z.of_nat k) (- Z.of_nat ka)); cbn [fst].
      - rewrite pshl_add. f_equal. lia.
      - f_equal. lia. }
    assert (Hmb : fst (if - Z.of_nat k <? - Z.of_nat kb
                       then (pshl (pshl pb kb) (Z.to_nat (- Z.of_nat kb - - Z.of_nat k)),
                             - Z.of_nat k)
                       else (pshl pb kb, - Z.of_nat kb)) = pshl pb k).
    { destruct (Z.ltb_spec (- Z.of_nat k) (- Z.of_nat kb)); cbn [fst].
      - rewrite pshl_add. f_equal. lia.
      - f_equal. lia. }
    rewrite Hma, Hmb, !pshl_Z, !cond_Zopp_mul, <- Z.mul_sub_distr_r.
    apply normalize_shift.
Qed.

(** ** Order *)

Lemma lead_digits (p : positive) :
  Zpos p < 2 ^ 53 -> Z.of_nat (lead p) = 53 - Zpos (digits2_pos p).
Proof. intros Hp. pose proof (digits_small p Hp). unfold lead. lia. Qed.

Lemma compare_magnitude (pa pb : positive) :
  Zpos pa < 2 ^ 53 -> Zpos pb < 2 ^ 53 ->
  match - Z.of_nat (lead pa) ?= - Z.of_nat (lead pb) with
  | Lt => Lt
  | Gt => Gt
  | Eq => Pos.compare_cont Eq (pshl pa (lead pa)) (pshl pb (lead pb))
  end = (Zpos pa ?= Zpos pb).
Proof.
  intros Ha Hb. rewrite !lead_digits by assumption.
  pose proof (digits_bounds pa) as [Hla Hua]. pose proof (digits_bounds pb) as [Hlb Hub].
  destruct (Z.compare_spec (- (53 - Zpos (digits2_pos pa))) (- (53 - Zpos (digits2_pos pb))))
    as [Heq|Hlt|Hgt].
  - assert (Hk : lead pa = lead pb) by (unfold lead; lia).
    rewrite Hk. change (Pos.compare_cont Eq ?x ?y) with (Zpos x ?= Zpos y).
    rewrite !pshl_Z.
    assert (Hc : 0 < 2 ^ Z.of_nat (lead pb)) by (apply Z.pow_pos_nonneg; lia).
    revert Hc. generalize (2 ^ Z.of_nat (lead pb)). intros c Hc.
    destruct (Z.compare_spec (Zpos pa) (Zpos pb));
      [apply Z.compare_eq_iff | apply Z.compare_lt_iff | apply Z.compare_gt_iff]; nia.
  - symmetry. apply Z.compare_lt_iff.
    assert (2 ^ Zpos (digits2_pos pa) <= 2 ^ (Zpos (digits2_pos pb) - 1))
      by (apply Z.pow_le_mono_r; lia).
    lia.
  - symmetry. apply Z.compare_gt_iff.
    assert (2 ^ Zpos (digits2_pos pb) <= 2 ^ (Zpos (digits2_pos pa) - 1))
      by (apply Z.pow_le_mono_r; lia).
    lia.
Qed.

(** Doubles that are integers below [2^53] compare like the integers. *)
Lemma compare_of_Z (a b : Z) :
  small a -> small b -> SFcompare (Double.of_Z a) (Double.of_Z b) = Some (a ?= b).
Proof.
  unfold small. intros Ha Hb.
  destruct (signed_cases a) as [->|(sa & pa & -> & Hpa)];
    destruct (signed_cases b) as [->|(sb & pb & -> & Hpb)].
  - reflexivity.
  - rewrite of_Z_signed by lia. now destruct sb.
  - rewrite of_Z_signed by lia. now destruct sa.
  - rewrite !of_Z_signed by lia. cbn [SFcompare]. f_equal.
    destruct sa, sb; cbn [cond_Zopp].
    + rewrite (Z.compare_opp (Zpos pa) (Zpos pb)), <- (compare_magnitude pb pa) by lia.
      rewrite (Z.compare_antisym (- Z.of_nat (lead pa)) (- Z.of_nat (lead pb))).
      destruct (- Z.of_nat (lead pa) ?= - Z.of_nat (lead pb)); cbn [CompOpp]; try reflexivity.
      now rewrite Pos.compare_cont_antisym.
    + reflexivity.
    + reflexivity.
    + apply compare_magnitude; lia.
Qed.

Lemma ltb_of_Z (a b : Z) :
  small a -> small b -> Double.ltb (Double.of_Z a) (Double.of_Z b) = (a <? b).
Proof.
  intros Ha Hb. unfold Double.ltb, SFltb, Z.ltb. rewrite compare_of_Z by assumption.
  now destruct (a ?= b).
Qed.

Lemma eqb_of_Z (a b : Z) :
  small a -> small b -> Double.eqb (Double.of_Z a) (Double.of_Z b) = (a =? b).
Proof.
  intros Ha Hb. unfold Double.eqb, SFeqb. rewrite compare_of_Z by assumption.
  destruct (Z.eqb_spec a b) as [->|Hne]; [now rewrite Z.compare_refl|].
  destruct (Z.compare_spec a b); congruence.
Qed.

Lemma of_Z_inj (a b : Z) : small a -> small b -> Double.of_Z a = Double.of_Z b -> a = b.
Proof.
  intros Ha Hb Heq. pose proof (eqb_of_Z a b Ha Hb) as H1.
  pose proof (eqb_of_Z a a Ha Ha) as H2. rewrite <- Heq in H1.
  rewrite H2, Z.eqb_refl in H1. symmetry in H1. now apply Z.eqb_eq.
Qed.

(** ** Infinity *)

Lemma of_Z_small_shape (a : Z) :
  small a ->
  Double.of_Z a = S754_zero false \/ exists s m e, Double.of_Z a = S754_finite s m e.
Proof.
  intros Ha. destruct (signed_cases a) as [->|(s & p & -> & Hp)]; [now left|].
  right. rewrite of_Z_signed by (unfold small in Ha; lia). eauto.
Qed.

Lemma of_int_small (a : Z) : small a -> Double.of_int a = Some (Double.of_Z a).
Proof.
  intros Ha. unfold Double.of_int.
  destruct (of_Z_small_shape a Ha) as [->|(s & m & e & ->)]; reflexivity.
Qed.

Lemma add_int_small (a w : Z) :
  small a -> small w -> Double.add_int (Double.of_Z a) w = Some (Double.of_Z (a + w)).
Proof.
  intros Ha Hw. unfold Double.add_int. rewrite of_int_small by assumption.
  cbn [option_map]. now rewrite add_of_Z.
Qed.

Lemma add_int_inf (w : Z) : small w -> Double.add_int Double.inf w = Some Double.inf.
Proof.
  intros Hw. unfold Double.add_int. rewrite of_int_small by assumption.
  destruct (of_Z_small_shape w Hw) as [->|(s & m & e & ->)]; reflexivity.
Qed.

Lemma ltb_of_Z_inf (a : Z) : small a -> Double.ltb (Double.of_Z a) Double.inf = true.
Proof.
  intros Ha. destruct (of_Z_small_shape a Ha) as [->|(s & m & e & ->)]; reflexivity.
Qed.

Lemma ltb_inf (x : Double.t) : Double.ltb Double.inf x = false.
Proof. now destruct x as [| [] | |]. Qed.

Lemma eqb_of_Z_inf (a : Z) : small a -> Double.eqb (Double.of_Z a) Double.inf = false.
Proof.
  intros Ha. destruct (of_Z_small_shape a Ha) as [->|(s & m & e & ->)]; reflexivity.
Qed.

Lemma eqb_inf_of_Z (a : Z) : small a -> Double.eqb Double.inf (Double.of_Z a) = false.
Proof.
  intros Ha. destruct (of_Z_small_shape a Ha) as [->|(s & m & e & ->)]; reflexivity.
Qed.

Lemma of_Z_not_inf (a : Z) : small a -> Double.of_Z a <> Double.inf.
Proof.
  intros Ha. destruct (of_Z_small_shape a Ha) as [->|(s & m & e & ->)]; discriminate.
Qed.

(** ** Bellman-Ford in doubles agrees with exact Bellman-Ford *)

Lemma max_abs_weight_ge (g : Graph.t) (e : edge) :
  In e (Graph.edges g) -> Z.abs (wgt e) <= max_abs_weight g.
Proof.
  unfold max_abs_weight. induction (Graph.edges g) as [|e' es IH]; [intros []|].
  intros [->|Hin]; simpl; [lia|]. specialize (IH Hin). lia.
Qed.

Lemma max_abs_weight_nonneg (g : Graph.t) : 0 <= max_abs_weight g.
Proof.
  unfold max_abs_weight. induction (Graph.edges g) as [|e' es IH]; simpl; lia.
Qed.

Section ExactBellmanFord.

(** Weights are at most [M] in absolute value. *)
Variable M : Z.
Hypothesis HM : 0 <= M.

Lemma at_dist64 (dist : BellmanFord.dist_map) (k : string) :
  BellmanFord64.at_ (dist64 dist) k = ext_to_double (BellmanFord.at_ dist k).
Proof.
  unfold BellmanFord64.at_, BellmanFord.at_, dist64. rewrite lookup_fmap.
  now destruct (dist !! k).
Qed.

Lemma within_at (B : Z) (dist : BellmanFord.dist_map) (k : string) (d : Z) :
  within B dist -> BellmanFord.at_ dist k = Fin d -> Z.abs d <= B.
Proof.
  unfold BellmanFord.at_. intros Hw Hk. destruct (dist !! k) as [x|] eqn:E; [|discriminate].
  simpl in Hk. subst x. exact (Hw k d E).
Qed.

Lemma within_mono (B B' : Z) (dist : BellmanFord.dist_map) :
  B <= B' -> within B dist -> within B' dist.
Proof. intros Hle Hw v d Hv. specialize (Hw v d Hv). lia. Qed.

(** The sum [dist[s] + w] and its comparison with [dist[t]]. *)
Lemma add_int_ext (B : Z) (dist : BellmanFord.dist_map) (s : string) (w : Z) :
  0 <= B -> within B dist -> Z.abs w <= M -> B + M < 2 ^ 53 ->
  Double.add_int (BellmanFord64.at_ (dist64 dist) s) w
  = Some (ext_to_double (ext_add (BellmanFord.at_ dist s) w)).
Proof.
  intros HB Hw Hwt Hb. rewrite at_dist64.
  destruct (BellmanFord.at_ dist s) as [a|] eqn:Hs; cbn [ext_to_double ext_add].
  - pose proof (within_at B dist s a Hw Hs). apply add_int_small; unfold small; lia.
  - apply add_int_inf. unfold small. lia.
Qed.

Lemma ltb_ext (x y : ext) :
  (forall a, x = Fin a -> small a) -> (forall b, y = Fin b -> small b) ->
  Double.ltb (ext_to_double x) (ext_to_double y) = ext_ltb x y.
Proof.
  intros Hx Hy. destruct x as [a|], y as [b|]; cbn [ext_to_double ext_ltb].
  - apply ltb_of_Z; auto.
  - apply ltb_of_Z_inf; auto.
  - apply ltb_inf.
  - apply ltb_inf.
Qed.

Lemma eqb_ext (x y : ext) :
  (forall a, x = Fin a -> small a) -> (forall b, y = Fin b -> small b) ->
  Double.eqb (ext_to_double x) (ext_to_double y) = ext_eqb x y.
Proof.
  intros Hx Hy. destruct x as [a|], y as [b|]; cbn [ext_to_double ext_eqb].
  - apply eqb_of_Z; auto.
  - apply eqb_of_Z_inf; auto.
  - apply eqb_inf_of_Z; auto.
  - reflexivity.
Qed.

Lemma small_sum (B : Z) (dist : BellmanFord.dist_map) (s : string) (w a : Z) :
  within B dist -> Z.abs w <= M -> B + M < 2 ^ 53 ->
  ext_add (BellmanFord.at_ dist s) w = Fin a -> Z.abs a <= B + M.
Proof.
  intros Hw Hwt Hb Ha. destruct (BellmanFord.at_ dist s) as [a0|] eqn:Hs; [|discriminate].
  simpl in Ha. inversion Ha; subst a. pose proof (within_at B dist s a0 Hw Hs). lia.
Qed.

Lemma small_at (B : Z) (dist : BellmanFord.dist_map) (k : string) (b : Z) :
  within B dist -> B < 2 ^ 53 -> BellmanFord.at_ dist k = Fin b -> small b.
Proof. intros Hw Hb Hk. pose proof (within_at B dist k b Hw Hk). unfold small. lia. Qed.

Lemma relaxable64 (B : Z) (dist : BellmanFord.dist_map) (e : edge) :
  0 <= B -> within B dist -> Z.abs (wgt e) <= M -> B + M < 2 ^ 53 ->
  BellmanFord64.relaxable (dist64 dist) e = Some (BellmanFord.relaxable dist e).
Proof.
  intros HB Hw Hwt Hb. destruct e as [[s t] w]. unfold wgt in Hwt. cbn [snd] in Hwt.
  unfold BellmanFord64.relaxable, BellmanFord.relaxable.
  rewrite (add_int_ext B) by assumption. rewrite at_dist64. f_equal.
  apply ltb_ext.
  - intros a Ha. pose proof (small_sum B dist s w a Hw Hwt Hb Ha). unfold small. lia.
  - intros b. apply (small_at B); [assumption | lia].
Qed.

Lemma relax_edge64 (B : Z) (st : BellmanFord.dist_map * BellmanFord.prev_map * bool)
      (e : edge) :
  0 <= B -> within B (fst (fst st)) -> Z.abs (wgt e) <= M -> B + M < 2 ^ 53 ->
  BellmanFord64.relax_edge (state64 st) e = Some (state64 (BellmanFord.relax_edge st e))
  /\ within (B + M) (fst (fst (BellmanFord.relax_edge st e))).
Proof.
  destruct st as [[dist prev] upd]. cbn [fst snd]. intros HB Hw Hwt Hb.
  destruct e as [[s t] w]. unfold wgt in Hwt. cbn [snd] in Hwt.
  unfold BellmanFord64.relax_edge, state64. cbn [fst snd].
  rewrite relax_edge_eq. unfold BellmanFord.relaxable.
  rewrite (add_int_ext B), at_dist64 by assumption.
  rewrite ltb_ext.
  2:{ intros a Ha. pose proof (small_sum B dist s w a Hw Hwt Hb Ha). unfold small. lia. }
  2:{ intros b. apply (small_at B); [assumption | lia]. }
  destruct (ext_ltb (ext_add (BellmanFord.at_ dist s) w) (BellmanFord.at_ dist t)) eqn:Hr;
    cbn [fst snd].
  - split.
    + unfold dist64. now rewrite fmap_insert.
    + intros v d Hv. destruct (decide (v = t)) as [->|Hne].
      * rewrite lookup_insert_eq in Hv. inversion Hv as [Ha].
        exact (small_sum B dist s w d Hw Hwt Hb Ha).
      * rewrite lookup_insert_ne in Hv by congruence. specialize (Hw v d Hv). lia.
  - split; [reflexivity|]. apply (within_mono B); [lia | assumption].
Qed.

Lemma state64_dist (st : BellmanFord.dist_map * BellmanFord.prev_map * bool) :
  fst (fst (state64 st)) = dist64 (fst (fst st)).
Proof. reflexivity. Qed.

Lemma relax_edge_size (st : BellmanFord.dist_map * BellmanFord.prev_map * bool) (e : edge) :
  (size (fst (fst (BellmanFord.relax_edge st e))) <= S (size (fst (fst st))))%nat.
Proof.
  destruct st as [[dist prev] upd], e as [[s t] w]. rewrite relax_edge_eq.
  destruct (BellmanFord.relaxable dist (s, t, w)); cbn [fst]; [|lia].
  rewrite map_size_insert. destruct (dist !! t); simpl; lia.
Qed.

Lemma relax_fold64 (l : list edge) :
  forall (B : Z) (st : BellmanFord.dist_map * BellmanFord.prev_map * bool),
    0 <= B -> within B (fst (fst st)) ->
    (forall e, In e l -> Z.abs (wgt e) <= M) ->
    B + Z.of_nat (length l) * M < 2 ^ 53 ->
    fold_left_opt BellmanFord64.relax_edge l (state64 st)
    = Some (state64 (fold_left BellmanFord.relax_edge l st))
    /\ within (B + Z.of_nat (length l) * M) (fst (fst (fold_left BellmanFord.relax_edge l st)))
    /\ (size (fst (fst (fold_left BellmanFord.relax_edge l st)))
        <= size (fst (fst st)) + length l)%nat.
Proof.
  induction l as [|e l IH]; intros B st HB Hw Hwt Hb.
  - cbn [fold_left_opt fold_left length]. split; [reflexivity|]. split; [|lia].
    apply (within_mono B); [simpl; lia | assumption].
  - cbn [fold_left_opt fold_left]. cbn [length] in Hb |- *.
    rewrite Nat2Z.inj_succ in Hb |- *.
    destruct (relax_edge64 B st e HB Hw (Hwt e (or_introl eq_refl)) ltac:(nia)) as [-> Hw'].
    destruct (IH (B + M) (BellmanFord.relax_edge st e) ltac:(lia) Hw'
                 (fun e' He' => Hwt e' (or_intror He')) ltac:(lia)) as (-> & Hw2 & Hsz).
    split; [reflexivity|]. split.
    + apply (within_mono (B + M + Z.of_nat (length l) * M)); [lia | assumption].
    + pose proof (relax_edge_size st e). lia.
Qed.

Lemma relax_loop64 (es : list edge) (k : nat) :
  forall (B : Z) (dist : BellmanFord.dist_map) (prev : BellmanFord.prev_map),
    0 <= B -> within B dist ->
    (forall e, In e es -> Z.abs (wgt e) <= M) ->
    B + Z.of_nat k * Z.of_nat (length es) * M < 2 ^ 53 ->
    BellmanFord64.relax_loop k es (dist64 dist) prev
    = Some (dist64 (fst (BellmanFord.relax_loop k es dist prev)),
            snd (BellmanFord.relax_loop k es dist prev))
    /\ within (B + Z.of_nat k * Z.of_nat (length es) * M)
              (fst (BellmanFord.relax_loop k es dist prev))
    /\ (size (fst (BellmanFord.relax_loop k es dist prev))
        <= size dist + k * length es)%nat.
Proof.
  induction k as [|k IH]; intros B dist prev HB Hw Hwt Hb.
  - cbn [BellmanFord64.relax_loop BellmanFord.relax_loop fst snd]. split; [reflexivity|].
    split; [|lia]. apply (within_mono B); [simpl; lia | assumption].
  - cbn [BellmanFord64.relax_loop BellmanFord.relax_loop].
    unfold BellmanFord64.relax_pass, BellmanFord.relax_pass.
    rewrite Nat2Z.inj_succ in Hb |- *.
    assert (Hm : 0 <= Z.of_nat (length es) * M) by nia.
    assert (Hk : 0 <= Z.of_nat k * Z.of_nat (length es) * M) by nia.
    destruct (relax_fold64 es B (dist, prev, false) HB Hw Hwt ltac:(nia)) as (Hf & Hw' & Hsz).
    change (state64 (dist, prev, false)) with (dist64 dist, prev, false) in Hf.
    rewrite Hf. cbn [fst] in Hsz.
    destruct (fold_left BellmanFord.relax_edge es (dist, prev, false))
      as [[dist' prev'] updated]. cbn [state64 fst snd] in *.
    destruct updated.
    + destruct (IH (B + Z.of_nat (length es) * M) dist' prev' ltac:(lia) Hw' Hwt ltac:(nia))
        as (-> & Hw2 & Hsz2).
      split; [reflexivity|]. split.
      * apply (within_mono (B + Z.of_nat (length es) * M
                            + Z.of_nat k * Z.of_nat (length es) * M)); [nia | assumption].
      * simpl. lia.
    + cbn [fst snd]. split; [reflexivity|]. split.
      * apply (within_mono (B + Z.of_nat (length es) * M)); [nia | assumption].
      * simpl. lia.
Qed.

Lemma find_relaxable64 (B : Z) (dist : BellmanFord.dist_map) (es : list edge) :
  0 <= B -> within B dist -> (forall e, In e es -> Z.abs (wgt e) <= M) -> B + M < 2 ^ 53 ->
  BellmanFord64.find_relaxable (dist64 dist) es = Some (find (BellmanFord.relaxable dist) es).
Proof.
  intros HB Hw Hwt Hb. induction es as [|e es IH]; [reflexivity|].
  cbn [BellmanFord64.find_relaxable find].
  rewrite (relaxable64 B dist e HB Hw (Hwt e (or_introl eq_refl)) Hb).
  destruct (BellmanFord.relaxable dist e); [reflexivity|].
  apply IH. intros e' He'. apply Hwt. now right.
Qed.

Lemma find_predecessor64 (B : Z) (dist : BellmanFord.dist_map) (es : list edge)
      (current : string) :
  0 <= B -> within B dist -> (forall e, In e es -> Z.abs (wgt e) <= M) -> B + M < 2 ^ 53 ->
  BellmanFord64.find_predecessor es (dist64 dist) current
  = Some (BellmanFord.find_predecessor es dist current).
Proof.
  intros HB Hw Hwt Hb. unfold BellmanFord.find_predecessor.
  induction es as [|[[s t] w] es IH]; [reflexivity|].
  cbn [BellmanFord64.find_predecessor find].
  pose proof (Hwt (s, t, w) (or_introl eq_refl)) as Hwe. unfold wgt in Hwe. cbn [snd] in Hwe.
  destruct (String.eqb t current); cbn [andb].
  - rewrite (add_int_ext B), at_dist64 by assumption.
    rewrite eqb_ext.
    2:{ intros a Ha. pose proof (small_sum B dist s w a Hw Hwe Hb Ha). unfold small. lia. }
    2:{ intros b. apply (small_at B); [assumption | lia]. }
    destruct (ext_eqb _ _); [reflexivity|].
    apply IH. intros e' He'. apply Hwt. now right.
  - apply IH. intros e' He'. apply Hwt. now right.
Qed.

Lemma walk_back64 (B : Z) (dist : BellmanFord.dist_map) (es : list edge) (room : nat) :
  0 <= B -> within B dist -> (forall e, In e es -> Z.abs (wgt e) <= M) -> B + M < 2 ^ 53 ->
  forall cycle visited current,
    BellmanFord64.walk_back room es (dist64 dist) cycle visited current
    = Some (BellmanFord.walk_back room es dist cycle visited current).
Proof.
  intros HB Hw Hwt Hb. induction room as [|room IH]; intros cycle visited current;
    [reflexivity|].
  cbn [BellmanFord64.walk_back BellmanFord.walk_back].
  case_bool_decide; [reflexivity|].
  rewrite (find_predecessor64 B) by assumption. apply IH.
Qed.

Lemma walk_back_length (room : nat) (es : list edge) (dist : BellmanFord.dist_map) :
  forall cycle visited current,
    (length (BellmanFord.walk_back room es dist cycle visited current)
     <= length cycle + room)%nat.
Proof.
  induction room as [|room IH]; intros cycle visited current; cbn [BellmanFord.walk_back];
    [lia|].
  case_bool_decide; [lia|].
  specialize (IH (cycle ++ [current]) ({[current]} ∪ visited)
                 (BellmanFord.find_predecessor es dist current)).
  rewrite length_app in IH. simpl in IH. lia.
Qed.

Lemma cycle_cost_from_cons (es : list edge) (a b : string) (rest : list string)
      (c : Double.t) :
  BellmanFord64.cycle_cost_from es (a :: b :: rest) c
  = match find (fun e => let '(s, t, w) := e in String.eqb s a && String.eqb t b) es with
    | Some (_, _, w) =>
        match Double.add_int c w with
        | Some c' => BellmanFord64.cycle_cost_from es (b :: rest) c'
        | None => None
        end
    | None => BellmanFord64.cycle_cost_from es (b :: rest) c
    end.
Proof. reflexivity. Qed.

Lemma cycle_cost_of_cons (es : list edge) (a b : string) (rest : list string) :
  BellmanFord.cycle_cost_of es (a :: b :: rest)
  = match find (fun e => let '(s, t, w) := e in String.eqb s a && String.eqb t b) es with
    | Some (_, _, w) => w + BellmanFord.cycle_cost_of es (b :: rest)
    | None => BellmanFord.cycle_cost_of es (b :: rest)
    end.
Proof. reflexivity. Qed.

Lemma cycle_cost64 (es : list edge) (cycle : list string) :
  (forall e, In e es -> Z.abs (wgt e) <= M) ->
  forall acc : Z,
    Z.abs acc + Z.of_nat (length cycle) * M < 2 ^ 53 ->
    BellmanFord64.cycle_cost_from es cycle (Double.of_Z acc)
    = Some (Double.of_Z (acc + BellmanFord.cycle_cost_of es cycle)).
Proof.
  intros Hwt. induction cycle as [|a cycle IH]; intros acc Hb.
  - cbn. now rewrite Z.add_0_r.
  - destruct cycle as [|b rest].
    + cbn. now rewrite Z.add_0_r.
    + rewrite cycle_cost_from_cons, cycle_cost_of_cons.
      change (length (a :: b :: rest)) with (S (length (b :: rest))) in Hb.
      rewrite Nat2Z.inj_succ in Hb.
      assert (Hrest : 0 <= Z.of_nat (length (b :: rest)) * M) by nia.
      destruct (find _ es) as [[[s t] w]|] eqn:Hfind.
      * apply find_some in Hfind as [Hin _]. specialize (Hwt _ Hin).
        unfold wgt in Hwt. cbn [snd] in Hwt.
        rewrite add_int_small by (unfold small; lia).
        rewrite IH by lia. do 2 f_equal. lia.
      * apply IH. lia.
Qed.

Lemma size_dist64 (dist : BellmanFord.dist_map) : size (dist64 dist) = size dist.
Proof. apply map_size_fmap. Qed.

Lemma detect_negative_cycle64 (B : Z) (g : Graph.t) (dist : BellmanFord.dist_map) :
  0 <= B -> within B dist -> (forall e, In e (Graph.edges g) -> Z.abs (wgt e) <= M) ->
  B + M < 2 ^ 53 -> (Z.of_nat (size dist) + 1) * M < 2 ^ 53 ->
  BellmanFord64._detect_negative_cycle g (dist64 dist)
  = Some (option_map (fun cc => (fst cc, Double.of_Z (snd cc)))
                     (BellmanFord._detect_negative_cycle g dist)).
Proof.
  intros HB Hw Hwt Hb Hsize.
  unfold BellmanFord64._detect_negative_cycle, BellmanFord._detect_negative_cycle.
  rewrite (find_relaxable64 B) by assumption.
  destruct (find _ (Graph.edges g)) as [[[s t] w]|]; [|reflexivity].
  rewrite (walk_back64 B) by assumption. rewrite size_dist64.
  pose proof (walk_back_length (size dist - 1) (Graph.edges g) dist [t] {[t]} s) as Hlen.
  cbn [length] in Hlen.
  change Double.zero with (Double.of_Z 0).
  rewrite cycle_cost64; [reflexivity | assumption |].
  simpl Z.abs. nia.
Qed.

End ExactBellmanFord.

Lemma init_dist64 (ns : list string) (start : string) :
  BellmanFord64.init_dist ns start = dist64 (BellmanFord.init_dist ns start).
Proof.
  unfold BellmanFord64.init_dist, BellmanFord.init_dist, dist64.
  rewrite fmap_insert. f_equal.
  induction ns as [|n ns IH]; cbn [fold_right]; [now rewrite fmap_empty|].
  now rewrite fmap_insert, IH.
Qed.

Lemma init_dist_within (ns : list string) (start : string) :
  within 0 (BellmanFord.init_dist ns start).
Proof.
  intros v d Hv. unfold BellmanFord.init_dist in Hv.
  destruct (decide (v = start)) as [->|Hne].
  - rewrite lookup_insert_eq in Hv. inversion Hv. simpl. lia.
  - rewrite lookup_insert_ne in Hv by congruence. exfalso.
    induction ns as [|n ns IH]; cbn [fold_right] in Hv; [now rewrite lookup_empty in Hv|].
    destruct (decide (v = n)) as [->|Hn].
    + rewrite lookup_insert_eq in Hv. discriminate.
    + rewrite lookup_insert_ne in Hv by congruence. auto.
Qed.

Lemma init_dist_size (ns : list string) (start : string) :
  (size (BellmanFord.init_dist ns start) <= S (length ns))%nat.
Proof.
  unfold BellmanFord.init_dist. rewrite map_size_insert.
  assert (Hsz : (size (fold_right (fun n d => <[n := Inf]> d)
                                  (∅ : gmap string ext) ns) <= length ns)%nat).
  { induction ns as [|n ns IH]; cbn [fold_right length]; [now rewrite map_size_empty|].
    rewrite map_size_insert. destruct (_ !! n); simpl; lia. }
  destruct (_ !! start); simpl; lia.
Qed.

Lemma sums_exact_bounds (g : Graph.t) :
  sums_exact g ->
  Z.of_nat (length (Graph.nodes g) - 1) * Z.of_nat (length (Graph.edges g))
  * max_abs_weight g + max_abs_weight g < 2 ^ 53
  /\ (Z.of_nat (length (Graph.nodes g)) + 2
      + Z.of_nat (length (Graph.nodes g) - 1) * Z.of_nat (length (Graph.edges g)))
     * max_abs_weight g < 2 ^ 53
  /\ (Z.of_nat (length (Graph.edges g)) + 2) * max_abs_weight g < 2 ^ 53.
Proof.
  unfold sums_exact. intros H. pose proof (max_abs_weight_nonneg g) as HM.
  assert (Hk : 0 <= Z.of_nat (length (Graph.nodes g) - 1) <= Z.of_nat (length (Graph.nodes g)))
    by lia.
  revert H HM Hk.
  generalize (Z.of_nat (length (Graph.nodes g) - 1)) (max_abs_weight g).
  assert (Hn : 0 <= Z.of_nat (length (Graph.nodes g))) by lia.
  assert (Hm : 0 <= Z.of_nat (length (Graph.edges g))) by lia.
  revert Hn Hm.
  generalize (Z.of_nat (length (Graph.nodes g))) (Z.of_nat (length (Graph.edges g))).
  intros n m Hn Hm k M H HM Hk.
  assert (Hkm : k * m <= n * m) by nia.
  assert (H1 : (k * m + 1) * M <= (n + 1) * (m + 2) * M) by (apply Z.mul_le_mono_nonneg_r; nia).
  assert (H2 : (n + 2 + k * m) * M <= (n + 1) * (m + 2) * M)
    by (apply Z.mul_le_mono_nonneg_r; nia).
  assert (H3 : (m + 2) * M <= (n + 1) * (m + 2) * M) by (apply Z.mul_le_mono_nonneg_r; nia).
  repeat split; lia.
Qed.

(** On a graph whose sums stay below [2^53], Bellman-Ford in doubles does
    what exact Bellman-Ford does. *)
Lemma bellman_ford64_exact (g : Graph.t) (start goal : string) :
  sums_exact g ->
  BellmanFord64.compute g start goal = option_map in_double (BellmanFord.compute g start goal).
Proof.
  intros Hex. destruct (sums_exact_bounds g Hex) as (H1 & H2 & _).
  pose proof (max_abs_weight_nonneg g) as HM.
  set (M := max_abs_weight g) in *.
  unfold BellmanFord64.compute, BellmanFord.compute.
  destruct (Graph.validate_nodes_exist g [start; goal]) as [[]|e] eqn:Hval.
  2:{ unfold Graph.validate_nodes_exist in Hval. cbn in Hval.
      repeat case_bool_decide; inversion Hval; reflexivity. }
  cbv zeta. rewrite init_dist64.
  set (n := length (Graph.nodes g)) in *. set (es := Graph.edges g) in *.
  assert (Hwt : forall e, In e es -> Z.abs (wgt e) <= M)
    by (intros e He; now apply max_abs_weight_ge).
  destruct (relax_loop64 M HM es (n - 1) 0 (BellmanFord.init_dist (Graph.nodes g) start)
              (BellmanFord.init_prev (Graph.nodes g)) ltac:(lia)
              (init_dist_within _ _) Hwt ltac:(lia)) as (Hloop & Hw & Hsz).
  rewrite Hloop.
  pose proof (init_dist_size (Graph.nodes g) start) as Hsz0. fold n in Hsz0.
  destruct (BellmanFord.relax_loop (n - 1) es _ _) as [dist prev]. cbn [fst snd] in *.
  assert (HB : 0 <= 0 + Z.of_nat (n - 1) * Z.of_nat (length es) * M).
  { apply Z.add_nonneg_nonneg; [lia|].
    apply Z.mul_nonneg_nonneg; [apply Z.mul_nonneg_nonneg; lia | assumption]. }
  assert (Hsize : (Z.of_nat (size dist) + 1) * M < 2 ^ 53).
  { apply Z.le_lt_trans with (2 := H2). apply Z.mul_le_mono_nonneg_r; [assumption|].
    fold n es. nia. }
  rewrite (detect_negative_cycle64 M HM (0 + Z.of_nat (n - 1) * Z.of_nat (length es) * M))
    by (try assumption; lia).
  destruct (BellmanFord._detect_negative_cycle g dist) as [[cycle cost]|]; [reflexivity|].
  cbn [option_map]. rewrite at_dist64.
  destruct (BellmanFord.at_ dist goal) as [d|] eqn:Hgoal; cbn [ext_to_double].
  - rewrite eqb_of_Z_inf.
    2:{ pose proof (within_at _ dist goal d Hw Hgoal). unfold small. nia. }
    destruct (BellmanFord._reconstruct_path _ prev goal); reflexivity.
  - reflexivity.
Qed.

(** ** Dijkstra in doubles agrees with exact Dijkstra *)

Lemma tuple_leb64 (a b : Z * string) :
  small (fst a) -> small (fst b) ->
  Dijkstra64.tuple_leb (entry64 a) (entry64 b) = Dijkstra.tuple_leb a b.
Proof.
  intros Ha Hb. unfold Dijkstra64.tuple_leb, Dijkstra.tuple_leb, entry64. cbn [fst snd].
  now rewrite ltb_of_Z, eqb_of_Z.
Qed.

Lemma entry64_inj (a b : Z * string) :
  small (fst a) -> small (fst b) -> entry64 a = entry64 b -> a = b.
Proof.
  destruct a as [c x], b as [d y]. unfold entry64. cbn [fst snd]. intros Ha Hb Heq.
  inversion Heq as [[Hc Hx]]. f_equal. now apply of_Z_inj.
Qed.

Lemma heap_min64 (h : Dijkstra.heap) :
  forall x, small (fst x) -> (forall y, In y h -> small (fst y)) ->
            Dijkstra64.heap_min (entry64 x) (heap64 h) = entry64 (Dijkstra.heap_min x h).
Proof.
  unfold Dijkstra64.heap_min, Dijkstra.heap_min, heap64.
  induction h as [|y h IH]; intros x Hx Hh; [reflexivity|].
  cbn [map fold_left]. rewrite tuple_leb64 by auto using in_eq.
  destruct (Dijkstra.tuple_leb x y); apply IH; auto using in_eq, in_cons.
Qed.

Lemma remove_first64 (x : Z * string) (h : Dijkstra.heap) :
  small (fst x) -> (forall y, In y h -> small (fst y)) ->
  Dijkstra64.remove_first (entry64 x) (heap64 h) = heap64 (Dijkstra.remove_first x h).
Proof.
  intros Hx. unfold heap64. induction h as [|y h IH]; intros Hh; [reflexivity|].
  cbn [map Dijkstra64.remove_first Dijkstra.remove_first].
  assert (Hy : small (fst y)) by auto using in_eq.
  destruct (decide (y = x)) as [->|Hne].
  - rewrite !bool_decide_eq_true_2 by reflexivity. reflexivity.
  - rewrite !bool_decide_eq_false_2; [|assumption|].
    + cbn [map]. f_equal. apply IH. auto using in_cons.
    + intros Heq. apply Hne. now apply entry64_inj.
Qed.

Lemma heap_min_In (h : Dijkstra.heap) (x : Z * string) :
  In (Dijkstra.heap_min x h) (x :: h).
Proof.
  unfold Dijkstra.heap_min. revert x. induction h as [|y h IH]; intros x; [now left|].
  cbn [fold_left]. destruct (Dijkstra.tuple_leb x y).
  - destruct (IH x) as [<-|Hin]; [now left | right; now right].
  - right. destruct (IH y) as [<-|Hin]; [now left | now right].
Qed.

Lemma heappop64 (h : Dijkstra.heap) :
  (forall y, In y h -> small (fst y)) ->
  Dijkstra64.heappop (heap64 h)
  = option_map (fun mh => (entry64 (fst mh), heap64 (snd mh))) (Dijkstra.heappop h).
Proof.
  intros Hh. destruct h as [|x h]; [reflexivity|].
  unfold Dijkstra64.heappop, Dijkstra.heappop. cbn [heap64 map option_map fst snd].
  fold (heap64 h).
  rewrite heap_min64 by auto using in_eq, in_cons.
  change (entry64 x :: heap64 h) with (heap64 (x :: h)).
  rewrite remove_first64; [reflexivity | | assumption].
  apply Hh, heap_min_In.
Qed.

Section ExactDijkstra.

Variable M : Z.
Hypothesis HM : 0 <= M.

(** Relaxing one neighbour of a node popped at cost [cost]. *)
Lemma relax_neighbor64 (B : Z) (node : string) (cost : Z) (visited : gset string)
      (st : Dijkstra.dist_map * Dijkstra.prev_map * Dijkstra.heap) (nw : string * Z) :
  Z.abs cost <= B -> dijkstra_within (B + M) (fst (fst st)) (snd st) ->
  Z.abs (snd nw) <= M -> B + M < 2 ^ 53 ->
  Dijkstra64.relax_neighbor node (Double.of_Z cost) visited (dijkstra_state64 st) nw
  = Some (dijkstra_state64 (Dijkstra.relax_neighbor node cost visited st nw))
  /\ dijkstra_within (B + M) (fst (fst (Dijkstra.relax_neighbor node cost visited st nw)))
                     (snd (Dijkstra.relax_neighbor node cost visited st nw)).
Proof.
  destruct st as [[dist prev] h], nw as [nb w]. cbn [fst snd].
  intros Hc [Hd Hh] Hw Hb.
  unfold Dijkstra64.relax_neighbor, Dijkstra.relax_neighbor, dijkstra_state64. cbn [fst snd].
  case_bool_decide; [split; [reflexivity | now split]|].
  rewrite add_int_small by (unfold small; lia).
  rewrite lookup_fmap.
  assert (Hlt : Double.ltb (Double.of_Z (cost + w))
                           (default Double.inf (Double.of_Z <$> dist !! nb))
                = match dist !! nb with Some d => cost + w <? d | None => true end).
  { destruct (dist !! nb) as [d|] eqn:Hnb; cbn [fmap option_fmap option_map default].
    - specialize (Hd nb d Hnb). apply ltb_of_Z; unfold small; lia.
    - apply ltb_of_Z_inf. unfold small. lia. }
  rewrite Hlt.
  destruct (match dist !! nb with Some d => cost + w <? d | None => true end);
    cbn [fst snd].
  - split.
    + now rewrite fmap_insert.
    + split.
      * intros v d Hv. destruct (decide (v = nb)) as [->|Hne].
        -- rewrite lookup_insert_eq in Hv. inversion Hv. lia.
        -- rewrite lookup_insert_ne in Hv by congruence. eauto.
      * intros c x [Heq|Hin]; [inversion Heq; lia | eauto].
  - split; [reflexivity | now split].
Qed.

Lemma relax_neighbors64 (B : Z) (node : string) (cost : Z) (visited : gset string)
      (nbs : list (string * Z)) :
  Z.abs cost <= B -> (forall nw, In nw nbs -> Z.abs (snd nw) <= M) -> B + M < 2 ^ 53 ->
  forall st,
    dijkstra_within (B + M) (fst (fst st)) (snd st) ->
    fold_left_opt (Dijkstra64.relax_neighbor node (Double.of_Z cost) visited) nbs
                  (dijkstra_state64 st)
    = Some (dijkstra_state64 (fold_left (Dijkstra.relax_neighbor node cost visited) nbs st))
    /\ dijkstra_within (B + M)
         (fst (fst (fold_left (Dijkstra.relax_neighbor node cost visited) nbs st)))
         (snd (fold_left (Dijkstra.relax_neighbor node cost visited) nbs st)).
Proof.
  intros Hc Hw Hb. induction nbs as [|nw nbs IH]; intros st Hst.
  - split; [reflexivity | assumption].
  - cbn [fold_left_opt fold_left].
    destruct (relax_neighbor64 B node cost visited st nw Hc Hst (Hw nw (or_introl eq_refl)) Hb)
      as [-> Hst'].
    apply IH; [|assumption]. intros nw' Hin. apply Hw. now right.
Qed.

Lemma dijkstra_loop64 (g : Graph.t) (start goal : string) :
  (forall e, In e (Graph.edges g) -> Z.abs (wgt e) <= M) ->
  forall (fuel : nat) (B : Z) dist prev h visited,
    0 <= B -> dijkstra_within B dist h ->
    B + Z.of_nat fuel * M < 2 ^ 53 ->
    Dijkstra64.loop fuel g start goal (Double.of_Z <$> dist) prev (heap64 h) visited
    = option_map in_double (Dijkstra.loop fuel g start goal dist prev h visited).
Proof.
  intros Hwt. induction fuel as [|fuel IH]; intros B dist prev h visited HB [Hd Hh] Hb;
    [reflexivity|].
  rewrite Nat2Z.inj_succ in Hb.
  assert (Hfuel : 0 <= Z.of_nat fuel * M) by nia.
  cbn [Dijkstra64.loop Dijkstra.loop].
  rewrite heappop64 by (intros [c x] Hin; specialize (Hh c x Hin); unfold small; cbn; lia).
  destruct (Dijkstra.heappop h) as [[[cost node] h']|] eqn:Hpop; [|reflexivity].
  cbn [option_map fst snd entry64].
  apply heappop_some in Hpop as (Hin & _ & _ & Hsub & _).
  assert (Hh' : forall c x, In (c, x) h' -> Z.abs c <= B) by (intros c x Hc; eauto).
  case_bool_decide.
  - apply (IH B); [assumption | now split | lia].
  - destruct (String.eqb node goal).
    + destruct (BellmanFord._reconstruct_path _ prev goal); reflexivity.
    + destruct (relax_neighbors64 B node cost ({[node]} ∪ visited) (Graph.neighbors g node)
                  (Hh cost node Hin)
                  (fun nw Hnw => Hwt (node, fst nw, snd nw)
                                     (neighbors_are_edges g node (fst nw) (snd nw)
                                        ltac:(now destruct nw)))
                  ltac:(lia) (dist, prev, h')) as [Hfold Hst'].
      { split; cbn [fst snd]; intros; [specialize (Hd _ _ H0) | specialize (Hh' _ _ H0)]; lia. }
      change (dijkstra_state64 (dist, prev, h')) with (Double.of_Z <$> dist, prev, heap64 h')
        in Hfold.
      rewrite Hfold.
      destruct (fold_left _ _ _) as [[dist' prev'] h'']. cbn [dijkstra_state64 fst snd] in *.
      apply (IH (B + M)); [lia | assumption | lia].
Qed.

End ExactDijkstra.

(** On a graph whose sums stay below [2^53], Dijkstra in doubles does what
    exact Dijkstra does. *)
Lemma dijkstra64_exact (g : Graph.t) (start goal : string) :
  sums_exact g ->
  Dijkstra64.compute g start goal = option_map in_double (Dijkstra.compute g start goal).
Proof.
  intros Hex. destruct (sums_exact_bounds g Hex) as (_ & _ & H3).
  pose proof (max_abs_weight_nonneg g) as HM.
  unfold Dijkstra64.compute, Dijkstra.compute.
  destruct (Graph.has_negative_weights g); [reflexivity|].
  destruct (Graph.validate_nodes_exist g [start; goal]) as [[]|e] eqn:Hval.
  2:{ unfold Graph.validate_nodes_exist in Hval. cbn in Hval.
      repeat case_bool_decide; inversion Hval; reflexivity. }
  change [(Double.zero, start)] with (heap64 [(0, start)]).
  replace ({[start := Double.zero]} : Dijkstra64.dist_map)
    with (Double.of_Z <$> ({[start := 0]} : Dijkstra.dist_map))
    by (now rewrite map_fmap_singleton).
  apply (dijkstra_loop64 (max_abs_weight g) HM g start goal
           (fun e He => max_abs_weight_ge g e He) _ 0); [lia | |].
  - split.
    + intros v d Hv. apply lookup_singleton_Some in Hv as [_ <-]. simpl. lia.
    + intros c x [Heq|[]]. inversion Heq. simpl. lia.
  - replace (Z.of_nat (2 + length (Graph.edges g)))
      with (Z.of_nat (length (Graph.edges g)) + 2) by lia. lia.
Qed.

(** ** What the algorithms compute, in the arithmetic of the code *)

Lemma in_double_ok (r : result (list string * Z)) (p : list string) (c : Double.t) :
  in_double r = Ok64 (p, c) -> exists d, r = Ok (p, d) /\ c = Double.of_Z d.
Proof.
  destruct r as [[p' d]|e]; cbn [in_double].
  - intros H. inversion H. eauto.
  - destruct e; discriminate.
Qed.

Lemma run64_ok (run : option (result (list string * Z))) (p : list string) (c : Double.t) :
  option_map in_double run = Some (Ok64 (p, c)) ->
  exists d, run = Some (Ok (p, d)) /\ c = Double.of_Z d.
Proof.
  destruct run as [r|]; [|discriminate]. cbn [option_map]. intros H. inversion H as [Hr].
  destruct (in_double_ok r p c Hr) as (d & -> & ->). eauto.
Qed.



Lemma sums_exact_check (g : Graph.t) :
  ((Z.of_nat (length (Graph.nodes g)) + 1) * (Z.of_nat (length (Graph.edges g)) + 2)
   * max_abs_weight g <? 2 ^ 53) = true -> sums_exact g.
Proof. apply Z.ltb_lt. Qed.


(** X6. Whatever Bellman-Ford returns on a graph whose sums are exact in
    double precision is right: the cost is an integer, the node list is
    the node sequence of a walk in the graph from [start] to [goal], no
    node occurs twice in it, the weights along it add up to the cost, and
    no walk from [start] to [goal] weighs less. *)
Theorem bellman_ford_sound (g : Graph.t) (start goal : string)
        (p : list string) (c : Double.t) :
  sums_exact g ->
  BellmanFord64.compute g start goal = Some (Ok64 (p, c)) ->
  exists q d, c = Double.of_Z d
              /\ is_walk (Graph.edges g) start q goal
              /\ p = walk_nodes start q /\ weight q = d /\ NoDup p
              /\ forall q', is_walk (Graph.edges g) start q' goal -> d <= weight q'.
Proof.
  intros Hex Hrun. rewrite (bellman_ford64_exact g start goal Hex) in Hrun.
  apply run64_ok in Hrun as (d & Hrun & ->).
  destruct (bellman_ford_returns_walk g start goal p d Hrun) as (q & Hq).
  exists q, d. split; [reflexivity | exact Hq].
Qed.

Lemma bellman_ford_sound_witness :
  exists q d, Double.of_Z 1 = Double.of_Z d
              /\ is_walk (Graph.edges example_graph) "A" q "B"
              /\ ["A"; "C"; "D"; "F"; "B"] = walk_nodes "A" q /\ weight q = d
              /\ NoDup ["A"; "C"; "D"; "F"; "B"]
              /\ forall q', is_walk (Graph.edges example_graph) "A" q' "B" -> d <= weight q'.
Proof.
  apply (bellman_ford_sound example_graph "A" "B" ["A"; "C"; "D"; "F"; "B"] (Double.of_Z 1)).
  - apply sums_exact_check. vm_compute. reflexivity.
  - vm_compute. reflexivity.
Defined.

(** X7. Bellman-Ford copes with negative weights: on a graph built by
    [add_edge] whose sums are exact in double precision, with [start] and
    [goal] among its nodes and no cycle of negative weight in reach of
    [start], it returns a path and the least weight of a walk from [start]
    to [goal] whenever [goal] can be reached, and raises [ValueError]
    ("No path exists") whenever it cannot. *)
Theorem bellman_ford_complete (g : Graph.t) (start goal : string) :
  wf_graph g -> sums_exact g -> start ∈ Graph.nodes g -> goal ∈ Graph.nodes g ->
  ~ negative_cycle_reachable (Graph.edges g) start ->
  (reachable (Graph.edges g) start goal ->
   exists p d, BellmanFord64.compute g start goal = Some (Ok64 (p, Double.of_Z d))
               /\ shortest (Graph.edges g) start goal d)
  /\ (~ reachable (Graph.edges g) start goal ->
      BellmanFord64.compute g start goal
      = Some (Raise64 (Raised (ValueError (NoPathExists start goal))))).
Proof.
  intros Hwf Hex Hs Hg Hnc. rewrite (bellman_ford64_exact g start goal Hex).
  destruct (bellman_ford_without_negative_cycle g start goal Hwf Hs Hg Hnc) as [Hyes Hno].
  split.
  - intros Hreach. destruct (Hyes Hreach) as (p & d & -> & Hshort). now exists p, d.
  - intros Hnone. now rewrite (Hno Hnone).
Qed.

Lemma bellman_ford_complete_witness :
  exists p d, BellmanFord64.compute example_graph "A" "B" = Some (Ok64 (p, Double.of_Z d))
              /\ shortest (Graph.edges example_graph) "A" "B" d.
Proof.
  refine (proj1 (bellman_ford_complete example_graph "A" "B" (from_edge_list_wf _) _ _ _
                   example_graph_no_negative_cycle) _).
  - apply sums_exact_check. vm_compute. reflexivity.
  - apply (proj1 (bool_decide_eq_true _)). vm_compute. reflexivity.
  - apply (proj1 (bool_decide_eq_true _)). vm_compute. reflexivity.
  - exists [("A", "B", 5)]. vm_compute. tauto.
Defined.

(** X8. Whatever Dijkstra returns on a graph built by [add_edge] whose
    sums are exact in double precision is right: the cost is an integer,
    the node list is the node sequence of a walk from [start] to [goal],
    no node occurs twice in it, the weights along it add up to the cost,
    and no walk from [start] to [goal] weighs less. *)
Theorem dijkstra_sound (g : Graph.t) (start goal : string) (p : list string) (c : Double.t) :
  wf_graph g -> sums_exact g ->
  Dijkstra64.compute g start goal = Some (Ok64 (p, c)) ->
  exists q d, c = Double.of_Z d
              /\ is_walk (Graph.edges g) start q goal
              /\ p = walk_nodes start q /\ weight q = d /\ NoDup p
              /\ forall q', is_walk (Graph.edges g) start q' goal -> d <= weight q'.
Proof.
  intros Hwf Hex Hrun. rewrite (dijkstra64_exact g start goal Hex) in Hrun.
  apply run64_ok in Hrun as (d & Hrun & ->).
  destruct (dijkstra_returns_walk g start goal p d Hwf Hrun) as (q & Hq).
  exists q, d. split; [reflexivity | exact Hq].
Qed.

Lemma dijkstra_sound_witness :
  exists q d, Double.of_Z 2 = Double.of_Z d
              /\ is_walk (Graph.edges diamond) "A" q "D"
              /\ ["A"; "B"; "D"] = walk_nodes "A" q /\ weight q = d
              /\ NoDup ["A"; "B"; "D"]
              /\ forall q', is_walk (Graph.edges diamond) "A" q' "D" -> d <= weight q'.
Proof.
  apply (dijkstra_sound diamond "A" "D" ["A"; "B"; "D"] (Double.of_Z 2) (from_edge_list_wf _)).
  - apply sums_exact_check. vm_compute. reflexivity.
  - vm_compute. reflexivity.
Defined.

(** X9. Dijkstra always comes to an answer on a graph built by [add_edge]
    that has no negative weight, whose sums are exact in double precision
    and that contains [start] and [goal]: a path with the least weight of
    a walk from [start] to [goal] when [goal] can be reached, and
    [ValueError] ("No path exists") when it cannot. *)
Theorem dijkstra_complete (g : Graph.t) (start goal : string) :
  wf_graph g -> Graph.has_negative_weights g = false -> sums_exact g ->
  start ∈ Graph.nodes g -> goal ∈ Graph.nodes g ->
  (reachable (Graph.edges g) start goal ->
   exists p d, Dijkstra64.compute g start goal = Some (Ok64 (p, Double.of_Z d))
               /\ shortest (Graph.edges g) start goal d)
  /\ (~ reachable (Graph.edges g) start goal ->
      Dijkstra64.compute g start goal
      = Some (Raise64 (Raised (ValueError (NoPathExists start goal))))).
Proof.
  intros Hwf Hneg Hex Hs Hg. rewrite (dijkstra64_exact g start goal Hex).
  destruct (exact_dijkstra_complete g start goal Hwf Hneg Hs Hg) as [Hyes Hno].
  split.
  - intros Hreach. destruct (Hyes Hreach) as (p & d & -> & Hshort). now exists p, d.
  - intros Hnone. now rewrite (Hno Hnone).
Qed.

Lemma dijkstra_complete_witness :
  Dijkstra64.compute diamond "D" "A"
  = Some (Raise64 (Raised (ValueError (NoPathExists "D" "A")))).
Proof.
  refine (proj2 (dijkstra_complete diamond "D" "A" (from_edge_list_wf _) eq_refl _ _ _) _).
  - apply sums_exact_check. vm_compute. reflexivity.
  - apply (proj1 (bool_decide_eq_true _)). vm_compute. reflexivity.
  - apply (proj1 (bool_decide_eq_true _)). vm_compute. reflexivity.
  - intros [q Hq].
    destruct q as [|e q]; [discriminate|]. destruct Hq as (Hsrc & Hin & _).
    vm_compute in Hin. unfold src in Hsrc.
    repeat (destruct Hin as [<-|Hin]; [discriminate|]). destruct Hin.
Defined.

(** X12. Bellman-Ford raises [NegativeCycleError] exactly on negative
    cycles in reach: on a graph built by [add_edge] whose sums are exact
    in double precision, with [start] and [goal] among its nodes, it
    raises the error whenever some closed walk of negative weight can be
    reached from [start], and never raises it otherwise. *)
Theorem bellman_ford_detects_negative_cycles (g : Graph.t) (start goal : string) :
  wf_graph g -> sums_exact g -> start ∈ Graph.nodes g -> goal ∈ Graph.nodes g ->
  (negative_cycle_reachable (Graph.edges g) start ->
   exists cycle cycle_cost,
     BellmanFord64.compute g start goal = Some (Raise64 (NegativeCycle64 cycle cycle_cost)))
  /\ (~ negative_cycle_reachable (Graph.edges g) start ->
      forall cycle cycle_cost,
        BellmanFord64.compute g start goal
        <> Some (Raise64 (NegativeCycle64 cycle cycle_cost))).
Proof.
  intros Hwf Hex Hs Hg. rewrite (bellman_ford64_exact g start goal Hex).
  destruct (exact_bellman_ford_detects_negative_cycles g start goal Hwf Hs Hg) as [Hyes Hno].
  split.
  - intros Hcyc. destruct (Hyes Hcyc) as (cycle & cost & ->).
    exists cycle, (Double.of_Z cost). reflexivity.
  - intros Hnc cycle c Hrun.
    destruct (BellmanFord.compute g start goal) as [[[p d]|e]|] eqn:Hz; try discriminate.
    destruct e; try discriminate. exact (Hno Hnc _ _ eq_refl).
Qed.

Lemma bellman_ford_detects_negative_cycles_witness :
  exists cycle cycle_cost,
    BellmanFord64.compute two_cycle "A" "B"
    = Some (Raise64 (NegativeCycle64 cycle cycle_cost)).
Proof.
  refine (proj1 (bellman_ford_detects_negative_cycles two_cycle "A" "B"
                   (from_edge_list_wf _) _ _ _) two_cycle_has_negative_cycle).
  - apply sums_exact_check. vm_compute. reflexivity.
  - apply (proj1 (bool_decide_eq_true _)). vm_compute. reflexivity.
  - apply (proj1 (bool_decide_eq_true _)). vm_compute. reflexivity.
Defined.

(** X13. Automatic selection picks an algorithm that fits the graph: on a
    graph built by [add_edge] whose sums are exact in double precision,
    with no negative cycle in reach of [start], the algorithm chosen for
    the hint ["auto"] (Bellman-Ford exactly when the graph has a negative
    weight) returns a path and the least weight of a walk from [start] to
    [goal], for every [goal] in reach. *)
Theorem auto_selection_finds_shortest (g : Graph.t) (start goal : string) :
  wf_graph g -> sums_exact g -> start ∈ Graph.nodes g -> goal ∈ Graph.nodes g ->
  ~ negative_cycle_reachable (Graph.edges g) start ->
  reachable (Graph.edges g) start goal ->
  exists a p d,
    AlgorithmSelector.select g "auto" = Ok a
    /\ (a = UseBellmanFord <-> Graph.has_negative_weights g = true)
    /\ algorithm_compute64 a g start goal = Some (Ok64 (p, Double.of_Z d))
    /\ shortest (Graph.edges g) start goal d.
Proof.
  intros Hwf Hex Hs Hg Hnc Hreach.
  destruct (exact_auto_selection_finds_shortest g start goal Hwf Hs Hg Hnc Hreach)
    as (a & p & d & Hsel & Hiff & Hrun & Hshort).
  exists a, p, d. split; [assumption|]. split; [assumption|]. split; [|assumption].
  destruct a; cbn [algorithm_compute64 algorithm_compute] in *.
  - now rewrite (dijkstra64_exact g start goal Hex), Hrun.
  - now rewrite (bellman_ford64_exact g start goal Hex), Hrun.
Qed.

Lemma auto_selection_finds_shortest_witness :
  exists a p d,
    AlgorithmSelector.select example_graph "auto" = Ok a
    /\ (a = UseBellmanFord <-> Graph.has_negative_weights example_graph = true)
    /\ algorithm_compute64 a example_graph "A" "B" = Some (Ok64 (p, Double.of_Z d))
    /\ shortest (Graph.edges example_graph) "A" "B" d.
Proof.
  refine (auto_selection_finds_shortest example_graph "A" "B" (from_edge_list_wf _) _ _ _
            example_graph_no_negative_cycle _).
  - apply sums_exact_check. vm_compute. reflexivity.
  - apply (proj1 (bool_decide_eq_true _)). vm_compute. reflexivity.
  - apply (proj1 (bool_decide_eq_true _)). vm_compute. reflexivity.
  - exists [("A", "B", 5)]. vm_compute. tauto.
Defined.


(** ** The validator in doubles *)

Lemma lead_le (p : positive) : (lead p <= 52)%nat.
Proof. unfold lead. pose proof (Pos2Z.is_pos (digits2_pos p)). lia. Qed.

(** A difference that is an integer below [2^53] is within the tolerance
    only if it is zero. *)
Lemma tolerance_of_Z (z : Z) :
  small z ->
  Double.ltb ResultValidator64.tolerance (Double.abs (Double.of_Z z)) = negb (z =? 0).
Proof.
  unfold small. intros Hz. destruct (signed_cases z) as [->|(s & p & -> & Hp)]; [reflexivity|].
  rewrite of_Z_signed by lia.
  replace (cond_Zopp s (Zpos p) =? 0) with false by (destruct s; reflexivity).
  unfold Double.ltb, Double.abs, SFltb, ResultValidator64.tolerance. cbn [SFabs SFcompare negb].
  pose proof (lead_le p) as Hl.
  destruct (Z.compare_spec (-72) (- Z.of_nat (lead p))); [lia | reflexivity | lia].
Qed.

Lemma actual_cost_cons_from (g : Graph.t) (u t : string) (rest : list string) (c : Double.t) :
  ResultValidator64.actual_cost_from g (u :: t :: rest) c
  = match Graph.get (Graph.neighbors g u) t with
    | Some w =>
        match Double.add_int c w with
        | Some c' => ResultValidator64.actual_cost_from g (t :: rest) c'
        | None => Raise64 OverflowError
        end
    | None => Raise64 (Raised ValidationError)
    end.
Proof. reflexivity. Qed.

Lemma actual_cost64 (g : Graph.t) (path : list string) :
  forall acc : Z,
    Z.abs acc + Z.of_nat (length path) * max_abs_weight g < 2 ^ 53 ->
    ResultValidator64.actual_cost_from g path (Double.of_Z acc)
    = match ResultValidator.actual_cost g path with
      | Some a => Ok64 (Double.of_Z (acc + a))
      | None => Raise64 (Raised ValidationError)
      end
    /\ forall a, ResultValidator.actual_cost g path = Some a ->
                 Z.abs a <= Z.of_nat (length path) * max_abs_weight g.
Proof.
  pose proof (max_abs_weight_nonneg g) as HM.
  induction path as [|u path IH]; intros acc Hb.
  - cbn. rewrite Z.add_0_r. split; [reflexivity|]. intros a Ha. inversion Ha. simpl. lia.
  - destruct path as [|t rest].
    + cbn. rewrite Z.add_0_r. split; [reflexivity|]. intros a Ha. inversion Ha. simpl. lia.
    + rewrite actual_cost_cons_from, actual_cost_cons.
      change (length (u :: t :: rest)) with (S (length (t :: rest))) in Hb |- *.
      rewrite Nat2Z.inj_succ in Hb |- *.
      assert (Hrest : 0 <= Z.of_nat (length (t :: rest)) * max_abs_weight g) by nia.
      destruct (Graph.get (Graph.neighbors g u) t) as [w|] eqn:Hget.
      * assert (Hw : Z.abs w <= max_abs_weight g).
        { apply get_In in Hget. apply neighbors_are_edges in Hget.
          exact (max_abs_weight_ge g (u, t, w) Hget). }
        rewrite add_int_small by (unfold small; lia).
        destruct (IH (acc + w) ltac:(lia)) as [-> Hbound].
        destruct (ResultValidator.actual_cost g (t :: rest)) as [a|].
        -- cbn [option_map]. split; [do 2 f_equal; lia|].
           intros a' Ha'. inversion Ha'. specialize (Hbound a eq_refl). lia.
        -- split; [reflexivity | discriminate].
      * split; [reflexivity | discriminate].
Qed.

(** On a path whose sums stay below [2^53], the validator in doubles does
    what the exact validator does. *)
Lemma validate_path64_exact (g : Graph.t) (p : list string) (d : Z) :
  Z.of_nat (length p) * max_abs_weight g + Z.abs d < 2 ^ 53 ->
  ResultValidator64.validate_path g p (Double.of_Z d)
  = match ResultValidator.validate_path g p d with
    | Ok _ => Ok64 tt
    | Raise e => Raise64 (Raised e)
    end.
Proof.
  intros Hb. pose proof (max_abs_weight_nonneg g) as HM.
  assert (Hlen : 0 <= Z.of_nat (length p) * max_abs_weight g) by nia.
  unfold ResultValidator64.validate_path, ResultValidator.validate_path.
  destruct (length p <? 2)%nat; [reflexivity|].
  change Double.zero with (Double.of_Z 0).
  destruct (actual_cost64 g p 0 ltac:(simpl Z.abs; lia)) as [-> Hbound].
  destruct (ResultValidator.actual_cost g p) as [a|]; [|reflexivity].
  specialize (Hbound a eq_refl). rewrite Z.add_0_l.
  rewrite sub_of_Z by (unfold small; lia).
  rewrite tolerance_of_Z by (unfold small; lia).
  destruct (Z.eqb_spec a d) as [->|Hne].
  - now rewrite Z.sub_diag.
  - destruct (Z.eqb_spec (a - d) 0); [lia | reflexivity].
Qed.

(** X10. The result validator accepts a node list and a cost exactly when
    the list has at least two nodes, consecutive nodes are joined by edges
    of the graph, and the weights of those edges add up to the cost, as
    long as the cost is an integer and the sums along the list stay below
    [2^53], where double precision is exact. *)
Theorem validate_path_accepts_walks (g : Graph.t) (p : list string) (c : Z) :
  dict_graph g ->
  Z.of_nat (length p) * max_abs_weight g + Z.abs c < 2 ^ 53 ->
  ResultValidator64.validate_path g p (Double.of_Z c) = Ok64 tt
  <-> exists u q v, q <> [] /\ is_walk (Graph.edges g) u q v
                    /\ p = walk_nodes u q /\ weight q = c.
Proof.
  intros Hd Hb. rewrite (validate_path64_exact g p c Hb).
  rewrite <- (exact_validate_path_accepts_walks g p c Hd).
  destruct (ResultValidator.validate_path g p c) as [[]|e]; split; congruence.
Qed.

Lemma validate_path_accepts_walks_witness :
  ResultValidator64.validate_path diamond ["A"; "B"; "D"] (Double.of_Z 2) = Ok64 tt
  <-> exists u q v, q <> [] /\ is_walk (Graph.edges diamond) u q v
                    /\ ["A"; "B"; "D"] = walk_nodes u q /\ weight q = 2.
Proof.
  apply (validate_path_accepts_walks diamond ["A"; "B"; "D"] 2).
  - apply from_edge_list_dict.
  - vm_compute. reflexivity.
Defined.

(** Beyond that range the validator rounds: on an edge of weight
    [2^53 + 1] it accepts the cost [2^53]. *)
Lemma validator_rounds :
  ResultValidator64.validate_path (Graph.from_edge_list [("A", "B", 2 ^ 53 + 1)])
                                  ["A"; "B"] (Double.of_Z (2 ^ 53)) = Ok64 tt.
Proof. vm_compute. reflexivity. Qed.

(** ** The second Dijkstra in doubles agrees with the exact one *)

Lemma mem_map_values {V W} (f : V -> W) (d : list (string * V)) (k : string) :
  Graph.mem k (map_values f d) = Graph.mem k d.
Proof.
  unfold Graph.mem, map_values. induction d as [|[k' v] d IH]; [reflexivity|].
  cbn [map existsb fst snd]. now rewrite IH.
Qed.

Lemma get_map_values {V W} (f : V -> W) (d : list (string * V)) (k : string) :
  Graph.get (map_values f d) k = option_map f (Graph.get d k).
Proof.
  unfold map_values. induction d as [|[k' v] d IH]; [reflexivity|].
  cbn [map Graph.get fst snd]. now destruct (String.eqb k' k).
Qed.

Lemma set_map_values {V W} (f : V -> W) (d : list (string * V)) (k : string) (v : V) :
  Graph.set (map_values f d) k (f v) = map_values f (Graph.set d k v).
Proof.
  unfold map_values. induction d as [|[k' v'] d IH]; [reflexivity|].
  cbn [map Graph.set fst snd]. destruct (String.eqb k' k); [reflexivity|].
  cbn [map fst snd]. now rewrite IH.
Qed.

Lemma mem_graph64 (g : Graph.t) (k : string) : Graph.mem k (graph64 g) = Graph.mem k g.
Proof. apply mem_map_values. Qed.

Lemma get_graph64 (g : Graph.t) (k : string) :
  default [] (Graph.get (graph64 g) k) = map_values Double.of_Z (default [] (Graph.get g k)).
Proof. unfold graph64. rewrite get_map_values. now destruct (Graph.get g k). Qed.

Lemma set_graph64 (g : Graph.t) (k : string) (nb : list (string * Z)) :
  Graph.set (graph64 g) k (map_values Double.of_Z nb) = graph64 (Graph.set g k nb).
Proof. apply (set_map_values (map_values Double.of_Z)). Qed.

Lemma neighbors_graph64 (g : Graph.t) (node : string) :
  RoutingService64.neighbors (graph64 g) node = map_values Double.of_Z (Graph.neighbors g node).
Proof.
  apply get_graph64.
Qed.

Lemma add_edge_graph64 (g : Graph.t) (s t : string) (w : Z) :
  small w ->
  RoutingService64.add_edge (graph64 g) s t w = Some (graph64 (Graph.add_edge g s t w)).
Proof.
  intros Hw. unfold RoutingService64.add_edge, Graph.add_edge. cbv zeta.
  rewrite of_int_small by assumption. rewrite mem_graph64.
  assert (H1 : (if Graph.mem s g then graph64 g else Graph.set (graph64 g) s [])
               = graph64 (if Graph.mem s g then g else Graph.set g s [])).
  { destruct (Graph.mem s g); [reflexivity|]. apply (set_graph64 g s []). }
  rewrite H1. generalize (if Graph.mem s g then g else Graph.set g s []). intros g1.
  rewrite get_graph64, (set_map_values Double.of_Z), set_graph64, mem_graph64. f_equal.
  destruct (Graph.mem t _); [reflexivity|]. apply (set_graph64 _ t []).
Qed.

Lemma from_edge_list_graph64 (es : list edge) :
  (forall e, In e es -> small (wgt e)) ->
  RoutingService64.from_edge_list es = Some (graph64 (Graph.from_edge_list es)).
Proof.
  unfold RoutingService64.from_edge_list, Graph.from_edge_list.
  change (@nil (string * list (string * Double.t))) with (graph64 Graph.empty).
  generalize Graph.empty. induction es as [|e es IH]; intros g Hs; [reflexivity|].
  cbn [fold_left_opt fold_left].
  rewrite add_edge_graph64 by (apply (Hs e); now left).
  apply IH. intros e' He'. apply Hs. now right.
Qed.

Lemma has_negative_weight_graph64 (g : Graph.t) :
  (forall e, In e (Graph.edges g) -> small (wgt e)) ->
  RoutingService64.has_negative_weight (graph64 g) = RoutingService.has_negative_weight g.
Proof.
  unfold RoutingService64.has_negative_weight, RoutingService.has_negative_weight, graph64,
    Graph.edges.
  induction g as [|[s nb] g IH]; intros Hs; [reflexivity|].
  cbn [map_values map existsb fst snd]. f_equal.
  - assert (Hnb : forall tw, In tw nb -> small (snd tw)).
    { intros tw Hin. apply (Hs (s, fst tw, snd tw)). cbn [flat_map fst snd].
      apply in_app_iff. left. apply in_map_iff. exists tw. now destruct tw. }
    clear -Hnb. induction nb as [|[t w] nb IHnb]; [reflexivity|].
    cbn [map_values map existsb fst snd]. f_equal.
    + change Double.zero with (Double.of_Z 0).
      apply ltb_of_Z; [apply (Hnb (t, w)); now left | unfold small; simpl; lia].
    + apply IHnb. intros tw Hin. apply Hnb. now right.
  - apply IH. intros e He. apply Hs. cbn [flat_map]. apply in_app_iff. now right.
Qed.

Lemma edge_count_graph64 (g : Graph.t) :
  length (flat_map snd (graph64 g)) = length (Graph.edges g).
Proof.
  unfold graph64, Graph.edges, map_values. induction g as [|[s nb] g IH]; [reflexivity|].
  cbn [map flat_map fst snd]. rewrite !length_app, !length_map. now rewrite IH.
Qed.

Section ExactSecondDijkstra.

Variable M : Z.
Hypothesis HM : 0 <= M.

Lemma second_relax_neighbor64 (B : Z) (node : string) (cost : Z)
      (st : Dijkstra.dist_map * Dijkstra.prev_map * Dijkstra.heap) (nw : string * Z) :
  Z.abs cost <= B -> dijkstra_within (B + M) (fst (fst st)) (snd st) ->
  Z.abs (snd nw) <= M -> B + M < 2 ^ 53 ->
  RoutingService64.relax_neighbor node (Double.of_Z cost) (dijkstra_state64 st)
                                  (fst nw, Double.of_Z (snd nw))
  = dijkstra_state64 (RoutingService.relax_neighbor node cost st nw)
  /\ dijkstra_within (B + M) (fst (fst (RoutingService.relax_neighbor node cost st nw)))
                     (snd (RoutingService.relax_neighbor node cost st nw)).
Proof.
  destruct st as [[dist prev] h], nw as [nb w]. cbn [fst snd].
  intros Hc [Hd Hh] Hw Hb.
  unfold RoutingService64.relax_neighbor, RoutingService.relax_neighbor, dijkstra_state64.
  cbn [fst snd].
  rewrite add_of_Z by (unfold small; lia).
  rewrite lookup_fmap.
  assert (Hlt : Double.ltb (Double.of_Z (cost + w))
                           (default Double.inf (Double.of_Z <$> dist !! nb))
                = match dist !! nb with Some d => cost + w <? d | None => true end).
  { destruct (dist !! nb) as [d|] eqn:Hnb; cbn [fmap option_fmap option_map default].
    - specialize (Hd nb d Hnb). apply ltb_of_Z; unfold small; lia.
    - apply ltb_of_Z_inf. unfold small. lia. }
  rewrite Hlt.
  destruct (match dist !! nb with Some d => cost + w <? d | None => true end);
    cbn [fst snd].
  - split.
    + now rewrite fmap_insert.
    + split.
      * intros v d Hv. destruct (decide (v = nb)) as [->|Hne].
        -- rewrite lookup_insert_eq in Hv. inversion Hv. lia.
        -- rewrite lookup_insert_ne in Hv by congruence. eauto.
      * intros c x [Heq|Hin]; [inversion Heq; lia | eauto].
  - split; [reflexivity | now split].
Qed.

Lemma second_relax_neighbors64 (B : Z) (node : string) (cost : Z) (nbs : list (string * Z)) :
  Z.abs cost <= B -> (forall nw, In nw nbs -> Z.abs (snd nw) <= M) -> B + M < 2 ^ 53 ->
  forall st,
    dijkstra_within (B + M) (fst (fst st)) (snd st) ->
    fold_left (RoutingService64.relax_neighbor node (Double.of_Z cost))
              (map_values Double.of_Z nbs) (dijkstra_state64 st)
    = dijkstra_state64 (fold_left (RoutingService.relax_neighbor node cost) nbs st)
    /\ dijkstra_within (B + M)
         (fst (fst (fold_left (RoutingService.relax_neighbor node cost) nbs st)))
         (snd (fold_left (RoutingService.relax_neighbor node cost) nbs st)).
Proof.
  intros Hc Hw Hb. induction nbs as [|nw nbs IH]; intros st Hst.
  - split; [reflexivity | assumption].
  - cbn [map_values map fold_left].
    destruct (second_relax_neighbor64 B node cost st nw Hc Hst (Hw nw (or_introl eq_refl)) Hb)
      as [-> Hst'].
    apply IH; [|assumption]. intros nw' Hin. apply Hw. now right.
Qed.

Lemma second_loop64 (g : Graph.t) (goal : string) :
  (forall e, In e (Graph.edges g) -> Z.abs (wgt e) <= M) ->
  forall (fuel : nat) (B : Z) dist prev h visited,
    0 <= B -> dijkstra_within B dist h ->
    B + Z.of_nat fuel * M < 2 ^ 53 ->
    RoutingService64.loop fuel (graph64 g) goal (Double.of_Z <$> dist) prev (heap64 h) visited
    = option_map second_in_double (RoutingService.loop fuel g goal dist prev h visited).
Proof.
  intros Hwt. induction fuel as [|fuel IH]; intros B dist prev h visited HB [Hd Hh] Hb;
    [reflexivity|].
  rewrite Nat2Z.inj_succ in Hb.
  assert (Hfuel : 0 <= Z.of_nat fuel * M) by nia.
  cbn [RoutingService64.loop RoutingService.loop].
  rewrite heappop64 by (intros [c x] Hin; specialize (Hh c x Hin); unfold small; cbn; lia).
  destruct (Dijkstra.heappop h) as [[[cost node] h']|] eqn:Hpop; [|reflexivity].
  cbn [option_map fst snd entry64].
  apply heappop_some in Hpop as (Hin & _ & _ & Hsub & _).
  assert (Hh' : forall c x, In (c, x) h' -> Z.abs c <= B) by (intros c x Hc; eauto).
  case_bool_decide.
  - apply (IH B); [assumption | now split | lia].
  - destruct (String.eqb node goal).
    + replace (length (graph64 g)) with (length (Graph.nodes g))
        by (unfold graph64, map_values, Graph.nodes; now rewrite !length_map).
      destruct (BellmanFord._reconstruct_path _ prev goal); reflexivity.
    + rewrite lookup_fmap.
      assert (Hgt : Double.ltb (default Double.inf (Double.of_Z <$> dist !! node))
                               (Double.of_Z cost)
                    = match dist !! node with Some d => d <? cost | None => false end).
      { pose proof (Hh cost node Hin) as Hc.
        destruct (dist !! node) as [d|] eqn:Hn; cbn [fmap option_fmap option_map default].
        - specialize (Hd node d Hn). apply ltb_of_Z; unfold small; lia.
        - apply ltb_inf. }
      rewrite Hgt.
      destruct (match dist !! node with Some d => d <? cost | None => false end).
      * apply (IH B); [assumption | now split | lia].
      * rewrite neighbors_graph64.
        destruct (second_relax_neighbors64 B node cost (Graph.neighbors g node)
                    (Hh cost node Hin)
                    (fun nw Hnw => Hwt (node, fst nw, snd nw)
                                       (neighbors_are_edges g node (fst nw) (snd nw)
                                          ltac:(now destruct nw)))
                    ltac:(lia) (dist, prev, h')) as [Hfold Hst'].
        { split; cbn [fst snd]; intros; [specialize (Hd _ _ H0) | specialize (Hh' _ _ H0)];
            lia. }
        change (dijkstra_state64 (dist, prev, h'))
          with (Double.of_Z <$> dist, prev, heap64 h') in Hfold.
        rewrite Hfold.
        destruct (fold_left (RoutingService.relax_neighbor node cost) (Graph.neighbors g node)
                            (dist, prev, h')) as [[dist' prev'] h''].
        cbn [dijkstra_state64 fst snd] in *.
        apply (IH (B + M)); [lia | assumption | lia].
Qed.

End ExactSecondDijkstra.

Lemma sums_exact_small (g : Graph.t) (e : edge) :
  sums_exact g -> In e (Graph.edges g) -> small (wgt e).
Proof.
  intros Hex Hin. pose proof (max_abs_weight_ge g e Hin) as Hle.
  pose proof (max_abs_weight_nonneg g) as HM.
  unfold sums_exact in Hex. unfold small.
  assert (max_abs_weight g
          <= (Z.of_nat (length (Graph.nodes g)) + 1)
             * (Z.of_nat (length (Graph.edges g)) + 2) * max_abs_weight g) by nia.
  lia.
Qed.

Lemma second_dijkstra64_exact (g : Graph.t) (start goal : string) :
  sums_exact g ->
  RoutingService64.dijkstra_shortest_path (graph64 g) start goal
  = option_map second_in_double (RoutingService.dijkstra_shortest_path g start goal).
Proof.
  intros Hex. destruct (sums_exact_bounds g Hex) as (_ & _ & H3).
  pose proof (max_abs_weight_nonneg g) as HM.
  unfold RoutingService64.dijkstra_shortest_path, RoutingService.dijkstra_shortest_path.
  rewrite has_negative_weight_graph64 by (intros e He; now apply (sums_exact_small g)).
  destruct (RoutingService.has_negative_weight g); [reflexivity|].
  rewrite edge_count_graph64.
  change [(Double.zero, start)] with (heap64 [(0, start)]).
  replace ({[start := Double.zero]} : Dijkstra64.dist_map)
    with (Double.of_Z <$> ({[start := 0]} : Dijkstra.dist_map))
    by (now rewrite map_fmap_singleton).
  apply (second_loop64 (max_abs_weight g) HM g goal
           (fun e He => max_abs_weight_ge g e He) _ 0); [lia | |].
  - split.
    + intros v d Hv. apply lookup_singleton_Some in Hv as [_ <-]. simpl. lia.
    + intros c x [Heq|[]]. inversion Heq. simpl. lia.
  - replace (Z.of_nat (2 + length (Graph.edges g)))
      with (Z.of_nat (length (Graph.edges g)) + 2) by lia. lia.
Qed.

(** X29. The second Dijkstra, [routing_service.dijkstra_shortest_path], run
    in double precision on the graph [Graph.from_edge_list] builds from a
    list of integer-weighted edges (each weight stored as [float(weight)]).
    When every listed weight is below [2^53] in absolute value, the built
    graph has no negative weight, and (nodes + 1) * (edges + 2) * (largest
    absolute weight) stays below [2^53], then for [start] and [goal] in the
    graph: the graph is built without error; if [goal] can be reached the
    function returns a path along the edges from [start] to [goal] with
    its cost, which is the least weight of any walk between them; and if
    it cannot, the function raises [LookupError]. *)
Theorem second_dijkstra_correct (edge_list : list edge) (start goal : string) :
  let g := Graph.from_edge_list edge_list in
  (forall e, In e edge_list -> small (wgt e)) ->
  Graph.has_negative_weights g = false -> sums_exact g ->
  start ∈ Graph.nodes g -> goal ∈ Graph.nodes g ->
  exists g64,
    RoutingService64.from_edge_list edge_list = Some g64
    /\ (reachable (Graph.edges g) start goal ->
        exists p d q,
          RoutingService64.dijkstra_shortest_path g64 start goal
          = Some (inl (p, Double.of_Z d))
          /\ is_walk (Graph.edges g) start q goal /\ p = walk_nodes start q /\ weight q = d
          /\ forall q', is_walk (Graph.edges g) start q' goal -> d <= weight q')
    /\ (~ reachable (Graph.edges g) start goal ->
        RoutingService64.dijkstra_shortest_path g64 start goal
        = Some (inr RoutingService.LookupError_no_path)).
Proof.
  intros g Hsmall Hneg Hex Hs Hg. exists (graph64 g).
  split; [now apply from_edge_list_graph64|].
  rewrite (second_dijkstra64_exact g start goal Hex).
  destruct (exact_second_dijkstra_correct g start goal (from_edge_list_wf edge_list)
              Hneg Hs Hg) as [Hyes Hno].
  split.
  - intros Hreach. destruct (Hyes Hreach) as (p & d & q & Hrun & Hrest).
    exists p, d, q. now rewrite Hrun.
  - intros Hnone. now rewrite (Hno Hnone).
Qed.

Lemma second_dijkstra_correct_witness :
  exists g64 p d q,
    RoutingService64.from_edge_list diamond_edges = Some g64
    /\ RoutingService64.dijkstra_shortest_path g64 "A" "D" = Some (inl (p, Double.of_Z d))
    /\ is_walk (Graph.edges diamond) "A" q "D" /\ p = walk_nodes "A" q /\ weight q = d.
Proof.
  destruct (second_dijkstra_correct diamond_edges "A" "D") as (g64 & Hg & Hyes & _).
  - intros e He. vm_compute in He.
    repeat (destruct He as [<-|He]; [vm_compute; reflexivity|]). destruct He.
  - reflexivity.
  - apply sums_exact_check. vm_compute. reflexivity.
  - apply list_elem_of_In. vm_compute. tauto.
  - apply list_elem_of_In. vm_compute. tauto.
  - destruct Hyes as (p & d & q & Hrun & Hq & Hp & Hw & _).
    + exists [("A", "B", 1); ("B", "D", 1)]. vm_compute. tauto.
    + exists g64, p, d, q. auto.
Defined.

(** ** [_has_negative_cycle] in doubles agrees with the exact one *)

Section ExactNegativeCycleCheck.

Variable M : Z.
Hypothesis HM : 0 <= M.
Variable g : RoutingV2.Graph.
Hypothesis Hwt : forall u vw, In vw (RoutingV2.neighbors g u) -> Z.abs (snd vw) <= M.

Lemma v2_at64 (dist : gmap string ext) (k : string) :
  RoutingV2_64.at_ (dist64 dist) k = ext_to_double (RoutingV2.at_ dist k).
Proof. apply at_dist64. Qed.

Lemma v2_sum64 (B : Z) (dist : gmap string ext) (u : string) (w : Z) :
  0 <= B -> within B dist -> Z.abs w <= M -> B + M < 2 ^ 53 ->
  Double.add_int (RoutingV2_64.at_ (dist64 dist) u) w
  = Some (ext_to_double (ext_add (RoutingV2.at_ dist u) w)).
Proof. intros HB Hw Hwt' Hb. now apply (add_int_ext M HM B). Qed.

Lemma v2_less64 (B : Z) (dist : gmap string ext) (u v : string) (w : Z) :
  0 <= B -> within B dist -> Z.abs w <= M -> B + M < 2 ^ 53 ->
  Double.ltb (ext_to_double (ext_add (RoutingV2.at_ dist u) w))
             (RoutingV2_64.at_ (dist64 dist) v)
  = ext_ltb (ext_add (RoutingV2.at_ dist u) w) (RoutingV2.at_ dist v).
Proof.
  intros HB Hw Hwt' Hb. rewrite v2_at64. apply ltb_ext.
  - intros a Ha. pose proof (small_sum M HM B dist u w a Hw Hwt' Hb Ha). unfold small. lia.
  - intros b. apply (small_at B); [assumption | lia].
Qed.

Lemma v2_relax_one64 (B : Z) (dist : gmap string ext) (u : string) (vw : string * Z) :
  0 <= B -> within B dist -> Z.abs (snd vw) <= M -> B + M < 2 ^ 53 ->
  let dist' := if ext_ltb (ext_add (RoutingV2.at_ dist u) (snd vw))
                          (RoutingV2.at_ dist (fst vw))
               then <[fst vw := ext_add (RoutingV2.at_ dist u) (snd vw)]> dist else dist in
  RoutingV2_64.relax_one u (dist64 dist) vw = Some (dist64 dist')
  /\ within (B + M) dist'.
Proof.
  intros HB Hw Hwt' Hb dist'. subst dist'. unfold RoutingV2_64.relax_one.
  rewrite (v2_sum64 B), (v2_less64 B) by assumption.
  destruct (ext_ltb _ _).
  - split; [unfold dist64; now rewrite fmap_insert|].
    intros v d Hv. destruct (decide (v = fst vw)) as [->|Hne].
    + rewrite lookup_insert_eq in Hv. inversion Hv as [Hsum].
      exact (small_sum M HM B dist u (snd vw) d Hw Hwt' Hb Hsum).
    + rewrite lookup_insert_ne in Hv by congruence. specialize (Hw v d Hv). lia.
  - split; [reflexivity|]. apply (within_mono B); [lia | assumption].
Qed.

Lemma v2_relax_fold64 (u : string) (nbs : list (string * Z)) :
  (forall vw, In vw nbs -> Z.abs (snd vw) <= M) ->
  forall (B : Z) (dist : gmap string ext),
    0 <= B -> within B dist -> B + Z.of_nat (length nbs) * M < 2 ^ 53 ->
    let dist' := fold_left
                   (fun d vw =>
                      if ext_ltb (ext_add (RoutingV2.at_ d u) (snd vw))
                                 (RoutingV2.at_ d (fst vw))
                      then <[fst vw := ext_add (RoutingV2.at_ d u) (snd vw)]> d else d)
                   nbs dist in
    fold_left_opt (RoutingV2_64.relax_one u) nbs (dist64 dist) = Some (dist64 dist')
    /\ within (B + Z.of_nat (length nbs) * M) dist'.
Proof.
  induction nbs as [|vw nbs IH]; intros Hnbs B dist HB Hw Hb.
  - cbn [fold_left fold_left_opt length]. split; [reflexivity|].
    apply (within_mono B); [simpl; lia | assumption].
  - cbn [length] in Hb |- *. rewrite Nat2Z.inj_succ in Hb |- *.
    assert (Hrest : 0 <= Z.of_nat (length nbs) * M) by nia.
    cbn [fold_left fold_left_opt].
    destruct (v2_relax_one64 B dist u vw HB Hw (Hnbs vw (or_introl eq_refl)) ltac:(lia))
      as [-> Hw'].
    destruct (IH (fun vw' Hin => Hnbs vw' (or_intror Hin)) (B + M) _ ltac:(lia) Hw' ltac:(lia))
      as [-> Hw''].
    split; [reflexivity|]. apply (within_mono (B + M + Z.of_nat (length nbs) * M)); [lia|].
    exact Hw''.
Qed.

Lemma v2_relax_from64 (B : Z) (dist : gmap string ext) (u : string) :
  0 <= B -> within B dist ->
  B + Z.of_nat (length (RoutingV2.neighbors g u)) * M < 2 ^ 53 ->
  RoutingV2_64.relax_from g (dist64 dist) u = Some (dist64 (RoutingV2.relax_from g dist u))
  /\ within (B + Z.of_nat (length (RoutingV2.neighbors g u)) * M)
            (RoutingV2.relax_from g dist u).
Proof.
  intros HB Hw Hb. unfold RoutingV2_64.relax_from, RoutingV2.relax_from.
  assert (Hrest : 0 <= Z.of_nat (length (RoutingV2.neighbors g u)) * M) by nia.
  rewrite v2_at64. destruct (RoutingV2.at_ dist u) as [a|] eqn:Hu; cbn [ext_to_double].
  - rewrite eqb_of_Z_inf by (apply (small_at B dist u); [assumption | lia | assumption]).
    apply (v2_relax_fold64 u _ (Hwt u) B dist HB Hw Hb).
  - change (Double.eqb Double.inf Double.inf) with true. cbv iota.
    split; [reflexivity|]. apply (within_mono B); [lia | assumption].
Qed.

Lemma v2_pass64 (ns : list string) :
  forall (B : Z) (dist : gmap string ext),
    0 <= B -> within B dist -> B + Z.of_nat (pairs_of g ns) * M < 2 ^ 53 ->
    fold_left_opt (RoutingV2_64.relax_from g) ns (dist64 dist)
    = Some (dist64 (fold_left (RoutingV2.relax_from g) ns dist))
    /\ within (B + Z.of_nat (pairs_of g ns) * M) (fold_left (RoutingV2.relax_from g) ns dist).
Proof.
  unfold pairs_of. induction ns as [|u ns IH]; intros B dist HB Hw Hb.
  - cbn [fold_left fold_left_opt flat_map length]. split; [reflexivity|].
    apply (within_mono B); [simpl; lia | assumption].
  - cbn [flat_map] in Hb |- *.
    rewrite length_app, Nat2Z.inj_add, Z.mul_add_distr_r in Hb |- *.
    assert (H1 : 0 <= Z.of_nat (length (RoutingV2.neighbors g u)) * M) by nia.
    assert (H2 : 0 <= Z.of_nat (length (flat_map (RoutingV2.neighbors g) ns)) * M) by nia.
    cbn [fold_left fold_left_opt].
    destruct (v2_relax_from64 B dist u HB Hw ltac:(lia)) as [-> Hw'].
    destruct (IH (B + Z.of_nat (length (RoutingV2.neighbors g u)) * M) _ ltac:(lia) Hw'
                 ltac:(lia)) as [-> Hw''].
    split; [reflexivity|]. eapply within_mono; [|exact Hw'']. lia.
Qed.

Lemma v2_passes64 (ns : list string) (k : nat) :
  forall (B : Z) (dist : gmap string ext),
    0 <= B -> within B dist -> B + Z.of_nat k * (Z.of_nat (pairs_of g ns) * M) < 2 ^ 53 ->
    iter_opt k (fun d => fold_left_opt (RoutingV2_64.relax_from g) ns d) (dist64 dist)
    = Some (dist64 (Nat.iter k (fun d => fold_left (RoutingV2.relax_from g) ns d) dist))
    /\ within (B + Z.of_nat k * (Z.of_nat (pairs_of g ns) * M))
              (Nat.iter k (fun d => fold_left (RoutingV2.relax_from g) ns d) dist).
Proof.
  assert (HT : 0 <= Z.of_nat (pairs_of g ns) * M) by nia.
  induction k as [|k IH]; intros B dist HB Hw Hb.
  - cbn [iter_opt Nat.iter]. split; [reflexivity|].
    apply (within_mono B); [simpl; lia | assumption].
  - rewrite Nat2Z.inj_succ in Hb |- *.
    assert (Hk : 0 <= Z.of_nat k * (Z.of_nat (pairs_of g ns) * M)) by nia.
    cbn [iter_opt Nat.iter].
    destruct (IH B dist HB Hw ltac:(lia)) as [-> Hw'].
    destruct (v2_pass64 ns (B + Z.of_nat k * (Z.of_nat (pairs_of g ns) * M)) _ ltac:(lia) Hw'
                        ltac:(lia)) as [-> Hw''].
    split; [reflexivity|]. eapply within_mono; [|exact Hw'']. lia.
Qed.

Lemma v2_scan_neighbors64 (B : Z) (dist : gmap string ext) (u : string)
      (nbs : list (string * Z)) :
  0 <= B -> within B dist -> (forall vw, In vw nbs -> Z.abs (snd vw) <= M) ->
  B + M < 2 ^ 53 ->
  RoutingV2_64.scan_neighbors (dist64 dist) u nbs
  = Some (existsb (fun vw => ext_ltb (ext_add (RoutingV2.at_ dist u) (snd vw))
                                     (RoutingV2.at_ dist (fst vw))) nbs).
Proof.
  intros HB Hw Hnbs Hb. induction nbs as [|vw nbs IH]; [reflexivity|].
  cbn [RoutingV2_64.scan_neighbors existsb].
  rewrite (v2_sum64 B), (v2_less64 B) by auto using in_eq.
  destruct (ext_ltb _ _); [reflexivity|]. apply IH. auto using in_cons.
Qed.

Lemma v2_scan64 (B : Z) (dist : gmap string ext) (ns : list string) :
  0 <= B -> within B dist -> B + M < 2 ^ 53 ->
  RoutingV2_64.scan g (dist64 dist) ns
  = Some (existsb (fun u =>
                     match RoutingV2.at_ dist u with
                     | Inf => false
                     | Fin _ =>
                         existsb (fun vw => ext_ltb (ext_add (RoutingV2.at_ dist u) (snd vw))
                                                    (RoutingV2.at_ dist (fst vw)))
                                 (RoutingV2.neighbors g u)
                     end) ns).
Proof.
  intros HB Hw Hb. induction ns as [|u ns IH]; [reflexivity|].
  cbn [RoutingV2_64.scan existsb]. rewrite v2_at64.
  destruct (RoutingV2.at_ dist u) as [a|] eqn:Hu; cbn [ext_to_double].
  - rewrite eqb_of_Z_inf by (apply (small_at B dist u); [assumption | lia | assumption]).
    rewrite (v2_scan_neighbors64 B dist u _ HB Hw (Hwt u) Hb). rewrite Hu.
    destruct (existsb _ (RoutingV2.neighbors g u)); [reflexivity | exact IH].
  - change (Double.eqb Double.inf Double.inf) with true. cbv iota. exact IH.
Qed.

End ExactNegativeCycleCheck.

Lemma v2_init64 (ns : list string) :
  dist64 (fold_right (fun n d => <[n := Inf]> d) ∅ ns)
  = fold_right (fun n d => <[n := Double.inf]> d) ∅ ns.
Proof.
  unfold dist64. induction ns as [|n ns IH]; cbn [fold_right].
  - apply fmap_empty.
  - now rewrite fmap_insert, IH.
Qed.

Lemma v2_init_within (ns : list string) (first : string) :
  within 0 (<[first := Fin 0]> (fold_right (fun n d => <[n := Inf]> d) ∅ ns)).
Proof.
  intros v d Hv. destruct (decide (v = first)) as [->|Hne].
  - rewrite lookup_insert_eq in Hv. inversion Hv. simpl. lia.
  - rewrite lookup_insert_ne in Hv by congruence. exfalso. clear -Hv.
    induction ns as [|n ns IH]; cbn [fold_right] in Hv.
    + now rewrite lookup_empty in Hv.
    + destruct (decide (v = n)) as [->|Hn].
      * rewrite lookup_insert_eq in Hv. discriminate.
      * rewrite lookup_insert_ne in Hv by congruence. auto.
Qed.

Lemma neighbors_count (full adj : Graph.t) :
  (forall sn, In sn adj -> Graph.get full (fst sn) = Some (snd sn)) ->
  length (flat_map (fun node => default [] (Graph.get full node)) (map fst adj))
  = length (Graph.edges adj).
Proof.
  unfold Graph.edges. induction adj as [|[s nb] adj IH]; intros Hall; [reflexivity|].
  cbn [map flat_map fst snd]. rewrite !length_app, length_map.
  pose proof (Hall (s, nb) (or_introl eq_refl)) as Hs. cbn [fst snd] in Hs.
  rewrite Hs. cbn [default]. f_equal.
  apply IH. intros sn Hin. apply Hall. now right.
Qed.

Lemma pairs_of_nodes (g : RoutingV2.Graph) :
  NoDup (RoutingV2.nodes g) ->
  pairs_of g (RoutingV2.nodes g) = length (Graph.edges (RoutingV2._adj g)).
Proof.
  intros Hnd. apply neighbors_count. intros [s nb] Hin. now apply In_get.
Qed.

(** On a graph whose sums stay below [2^53], the check in doubles answers
    what the exact check answers. *)
Lemma v2_has_negative_cycle64 (g : RoutingV2.Graph) :
  NoDup (RoutingV2.nodes g) -> sums_exact (RoutingV2._adj g) ->
  RoutingV2_64._has_negative_cycle g = Some (RoutingV2._has_negative_cycle g).
Proof.
  intros Hnd Hex.
  pose proof (max_abs_weight_nonneg (RoutingV2._adj g)) as HM.
  pose proof (pairs_of_nodes g Hnd) as HT.
  unfold sums_exact in Hex. change (Graph.nodes (RoutingV2._adj g)) with (RoutingV2.nodes g) in Hex.
  rewrite <- HT in Hex. clear HT.
  assert (Hwt : forall u vw, In vw (RoutingV2.neighbors g u)
                             -> Z.abs (snd vw) <= max_abs_weight (RoutingV2._adj g)).
  { intros u [v w] Hin.
    exact (max_abs_weight_ge _ (u, v, w) (neighbors_are_edges (RoutingV2._adj g) u v w Hin)). }
  unfold RoutingV2_64._has_negative_cycle, RoutingV2._has_negative_cycle.
  destruct (RoutingV2.nodes g) as [|first rest] eqn:Hns; [reflexivity|]. cbv zeta.
  set (ns := first :: rest) in *.
  set (M := max_abs_weight (RoutingV2._adj g)) in *.
  set (T := Z.of_nat (pairs_of g ns)) in *.
  assert (HT : 0 <= T) by (subst T; lia).
  assert (Hn : 1 <= Z.of_nat (length ns)) by (subst ns; cbn [length]; lia).
  assert (Hk : Z.of_nat (length ns - 1) = Z.of_nat (length ns) - 1) by lia.
  assert (Hb1 : 0 <= Z.of_nat (length ns - 1) * (T * M)) by nia.
  assert (Hb2 : Z.of_nat (length ns - 1) * (T * M) + M < 2 ^ 53).
  { rewrite Hk. revert Hex. generalize (Z.of_nat (length ns)) Hn. intros n Hn' Hex. nia. }
  replace (<[first := Double.zero]> (fold_right (fun n d => <[n := Double.inf]> d) ∅ ns))
    with (dist64 (<[first := Fin 0]> (fold_right (fun n d => <[n := Inf]> d) ∅ ns)))
    by (rewrite <- v2_init64; unfold dist64; now rewrite fmap_insert).
  destruct (v2_passes64 M HM g Hwt ns (length ns - 1) 0 _ ltac:(lia) (v2_init_within ns first)
              ltac:(fold T; lia)) as [-> Hw].
  fold T in Hw. rewrite Z.add_0_l in Hw.
  apply (v2_scan64 M HM g Hwt (Z.of_nat (length ns - 1) * (T * M))); assumption.
Qed.

(** X27. [_has_negative_cycle], run in double precision, looks from the
    first node of the graph only. On a graph whose integer weights keep
    (nodes + 1) * (edges + 2) * (largest absolute weight) below [2^53], it
    answers [True] when a cycle of negative total weight can be reached
    from the first node and [False] when none can, so a negative cycle out
    of reach of the first node goes unreported. *)
Theorem v2_negative_cycle_from_first_node (edge_list : list RoutingV2.Edge)
        (first : string) (rest : list string) :
  let g := RoutingV2.make edge_list in
  RoutingV2.nodes g = first :: rest -> sums_exact (RoutingV2._adj g) ->
  (negative_cycle_reachable (Graph.edges (RoutingV2._adj g)) first ->
   RoutingV2_64._has_negative_cycle g = Some true)
  /\ (~ negative_cycle_reachable (Graph.edges (RoutingV2._adj g)) first ->
      RoutingV2_64._has_negative_cycle g = Some false).
Proof.
  intros g Hns Hex.
  assert (Hwf : wf_graph (RoutingV2._adj g)).
  { unfold g, RoutingV2.make. cbn [RoutingV2._adj]. rewrite v2_adjacency.
    apply from_edge_list_wf. }
  rewrite (v2_has_negative_cycle64 g (proj1 Hwf) Hex).
  destruct (exact_v2_negative_cycle_from_first_node edge_list first rest Hns) as [Hyes Hno].
  split; intros H; f_equal; auto.
Qed.

Lemma v2_negative_cycle_from_first_node_witness :
  let g := RoutingV2.make
             [ {| RoutingV2.source := Some "A"; RoutingV2.target := Some "B";
                  RoutingV2.weight := Some 1 |};
               {| RoutingV2.source := Some "C"; RoutingV2.target := Some "D";
                  RoutingV2.weight := Some (-1) |};
               {| RoutingV2.source := Some "D"; RoutingV2.target := Some "C";
                  RoutingV2.weight := Some (-1) |} ] in
  (negative_cycle_reachable (Graph.edges (RoutingV2._adj g)) "A" ->
   RoutingV2_64._has_negative_cycle g = Some true)
  /\ (~ negative_cycle_reachable (Graph.edges (RoutingV2._adj g)) "A" ->
      RoutingV2_64._has_negative_cycle g = Some false).
Proof.
  apply (v2_negative_cycle_from_first_node
           [ {| RoutingV2.source := Some "A"; RoutingV2.target := Some "B";
                RoutingV2.weight := Some 1 |};
             {| RoutingV2.source := Some "C"; RoutingV2.target := Some "D";
                RoutingV2.weight := Some (-1) |};
             {| RoutingV2.source := Some "D"; RoutingV2.target := Some "C";
                RoutingV2.weight := Some (-1) |} ] "A" ["B"; "C"; "D"]).
  - reflexivity.
  - apply sums_exact_check. vm_compute. reflexivity.
Defined.

(** ** A successful answer, in the arithmetic of the code *)

Lemma handle_exception64_not_success (request : RouteRequest) (e : raised64) :
  RoutingEngine64.status (RoutingEngine64.handle_exception request e) <> "success".
Proof. destruct e as [[]| |]; simpl; discriminate. Qed.

Lemma with_timeout64_ok {W A} (alarm_fires : Z -> W -> bool) (timeout_ms : Z) (w : W)
      (body : option (result64 A)) (a : A) :
  RoutingEngine64.with_timeout alarm_fires timeout_ms w body = Some (Ok64 a) ->
  body = Some (Ok64 a).
Proof.
  unfold RoutingEngine64.with_timeout. destruct (timeout_ms <? 0); [discriminate|].
  destruct (timer_limit_ms <? timeout_ms); [discriminate|].
  destruct (timeout_ms =? 0); [auto|].
  destruct body as [r|]; [|discriminate].
  destruct (alarm_fires timeout_ms w); [discriminate | congruence].
Qed.

(** What a response computed afresh is made of. *)
Lemma compute_fresh64_ok {W} (alarm_fires : Z -> W -> bool) (request : RouteRequest)
      (g : Graph.t) (w : W) (response : RoutingEngine64.RouteResponse) :
  RoutingEngine64.compute_fresh alarm_fires request (Ok g) w = Some (Ok64 response) ->
  exists a p c,
    algorithm_compute64 a g (start_node request) (goal_node request) = Some (Ok64 (p, c))
    /\ RoutingEngine64.path response = Some p
    /\ RoutingEngine64.cost response = Some c
    /\ RoutingEngine64.error response = None
    /\ RoutingEngine64.status response = "success".
Proof.
  unfold RoutingEngine64.compute_fresh.
  destruct (Graph.validate_nodes_exist g _) as [[]|e]; [|discriminate].
  destruct (AlgorithmSelector.select g _) as [a|e]; [|discriminate].
  destruct (RoutingEngine64.with_timeout _ _ _ _) as [[[p c]|e]|] eqn:Hrun; try discriminate.
  apply with_timeout64_ok in Hrun. cbn [fst snd].
  destruct (if validate_result request then _ else _) as [[]|e]; [|discriminate].
  intros H. inversion H. exists a, p, c. cbn. auto.
Qed.

(** X21. A successful answer is a shortest path of the graph that was
    loaded. When the steps of [compute_route] after a cache miss (node
    check, algorithm selection, timed computation, validation of the
    result), run in double precision on a graph built by [add_edge] whose
    integer weights keep (nodes + 1) * (edges + 2) * (largest absolute
    weight) below [2^53], end in a response with status ["success"], the
    path in the response is the node sequence of a walk from the start
    node to the goal node of the request, the cost is the weight of that
    walk, and no walk between the two nodes weighs less. *)
Theorem successful_response_is_shortest_path
        (W : Type) (alarm_fires : Z -> W -> bool)
        (request : RouteRequest) (g : Graph.t) (w : W)
        (response : RoutingEngine64.RouteResponse) :
  wf_graph g -> sums_exact g ->
  RoutingEngine64.answer alarm_fires request (Ok g) w = Some response ->
  RoutingEngine64.status response = "success" ->
  exists q,
    is_walk (Graph.edges g) (start_node request) q (goal_node request)
    /\ RoutingEngine64.path response = Some (walk_nodes (start_node request) q)
    /\ RoutingEngine64.cost response = Some (Double.of_Z (weight q))
    /\ RoutingEngine64.error response = None
    /\ forall q', is_walk (Graph.edges g) (start_node request) q' (goal_node request) ->
                  weight q <= weight q'.
Proof.
  intros Hwf Hex. unfold RoutingEngine64.answer.
  destruct (RoutingEngine64.compute_fresh _ _ _ _) as [[fresh|e]|] eqn:Hfresh;
    [| |discriminate].
  2:{ intros H Hok. inversion H; subst response.
      now apply handle_exception64_not_success in Hok. }
  intros H _. inversion H; subst fresh.
  apply compute_fresh64_ok in Hfresh as (a & p & c & Hrun & -> & -> & -> & _).
  assert (Hwalk : exists q d, c = Double.of_Z d
                    /\ is_walk (Graph.edges g) (start_node request) q (goal_node request)
                    /\ p = walk_nodes (start_node request) q /\ weight q = d
                    /\ forall q', is_walk (Graph.edges g) (start_node request) q'
                                          (goal_node request) -> d <= weight q').
  { destruct a; cbn [algorithm_compute64] in Hrun.
    - rewrite dijkstra64_exact in Hrun by assumption.
      apply run64_ok in Hrun as (d & Hrun & ->).
      destruct (dijkstra_returns_walk g _ _ p d Hwf Hrun) as (q & H1 & H2 & H3 & _ & H5).
      eauto 8.
    - rewrite bellman_ford64_exact in Hrun by assumption.
      apply run64_ok in Hrun as (d & Hrun & ->).
      destruct (bellman_ford_returns_walk g _ _ p d Hrun) as (q & H1 & H2 & H3 & _ & H5).
      eauto 8. }
  destruct Hwalk as (q & d & -> & Hq & -> & <- & Hmin). exists q. repeat split; auto.
Qed.

Lemma successful_response_is_shortest_path_witness :
  exists response q,
    RoutingEngine64.answer (fun (_ : Z) (_ : Z) => false) request_A_D (Ok diamond) 0
    = Some response
    /\ is_walk (Graph.edges diamond) "A" q "D"
    /\ RoutingEngine64.path response = Some (walk_nodes "A" q)
    /\ RoutingEngine64.cost response = Some (Double.of_Z (weight q)).
Proof.
  destruct (RoutingEngine64.answer (fun (_ : Z) (_ : Z) => false) request_A_D (Ok diamond) 0)
    as [response|] eqn:Hanswer; [|vm_compute in Hanswer; discriminate].
  destruct (successful_response_is_shortest_path Z (fun _ _ => false) request_A_D diamond 0
              response (from_edge_list_wf _))
    as (q & Hq & Hp & Hc & _).
  - apply sums_exact_check. vm_compute. reflexivity.
  - exact Hanswer.
  - vm_compute in Hanswer. inversion Hanswer. reflexivity.
  - exists response, q. auto.
Defined.
